(** * Layered state database: history codec, node buffer, layers, journal, pruner

    A shallow embedding of the parts of the state store that the
    specification's testable properties talk about, with the properties
    proved (or refuted at a concrete input) against the embedded code.

    Conventions used throughout:
    - a Go byte slice is a [list byte]; a nil slice and an empty slice are
      both [[]] (the code below only ever asks for their length or content);
    - a fixed-width unsigned integer is an [N] with its wrap-around written
      out ([u8], [u32], [u64]);
    - a Go function returning [(value, error)] returns a [result]; a run-time
      panic is the separate outcome [Panic];
    - a Go map is a [gmap]. *)

From Stdlib Require Import NArith ZArith Lia List Sorting.Sorted.
From Stdlib Require Import Strings.Byte.
From stdpp Require Import base option list sorting gmap fin_maps.

Local Open Scope N_scope.

(** ** Outcomes of fallible code *)

Inductive result (E A : Type) : Type :=
| Ok (a : A)
| Err (e : E)
| Panic.
Arguments Ok {E A} a.
Arguments Err {E A} e.
Arguments Panic {E A}.

Global Instance result_ret {E} : MRet (result E) := fun A a => Ok a.

Global Instance result_bind {E} : MBind (result E) := fun A B k r =>
  match r with
  | Ok a => k a
  | Err e => Err e
  | Panic => Panic
  end.

Global Instance result_fmap {E} : FMap (result E) := fun A B f r =>
  match r with
  | Ok a => Ok (f a)
  | Err e => Err e
  | Panic => Panic
  end.

Definition is_ok {E A} (r : result E A) : bool :=
  match r with Ok _ => true | _ => false end.

Definition is_err {E A} (r : result E A) : bool :=
  match r with Err _ => true | _ => false end.

(** ** Machine integers and byte slices *)

Definition u8 (n : N) : N := n mod 2 ^ 8.
Definition u32 (n : N) : N := n mod 2 ^ 32.
Definition u64 (n : N) : N := n mod 2 ^ 64.

(** Bytes as keys of maps: equality is decided through the byte's value. *)
Global Instance byte_eq_dec : EqDecision byte.
Proof.
  intros x y. destruct (decide (Byte.to_N x = Byte.to_N y)) as [H|H].
  - left. apply (f_equal Byte.of_N) in H. rewrite !Byte.of_to_N in H. congruence.
  - right. congruence.
Defined.

Global Instance byte_countable : Countable byte :=
  inj_countable Byte.to_N Byte.of_N Byte.of_to_N.

(** [len s] is Go's [len(s)], a non-negative [int]. *)
Definition len {A} (s : list A) : N := N.of_nat (length s).

(** [go_slice s a b] is the slice expression [s[a:b]]: it panics (here
    [None]) unless [a <= b <= len(s)]. *)
Definition go_slice {A} (s : list A) (a b : N) : option (list A) :=
  if (a <=? b) && (b <=? len s)
  then Some (take (N.to_nat (b - a)) (drop (N.to_nat a) s))
  else None.

Definition slice_or_panic {E A} (s : list A) (a b : N) : result E (list A) :=
  match go_slice s a b with
  | Some x => Ok x
  | None => Panic
  end.

(** The byte whose value is [n mod 256]. *)
Definition byte_of_N (n : N) : byte := default x00 (Byte.of_N (n mod 256)).

(** Little-endian fixed-width integers, as [encoding/binary] lays them out. *)
Fixpoint le_bytes (w : nat) (n : N) : list byte :=
  match w with
  | O => []
  | S w' => byte_of_N n :: le_bytes w' (n / 256)
  end.

Fixpoint le_value (bs : list byte) : N :=
  match bs with
  | [] => 0
  | b :: bs' => Byte.to_N b + 256 * le_value bs'
  end.

(** Big-endian layout, used for fixed-size arrays read as numbers. *)
Definition be_bytes (w : nat) (n : N) : list byte := rev (le_bytes w n).
Definition be_value (bs : list byte) : N := le_value (rev bs).

(** [bytes_compare a b] is [bytes.Compare(a, b)]: the lexicographic order of
    two byte slices, a proper prefix being smaller. *)
Fixpoint bytes_compare (a b : list byte) : comparison :=
  match a, b with
  | [], [] => Eq
  | [], _ :: _ => Lt
  | _ :: _, [] => Gt
  | x :: a', y :: b' =>
      match Byte.to_N x ?= Byte.to_N y with
      | Eq => bytes_compare a' b'
      | c => c
      end
  end.

Definition is_gt (c : comparison) : bool := match c with Gt => true | _ => false end.
Definition is_lt (c : comparison) : bool := match c with Lt => true | _ => false end.

(** * State history (package history) *)

Module History.

(** [common.Address] and [common.Hash] are fixed-size byte arrays.  They are
    read here as big-endian numbers, so that [bytes.Compare] on two arrays
    of the same size (and [common.Address.Cmp], [common.Hash.Cmp]) is the
    numeric order and the zero value of the array type is [0]. *)
Abbreviation Address := N (only parsing).
Abbreviation Hash := N (only parsing).

Definition AddressLength : nat := 20.
Definition HashLength : nat := 32.

Definition address_ok (a : Address) : Prop := a < 2 ^ 160.
Definition hash_ok (h : Hash) : Prop := h < 2 ^ 256.

(** Modelled from the spec: the two index records of a history entry, whose
    declaration is not part of this file's source.  Section 4.3 gives the
    fields: [(address, len:u8, offset:u32, storage_offset:u32,
    storage_slots:u32)] and [(slot_hash, len:u8, offset:u32)]. *)
Record accountIndex := {
  aiAddress : Address;       (* The address of account *)
  aiLength : N;              (* The length of account data, one byte *)
  aiOffset : N;              (* The offset of item in account data table *)
  aiStorageOffset : N;       (* The offset of storage index in storage index table *)
  aiStorageSlots : N         (* The number of storage slots *)
}.

Record slotIndex := {
  siHash : Hash;             (* The hash of slot key *)
  siLength : N;              (* The length of storage slot, one byte *)
  siOffset : N               (* The offset of item in storage slot data table *)
}.

Definition accountIndex_ok (i : accountIndex) : Prop :=
  address_ok (aiAddress i) /\ aiLength i < 2 ^ 8 /\ aiOffset i < 2 ^ 32 /\
  aiStorageOffset i < 2 ^ 32 /\ aiStorageSlots i < 2 ^ 32.

Definition slotIndex_ok (i : slotIndex) : Prop :=
  hash_ok (siHash i) /\ siLength i < 2 ^ 8 /\ siOffset i < 2 ^ 32.

(** Modelled from the spec: the fixed-size codec of the two index records
    ([accountIndex.encode]/[decode], [slotIndex.encode]/[decode]) and the
    constants [accountIndexSize] and [slotIndexSize], which this file's
    source uses but does not contain.  The interface keeps what the history
    encoder and decoder rely on: every encoded index has the fixed size,
    decoding is total on a chunk of that size, and decoding an encoded index
    whose fields fit their widths gives the index back. *)
Class IndexCodec := {
  accountIndexSize : nat;
  slotIndexSize : nat;
  accountIndex_encode : accountIndex -> list byte;
  accountIndex_decode : list byte -> accountIndex;
  slotIndex_encode : slotIndex -> list byte;
  slotIndex_decode : list byte -> slotIndex;
  accountIndexSize_pos : (0 < accountIndexSize)%nat;
  slotIndexSize_pos : (0 < slotIndexSize)%nat;
  slotIndexSize_u32 : N.of_nat slotIndexSize < 2 ^ 32;
  accountIndex_encode_length i : length (accountIndex_encode i) = accountIndexSize;
  slotIndex_encode_length i : length (slotIndex_encode i) = slotIndexSize;
  accountIndex_decode_encode i :
    accountIndex_ok i -> accountIndex_decode (accountIndex_encode i) = i;
  slotIndex_decode_encode i :
    slotIndex_ok i -> slotIndex_decode (slotIndex_encode i) = i
}.

(** A codec with the layout of section 4.3: the address (or slot hash)
    followed by the one-byte length and the 32-bit fields, the numeric
    fields little-endian as section 6 says. *)
Definition packed_accountIndexSize : nat := AddressLength + 13.
Definition packed_slotIndexSize : nat := HashLength + 5.

Definition packed_accountIndex_encode (i : accountIndex) : list byte :=
  be_bytes AddressLength (aiAddress i) ++ le_bytes 1 (aiLength i) ++
  le_bytes 4 (aiOffset i) ++ le_bytes 4 (aiStorageOffset i) ++
  le_bytes 4 (aiStorageSlots i).

Definition packed_accountIndex_decode (blob : list byte) : accountIndex :=
  {| aiAddress := be_value (take AddressLength blob);
     aiLength := le_value (take 1 (drop AddressLength blob));
     aiOffset := le_value (take 4 (drop (AddressLength + 1) blob));
     aiStorageOffset := le_value (take 4 (drop (AddressLength + 5) blob));
     aiStorageSlots := le_value (take 4 (drop (AddressLength + 9) blob)) |}.

Definition packed_slotIndex_encode (i : slotIndex) : list byte :=
  be_bytes HashLength (siHash i) ++ le_bytes 1 (siLength i) ++
  le_bytes 4 (siOffset i).

Definition packed_slotIndex_decode (blob : list byte) : slotIndex :=
  {| siHash := be_value (take HashLength blob);
     siLength := le_value (take 1 (drop HashLength blob));
     siOffset := le_value (take 4 (drop (HashLength + 1) blob)) |}.

(** [meta] carries the identity of the transition. *)
Record meta := {
  version : N;
  parent : Hash;
  root : Hash;
  block : N
}.

Definition historyVersion : N := 0.

(** [History] represents a set of state changes belonging to a block. *)
Record History := {
  h_meta : meta;                                   (* Meta data of history *)
  accounts : gmap Address (list byte);             (* Account data keyed by its address *)
  accountList : list Address;                      (* Sorted account list *)
  storages : gmap Address (gmap Hash (list byte)); (* Storage data keyed by address and slot hash *)
  storageList : gmap Address (list Hash)           (* Sorted slot hash list *)
}.

(** The keys of a map in ascending order: collecting them in the map's
    iteration order and then [slices.SortFunc] with the array comparison. *)
Definition sorted_keys {V} (m : gmap N V) : list N :=
  merge_sort N.le (map_to_list m).*1.

(** [New] initializes the state history object. *)
Definition New (root parent : Hash) (block : N)
    (accounts : gmap Address (list byte))
    (storages : gmap Address (gmap Hash (list byte))) : History :=
  {| h_meta := {| version := historyVersion; parent := parent; root := root; block := block |};
     accounts := accounts;
     accountList := sorted_keys accounts;
     storages := storages;
     storageList := sorted_keys <$> storages |}.

Section Codec.
Context `{codec : IndexCodec}.

(** The four buffers and the slot counter of [encode]. *)
Record encoder := {
  e_slotNumber : N;               (* the number of processed slots *)
  e_accountData : list byte;      (* the buffer for concatenated account data *)
  e_storageData : list byte;      (* the buffer for concatenated storage data *)
  e_accountIndexes : list byte;   (* the buffer for concatenated account index *)
  e_storageIndexes : list byte    (* the buffer for concatenated storage index *)
}.

(** One round of the inner loop of [encode]: a slot of the account. *)
Definition encode_slot (slots : gmap Hash (list byte))
    (st : list byte * list byte) (slotHash : Hash) : list byte * list byte :=
  let '(storageData, storageIndexes) := st in
  let data := default [] (slots !! slotHash) in
  let sIndex := {| siHash := slotHash;
                   siLength := u8 (len data);
                   siOffset := u32 (len storageData) |} in
  (storageData ++ data, storageIndexes ++ slotIndex_encode sIndex).

(** One round of the outer loop of [encode]: an account of [accountList]. *)
Definition encode_account (h : History) (e : encoder) (addr : Address) : encoder :=
  let data := default [] (accounts h !! addr) in
  match storages h !! addr with
  | Some slots =>
      let '(storageData, storageIndexes) :=
        fold_left (encode_slot slots) (default [] (storageList h !! addr))
                  (e_storageData e, e_storageIndexes e) in
      let accIndex := {| aiAddress := addr;
                         aiLength := u8 (len data);
                         aiOffset := u32 (len (e_accountData e));
                         aiStorageOffset := e_slotNumber e;
                         aiStorageSlots := u32 (N.of_nat (size slots)) |} in
      {| e_slotNumber := u32 (e_slotNumber e + u32 (N.of_nat (size slots)));
         e_accountData := e_accountData e ++ data;
         e_storageData := storageData;
         e_accountIndexes := e_accountIndexes e ++ accountIndex_encode accIndex;
         e_storageIndexes := storageIndexes |}
  | None =>
      let accIndex := {| aiAddress := addr;
                         aiLength := u8 (len data);
                         aiOffset := u32 (len (e_accountData e));
                         aiStorageOffset := 0;
                         aiStorageSlots := 0 |} in
      {| e_slotNumber := e_slotNumber e;
         e_accountData := e_accountData e ++ data;
         e_storageData := e_storageData e;
         e_accountIndexes := e_accountIndexes e ++ accountIndex_encode accIndex;
         e_storageIndexes := e_storageIndexes e |}
  end.

Definition encoder_init : encoder :=
  {| e_slotNumber := 0; e_accountData := []; e_storageData := [];
     e_accountIndexes := []; e_storageIndexes := [] |}.

(** [encode] serializes the state history and returns four byte streams:
    concatenated account data, storage data, account indexes and storage
    indexes. *)
Definition encode (h : History) : list byte * list byte * list byte * list byte :=
  let e := fold_left (encode_account h) (accountList h) encoder_init in
  (e_accountData e, e_storageData e, e_accountIndexes e, e_storageIndexes e).

(** The errors of the decoder, one per message of the source. *)
Inductive decodeError :=
| InvalidAccountIndex        (* "invalid account index, len: ..." *)
| InvalidStorageIndex        (* "invalid storage index, len: ..." *)
| AccountIndexCorrupted      (* "account data buffer is corrupted", index stream *)
| AccountNotInOrder          (* "account is not in order" *)
| AccountDataGaped           (* "account data buffer is gaped" *)
| AccountDataCorrupted       (* "account data buffer is corrupted", data stream *)
| StorageIndexGapped         (* "storage index buffer is gapped" *)
| StorageIndexCorrupted      (* "storage index buffer is corrupted" *)
| StorageNotInOrder          (* "storage slot is not in order" *)
| StorageDataGapped          (* "storage data buffer is gapped" *)
| StorageDataCorrupted.      (* "storage data buffer is corrupted" *)

(** [decoder] wraps the byte streams for decoding with extra meta fields. *)
Record decoder := {
  accountData : list byte;        (* the buffer for concatenated account data *)
  storageData : list byte;        (* the buffer for concatenated storage data *)
  accountIndexes : list byte;     (* the buffer for concatenated account index *)
  storageIndexes : list byte;     (* the buffer for concatenated storage index *)
  lastAccount : option Address;   (* the address of last resolved account *)
  lastAccountRead : N;            (* the read-cursor position of account data *)
  lastSlotIndexRead : N;          (* the read-cursor position of storage slot index *)
  lastSlotDataRead : N            (* the read-cursor position of storage slot data *)
}.

(** [verify] validates the provided byte streams for decoding state history. *)
Definition verify (r : decoder) : result decodeError unit :=
  if negb (length (accountIndexes r) mod accountIndexSize =? 0)%nat
     || (length (accountIndexes r) =? 0)%nat
  then Err InvalidAccountIndex
  else if negb (length (storageIndexes r) mod slotIndexSize =? 0)%nat
  then Err InvalidStorageIndex
  else Ok tt.

(** [readAccount] parses the account from the byte stream with specified
    position. *)
Definition readAccount (r : decoder) (pos : nat)
    : result decodeError (decoder * accountIndex * list byte) :=
  if (length (accountIndexes r) <? (pos + 1) * accountIndexSize)%nat
  then Err AccountIndexCorrupted
  else
    chunk ← slice_or_panic (accountIndexes r)
              (N.of_nat (pos * accountIndexSize))
              (N.of_nat ((pos + 1) * accountIndexSize));
    let index := accountIndex_decode chunk in
    if match lastAccount r with
       | Some last => aiAddress index <=? last
       | None => false
       end
    then Err AccountNotInOrder
    else if negb (aiOffset index =? lastAccountRead r)
    then Err AccountDataGaped
    else
      let last := u32 (aiOffset index + u32 (aiLength index)) in
      if u32 (len (accountData r)) <? last
      then Err AccountDataCorrupted
      else
        data ← slice_or_panic (accountData r) (aiOffset index) last;
        Ok ({| accountData := accountData r;
               storageData := storageData r;
               accountIndexes := accountIndexes r;
               storageIndexes := storageIndexes r;
               lastAccount := Some (aiAddress index);
               lastAccountRead := last;
               lastSlotIndexRead := lastSlotIndexRead r;
               lastSlotDataRead := lastSlotDataRead r |}, index, data).

(** The body of the loop of [readStorage], for the [n] rounds that remain
    from round [j] on; [last], [slist] (the source's [list]) and [storage] are
    its local variables. *)
Fixpoint readStorage_loop (n : nat) (j : N) (accIndex : accountIndex)
    (r : decoder) (last : Hash) (slist : list Hash) (storage : gmap Hash (list byte))
    : result decodeError (decoder * list Hash * gmap Hash (list byte)) :=
  match n with
  | O => Ok (r, slist, storage)
  | S n' =>
      let start := u32 (u32 (aiStorageOffset accIndex + u32 j) * u32 (N.of_nat slotIndexSize)) in
      let end_ := u32 (u32 (aiStorageOffset accIndex + u32 (j + 1)) * u32 (N.of_nat slotIndexSize)) in
      if negb (start =? lastSlotIndexRead r)
      then Err StorageIndexGapped
      else if u32 (len (storageIndexes r)) <? end_
      then Err StorageIndexCorrupted
      else
        chunk ← slice_or_panic (storageIndexes r) start end_;
        let index := slotIndex_decode chunk in
        if siHash index <=? last
        then Err StorageNotInOrder
        else if negb (siOffset index =? lastSlotDataRead r)
        then Err StorageDataGapped
        else
          let sEnd := u32 (siOffset index + u32 (siLength index)) in
          if u32 (len (storageData r)) <? sEnd
          then Err StorageDataCorrupted
          else
            data ← slice_or_panic (storageData r) (lastSlotDataRead r) sEnd;
            readStorage_loop n' (j + 1) accIndex
              {| accountData := accountData r;
                 storageData := storageData r;
                 accountIndexes := accountIndexes r;
                 storageIndexes := storageIndexes r;
                 lastAccount := lastAccount r;
                 lastAccountRead := lastAccountRead r;
                 lastSlotIndexRead := end_;
                 lastSlotDataRead := sEnd |}
              (siHash index) (slist ++ [siHash index]) (<[siHash index := data]> storage)
  end.

(** [readStorage] parses the storage slots from the byte stream with
    specified account. *)
Definition readStorage (r : decoder) (accIndex : accountIndex)
    : result decodeError (decoder * list Hash * gmap Hash (list byte)) :=
  readStorage_loop (N.to_nat (aiStorageSlots accIndex)) 0 accIndex r 0 [] ∅.

(** The loop of [decode] over the account indexes, for the [n] rounds that
    remain from round [i] on. *)
Fixpoint decode_loop (n : nat) (i : nat) (r : decoder) (h : History)
    : result decodeError History :=
  match n with
  | O => Ok h
  | S n' =>
      '(r1, accIndex, accData) ← readAccount r i;
      '(r2, slotList, slotData) ← readStorage r1 accIndex;
      let h1 :=
        {| h_meta := h_meta h;
           accounts := <[aiAddress accIndex := accData]> (accounts h);
           accountList := accountList h ++ [aiAddress accIndex];
           storages := if (0 <? length slotList)%nat
                       then <[aiAddress accIndex := slotData]> (storages h)
                       else storages h;
           storageList := if (0 <? length slotList)%nat
                          then <[aiAddress accIndex := slotList]> (storageList h)
                          else storageList h |} in
      decode_loop n' (i + 1)%nat r2 h1
  end.

(** [decode] deserializes the account and storage data from the provided
    byte streams into [h], whose meta data stays as it is. *)
Definition decode (h : History)
    (accountData storageData accountIndexes storageIndexes : list byte)
    : result decodeError History :=
  let r := {| accountData := accountData;
              storageData := storageData;
              accountIndexes := accountIndexes;
              storageIndexes := storageIndexes;
              lastAccount := None;
              lastAccountRead := 0;
              lastSlotIndexRead := 0;
              lastSlotDataRead := 0 |} in
  _ ← verify r;
  decode_loop (length accountIndexes / accountIndexSize) 0 r
    {| h_meta := h_meta h; accounts := ∅; accountList := [];
       storages := ∅; storageList := ∅ |}.

(** What [encode] can represent: the conditions under which a history
    survives the trip through the four streams. *)
Definition blob_ok (d : list byte) : Prop := (length d < 256)%nat.

Definition accounts_ok (h : History) : Prop :=
  map_Forall (fun a d => address_ok a /\ blob_ok d) (accounts h).

Definition slots_ok (slots : gmap Hash (list byte)) : Prop :=
  slots <> ∅ /\
  map_Forall (fun k v => 0 < k /\ hash_ok k /\ blob_ok v) slots.

Definition storages_ok (h : History) : Prop :=
  map_Forall (fun a slots => is_Some (accounts h !! a) /\ slots_ok slots) (storages h).

Definition streams_fit (h : History) : Prop :=
  len (encode h).1.1.1 < 2 ^ 32 /\
  len (encode h).1.1.2 < 2 ^ 32 /\
  len (encode h).2 < 2 ^ 32.

(** The lists of a history are the sorted keys of its maps, as [New] and
    [decode] leave them. *)
Definition lists_sorted (h : History) : Prop :=
  accountList h = sorted_keys (accounts h) /\
  storageList h = sorted_keys <$> storages h.

End Codec.

End History.

(** * Node buffer (package pathdb, nodebuffer) *)

Module NodeBuffer.

(** Modelled from the spec: [trienode.Node], declared outside this file's
    source.  Section 3: a node is [{ hash, blob }] and a deleted node is
    [{ hash: 0, blob: empty }]; section 4.4 takes the delete branch when the
    blob is empty. *)
Record Node := {
  nHash : N;             (* Node hash, zero for a deleted node *)
  nBlob : list byte      (* Encoded node blob, empty for a deleted node *)
}.

Definition IsDeleted (n : Node) : bool := (length (nBlob n) =? 0)%nat.
Definition NewDeleted : Node := {| nHash := 0; nBlob := [] |}.

(** [nodebuffer] is a collection of modified trie nodes to aggregate the
    disk write. *)
Record nodebuffer := {
  layers : N;                               (* The number of diff layers aggregated inside *)
  size : N;                                 (* The size of aggregated writes *)
  limit : N;                                (* The maximum memory allowance in bytes *)
  nodes : gmap N (gmap (list byte) Node)    (* The dirty node set, mapped by owner and path *)
}.

(** The operations a write batch collects; the accessors of [rawdb] choose
    the table (account trie nodes by path, storage trie nodes by owner and
    path, the persistent state id). *)
Inductive batchOp :=
| PutAccountTrieNode (path : list byte) (blob : list byte)
| DeleteAccountTrieNode (path : list byte)
| PutStorageTrieNode (owner : N) (path : list byte) (blob : list byte)
| DeleteStorageTrieNode (owner : N) (path : list byte)
| PutPersistentStateID (id : N).

(** What the key-value store was asked to do, in order: an atomic batch
    write, or a sync of its files ([EvSync], the call the specification's
    description of flush speaks of). *)
Inductive storeEvent :=
| EvBatchWrite (ops : list batchOp)
| EvSync.

(** Modelled from the spec: the key-value store behind [ethdb.KeyValueStore]
    as the tables the [rawdb] accessors read and write.  [writeFails] is the
    environment's choice of whether a batch write returns an error (the
    store is then left as it was). *)
Record diskdb := {
  accountTrieNodes : gmap (list byte) (list byte);
  storageTrieNodes : gmap (N * list byte) (list byte);
  persistentStateID : N;
  writeFails : bool;
  events : list storeEvent
}.

Definition apply_op (db : diskdb) (op : batchOp) : diskdb :=
  match op with
  | PutAccountTrieNode path blob =>
      {| accountTrieNodes := <[path := blob]> (accountTrieNodes db);
         storageTrieNodes := storageTrieNodes db;
         persistentStateID := persistentStateID db;
         writeFails := writeFails db; events := events db |}
  | DeleteAccountTrieNode path =>
      {| accountTrieNodes := delete path (accountTrieNodes db);
         storageTrieNodes := storageTrieNodes db;
         persistentStateID := persistentStateID db;
         writeFails := writeFails db; events := events db |}
  | PutStorageTrieNode owner path blob =>
      {| accountTrieNodes := accountTrieNodes db;
         storageTrieNodes := <[(owner, path) := blob]> (storageTrieNodes db);
         persistentStateID := persistentStateID db;
         writeFails := writeFails db; events := events db |}
  | DeleteStorageTrieNode owner path =>
      {| accountTrieNodes := accountTrieNodes db;
         storageTrieNodes := delete (owner, path) (storageTrieNodes db);
         persistentStateID := persistentStateID db;
         writeFails := writeFails db; events := events db |}
  | PutPersistentStateID id =>
      {| accountTrieNodes := accountTrieNodes db;
         storageTrieNodes := storageTrieNodes db;
         persistentStateID := id;
         writeFails := writeFails db; events := events db |}
  end.

Definition log_event (db : diskdb) (ev : storeEvent) : diskdb :=
  {| accountTrieNodes := accountTrieNodes db;
     storageTrieNodes := storageTrieNodes db;
     persistentStateID := persistentStateID db;
     writeFails := writeFails db;
     events := events db ++ [ev] |}.

(** [batch.Write()]: all collected operations take effect, in order, or none
    does and an error comes back. *)
Definition batch_Write (db : diskdb) (ops : list batchOp) : option diskdb :=
  if writeFails db then None
  else Some (log_event (fold_left apply_op ops db) (EvBatchWrite ops)).

Definition ReadPersistentStateID (db : diskdb) : N := persistentStateID db.

(** The clean cache, [nil] when the memory allowance is zero; [writeNodes]
    stores blobs in it under the node hash. *)
Definition cleanCache := option (gmap N (list byte)).

Definition clean_Set (clean : cleanCache) (hash : N) (blob : list byte) : cleanCache :=
  match clean with
  | Some c => Some (<[hash := blob]> c)
  | None => None
  end.

(** The sum over all nodes of [len(n.Blob) + len(path)]. *)
Definition nodes_size (nodes : gmap N (gmap (list byte) Node)) : N :=
  map_fold (fun _ subset acc =>
              map_fold (fun path n acc' => u64 (acc' + u64 (len (nBlob n) + len path)))
                       acc subset)
           0 nodes.

(** [newNodeBuffer] initializes the node buffer with the provided nodes; a
    nil map is given as [None]. *)
Definition newNodeBuffer (limit : N) (nodes : option (gmap N (gmap (list byte) Node)))
    (layers : N) : nodebuffer :=
  let nodes := default ∅ nodes in
  {| layers := layers; nodes := nodes; size := nodes_size nodes; limit := u64 limit |}.

(** [reset] cleans up the disk cache. *)
Definition reset (b : nodebuffer) : nodebuffer :=
  {| layers := 0; size := 0; limit := limit b; nodes := ∅ |}.

(** [empty] returns an indicator if nodebuffer contains any state transition
    inside. *)
Definition empty (b : nodebuffer) : bool := layers b =? 0.

(** One node of [writeNodes]: the operation added to the batch and the
    effect on the clean cache. *)
Definition writeNode (owner : N) (path : list byte) (n : Node)
    (acc : list batchOp * cleanCache) : list batchOp * cleanCache :=
  let '(batch, clean) := acc in
  if IsDeleted n then
    if owner =? 0
    then (batch ++ [DeleteAccountTrieNode path], clean)
    else (batch ++ [DeleteStorageTrieNode owner path], clean)
  else
    if owner =? 0
    then (batch ++ [PutAccountTrieNode path (nBlob n)], clean_Set clean (nHash n) (nBlob n))
    else (batch ++ [PutStorageTrieNode owner path (nBlob n)], clean_Set clean (nHash n) (nBlob n)).

(** [writeNodes] writes the trie nodes into the provided database batch, in
    the iteration order of the two maps. *)
Definition writeNodes (batch : list batchOp) (nodes : gmap N (gmap (list byte) Node))
    (clean : cleanCache) : list batchOp * cleanCache :=
  map_fold (fun owner subset acc => map_fold (writeNode owner) acc subset)
           (batch, clean) nodes.

Inductive flushError :=
| InvalidStateID (id want : N)   (* "disk has invalid state id %d, want %d" *)
| BatchWriteFailed.              (* the error of [batch.Write] *)

(** [flush] persists the in-memory dirty trie node into the disk if the
    configured memory threshold is reached.  The buffer, the store and the
    clean cache are returned as the call leaves them, with the error if
    there is one. *)
Definition flush (b : nodebuffer) (db : diskdb) (clean : cleanCache) (id : N) (force : bool)
    : nodebuffer * diskdb * cleanCache * option flushError :=
  if (size b <=? limit b) && negb force then (b, db, clean, None)
  else
    let head := ReadPersistentStateID db in
    if negb (u64 (head + layers b) =? id)
    then (b, db, clean, Some (InvalidStateID id (u64 (head + layers b))))
    else
      let '(batch, clean1) := writeNodes [] (nodes b) clean in
      let batch := batch ++ [PutPersistentStateID id] in
      match batch_Write db batch with
      | None => (b, db, clean1, Some BatchWriteFailed)
      | Some db1 => (reset b, db1, clean1, None)
      end.

(** [setSize] sets the buffer size to the provided number, and invokes a
    flush operation if the current memory usage exceeds the new limit. *)
Definition setSize (b : nodebuffer) (size' : N) (db : diskdb) (clean : cleanCache) (id : N)
    : nodebuffer * diskdb * cleanCache * option flushError :=
  flush {| layers := layers b; size := size b; limit := u64 size'; nodes := nodes b |}
        db clean id false.

End NodeBuffer.

(** * Layers and the read path (package pathdb, disk layer and diff layer) *)

Module Layers.
Import NodeBuffer.

Definition HashLength : nat := 32.

(** [hash.Bytes()] of a [common.Hash] read as a big-endian number. *)
Definition hash_bytes (h : N) : list byte := be_bytes HashLength h.

Inductive layerError :=
| errSnapshotStale       (* the layer was flattened across *)
| errNotCoveredYet.      (* the flat state is not generated up to the key yet *)

Inductive location :=
| locDirtyCache | locCleanCache | locDiskLayer | locDiffLayer.

Record nodeLoc := { loc : location; depth : N }.

(** Modelled from the spec: the disk layer's [buffer], declared outside this
    file's source: the dirty nodes by owner and path and the dirty flat
    states (section 4.1: "at the disk layer consult the buffer then the
    snapshot tables").  A lookup answers with the entry and whether there is
    one. *)
Record buffer := {
  b_nodes : gmap N (gmap (list byte) Node);
  b_accounts : gmap N (list byte);
  b_storages : gmap N (gmap N (list byte))
}.

Definition buffer_node (b : buffer) (owner : N) (path : list byte) : option Node :=
  subset ← b_nodes b !! owner; subset !! path.

Definition buffer_account (b : buffer) (hash : N) : option (list byte) :=
  b_accounts b !! hash.

Definition buffer_storage (b : buffer) (accountHash storageHash : N) : option (list byte) :=
  slots ← b_storages b !! accountHash; slots !! storageHash.

(** Modelled from the spec: the tables of the key-value store that the
    [rawdb] read accessors of the disk layer look into; a missing entry
    reads as the empty blob. *)
Record diskdb := {
  accountTrieNodes : gmap (list byte) (list byte);
  storageTrieNodes : gmap (N * list byte) (list byte);
  accountSnapshot : gmap N (list byte);
  storageSnapshot : gmap (N * N) (list byte)
}.

Definition ReadAccountTrieNode (db : diskdb) (path : list byte) : list byte :=
  default [] (accountTrieNodes db !! path).
Definition ReadStorageTrieNode (db : diskdb) (owner : N) (path : list byte) : list byte :=
  default [] (storageTrieNodes db !! (owner, path)).
Definition ReadAccountSnapshot (db : diskdb) (hash : N) : list byte :=
  default [] (accountSnapshot db !! hash).
Definition ReadStorageSnapshot (db : diskdb) (accountHash storageHash : N) : list byte :=
  default [] (storageSnapshot db !! (accountHash, storageHash)).

(** The clean cache of the disk layer, keyed by [cacheKey(owner, path)]. *)
Definition cleans_t := option (gmap (N * list byte) (list byte)).

(** Modelled from the spec: the generator handle of a disk layer, of which
    the reads use the progress marker only; [None] is the nil marker of a
    completed snapshot. *)
Record generator := { progress : option (list byte) }.

Definition progressMarker (g : generator) : option (list byte) := progress g.

(** [diskLayer] is a low level persistent layer built on top of a key-value
    store. *)
Record diskLayer := {
  root : N;                       (* Immutable, root hash to which this layer was made for *)
  id : N;                         (* Immutable, corresponding state id *)
  db : diskdb;                    (* The key-value store of the database *)
  cleans : cleans_t;              (* GC friendly memory cache of clean nodes and states *)
  dbuffer : buffer;               (* Dirty buffer to aggregate writes of nodes and states *)
  stale : bool;                   (* Signals that the layer became stale (state progressed) *)
  dgenerator : option generator   (* Set if the state snapshot was not fully completed *)
}.

Definition isStale (dl : diskLayer) : bool := stale dl.

(** [markStale] sets the stale flag as true; it panics on a layer that is
    stale already. *)
Definition markStale (dl : diskLayer) : result layerError diskLayer :=
  if stale dl then Panic
  else Ok {| root := root dl; id := id dl; db := db dl; cleans := cleans dl;
             dbuffer := dbuffer dl; stale := true; dgenerator := dgenerator dl |}.

(** [genMarker] returns the current state snapshot generation progress
    marker, nil if the snapshot has been fully generated. *)
Definition genMarker (dl : diskLayer) : option (list byte) :=
  match dgenerator dl with
  | None => None
  | Some g => progressMarker g
  end.

Section Hasher.
(** The Keccak hash of a blob, an external collaborator. *)
Variable keccak : list byte -> N.

(** [node] retrieves the trie node with the provided node info: the blob,
    its hash and where it was found, together with the clean cache as the
    call leaves it.  No error is returned if the node is not found. *)
Definition node (dl : diskLayer) (owner : N) (path : list byte) (depth : N)
    : result layerError (list byte * N * nodeLoc) * cleans_t :=
  if stale dl then (Err errSnapshotStale, cleans dl)
  else
    match buffer_node (dbuffer dl) owner path with
    | Some n => (Ok (nBlob n, nHash n, {| loc := locDirtyCache; depth := depth |}), cleans dl)
    | None =>
        let key := (owner, path) in
        let cached := match cleans dl with
                      | Some c => default [] (c !! key)
                      | None => []
                      end in
        if (0 <? length cached)%nat
        then (Ok (cached, keccak cached, {| loc := locCleanCache; depth := depth |}), cleans dl)
        else
          let blob := if owner =? 0
                      then ReadAccountTrieNode (db dl) path
                      else ReadStorageTrieNode (db dl) owner path in
          let cleans' := match cleans dl with
                         | Some c => if (0 <? length blob)%nat
                                     then Some (<[key := blob]> c)
                                     else Some c
                         | None => None
                         end in
          (Ok (blob, keccak blob, {| loc := locDiskLayer; depth := depth |}), cleans')
    end.

End Hasher.

(** [account] directly retrieves the account RLP associated with a
    particular hash in the slim data format. *)
Definition account (dl : diskLayer) (hash : N) (depth : N) : result layerError (list byte) :=
  if stale dl then Err errSnapshotStale
  else
    match buffer_account (dbuffer dl) hash with
    | Some blob => Ok blob
    | None =>
        match genMarker dl with
        | Some marker =>
            if is_gt (bytes_compare (hash_bytes hash) marker)
            then Err errNotCoveredYet
            else Ok (ReadAccountSnapshot (db dl) hash)
        | None => Ok (ReadAccountSnapshot (db dl) hash)
        end
    end.

(** [storage] directly retrieves the storage data associated with a
    particular hash, within a particular account. *)
Definition storage (dl : diskLayer) (accountHash storageHash : N) (depth : N)
    : result layerError (list byte) :=
  if stale dl then Err errSnapshotStale
  else
    match buffer_storage (dbuffer dl) accountHash storageHash with
    | Some blob => Ok blob
    | None =>
        let key := hash_bytes accountHash ++ hash_bytes storageHash in
        match genMarker dl with
        | Some marker =>
            if is_gt (bytes_compare key marker)
            then Err errNotCoveredYet
            else Ok (ReadStorageSnapshot (db dl) accountHash storageHash)
        | None => Ok (ReadStorageSnapshot (db dl) accountHash storageHash)
        end
    end.

(** [diffLayer] represents a collection of modifications made to the
    in-memory tries after running a block on top.  The state set of the
    layer is left out: the node reads below do not look into it. *)
Record diffLayer := {
  d_root : N;                                 (* Root hash to which this layer diff belongs to *)
  d_id : N;                                   (* Corresponding state id *)
  d_block : N;                                (* Associated block number *)
  d_nodes : gmap N (gmap (list byte) (list byte))  (* Aggregated trie nodes (empty means deleted) *)
}.

(** A layer is the disk layer or a diff layer on top of its parent layer. *)
Inductive layer :=
| Disk (dl : diskLayer)
| Diff (df : diffLayer) (parent : layer).

Definition diff_lookup (df : diffLayer) (owner : N) (path : list byte) : option (list byte) :=
  subset ← d_nodes df !! owner; subset !! path.

Section HasherChain.
Variable keccak : list byte -> N.

(** [layer_node] is the [node] method of the layer interface as the diff
    layer of this file's source declares it (blob, location, error):
    [diffLayer.node] on a diff layer, and on the disk layer [diskLayer.node]
    without the hash (what the call does to the clean cache is in [node]). *)
Fixpoint layer_node (l : layer) (owner : N) (path : list byte) (depth : N)
    : result layerError (list byte * nodeLoc) :=
  match l with
  | Disk dl =>
      '(blob, _, where_) ← (node keccak dl owner path depth).1;
      Ok (blob, where_)
  | Diff df parent =>
      match diff_lookup df owner path with
      | Some n => Ok (n, {| loc := locDiffLayer; depth := depth |})
      | None => layer_node parent owner path (depth + 1)
      end
  end.

End HasherChain.

(** The disk layer at the bottom of a layer stack. *)
Fixpoint disk_of (l : layer) : diskLayer :=
  match l with
  | Disk dl => dl
  | Diff _ parent => disk_of parent
  end.

End Layers.

(** * Journal (package pathdb, journal) *)

Module Journal.
Import NodeBuffer.

Inductive journalError :=
| errMissJournal                      (* "journal not found" *)
| errMissVersion                      (* "version not found" *)
| errUnexpectedVersion (want got : N) (* "unexpected journal version" *)
| errMissDiskRoot                     (* "disk layer root not found" *)
| errUnmatchedJournal (got want : N)  (* "unmatched journal" *)
| errLoadDiskRoot                     (* "load disk root: ..." *)
| errLoadStateID                      (* "load state id: ..." *)
| errInvalidStateID (stored got : N)  (* "invalid state id, stored %d resolved %d" *)
| errLoadDiskAccounts                 (* "load disk accounts: ..." *)
| errLoadDiffRoot                     (* "load diff root: ..." *)
| errLoadBlockNumber                  (* "load block number: ..." *)
| errLoadDiffNodes                    (* "load diff nodes: ..." *)
| errLoadDiffStates.                  (* "load diff states: ..." *)

Definition journalVersion : N := 0.

(** [journalNode] represents a trie node persisted in the journal. *)
Record journalNode := {
  jn_Path : list byte;   (* Path of the node in the trie *)
  jn_Blob : list byte    (* RLP-encoded trie node blob, nil means the node is deleted *)
}.

(** [journalNodes] represents a list trie nodes belong to a single account
    or the main trie. *)
Record journalNodes := {
  jns_Owner : N;
  jns_Nodes : list journalNode
}.

(** [journalState] represents a state change persisted in the journal. *)
Record journalState := {
  js_Key : N;            (* The key of the state *)
  js_Value : list byte   (* Nil means the state was not present *)
}.

(** [journalStates] represents a list storage changes belong to a single
    account or the account changes. *)
Record journalStates := {
  jss_Owner : N;                 (* The address hash of the associated account *)
  jss_Incomplete : bool;         (* Indicator if the state changes is incomplete *)
  jss_States : list journalState (* The list of state changes *)
}.

(** Modelled from the spec: the RLP stream the journal is read through.  The
    stored journal is the sequence of its top-level items (section 4.8:
    version, disk root, disk state id, buffered nodes, then root, block,
    nodes and states per diff layer), each decodable as the one kind it was
    written as; [JOther] is any item that is none of these.  The journal has
    no bytes exactly when it has no item. *)
Inductive jitem :=
| JUint (n : N)
| JHash (h : N)
| JNodes (l : list journalNodes)
| JStates (l : list journalStates)
| JOther.

(** [r.Uint64()] and [r.Decode(&x)] at the four types the loader asks for:
    the value and the rest of the stream, or nothing on a decoding error or
    at the end of the stream. *)
Definition stream_Uint64 (r : list jitem) : option (N * list jitem) :=
  match r with JUint n :: r' => Some (n, r') | _ => None end.
Definition stream_Hash (r : list jitem) : option (N * list jitem) :=
  match r with JHash h :: r' => Some (h, r') | _ => None end.
Definition stream_Nodes (r : list jitem) : option (list journalNodes * list jitem) :=
  match r with JNodes l :: r' => Some (l, r') | _ => None end.
Definition stream_States (r : list jitem) : option (list journalStates * list jitem) :=
  match r with JStates l :: r' => Some (l, r') | _ => None end.

(** Modelled from the spec: what the loader reads from the key-value store:
    the journal, the hash of the root node of the account trie (zero when
    there is none) and the persistent state id. *)
Record diskdb := {
  trieJournal : list jitem;
  accountTrieRootNodeHash : N;
  persistentStateID : N
}.

Record Database := {
  ddiskdb : diskdb;
  bufferSize : N
}.

(** [types.EmptyRootHash], the known root hash of an empty trie. *)
Definition EmptyRootHash : N :=
  0x56e81f171bcc55a6ff8345e692c0f86e5b48e01b996cadc001622fb5e363b421.

(** [types.TrieRootHash]: the root of the trie whose root node has the
    given hash, the empty root if there is no root node. *)
Definition TrieRootHash (h : N) : N := if h =? 0 then EmptyRootHash else h.

(** [triestate.Set]: the state changes of a diff layer. *)
Record stateSet := {
  Accounts : gmap N (list byte);
  Storages : gmap N (gmap N (list byte));
  Incomplete : gset N
}.

(** The layers the loader builds: a disk layer with its node buffer, or a
    diff layer on its parent. *)
Inductive layer :=
| DiskLayer (root id : N) (buffer : nodebuffer)
| DiffLayer (parent : layer) (root id block : N)
            (nodes : gmap N (gmap (list byte) Node)) (states : stateSet).

Definition layer_root (l : layer) : N :=
  match l with DiskLayer root _ _ => root | DiffLayer _ root _ _ _ _ => root end.

Definition stateID (l : layer) : N :=
  match l with DiskLayer _ id _ => id | DiffLayer _ _ id _ _ _ => id end.

Definition is_disk (l : layer) : bool :=
  match l with DiskLayer _ _ _ => true | _ => false end.

Definition newDiskLayer (root id : N) (buffer : nodebuffer) : layer :=
  DiskLayer root id buffer.

Definition newDiffLayer (parent : layer) (root id block : N)
    (nodes : gmap N (gmap (list byte) Node)) (states : stateSet) : layer :=
  DiffLayer parent root id block nodes states.

Section Hasher.
Variable keccak : list byte -> N.

(** The node map of a journal section: per entry the nodes by path (a later
    node of the same path replaces an earlier one), per owner the last
    entry. *)
Definition decode_subset (l : list journalNode) : gmap (list byte) Node :=
  fold_left (fun subset n =>
               if (0 <? length (jn_Blob n))%nat
               then <[jn_Path n := {| nHash := keccak (jn_Blob n); nBlob := jn_Blob n |}]> subset
               else <[jn_Path n := NewDeleted]> subset)
            l ∅.

Definition decode_nodes (encoded : list journalNodes) : gmap N (gmap (list byte) Node) :=
  fold_left (fun nodes entry => <[jns_Owner entry := decode_subset (jns_Nodes entry)]> nodes)
            encoded ∅.

(** [loadDiskLayer] reads the binary blob from the layer journal,
    reconstructing a new disk layer on it. *)
Definition loadDiskLayer (db : Database) (r : list jitem)
    : result journalError (layer * list jitem) :=
  match stream_Hash r with
  | None => Err errLoadDiskRoot
  | Some (root, r1) =>
      match stream_Uint64 r1 with
      | None => Err errLoadStateID
      | Some (id, r2) =>
          let stored := persistentStateID (ddiskdb db) in
          if id <? stored then Err (errInvalidStateID stored id)
          else
            match stream_Nodes r2 with
            | None => Err errLoadDiskAccounts
            | Some (encoded, r3) =>
                Ok (newDiskLayer root id
                      (newNodeBuffer (bufferSize db) (Some (decode_nodes encoded))
                                     (id - stored)),
                    r3)
            end
      end
  end.

(** The state set of a diff section: the entry of owner zero gives the
    accounts, any other entry the storage of its owner. *)
Definition decode_set (l : list journalState) : gmap N (list byte) :=
  fold_left (fun set n => <[js_Key n := js_Value n]> set) l ∅.

Definition decode_states (states : list journalStates) : stateSet :=
  fold_left (fun acc entry =>
               let set := decode_set (jss_States entry) in
               {| Accounts := if jss_Owner entry =? 0 then set else Accounts acc;
                  Storages := if jss_Owner entry =? 0 then Storages acc
                              else <[jss_Owner entry := set]> (Storages acc);
                  Incomplete := if jss_Incomplete entry
                                then {[jss_Owner entry]} ∪ Incomplete acc
                                else Incomplete acc |})
            states {| Accounts := ∅; Storages := ∅; Incomplete := ∅ |}.

(** [loadDiffLayer] reads the next sections of a layer journal,
    reconstructing a new diff and verifying that it can be linked to the
    requested parent; the end of the stream ends the stack. *)
Fixpoint loadDiffLayer (parent : layer) (r : list jitem) : result journalError layer :=
  match r with
  | [] => Ok parent
  | JHash root :: r1 =>
      match r1 with
      | JUint blockNumber :: r2 =>
          match r2 with
          | JNodes encoded :: r3 =>
              match r3 with
              | JStates states :: r4 =>
                  loadDiffLayer
                    (newDiffLayer parent root (u64 (stateID parent + 1)) blockNumber
                                  (decode_nodes encoded) (decode_states states))
                    r4
              | _ => Err errLoadDiffStates
              end
          | _ => Err errLoadDiffNodes
          end
      | _ => Err errLoadBlockNumber
      end
  | _ => Err errLoadDiffRoot
  end.

(** [loadJournal] tries to parse the layer journal from the disk. *)
Definition loadJournal (db : Database) (diskRoot : N) : result journalError layer :=
  let journal := trieJournal (ddiskdb db) in
  if (length journal =? 0)%nat then Err errMissJournal
  else
    match stream_Uint64 journal with
    | None => Err errMissVersion
    | Some (version, r1) =>
        if negb (version =? journalVersion)
        then Err (errUnexpectedVersion journalVersion version)
        else
          match stream_Hash r1 with
          | None => Err errMissDiskRoot
          | Some (root, r2) =>
              if negb (root =? diskRoot)
              then Err (errUnmatchedJournal root diskRoot)
              else
                '(base, r3) ← loadDiskLayer db r2;
                loadDiffLayer base r3
          end
    end.

(** [loadLayers] loads a pre-existing state layer backed by a key-value
    store: the head of the journalled stack, or the single disk layer with
    the persistent state when the journal cannot be used. *)
Definition loadLayers (db : Database) : layer :=
  let root := TrieRootHash (accountTrieRootNodeHash (ddiskdb db)) in
  match loadJournal db root with
  | Ok head => head
  | _ => newDiskLayer root (persistentStateID (ddiskdb db))
                      (newNodeBuffer (bufferSize db) None 0)
  end.

End Hasher.

End Journal.

(** * Offline pruner (package pruner) *)

Module Pruner.

Definition HashLength : nat := 32.

(** [rangeCompactionThreshold] is the minimal deleted entry number for
    triggering range compaction. *)
Definition rangeCompactionThreshold : N := 100000.

(** Modelled from the spec: [rawdb.CodePrefix] and [rawdb.IsCodeKey], which
    this file's source calls but does not contain.  Section 6: a code key is
    [code ‖ hash], the prefix followed by the 32 bytes of the code hash; the
    prefix is taken to be the one byte ["c"]. *)
Definition CodePrefix : list byte := ["c"%byte].

Definition has_prefix (key pre : list byte) : bool :=
  bool_decide (take (length pre) key = pre).

Definition IsCodeKey (key : list byte) : bool * list byte :=
  if has_prefix key CodePrefix && (length key =? HashLength + length CodePrefix)%nat
  then (true, drop (length CodePrefix) key)
  else (false, []).

(** Modelled from the spec: [ethdb.IdealBatchSize], the amount of data a
    batch should collect before it is written (100 KiB). *)
Definition IdealBatchSize : N := 100 * 1024.

(** Modelled from the spec: the state bloom filter, of which the sweep uses
    [Contain] only: whether the filter holds the key, or an error. *)
Inductive bloomError := BloomFailure.
Definition stateBloom := list byte -> result bloomError bool.

(** Modelled from the spec: the key-value store under the pruner: its
    entries, and the ranges it was asked to compact, in order. *)
Record maindb := {
  kv : gmap (list byte) (list byte);
  compactions : list (list byte * list byte)
}.

(** The order in which [maindb.NewIterator(nil, nil)] yields the entries of
    the store: ascending keys.  The iterator reads the store as it was when
    the iterator was made. *)
Definition key_le (x y : list byte * list byte) : Prop :=
  Is_true (negb (is_gt (bytes_compare x.1 y.1))).

Global Instance key_le_dec x y : Decision (key_le x y).
Proof. unfold key_le. apply _. Defined.

Definition iterate (db : maindb) : list (list byte * list byte) :=
  merge_sort key_le (map_to_list (kv db)).

(** A write batch of deletions: the keys, and the size the batch reports
    (a deletion counts the length of its key). *)
Record batch := {
  pending : list (list byte);
  valueSize : N
}.

Definition batch_new : batch := {| pending := []; valueSize := 0 |}.

Definition batch_Delete (b : batch) (key : list byte) : batch :=
  {| pending := pending b ++ [key]; valueSize := valueSize b + len key |}.

Definition batch_Write (db : maindb) (b : batch) : maindb :=
  {| kv := fold_left (fun m k => delete k m) (pending b) (kv db);
     compactions := compactions db |}.

Definition Compact (db : maindb) (start limit : list byte) : maindb :=
  {| kv := kv db; compactions := compactions db ++ [(start, limit)] |}.

(** [copy(dst, src)]: the first [min(len(dst), len(src))] bytes of [src]
    over the beginning of [dst]. *)
Definition go_copy (dst src : list byte) : list byte :=
  take (length dst) src ++ drop (length src) dst.

(** [make([]byte, n)]. *)
Definition make_bytes (n : nat) : list byte := replicate n "000"%byte.

(** The local variables of [prune]; a nil range bound is [None]. *)
Record sweep := {
  count : N;
  psize : N;
  pbatch : batch;
  pdb : maindb;
  rangestart : option (list byte);
  rangelimit : option (list byte)
}.

Definition sweep_init (db : maindb) : sweep :=
  {| count := 0; psize := 0; pbatch := batch_new; pdb := db;
     rangestart := None; rangelimit := None |}.

(** One round of the loop of [prune], on the entry the iterator stands on. *)
Definition prune_step (stateBloom_Contain : stateBloom) (st : sweep)
    (entry : list byte * list byte) : result bloomError sweep :=
  let '(key, value) := entry in
  let '(isCode, codeKey) := IsCodeKey key in
  if (length key =? HashLength)%nat || isCode then
    let checkKey := if isCode then codeKey else key in
    ok ← stateBloom_Contain checkKey;
    if ok : bool then Ok st
    else
      let batch1 := batch_Delete (pbatch st) key in
      let flushed := IdealBatchSize <=? valueSize batch1 in
      Ok {| count := count st + 1;
            psize := psize st + (len key + len value);
            pbatch := if flushed then batch_new else batch1;
            pdb := if flushed then batch_Write (pdb st) batch1 else pdb st;
            rangestart :=
              match rangestart st with
              | None => Some (go_copy (make_bytes HashLength) key)
              | Some rs => if is_gt (bytes_compare rs key)
                           then Some (go_copy rs key) else Some rs
              end;
            rangelimit :=
              match rangelimit st with
              | None => Some (go_copy (make_bytes HashLength) key)
              | Some rl => if is_lt (bytes_compare rl key)
                           then Some (go_copy rl key) else Some rl
              end |}
  else Ok st.

(** The loop of [prune] over the entries the iterator yields. *)
Fixpoint prune_loop (stateBloom_Contain : stateBloom) (st : sweep)
    (entries : list (list byte * list byte)) : result bloomError sweep :=
  match entries with
  | [] => Ok st
  | entry :: rest =>
      st' ← prune_step stateBloom_Contain st entry;
      prune_loop stateBloom_Contain st' rest
  end.

(** The end of [prune]: the last batch is written, and the range between
    the two bounds is compacted unless the pruning was small. *)
Definition prune_finish (st : sweep) : maindb :=
  let db1 := if 0 <? valueSize (pbatch st)
             then batch_Write (pdb st) (pbatch st) else pdb st in
  if rangeCompactionThreshold <=? count st
  then Compact db1 (default [] (rangestart st)) (default [] (rangelimit st))
  else db1.

(** [prune] deletes all stale trie nodes in the disk; the store as the
    sweep leaves it, or the error of the bloom filter. *)
Definition prune (db : maindb) (stateBloom_Contain : stateBloom)
    : result bloomError maindb :=
  st ← prune_loop stateBloom_Contain (sweep_init db) (iterate db);
  Ok (prune_finish st).

End Pruner.

(** * Snapshot generator (package snapshot, generate) *)

Module Generator.

Definition HashLength : nat := 32.

(** [accountCheckRange] and [storageCheckRange] are the upper limits of the
    number of accounts and of storage slots involved in each range check. *)
Definition accountCheckRange : nat := 128.
Definition storageCheckRange : nat := 1024.

(** Modelled from the spec: the key prefixes of the two flat tables
    (section 6: [snap_account ‖ hash] and [snap_storage ‖ addr_hash ‖
    slot_hash]) and the root of the empty trie. *)
Definition SnapshotAccountPrefix : list byte := ["a"%byte].
Definition SnapshotStoragePrefix : list byte := ["o"%byte].
Definition EmptyRootHash : N :=
  0x56e81f171bcc55a6ff8345e692c0f86e5b48e01b996cadc001622fb5e363b421.

Inductive kind := snapAccount | snapStorage.

Inductive genError :=
| errMissingTrie        (* "missing trie" *)
| errInvalidIteration   (* "invalid iteration position" *)
| errStackTrie          (* the error of the stack trie *)
| errNodeIterator       (* the error of [tr.NodeIterator] *)
| errTrieIterator       (* [iter.Err] *)
| errBatchWrite         (* the error of [ctx.batch.Write] *)
| errAborted            (* [abortErr]: the generation was asked to stop *)
| errNoAnswer.          (* the environment has no further answer (see [env]) *)

(** [common.BytesToHash]: the last 32 bytes of the slice, padded with zero
    bytes on the left. *)
Definition BytesToHash (b : list byte) : list byte :=
  let b' := drop (length b - HashLength) b in
  replicate (HashLength - length b') "000"%byte ++ b'.

(** [increaseKey] increases the input key by one bit; nil ([None]) if the
    entire addition operation overflows. *)
Fixpoint increase_rev (rkey : list byte) : option (list byte) :=
  match rkey with
  | [] => None
  | b :: rest =>
      if Byte.to_N b =? 255
      then option_map (cons "000"%byte) (increase_rev rest)
      else Some (byte_of_N (Byte.to_N b + 1) :: rest)
  end.

Definition increaseKey (key : list byte) : option (list byte) :=
  option_map (@rev byte) (increase_rev (rev key)).

(** Modelled from the spec: the answers of the external collaborators, which
    the generator asks in the course of a run: what the held iterator of a
    flat table yields from where it stands; what the stack trie, the trie
    and the range prover say about a segment; what the trie holds (its
    entries in the order of its iterator) when a segment is regenerated; and
    at each checkpoint whether a stop was requested, the batch is over the
    ideal size, and the batch write fails. *)
Record proofAnswer := {
  pa_stackError : bool;     (* [stackTr.Update] fails *)
  pa_rootMatches : bool;    (* whole table read: the stack trie root is the trie root *)
  pa_trieOpens : bool;      (* [trie.New] succeeds *)
  pa_proveOrigin : bool;    (* [tr.Prove(origin)] succeeds *)
  pa_proveLast : bool;      (* [tr.Prove(last key)] succeeds *)
  pa_verified : bool;       (* [trie.VerifyRangeProof] returns no error *)
  pa_cont : bool            (* [trie.VerifyRangeProof] says the trie has more *)
}.

Record trieAnswer := {
  ta_opens : bool;                             (* [trie.New] succeeds *)
  ta_iterates : bool;                          (* [tr.NodeIterator] succeeds *)
  ta_entries : list (list byte * list byte);   (* the leaves of the trie, in order *)
  ta_fails : bool                              (* [iter.Err] is set after them *)
}.

Record signal := {
  sig_abort : bool;
  sig_batchFull : bool;
  sig_writeFails : bool
}.

Record env := {
  accountIter : list (list (list byte * list byte));
  storageIter : list (list (list byte * list byte));
  proofs : list proofAnswer;
  tries : list trieAnswer;
  signals : list signal
}.

(** The state a run works on: the progress marker of the disk layer, the
    markers the checkpoints have stored so far (oldest first), whether the
    completion was stored, whether the "went backwards" error was logged,
    the [accMarker] variable of [generateAccounts] that its callback reads
    and clears, and the answers still to come.  The flat states the batch
    collects are left out. *)
Record genState := {
  genMarker : list byte;
  persisted : list (list byte);
  completed : bool;
  wentBackwards : bool;
  accMarker : option (list byte);
  answers : env
}.

Definition with_answers (st : genState) (e : env) : genState :=
  {| genMarker := genMarker st; persisted := persisted st; completed := completed st;
     wentBackwards := wentBackwards st; accMarker := accMarker st; answers := e |}.

Definition with_accMarker (st : genState) (m : option (list byte)) : genState :=
  {| genMarker := genMarker st; persisted := persisted st; completed := completed st;
     wentBackwards := wentBackwards st; accMarker := m; answers := answers st |}.

Definition with_backwards (st : genState) : genState :=
  {| genMarker := genMarker st; persisted := persisted st; completed := completed st;
     wentBackwards := true; accMarker := accMarker st; answers := answers st |}.

(** [storeProgress] and a successful [batch.Write], then [dl.genMarker =
    current]. *)
Definition store_marker (st : genState) (current : list byte) : genState :=
  {| genMarker := current; persisted := persisted st ++ [current];
     completed := completed st; wentBackwards := wentBackwards st;
     accMarker := accMarker st; answers := answers st |}.

(** The completion: the done marker is stored and the marker of the layer
    becomes nil. *)
Definition store_done (st : genState) : genState :=
  {| genMarker := []; persisted := persisted st; completed := true;
     wentBackwards := wentBackwards st; accMarker := accMarker st;
     answers := answers st |}.

(** Computations of the generator: they change the state and return a value
    or fail; the state is kept on failure. *)
Definition Gen (A : Type) : Type := genState -> genState * result genError A.

Definition gret {A} (a : A) : Gen A := fun st => (st, Ok a).
Definition gfail {A} (e : genError) : Gen A := fun st => (st, Err e).
Definition gpanic {A} : Gen A := fun st => (st, Panic).
Definition gbind {A B} (c : Gen A) (k : A -> Gen B) : Gen B := fun st =>
  match c st with
  | (st', Ok a) => k a st'
  | (st', Err e) => (st', Err e)
  | (st', Panic) => (st', Panic)
  end.
Definition glift {A} (r : result genError A) : Gen A := fun st => (st, r).
Definition gget : Gen genState := fun st => (st, Ok st).

Notation "x ←g c ; k" := (gbind c (fun x => k))
  (at level 20, c at level 100, k at level 200, right associativity, only parsing).
Notation "' p ←g c ; k" := (gbind c (fun p => k))
  (at level 20, p pattern, c at level 100, k at level 200, right associativity, only parsing).

(** The next answer of each kind. *)
Definition next_iter (kd : kind) : Gen (list (list byte * list byte)) := fun st =>
  let e := answers st in
  match kd with
  | snapAccount =>
      match accountIter e with
      | [] => (st, Err errNoAnswer)
      | a :: rest =>
          (with_answers st {| accountIter := rest; storageIter := storageIter e;
                              proofs := proofs e; tries := tries e; signals := signals e |},
           Ok a)
      end
  | snapStorage =>
      match storageIter e with
      | [] => (st, Err errNoAnswer)
      | a :: rest =>
          (with_answers st {| accountIter := accountIter e; storageIter := rest;
                              proofs := proofs e; tries := tries e; signals := signals e |},
           Ok a)
      end
  end.

Definition next_proof : Gen proofAnswer := fun st =>
  let e := answers st in
  match proofs e with
  | [] => (st, Err errNoAnswer)
  | a :: rest =>
      (with_answers st {| accountIter := accountIter e; storageIter := storageIter e;
                          proofs := rest; tries := tries e; signals := signals e |},
       Ok a)
  end.

Definition next_trie : Gen trieAnswer := fun st =>
  let e := answers st in
  match tries e with
  | [] => (st, Err errNoAnswer)
  | a :: rest =>
      (with_answers st {| accountIter := accountIter e; storageIter := storageIter e;
                          proofs := proofs e; tries := rest; signals := signals e |},
       Ok a)
  end.

Definition next_signal : Gen signal := fun st =>
  let e := answers st in
  match signals e with
  | [] => (st, Err errNoAnswer)
  | a :: rest =>
      (with_answers st {| accountIter := accountIter e; storageIter := storageIter e;
                          proofs := proofs e; tries := tries e; signals := rest |},
       Ok a)
  end.

(** [proofResult] contains the output of range proving. *)
Record proofResult := {
  keys : list (list byte);   (* The key set of all elements being iterated *)
  vals : list (list byte);   (* The val set of all elements being iterated *)
  diskMore : bool;           (* Set when the database has extra snapshot states *)
  trieMore : bool;           (* Set when the trie has extra snapshot states *)
  valid : bool;              (* [proofErr == nil] *)
  tr : bool                  (* the trie was resolved by the prover *)
}.

(** The loop of [proveRange] over what the iterator yields. *)
Fixpoint proveRange_loop (prefix min : list byte) (max : nat)
    (valueConvertFn : option (list byte -> option (list byte)))
    (entries : list (list byte * list byte)) (keys vals : list (list byte))
    : result genError (list (list byte) * list (list byte) * bool) :=
  match entries with
  | [] => Ok (keys, vals, false)
  | (key, value) :: rest =>
      if is_lt (bytes_compare key min) then Err errInvalidIteration
      else
        match go_slice key 0 (len prefix) with
        | None => Panic
        | Some p =>
            if negb (bool_decide (p = prefix)) then Ok (keys, vals, false)
            else if (length keys =? max)%nat then Ok (keys, vals, true)
            else
              let val := match valueConvertFn with
                         | None => value
                         | Some f => default value (f value)
                         end in
              proveRange_loop prefix min max valueConvertFn rest
                (keys ++ [drop (length prefix) key]) (vals ++ [val])
        end
  end.

(** [proveRange] proves the snapshot segment with particular prefix is
    "valid". *)
Definition proveRange (prefix : list byte) (kd : kind) (origin : option (list byte))
    (max : nat) (valueConvertFn : option (list byte -> option (list byte)))
    : Gen proofResult :=
  entries ←g next_iter kd;
  '(keys, vals, diskMore) ←g
     glift (proveRange_loop prefix (prefix ++ default [] origin) max valueConvertFn entries [] []);
  pa ←g next_proof;
  if bool_decide (origin = None) && negb diskMore then
    if pa_stackError pa then gfail errStackTrie
    else gret {| keys := keys; vals := vals; diskMore := false; trieMore := false;
                 valid := pa_rootMatches pa; tr := false |}
  else
    if negb (pa_trieOpens pa) then gfail errMissingTrie
    else if negb (pa_proveOrigin pa)
    then gret {| keys := keys; vals := vals; diskMore := diskMore; trieMore := false;
                 valid := false; tr := true |}
    else if (0 <? length keys)%nat && negb (pa_proveLast pa)
    then gret {| keys := keys; vals := vals; diskMore := diskMore; trieMore := false;
                 valid := false; tr := true |}
    else gret {| keys := keys; vals := vals; diskMore := diskMore; trieMore := pa_cont pa;
                 valid := pa_verified pa; tr := true |}.

(** [onStateCallback]: key, value, write, delete. *)
Definition onStateCallback := list byte -> list byte -> bool -> bool -> Gen unit.

(** [result.forEach]. *)
Fixpoint forEach (keys vals : list (list byte)) (callback : list byte -> list byte -> Gen unit)
    : Gen unit :=
  match keys with
  | [] => gret tt
  | key :: keys' =>
      _ ←g callback key (default [] (head vals));
      forEach keys' (tail vals) callback
  end.

(** The inner loop of the regeneration, on one leaf of the trie: the flat
    entries below the leaf are deleted, an entry at the leaf is compared
    with it. *)
Fixpoint merge_loop (onState : onStateCallback) (key value : list byte)
    (kvkeys kvvals : list (list byte)) : Gen (bool * list (list byte) * list (list byte)) :=
  match kvkeys with
  | [] => gret (true, [], kvvals)
  | k0 :: kvkeys' =>
      match bytes_compare k0 key with
      | Lt => _ ←g onState k0 [] false true;
              merge_loop onState key value kvkeys' (tail kvvals)
      | Eq => gret (negb (bool_decide (default [] (head kvvals) = value)), kvkeys', tail kvvals)
      | Gt => gret (true, kvkeys, kvvals)
      end
  end.

(** The loop of the regeneration over the leaves of the trie. *)
Fixpoint trie_loop (onState : onStateCallback) (last : option (list byte))
    (entries : list (list byte * list byte)) (kvkeys kvvals : list (list byte))
    : Gen (bool * list (list byte)) :=
  match entries with
  | [] => gret (false, kvkeys)
  | (key, value) :: rest =>
      if match last with
         | Some l => is_gt (bytes_compare key l)
         | None => false
         end
      then gret (true, kvkeys)
      else
        '(write, kvkeys', kvvals') ←g merge_loop onState key value kvkeys kvvals;
        _ ←g onState key value write false;
        trie_loop onState last rest kvkeys' kvvals'
  end.

(** The stale snapshot states remaining are deleted. *)
Fixpoint delete_rest (onState : onStateCallback) (kvkeys : list (list byte)) : Gen unit :=
  match kvkeys with
  | [] => gret tt
  | key :: rest => _ ←g onState key [] false true; delete_rest onState rest
  end.

(** [tr.NodeIterator(origin)]: the leaves from the first key at or after
    the origin on. *)
Fixpoint seek (origin : list byte) (entries : list (list byte * list byte))
    : list (list byte * list byte) :=
  match entries with
  | [] => []
  | e :: rest => if is_lt (bytes_compare e.1 origin) then seek origin rest else entries
  end.

(** [generateRange] generates the state segment with particular prefix:
    whether the table and the trie are exhausted, and the last key of the
    segment. *)
Definition generateRange (prefix : list byte) (kd : kind) (origin : option (list byte))
    (max : nat) (onState : onStateCallback)
    (valueConvertFn : option (list byte -> option (list byte)))
    : Gen (bool * option (list byte)) :=
  result ←g proveRange prefix kd origin max valueConvertFn;
  let last := last (keys result) in
  if valid result then
    _ ←g forEach (keys result) (vals result) (fun key val => onState key val false false);
    gret (negb (diskMore result) && negb (trieMore result), last)
  else
    ta ←g next_trie;
    if negb (tr result) && negb (ta_opens ta) then gfail errMissingTrie
    else if negb (ta_iterates ta) then gfail errNodeIterator
    else
      '(trieMore, kvkeys) ←g
         trie_loop onState last (seek (default [] origin) (ta_entries ta))
                   (keys result) (vals result);
      if ta_fails ta then gfail errTrieIterator
      else
        _ ←g delete_rest onState kvkeys;
        gret (negb trieMore && negb (diskMore result), last).

(** [checkAndFlush] checks if an interruption signal is received or the
    batch size has exceeded the allowance. *)
Definition checkAndFlush (current : list byte) : Gen unit :=
  sig ←g next_signal;
  if sig_batchFull sig || sig_abort sig then
    fun st =>
      let st1 := if is_lt (bytes_compare current (genMarker st))
                 then with_backwards st else st in
      if sig_writeFails sig then (st1, Err errBatchWrite)
      else
        let st2 := store_marker st1 current in
        if sig_abort sig then (st2, Err errAborted) else (st2, Ok tt)
  else gret tt.

(** The bound of the loops below: a round takes an answer of the iterator,
    so there are no more rounds than answers. *)
Definition rounds (kd : kind) (st : genState) : nat :=
  match kd with
  | snapAccount => S (length (accountIter (answers st)))
  | snapStorage => S (length (storageIter (answers st)))
  end.

(** The callback of [generateStorages]. *)
Definition onStorage (account : list byte) : onStateCallback :=
  fun key val write delete =>
    if delete then gret tt
    else checkAndFlush (account ++ key).

Fixpoint generateStorages_loop (fuel : nat) (account : list byte)
    (origin : option (list byte)) : Gen unit :=
  match fuel with
  | O => gfail errNoAnswer
  | S fuel' =>
      '(exhausted, last) ←g
         generateRange (SnapshotStoragePrefix ++ account) snapStorage origin
                       storageCheckRange (onStorage account) None;
      if exhausted : bool then gret tt
      else
        match increaseKey (default [] last) with
        | None => gret tt
        | Some origin' => generateStorages_loop fuel' account (Some origin')
        end
  end.

(** [generateStorages] generates the missing storage slots of the specific
    contract, from the given origin position. *)
Definition generateStorages (account : list byte) (storeMarker : option (list byte))
    : Gen unit :=
  fun st => generateStorages_loop (rounds snapStorage st) account storeMarker st.

Section Accounts.
(** [rlp.DecodeBytes] into a [types.StateAccount], of which the generator
    looks at the storage root; and [types.FullAccountRLP]. *)
Variable decodeRoot : list byte -> option N.
Variable FullAccountRLP : list byte -> option (list byte).

(** Whether the callback stands on the account the last run was interrupted
    in, inside its storage. *)
Definition in_progress (account : list byte) (st : genState) : bool :=
  match accMarker st with
  | Some m => bool_decide (account = m) && (HashLength <? length (genMarker st))%nat
  | None => false
  end.

(** The callback of [generateAccounts]. *)
Definition onAccount : onStateCallback :=
  fun key val write delete =>
    let account := BytesToHash key in
    if delete then gret tt
    else
      match decodeRoot val with
      | None => gpanic
      | Some root =>
          st ←g gget;
          let marker := if in_progress account st then genMarker st else account in
          _ ←g checkAndFlush marker;
          if root =? EmptyRootHash
          then fun st => (with_accMarker st None, Ok tt)
          else
            st' ←g gget;
            let storeMarker := if in_progress account st'
                               then Some (drop HashLength (genMarker st')) else None in
            _ ←g generateStorages account storeMarker;
            fun st => (with_accMarker st None, Ok tt)
      end.

Fixpoint generateAccounts_loop (fuel : nat) (origin : option (list byte))
    (accountRange : nat) : Gen unit :=
  match fuel with
  | O => gfail errNoAnswer
  | S fuel' =>
      '(exhausted, last) ←g
         generateRange SnapshotAccountPrefix snapAccount origin accountRange
                       onAccount (Some FullAccountRLP);
      match increaseKey (default [] last) with
      | None => gret tt
      | Some origin' =>
          if exhausted : bool then gret tt
          else generateAccounts_loop fuel' (Some origin') accountCheckRange
      end
  end.

(** [generateAccounts] generates the missing snapshot accounts as well as
    their storage slots in the main trie, from the given origin position. *)
Definition generateAccounts (accMarker0 : option (list byte)) : Gen unit :=
  fun st =>
    let accountRange := if (0 <? length (default [] accMarker0))%nat
                        then 1%nat else accountCheckRange in
    generateAccounts_loop (rounds snapAccount st) accMarker0 accountRange
                          (with_accMarker st accMarker0).

(** [generate] iterates over the state and storage tries, constructing the
    state snapshot.  The state it leaves is what the next run starts on.
    The marker is a slice without spare capacity: [dl.genMarker[:32]]
    panics on a marker shorter than a hash. *)
Definition generate (st : genState) : genState * result genError unit :=
  match (if (0 <? length (genMarker st))%nat
         then option_map Some (go_slice (genMarker st) 0 (N.of_nat HashLength))
         else Some None) with
  | None => (st, Panic)
  | Some accMarker0 =>
      match generateAccounts accMarker0 st with
      | (st', Ok _) =>
          match next_signal st' with
          | (st'', Ok sig) =>
              if sig_writeFails sig then (st'', Err errBatchWrite)
              else (store_done st'', Ok tt)
          | (st'', Err e) => (st'', Err e)
          | (st'', Panic) => (st'', Panic)
          end
      | (st', r) => (st', r)
      end
  end.

(** A sequence of runs, each with the answers of its own: a run starts on
    the state the previous one left, and no run starts once the snapshot is
    complete. *)
Fixpoint runs (envs : list env) (st : genState) : genState :=
  match envs with
  | [] => st
  | e :: rest =>
      if completed st then st
      else runs rest (generate (with_answers st e)).1
  end.

End Accounts.

End Generator.

(** * Trie key encodings (package encoding) *)

Module Encoding.

(** The operators of Go's [byte]: the result is cut to eight bits. *)
Definition byte_shl (b : byte) (n : N) : byte := byte_of_N (N.shiftl (Byte.to_N b) n).
Definition byte_or (a b : byte) : byte := byte_of_N (N.lor (Byte.to_N a) (Byte.to_N b)).
Definition byte_and (a b : byte) : byte := byte_of_N (N.land (Byte.to_N a) (Byte.to_N b)).
Definition byte_sub (a b : byte) : byte := byte_of_N (Byte.to_N a + 256 - Byte.to_N b).
Definition byte_div (a : byte) (n : N) : byte := byte_of_N (Byte.to_N a / n).
Definition byte_mod (a : byte) (n : N) : byte := byte_of_N (Byte.to_N a mod n).

(** The terminator of a hex key, [16]. *)
Definition terminator : byte := "016"%byte.

(** [HasTerm] returns whether a hex key has the terminator flag. *)
Definition HasTerm (s : list byte) : bool :=
  (0 <? length s)%nat && bool_decide (s !! (length s - 1)%nat = Some terminator).

(** [decodeNibbles], from round [bi] on: two nibbles make the byte at [bi] of
    [bytes].  An index out of range is a panic, here [None]. *)
Fixpoint decodeNibbles_from (bi : nat) (nibbles bytes : list byte) : option (list byte) :=
  match nibbles with
  | [] => Some bytes
  | [_] => None
  | hi :: lo :: nibbles' =>
      if (bi <? length bytes)%nat
      then decodeNibbles_from (S bi) nibbles' (<[bi := byte_or (byte_shl hi 4) lo]> bytes)
      else None
  end.

Definition decodeNibbles (nibbles bytes : list byte) : option (list byte) :=
  decodeNibbles_from 0 nibbles bytes.

(** The loop of [KeybytesToHex] from the byte at index [i] on. *)
Fixpoint KeybytesToHex_from (i : nat) (str nibbles : list byte) : list byte :=
  match str with
  | [] => nibbles
  | b :: str' =>
      KeybytesToHex_from (S i) str'
        (<[(i * 2 + 1)%nat := byte_mod b 16]> (<[(i * 2)%nat := byte_div b 16]> nibbles))
  end.

Definition KeybytesToHex (str : list byte) : list byte :=
  let l := (length str * 2 + 1)%nat in
  <[(l - 1)%nat := terminator]> (KeybytesToHex_from 0 str (replicate l "000"%byte)).

(** [HexToKeybytes] turns hex nibbles into key bytes.  This can only be used
    for keys of even length: it panics ([None]) on the others. *)
Definition HexToKeybytes (hex : list byte) : option (list byte) :=
  let hex := if HasTerm hex then take (length hex - 1) hex else hex in
  if negb (Nat.land (length hex) 1 =? 0)%nat then None
  else decodeNibbles hex (replicate (length hex / 2) "000"%byte).

(** [HexToCompact]: the flag byte, then the nibbles two to a byte. *)
Definition HexToCompact (hex : list byte) : option (list byte) :=
  let term := if HasTerm hex then "001"%byte else "000"%byte in
  let hex := if HasTerm hex then take (length hex - 1) hex else hex in
  let buf := replicate (length hex / 2 + 1) "000"%byte in
  let buf := <[0%nat := byte_shl term 5]> buf in
  if (Nat.land (length hex) 1 =? 1)%nat then
    match buf !! 0%nat, hex !! 0%nat with
    | Some flag, Some first =>
        let buf := <[0%nat := byte_or (byte_or flag (byte_shl "001"%byte 4)) first]> buf in
        rest ← decodeNibbles (drop 1 hex) (drop 1 buf);
        Some (take 1 buf ++ rest)
    | _, _ => None
    end
  else
    rest ← decodeNibbles hex (drop 1 buf);
    Some (take 1 buf ++ rest).

(** The loop of [HexToCompactInPlace], for the [n] rounds that remain. *)
Fixpoint HexToCompactInPlace_loop (n ni bi : nat) (hex : list byte) : option (list byte) :=
  match n with
  | O => Some hex
  | S n' =>
      match hex !! ni, hex !! (ni + 1)%nat with
      | Some hi, Some lo =>
          if (bi <? length hex)%nat
          then HexToCompactInPlace_loop n' (ni + 2) (bi + 1)
                 (<[bi := byte_or (byte_shl hi 4) lo]> hex)
          else None
      | _, _ => None
      end
  end.

(** [HexToCompactInPlace] places the compact key in the input buffer,
    returning the buffer as it leaves it and the length needed for the
    representation. *)
Definition HexToCompactInPlace (hex : list byte) : option (list byte * nat) :=
  let hexLen := length hex in
  let terminated := (0 <? hexLen)%nat
                    && bool_decide (hex !! (hexLen - 1)%nat = Some terminator) in
  let firstByte := if terminated then byte_shl "001"%byte 5 else "000"%byte in
  let hexLen := if terminated then (hexLen - 1)%nat else hexLen in
  let binLen := (hexLen / 2 + 1)%nat in
  let odd := (Nat.land hexLen 1 =? 1)%nat in
  match (if odd
         then option_map (fun first =>
                (byte_or (byte_or firstByte (byte_shl "001"%byte 4)) first, 1%nat))
                (hex !! 0%nat)
         else Some (firstByte, 0%nat)) with
  | None => None
  | Some (firstByte, ni) =>
      hex1 ← HexToCompactInPlace_loop ((hexLen + 1 - ni) / 2) ni 1 hex;
      if (0 <? length hex1)%nat
      then Some (<[0%nat := firstByte]> hex1, binLen)
      else None
  end.

(** [CompactToHex]. *)
Definition CompactToHex (compact : list byte) : option (list byte) :=
  if (length compact =? 0)%nat then Some compact
  else
    let base := KeybytesToHex compact in
    match base !! 0%nat with
    | None => None
    | Some flag =>
        (* delete terminator flag *)
        let base := if Byte.to_N flag <? 2 then take (length base - 1) base else base in
        (* apply odd flag *)
        let chop := byte_sub "002"%byte (byte_and flag "001"%byte) in
        if (N.to_nat (Byte.to_N chop) <=? length base)%nat
        then Some (drop (N.to_nat (Byte.to_N chop)) base)
        else None
    end.

(** [HexToReverseCompact]: the key flag is put in the end of the key. *)
Definition HexToReverseCompact (hex : list byte) : option (list byte) :=
  let term := if HasTerm hex then "001"%byte else "000"%byte in
  let hex := if HasTerm hex then take (length hex - 1) hex else hex in
  let buf := replicate (length hex / 2 + 1) "000"%byte in
  let buf := <[(length buf - 1)%nat := byte_shl term 1]> buf in
  if (Nat.land (length hex) 1 =? 1)%nat then
    match buf !! (length buf - 1)%nat, hex !! (length hex - 1)%nat with
    | Some flag, Some last =>
        let buf := <[(length buf - 1)%nat :=
                      byte_or (byte_or flag "001"%byte) (byte_shl last 4)]> buf in
        front ← decodeNibbles (take (length hex - 1) hex) (take (length buf - 1) buf);
        Some (front ++ drop (length buf - 1) buf)
    | _, _ => None
    end
  else
    front ← decodeNibbles hex (take (length buf - 1) buf);
    Some (front ++ drop (length buf - 1) buf).

(** [ReverseCompactToHex]. *)
Definition ReverseCompactToHex (compact : list byte) : option (list byte) :=
  if (length compact =? 0)%nat then Some compact
  else
    (* delete terminator flag *)
    let base := KeybytesToHex compact in
    let base := take (length base - 1) base in
    (* apply odd flag *)
    match base !! (length base - 1)%nat with
    | None => None
    | Some flag =>
        let chop := byte_sub "002"%byte (byte_and flag "001"%byte) in
        if (N.to_nat (Byte.to_N chop) <=? length base)%nat then
          let base := take (length base - N.to_nat (Byte.to_N chop)) base in
          (* apply terminator flag *)
          if 2 <=? Byte.to_N flag then Some (base ++ [terminator]) else Some base
        else None
    end.

(** [PrefixLen] returns the length of the common prefix of [a] and [b]. *)
Fixpoint PrefixLen (a b : list byte) : nat :=
  match a, b with
  | x :: a', y :: b' => if bool_decide (x = y) then S (PrefixLen a' b') else O
  | _, _ => O
  end.

End Encoding.

(** * Node buffer: reads, commit and revert (package pathdb, nodebuffer) *)

Module NodeBufferOps.
Import NodeBuffer.

(** Go's [int64(x)]: the 64 bits of [x] read as a signed number. *)
Definition int64 (z : Z) : Z := ((z + 2 ^ 63) mod 2 ^ 64 - 2 ^ 63)%Z.

Inductive bufferError :=
| UnexpectedNodeError (expected hash owner : N) (path : list byte)
                                      (* type "cache": the buffered node has another hash *)
| errStateUnrecoverable.              (* "state is unrecoverable" *)

(** [node] retrieves the trie node with given node info; [None] is the nil
    node of a miss. *)
Definition node (b : nodebuffer) (owner : N) (path : list byte) (hash : N)
    : result bufferError (option Node) :=
  match nodes b !! owner with
  | None => Ok None
  | Some subset =>
      match subset !! path with
      | None => Ok None
      | Some n =>
          if negb (nHash n =? hash)
          then Err (UnexpectedNodeError hash (nHash n) owner path)
          else Ok (Some n)
      end
  end.

(** [updateSize] updates the total cache size by the given delta; a size
    that would be negative is logged and set to zero. *)
Definition updateSize (b : nodebuffer) (delta : Z) : nodebuffer :=
  let size' := int64 (int64 (Z.of_N (size b)) + delta) in
  {| layers := layers b;
     size := if (0 <=? size')%Z then u64 (Z.to_N size') else 0;
     limit := limit b;
     nodes := nodes b |}.

(** One node of [commit] for an owner the buffer has a subset of: it is
    stored under its path, and the size delta is moved by what the node adds
    to the subset or by the difference to the blob it replaces. *)
Definition commit_node (path : list byte) (n : Node)
    (acc : gmap (list byte) Node * Z) : gmap (list byte) Node * Z :=
  let '(current, delta) := acc in
  match current !! path with
  | None =>
      (<[path := n]> current,
       int64 (delta + int64 (Z.of_N (len (nBlob n)) + Z.of_N (len path))))
  | Some orig =>
      (<[path := n]> current,
       int64 (delta + int64 (Z.of_N (len (nBlob n)) - Z.of_N (len (nBlob orig)))))
  end.

(** One node of [commit] for an owner that is new to the buffer. *)
Definition commit_fresh (path : list byte) (n : Node)
    (acc : gmap (list byte) Node * Z) : gmap (list byte) Node * Z :=
  let '(fresh, delta) := acc in
  (<[path := n]> fresh,
   int64 (delta + int64 (Z.of_N (len (nBlob n)) + Z.of_N (len path)))).

Definition commit_subset (owner : N) (subset : gmap (list byte) Node)
    (acc : gmap N (gmap (list byte) Node) * Z) : gmap N (gmap (list byte) Node) * Z :=
  let '(all, delta) := acc in
  match all !! owner with
  | None =>
      let '(fresh, delta') := map_fold commit_fresh (∅, delta) subset in
      (<[owner := fresh]> all, delta')
  | Some current =>
      let '(current', delta') := map_fold commit_node (current, delta) subset in
      (<[owner := current']> all, delta')
  end.

(** [commit] merges the dirty nodes into the nodebuffer, in the iteration
    order of the two maps; the two meters it marks are left out. *)
Definition commit (b : nodebuffer) (dirty : gmap N (gmap (list byte) Node)) : nodebuffer :=
  let '(all, delta) := map_fold commit_subset (nodes b, 0%Z) dirty in
  let b' := updateSize {| layers := layers b; size := size b; limit := limit b;
                          nodes := all |} delta in
  {| layers := u64 (layers b' + 1); size := size b'; limit := limit b'; nodes := nodes b' |}.

Section Hasher.
(** [crypto.Keccak256Hash], an external collaborator. *)
Variable keccak : list byte -> N.

(** One node of [revert]: the buffered node of the path is replaced by the
    given blob; a path the subset does not hold is a panic. *)
Definition revert_node (path : list byte) (n : Node)
    (acc : result bufferError (gmap (list byte) Node * Z))
    : result bufferError (gmap (list byte) Node * Z) :=
  '(current, delta) ← acc;
  match current !! path with
  | None => Panic
  | Some cur =>
      if (length (nBlob n) =? 0)%nat
      then Ok (<[path := NewDeleted]> current,
               int64 (delta - int64 (Z.of_N (len (nBlob cur)))))
      else Ok (<[path := {| nHash := keccak (nBlob n); nBlob := nBlob n |}]> current,
               int64 (delta + int64 (int64 (Z.of_N (len (nBlob n)))
                                     - int64 (Z.of_N (len (nBlob cur))))))
  end.

Definition revert_subset (owner : N) (subset : gmap (list byte) Node)
    (acc : result bufferError (gmap N (gmap (list byte) Node) * Z))
    : result bufferError (gmap N (gmap (list byte) Node) * Z) :=
  '(all, delta) ← acc;
  match all !! owner with
  | None => Panic
  | Some current =>
      '(current', delta') ← map_fold revert_node (Ok (current, delta)) subset;
      Ok (<[owner := current']> all, delta')
  end.

(** [revert] is the reverse operation of [commit]: it merges the provided
    nodes into the nodebuffer and decrements the layers counter. *)
Definition revert (b : nodebuffer) (dirty : gmap N (gmap (list byte) Node))
    : result bufferError nodebuffer :=
  if layers b =? 0 then Err errStateUnrecoverable
  else
    let layers' := layers b - 1 in
    if layers' =? 0 then Ok (reset b)
    else
      '(all, delta) ← map_fold revert_subset (Ok (nodes b, 0%Z)) dirty;
      Ok (updateSize {| layers := layers'; size := size b; limit := limit b;
                        nodes := all |} delta).

End Hasher.

End NodeBufferOps.

(** * Writing the layer journal (package pathdb, journal.go) *)

Module JournalWriter.
Import NodeBuffer Journal.

Inductive journalWriteError :=
| errSnapshotStale.                   (* "layer stale" *)

(** The nodes of a layer as the journal holds them: per owner an entry with
    the path and the blob of each node, in the iteration order of the maps. *)
Definition journal_subset (subset : gmap (list byte) Node) : list journalNode :=
  (fun pn => {| jn_Path := pn.1; jn_Blob := nBlob pn.2 |}) <$> map_to_list subset.

Definition journal_nodes (all : gmap N (gmap (list byte) Node)) : list journalNodes :=
  (fun e => {| jns_Owner := e.1; jns_Nodes := journal_subset e.2 |}) <$> map_to_list all.

(** The state changes of a diff layer as the journal holds them: first the
    entry of the accounts, with the zero owner, then an entry for the
    storage of each account. *)
Definition journal_set (set : gmap N (list byte)) : list journalState :=
  (fun kv => {| js_Key := kv.1; js_Value := kv.2 |}) <$> map_to_list set.

Definition journal_states (s : stateSet) : list journalStates :=
  {| jss_Owner := 0; jss_Incomplete := false; jss_States := journal_set (Accounts s) |}
  :: ((fun e => {| jss_Owner := e.1;
                   jss_Incomplete := bool_decide (e.1 ∈ Incomplete s);
                   jss_States := journal_set e.2 |}) <$> map_to_list (Storages s)).

(** [journal] marshals a layer into the buffer: the disk layer writes its
    root, its state id and the nodes of its buffer, unless it is stale; a
    diff layer journals its parent first and then writes its root, its
    block number, its nodes and its state changes.  [stale] is the stale
    flag of the disk layer the stack stands on. *)
Fixpoint journal (stale : bool) (l : layer) (buffer : list jitem)
    : result journalWriteError (list jitem) :=
  match l with
  | DiskLayer rootHash id b =>
      if stale then Err errSnapshotStale
      else Ok (buffer ++ [JHash rootHash; JUint id; JNodes (journal_nodes (nodes b))])
  | DiffLayer parentLayer rootHash _ blockNumber dirty states =>
      buffer' ← journal stale parentLayer buffer;
      Ok (buffer' ++ [JHash rootHash; JUint blockNumber;
                      JNodes (journal_nodes dirty); JStates (journal_states states)])
  end.

End JournalWriter.

(** * Properties *)

(** ** Bytes and fixed-width integers *)

Lemma byte_of_N_to_N (n : N) : Byte.to_N (byte_of_N n) = n mod 256.
Proof.
  unfold byte_of_N.
  destruct (Byte.of_N (n mod 256)) as [b|] eqn:Hb; simpl.
  - by apply Byte.to_of_N.
  - apply Byte.of_N_None_iff in Hb.
    pose proof (N.mod_upper_bound n 256). lia.
Qed.

Lemma byte_of_N_of_to (b : byte) : byte_of_N (Byte.to_N b) = b.
Proof.
  unfold byte_of_N.
  rewrite N.mod_small by (pose proof (Byte.to_N_bounded b); lia).
  by rewrite Byte.of_to_N.
Qed.

Lemma le_bytes_length (w : nat) (n : N) : length (le_bytes w n) = w.
Proof. revert n. induction w as [|w IH]; intros n; simpl; [done | by rewrite IH]. Qed.

Lemma le_value_le_bytes (w : nat) (n : N) :
  le_value (le_bytes w n) = n mod 256 ^ N.of_nat w.
Proof.
  revert n. induction w as [|w IH]; intros n.
  - simpl. by rewrite N.mod_1_r.
  - cbn [le_bytes le_value]. rewrite byte_of_N_to_N, IH.
    rewrite Nat2N.inj_succ, N.pow_succ_r'.
    rewrite N.Div0.mod_mul_r. done.
Qed.

Lemma le_value_le_bytes_small (w : nat) (n : N) :
  n < 256 ^ N.of_nat w -> le_value (le_bytes w n) = n.
Proof. intros Hn. rewrite le_value_le_bytes. by apply N.mod_small. Qed.

Lemma be_bytes_length (w : nat) (n : N) : length (be_bytes w n) = w.
Proof. unfold be_bytes. by rewrite length_rev, le_bytes_length. Qed.

Lemma be_value_be_bytes_small (w : nat) (n : N) :
  n < 256 ^ N.of_nat w -> be_value (be_bytes w n) = n.
Proof.
  intros Hn. unfold be_value, be_bytes.
  rewrite rev_involutive. by apply le_value_le_bytes_small.
Qed.

Lemma le_value_bound (bs : list byte) : le_value bs < 256 ^ N.of_nat (length bs).
Proof.
  induction bs as [|b bs IH].
  - simpl. lia.
  - cbn [le_value length]. rewrite Nat2N.inj_succ, N.pow_succ_r'.
    pose proof (Byte.to_N_bounded b). lia.
Qed.

Lemma u32_small n : n < 2 ^ 32 -> u32 n = n.
Proof. intros. unfold u32. by apply N.mod_small. Qed.

Lemma u8_small n : n < 2 ^ 8 -> u8 n = n.
Proof. intros. unfold u8. by apply N.mod_small. Qed.

Lemma u32_bound n : u32 n < 2 ^ 32.
Proof. unfold u32. apply N.mod_upper_bound. lia. Qed.

Lemma u8_bound n : u8 n < 2 ^ 8.
Proof. unfold u8. apply N.mod_upper_bound. lia. Qed.

Lemma len_app {A} (a b : list A) : len (a ++ b) = len a + len b.
Proof. unfold len. rewrite length_app. lia. Qed.

Lemma go_slice_app {A} (a b c : list A) (i j : N) :
  i = len a -> j = len a + len b ->
  go_slice (a ++ b ++ c) i j = Some b.
Proof.
  intros -> ->. unfold go_slice.
  rewrite !len_app.
  destruct (N.leb_spec (len a) (len a + len b)); [|lia].
  destruct (N.leb_spec (len a + len b) (len a + (len b + len c))); [|lia].
  simpl. f_equal.
  unfold len. rewrite Nat2N.id.
  rewrite drop_app_length.
  replace (N.to_nat (N.of_nat (length a) + N.of_nat (length b) - N.of_nat (length a)))
    with (length b) by lia.
  by rewrite take_app_length.
Qed.

Lemma slice_or_panic_app {E A} (s a b c : list A) (i j : N) :
  s = a ++ b ++ c -> i = len a -> j = len a + len b ->
  slice_or_panic (E:=E) s i j = Ok b.
Proof.
  intros -> Hi Hj. unfold slice_or_panic. by rewrite (go_slice_app a b c i j).
Qed.

Lemma prefix_len {A} (a b : list A) : a `prefix_of` b -> len a <= len b.
Proof. intros [k ->]. rewrite len_app. lia. Qed.

(** ** The order of byte slices *)

Lemma byte_to_N_inj (x y : byte) : Byte.to_N x = Byte.to_N y -> x = y.
Proof.
  intros H. apply (f_equal Byte.of_N) in H. rewrite !Byte.of_to_N in H. congruence.
Qed.

Lemma bytes_compare_refl (a : list byte) : bytes_compare a a = Eq.
Proof. induction a as [|x a IH]; cbn; [done|]. by rewrite N.compare_refl. Qed.

Lemma bytes_compare_eq (a b : list byte) : bytes_compare a b = Eq -> a = b.
Proof.
  revert b. induction a as [|x a IH]; intros [|y b]; cbn; try done.
  destruct (N.compare_spec (Byte.to_N x) (Byte.to_N y)) as [H|H|H]; try done.
  intros Hab. f_equal; [by apply byte_to_N_inj | by apply IH].
Qed.

Lemma bytes_compare_antisym (a b : list byte) :
  bytes_compare b a = CompOpp (bytes_compare a b).
Proof.
  revert b. induction a as [|x a IH]; intros [|y b]; cbn; try done.
  rewrite (N.compare_antisym (Byte.to_N x) (Byte.to_N y)).
  destruct (Byte.to_N x ?= Byte.to_N y); cbn; done.
Qed.

Lemma bytes_compare_lt_trans (a b c : list byte) :
  bytes_compare a b = Lt -> bytes_compare b c = Lt -> bytes_compare a c = Lt.
Proof.
  revert b c. induction a as [|x a IH]; intros [|y b] [|z c]; cbn; try done.
  destruct (N.compare_spec (Byte.to_N x) (Byte.to_N y)) as [H1|H1|H1];
    destruct (N.compare_spec (Byte.to_N y) (Byte.to_N z)) as [H2|H2|H2]; try done;
    intros Hab Hbc.
  - rewrite H1, H2, N.compare_refl. by apply (IH b c).
  - replace (Byte.to_N x ?= Byte.to_N z) with Lt; [done|].
    symmetry. apply N.compare_lt_iff. lia.
  - replace (Byte.to_N x ?= Byte.to_N z) with Lt; [done|].
    symmetry. apply N.compare_lt_iff. lia.
  - replace (Byte.to_N x ?= Byte.to_N z) with Lt; [done|].
    symmetry. apply N.compare_lt_iff. lia.
Qed.

Lemma bytes_compare_le_lt_trans (a b c : list byte) :
  bytes_compare a b <> Gt -> bytes_compare b c = Lt -> bytes_compare a c = Lt.
Proof.
  intros Hab Hbc. destruct (bytes_compare a b) eqn:E; [| |done].
  - apply bytes_compare_eq in E. by subst.
  - by apply (bytes_compare_lt_trans a b c).
Qed.

Lemma bytes_compare_lt_le_trans (a b c : list byte) :
  bytes_compare a b = Lt -> bytes_compare b c <> Gt -> bytes_compare a c = Lt.
Proof.
  intros Hab Hbc. destruct (bytes_compare b c) eqn:E; [| |done].
  - apply bytes_compare_eq in E. by subst.
  - by apply (bytes_compare_lt_trans a b c).
Qed.

Lemma bytes_compare_le_trans (a b c : list byte) :
  bytes_compare a b <> Gt -> bytes_compare b c <> Gt -> bytes_compare a c <> Gt.
Proof.
  intros Hab Hbc. destruct (bytes_compare b c) eqn:E; [| |done].
  - apply bytes_compare_eq in E. by subst.
  - rewrite (bytes_compare_le_lt_trans a b c); done.
Qed.

Lemma bytes_compare_gt_lt (a b : list byte) :
  bytes_compare a b = Gt <-> bytes_compare b a = Lt.
Proof.
  rewrite (bytes_compare_antisym a b). destruct (bytes_compare a b); cbn; split; done.
Qed.

Lemma bytes_compare_take (n : nat) (a : list byte) : bytes_compare (take n a) a <> Gt.
Proof.
  revert n. induction a as [|x a IH]; intros [|n]; cbn; try done.
  rewrite N.compare_refl. apply IH.
Qed.

Lemma bytes_compare_app (a b : list byte) : bytes_compare a (a ++ b) <> Gt.
Proof.
  induction a as [|x a IH]; cbn.
  - by destruct b.
  - by rewrite N.compare_refl.
Qed.

Lemma bytes_compare_app_lt (a b : list byte) : b <> [] -> bytes_compare a (a ++ b) = Lt.
Proof.
  intros Hb. induction a as [|x a IH]; cbn.
  - by destruct b.
  - by rewrite N.compare_refl.
Qed.

(** ** State history *)

Module HistoryProofs.
Import History.

(** *** The packed layout is a codec *)

Lemma packed_accountIndex_encode_length (i : accountIndex) :
  length (packed_accountIndex_encode i) = packed_accountIndexSize.
Proof.
  unfold packed_accountIndex_encode.
  rewrite !length_app, be_bytes_length, !le_bytes_length. reflexivity.
Qed.

Lemma packed_slotIndex_encode_length (i : slotIndex) :
  length (packed_slotIndex_encode i) = packed_slotIndexSize.
Proof.
  unfold packed_slotIndex_encode.
  rewrite !length_app, be_bytes_length, !le_bytes_length. reflexivity.
Qed.

Lemma packed_accountIndex_decode_encode (i : accountIndex) :
  accountIndex_ok i ->
  packed_accountIndex_decode (packed_accountIndex_encode i) = i.
Proof.
  destruct i as [a l o so ss].
  intros (Ha & Hl & Ho & Hso & Hss).
  cbn [aiAddress aiLength aiOffset aiStorageOffset aiStorageSlots] in *.
  unfold packed_accountIndex_decode, packed_accountIndex_encode.
  cbn [aiAddress aiLength aiOffset aiStorageOffset aiStorageSlots].
  set (A := be_bytes AddressLength a).
  set (L := le_bytes 1 l). set (O := le_bytes 4 o).
  set (SO := le_bytes 4 so). set (SS := le_bytes 4 ss).
  assert (HA : length A = AddressLength) by apply be_bytes_length.
  assert (HL : length L = 1%nat) by apply le_bytes_length.
  assert (HO : length O = 4%nat) by apply le_bytes_length.
  assert (HSO : length SO = 4%nat) by apply le_bytes_length.
  assert (HSS : length SS = 4%nat) by apply le_bytes_length.
  assert (D1 : drop AddressLength (A ++ L ++ O ++ SO ++ SS) = L ++ O ++ SO ++ SS)
    by (by apply drop_app_length').
  assert (D2 : drop (AddressLength + 1) (A ++ L ++ O ++ SO ++ SS) = O ++ SO ++ SS).
  { rewrite <- drop_drop, D1. by apply drop_app_length'. }
  assert (D3 : drop (AddressLength + 5) (A ++ L ++ O ++ SO ++ SS) = SO ++ SS).
  { change (AddressLength + 5)%nat with ((AddressLength + 1) + 4)%nat.
    rewrite <- drop_drop, D2. by apply drop_app_length'. }
  assert (D4 : drop (AddressLength + 9) (A ++ L ++ O ++ SO ++ SS) = SS).
  { change (AddressLength + 9)%nat with ((AddressLength + 5) + 4)%nat.
    rewrite <- drop_drop, D3. by apply drop_app_length'. }
  rewrite D1, D2, D3, D4.
  rewrite !take_app_length' by done.
  rewrite (take_ge SS) by lia.
  subst A L O SO SS.
  rewrite be_value_be_bytes_small by exact Ha.
  rewrite !le_value_le_bytes_small by assumption.
  reflexivity.
Qed.

Lemma packed_slotIndex_decode_encode (i : slotIndex) :
  slotIndex_ok i ->
  packed_slotIndex_decode (packed_slotIndex_encode i) = i.
Proof.
  destruct i as [h l o].
  intros (Hh & Hl & Ho).
  cbn [siHash siLength siOffset] in *.
  unfold packed_slotIndex_decode, packed_slotIndex_encode.
  cbn [siHash siLength siOffset].
  set (A := be_bytes HashLength h).
  set (L := le_bytes 1 l). set (O := le_bytes 4 o).
  assert (HA : length A = HashLength) by apply be_bytes_length.
  assert (HL : length L = 1%nat) by apply le_bytes_length.
  assert (HO : length O = 4%nat) by apply le_bytes_length.
  assert (D1 : drop HashLength (A ++ L ++ O) = L ++ O) by (by apply drop_app_length').
  assert (D2 : drop (HashLength + 1) (A ++ L ++ O) = O).
  { rewrite <- drop_drop, D1. by apply drop_app_length'. }
  rewrite D1, D2.
  rewrite !take_app_length' by done.
  rewrite (take_ge O) by lia.
  subst A L O.
  rewrite be_value_be_bytes_small by exact Hh.
  rewrite !le_value_le_bytes_small by assumption.
  reflexivity.
Qed.

Global Instance packed_codec : IndexCodec := {|
  accountIndexSize := packed_accountIndexSize;
  slotIndexSize := packed_slotIndexSize;
  accountIndex_encode := packed_accountIndex_encode;
  accountIndex_decode := packed_accountIndex_decode;
  slotIndex_encode := packed_slotIndex_encode;
  slotIndex_decode := packed_slotIndex_decode;
  accountIndexSize_pos := ltac:(unfold packed_accountIndexSize, AddressLength; lia);
  slotIndexSize_pos := ltac:(unfold packed_slotIndexSize, HashLength; lia);
  slotIndexSize_u32 := ltac:(reflexivity);
  accountIndex_encode_length := packed_accountIndex_encode_length;
  slotIndex_encode_length := packed_slotIndex_encode_length;
  accountIndex_decode_encode := packed_accountIndex_decode_encode;
  slotIndex_decode_encode := packed_slotIndex_decode_encode
|}.

(** *** Sorted key lists *)

Lemma elem_of_sorted_keys {V} (m : gmap N V) (a : N) :
  a ∈ sorted_keys m <-> is_Some (m !! a).
Proof.
  unfold sorted_keys. rewrite merge_sort_Permutation, list_elem_of_fmap.
  split.
  - intros [[k v] [-> Hin]]. apply elem_of_map_to_list in Hin. by exists v.
  - intros [v Hv]. exists (a, v). split; [done|]. by apply elem_of_map_to_list.
Qed.

Lemma sorted_keys_NoDup {V} (m : gmap N V) : NoDup (sorted_keys m).
Proof.
  unfold sorted_keys. rewrite merge_sort_Permutation. apply NoDup_fst_map_to_list.
Qed.

Lemma sorted_keys_length {V} (m : gmap N V) : length (sorted_keys m) = size m.
Proof.
  unfold sorted_keys. rewrite merge_sort_Permutation, length_fmap.
  apply length_map_to_list.
Qed.

Lemma StronglySorted_le_lt (l : list N) :
  StronglySorted N.le l -> NoDup l -> StronglySorted N.lt l.
Proof.
  induction 1 as [|x l Hs IH Hall]; intros Hnd.
  - constructor.
  - apply NoDup_cons in Hnd as [Hx Hnd].
    constructor; [by apply IH|].
    rewrite Forall_forall in Hall |- *.
    intros y Hy. specialize (Hall y Hy).
    assert (x <> y) by (intros ->; apply Hx; by apply list_elem_of_In).
    lia.
Qed.

Lemma sorted_keys_strict {V} (m : gmap N V) : StronglySorted N.lt (sorted_keys m).
Proof.
  apply StronglySorted_le_lt; [|apply sorted_keys_NoDup].
  unfold sorted_keys. apply StronglySorted_merge_sort.
  - intros x y z. lia.
  - intros x y. lia.
Qed.

Lemma sorted_keys_empty {V} : sorted_keys (∅ : gmap N V) = [].
Proof. unfold sorted_keys. by rewrite map_to_list_empty. Qed.

Lemma sorted_keys_nil_inv {V} (m : gmap N V) : sorted_keys m = [] -> m = ∅.
Proof.
  intros H. apply map_size_empty_inv. by rewrite <- sorted_keys_length, H.
Qed.

Lemma lookup_fold_insert {V} (f : N -> V) (l : list N) (m0 : gmap N V) (k : N) :
  fold_left (fun m k => <[k := f k]> m) l m0 !! k =
  if decide (k ∈ l) then Some (f k) else m0 !! k.
Proof.
  revert m0. induction l as [|x l IH]; intros m0; cbn [fold_left].
  - destruct (decide (k ∈ [])) as [Hin|_]; [|done].
    by apply elem_of_nil in Hin.
  - rewrite IH.
    destruct (decide (k ∈ l)) as [Hin|Hnin]; destruct (decide (k ∈ x :: l)) as [Hin'|Hnin'].
    + done.
    + exfalso. apply Hnin'. by right.
    + apply elem_of_cons in Hin' as [->|?]; [|done].
      by rewrite lookup_insert_eq.
    + rewrite lookup_insert_ne; [done|].
      intros ->. apply Hnin'. by left.
Qed.

Lemma fold_insert_sorted_keys (slots : gmap N (list byte)) :
  fold_left (fun m k => <[k := default [] (slots !! k)]> m) (sorted_keys slots) ∅ = slots.
Proof.
  apply map_eq. intros k. rewrite lookup_fold_insert.
  destruct (decide (k ∈ sorted_keys slots)) as [Hin|Hnin].
  - apply elem_of_sorted_keys in Hin as [v Hv]. by rewrite Hv.
  - rewrite lookup_empty. symmetry. apply eq_None_not_Some.
    by rewrite <- elem_of_sorted_keys.
Qed.

Lemma lookup_fold_cond_insert {V} (c : N -> bool) (f : N -> V)
    (l : list N) (m0 : gmap N V) (k : N) :
  fold_left (fun m a => if c a then <[a := f a]> m else m) l m0 !! k =
  if decide (k ∈ l /\ c k = true) then Some (f k) else m0 !! k.
Proof.
  revert m0. induction l as [|x l IH]; intros m0; cbn [fold_left].
  - destruct (decide _) as [[Hin _]|_]; [|done].
    by apply elem_of_nil in Hin.
  - rewrite IH.
    destruct (decide (k ∈ l /\ c k = true)) as [[Hin Hc]|Hn];
      destruct (decide (k ∈ x :: l /\ c k = true)) as [[Hin' Hc']|Hn'].
    + done.
    + exfalso. apply Hn'. split; [by right | done].
    + apply elem_of_cons in Hin' as [->|?]; [|tauto].
      rewrite Hc'. by rewrite lookup_insert_eq.
    + destruct (c x) eqn:Hcx; [|done].
      rewrite lookup_insert_ne; [done|].
      intros ->. apply Hn'. split; [by left | done].
Qed.

Lemma History_eq (h1 h2 : History) :
  h_meta h1 = h_meta h2 -> accounts h1 = accounts h2 ->
  accountList h1 = accountList h2 -> storages h1 = storages h2 ->
  storageList h1 = storageList h2 -> h1 = h2.
Proof. destruct h1, h2; cbn; intros; by subst. Qed.

(** *** Decoding what was encoded *)

Section Roundtrip.
Context `{codec : IndexCodec}.

Lemma encode_slot_fold_prefix slots ks sd si :
  sd `prefix_of` (fold_left (encode_slot slots) ks (sd, si)).1 /\
  si `prefix_of` (fold_left (encode_slot slots) ks (sd, si)).2.
Proof.
  revert sd si. induction ks as [|k ks IH]; intros sd si; simpl.
  - done.
  - destruct (IH (sd ++ default [] (slots !! k))
                 (si ++ slotIndex_encode
                    {| siHash := k; siLength := u8 (len (default [] (slots !! k)));
                       siOffset := u32 (len sd) |})) as [H1 H2].
    split.
    + etrans; [|exact H1]. apply prefix_app_r; reflexivity.
    + etrans; [|exact H2]. apply prefix_app_r; reflexivity.
Qed.

Lemma encode_slot_fold_len slots ks sd si :
  len (fold_left (encode_slot slots) ks (sd, si)).2 =
  len si + len ks * N.of_nat slotIndexSize.
Proof.
  revert sd si. induction ks as [|k ks IH]; intros sd si; simpl.
  - unfold len. simpl. lia.
  - rewrite IH, len_app. unfold len. rewrite slotIndex_encode_length.
    simpl length. lia.
Qed.

Definition with_slot_cursor (r : decoder) (i d : N) : decoder :=
  {| accountData := accountData r;
     storageData := storageData r;
     accountIndexes := accountIndexes r;
     storageIndexes := storageIndexes r;
     lastAccount := lastAccount r;
     lastAccountRead := lastAccountRead r;
     lastSlotIndexRead := i;
     lastSlotDataRead := d |}.

Lemma readStorage_loop_encoded slots accIndex :
  forall ks sd si r j last lst stor,
    (fold_left (encode_slot slots) ks (sd, si)).1 `prefix_of` storageData r ->
    (fold_left (encode_slot slots) ks (sd, si)).2 `prefix_of` storageIndexes r ->
    len (storageData r) < 2 ^ 32 ->
    len (storageIndexes r) < 2 ^ 32 ->
    lastSlotDataRead r = len sd ->
    lastSlotIndexRead r = len si ->
    len si = (aiStorageOffset accIndex + j) * N.of_nat slotIndexSize ->
    Forall (fun k => hash_ok k /\ blob_ok (default [] (slots !! k))) ks ->
    StronglySorted N.lt (last :: ks) ->
    readStorage_loop (length ks) j accIndex r last lst stor =
    Ok (with_slot_cursor r
          (len (fold_left (encode_slot slots) ks (sd, si)).2)
          (len (fold_left (encode_slot slots) ks (sd, si)).1),
        lst ++ ks,
        fold_left (fun m k => <[k := default [] (slots !! k)]> m) ks stor).
Proof.
  induction ks as [|k ks IH]; intros sd si r j last lst stor Hsd Hsi Bsd Bsi Cd Ci Hj Hok Hsort.
  - simpl. rewrite app_nil_r. unfold with_slot_cursor. rewrite <- Cd, <- Ci.
    by destruct r.
  - cbn [fold_left] in *.
    set (data := default [] (slots !! k)) in *.
    set (idx := {| siHash := k; siLength := u8 (len data); siOffset := u32 (len sd) |}) in *.
    change (encode_slot slots (sd, si) k) with (sd ++ data, si ++ slotIndex_encode idx) in *.
    destruct (encode_slot_fold_prefix slots ks (sd ++ data) (si ++ slotIndex_encode idx)) as [P1 P2].
    assert (Q1 : (sd ++ data) `prefix_of` storageData r) by (etrans; eassumption).
    assert (Q2 : (si ++ slotIndex_encode idx) `prefix_of` storageIndexes r) by (etrans; eassumption).
    destruct Q1 as [t1 E1]. destruct Q2 as [t2 E2].
    rewrite <- !app_assoc in E1, E2.
    pose proof slotIndexSize_pos as Hpos.
    pose proof slotIndexSize_u32 as Hsz.
    assert (Lenc : len (slotIndex_encode idx) = N.of_nat slotIndexSize)
      by (unfold len; by rewrite slotIndex_encode_length).
    assert (Bsi' : len si + N.of_nat slotIndexSize <= len (storageIndexes r)).
    { rewrite E2, !len_app, Lenc. lia. }
    assert (Bsd' : len sd + len data <= len (storageData r)).
    { rewrite E1, !len_app. lia. }
    apply Forall_cons in Hok as [[Hk Hblob] Hok].
    assert (Hdata : len data < 2 ^ 8).
    { unfold blob_ok in Hblob. fold data in Hblob. unfold len. lia. }
    assert (Hidx : slotIndex_ok idx).
    { repeat split; simpl; [exact Hk | apply u8_bound | apply u32_bound]. }
    apply StronglySorted_inv in Hsort as [Hsort Hlast].
    apply Forall_cons in Hlast as [Hlk Hlast].
    (* the two positions in the index stream *)
    assert (Hstart : u32 (u32 (aiStorageOffset accIndex + u32 j) * u32 (N.of_nat slotIndexSize)) = len si).
    { assert (aiStorageOffset accIndex + j < 2 ^ 32) by nia.
      rewrite (u32_small j) by lia.
      rewrite (u32_small (aiStorageOffset accIndex + j)) by lia.
      rewrite (u32_small (N.of_nat slotIndexSize)) by lia.
      rewrite u32_small by lia. lia. }
    assert (Hend : u32 (u32 (aiStorageOffset accIndex + u32 (j + 1)) * u32 (N.of_nat slotIndexSize))
                   = len si + N.of_nat slotIndexSize).
    { assert (aiStorageOffset accIndex + (j + 1) < 2 ^ 32) by nia.
      rewrite (u32_small (j + 1)) by lia.
      rewrite (u32_small (aiStorageOffset accIndex + (j + 1))) by lia.
      rewrite (u32_small (N.of_nat slotIndexSize)) by lia.
      rewrite u32_small by lia. lia. }
    cbn [length readStorage_loop].
    rewrite Hstart, Hend, Ci, N.eqb_refl. cbn [negb].
    rewrite (u32_small (len (storageIndexes r))) by lia.
    destruct (N.ltb_spec (len (storageIndexes r)) (len si + N.of_nat slotIndexSize)); [lia|].
    rewrite (slice_or_panic_app _ si (slotIndex_encode idx) t2 _ _ E2) by (rewrite ?Lenc; lia).
    cbn [mbind result_bind].
    rewrite slotIndex_decode_encode by exact Hidx.
    cbn [siHash siOffset siLength idx].
    destruct (N.leb_spec k last); [lia|].
    rewrite (u32_small (len sd)) by lia.
    rewrite Cd, N.eqb_refl. cbn [negb].
    rewrite (u8_small (len data)) by lia.
    rewrite (u32_small (len data)) by lia.
    rewrite (u32_small (len sd + len data)) by lia.
    rewrite (u32_small (len (storageData r))) by lia.
    destruct (N.ltb_spec (len (storageData r)) (len sd + len data)); [lia|].
    rewrite (slice_or_panic_app _ sd data t1 _ _ E1) by lia.
    cbn [mbind result_bind].
    rewrite (IH (sd ++ data) (si ++ slotIndex_encode idx)); cbn [storageData storageIndexes lastSlotDataRead lastSlotIndexRead]; try assumption.
    + unfold with_slot_cursor; cbn. rewrite <- app_assoc. reflexivity.
    + by rewrite len_app.
    + by rewrite len_app, Lenc.
    + rewrite len_app, Lenc. lia.
Qed.


(** *** The account loop *)

Variable h : History.

Definition slots_of (a : Address) : gmap Hash (list byte) :=
  default ∅ (storages h !! a).

Definition slot_keys (a : Address) : list Hash :=
  match storages h !! a with
  | Some _ => default [] (storageList h !! a)
  | None => []
  end.

Definition account_index (e : encoder) (a : Address) : accountIndex :=
  {| aiAddress := a;
     aiLength := u8 (len (default [] (accounts h !! a)));
     aiOffset := u32 (len (e_accountData e));
     aiStorageOffset := match storages h !! a with Some _ => e_slotNumber e | None => 0 end;
     aiStorageSlots := match storages h !! a with
                       | Some slots => u32 (N.of_nat (size slots))
                       | None => 0
                       end |}.

Lemma encode_account_eq e a :
  encode_account h e a =
  {| e_slotNumber := match storages h !! a with
                     | Some slots => u32 (e_slotNumber e + u32 (N.of_nat (size slots)))
                     | None => e_slotNumber e
                     end;
     e_accountData := e_accountData e ++ default [] (accounts h !! a);
     e_storageData :=
       (fold_left (encode_slot (slots_of a)) (slot_keys a) (e_storageData e, e_storageIndexes e)).1;
     e_accountIndexes := e_accountIndexes e ++ accountIndex_encode (account_index e a);
     e_storageIndexes :=
       (fold_left (encode_slot (slots_of a)) (slot_keys a) (e_storageData e, e_storageIndexes e)).2 |}.
Proof.
  unfold encode_account, account_index, slots_of, slot_keys.
  destruct (storages h !! a) as [slots|]; cbn [default].
  - destruct (fold_left _ _ _) as [x y]. reflexivity.
  - reflexivity.
Qed.

Definition stream_prefix (e e' : encoder) : Prop :=
  e_accountData e `prefix_of` e_accountData e' /\
  e_storageData e `prefix_of` e_storageData e' /\
  e_accountIndexes e `prefix_of` e_accountIndexes e' /\
  e_storageIndexes e `prefix_of` e_storageIndexes e'.

Lemma stream_prefix_refl e : stream_prefix e e.
Proof. by repeat split. Qed.

Lemma stream_prefix_trans e1 e2 e3 :
  stream_prefix e1 e2 -> stream_prefix e2 e3 -> stream_prefix e1 e3.
Proof.
  intros (A1 & A2 & A3 & A4) (B1 & B2 & B3 & B4).
  repeat split; etrans; eassumption.
Qed.

Lemma encode_account_prefix e a : stream_prefix e (encode_account h e a).
Proof.
  rewrite encode_account_eq.
  destruct (encode_slot_fold_prefix (slots_of a) (slot_keys a)
              (e_storageData e) (e_storageIndexes e)) as [P1 P2].
  repeat split; cbn; try assumption; apply prefix_app_r; reflexivity.
Qed.

Lemma encode_fold_prefix l e : stream_prefix e (fold_left (encode_account h) l e).
Proof.
  revert e. induction l as [|a l IH]; intros e; simpl.
  - apply stream_prefix_refl.
  - eapply stream_prefix_trans; [apply encode_account_prefix | apply IH].
Qed.

Lemma encode_fold_AI_length l e :
  length (e_accountIndexes (fold_left (encode_account h) l e)) =
  (length (e_accountIndexes e) + length l * accountIndexSize)%nat.
Proof.
  revert e. induction l as [|a l IH]; intros e; simpl.
  - lia.
  - rewrite IH, encode_account_eq. cbn.
    rewrite length_app, accountIndex_encode_length. lia.
Qed.

(** The slot counter of the encoder counts the encoded slot indexes. *)
Definition enc_inv (e : encoder) : Prop :=
  len (e_storageIndexes e) = e_slotNumber e * N.of_nat slotIndexSize /\
  e_slotNumber e < 2 ^ 32.

Hypothesis Hlists : lists_sorted h.

Lemma slot_keys_spec a :
  slot_keys a = match storages h !! a with
                | Some slots => sorted_keys slots
                | None => []
                end.
Proof.
  unfold slot_keys. destruct Hlists as [_ ->].
  rewrite lookup_fmap. destruct (storages h !! a); reflexivity.
Qed.


Definition with_account_cursor (r : decoder) (a : Address) (d : N) : decoder :=
  {| accountData := accountData r;
     storageData := storageData r;
     accountIndexes := accountIndexes r;
     storageIndexes := storageIndexes r;
     lastAccount := Some a;
     lastAccountRead := d;
     lastSlotIndexRead := lastSlotIndexRead r;
     lastSlotDataRead := lastSlotDataRead r |}.

Definition above (prev : option Address) (a : Address) : Prop :=
  match prev with Some p => p < a | None => True end.

Lemma readAccount_encoded e a r i :
  e_accountData (encode_account h e a) `prefix_of` accountData r ->
  e_accountIndexes (encode_account h e a) `prefix_of` accountIndexes r ->
  len (accountData r) < 2 ^ 32 ->
  lastAccountRead r = len (e_accountData e) ->
  above (lastAccount r) a ->
  length (e_accountIndexes e) = (i * accountIndexSize)%nat ->
  address_ok a ->
  blob_ok (default [] (accounts h !! a)) ->
  e_slotNumber e < 2 ^ 32 ->
  readAccount r i =
  Ok (with_account_cursor r a (len (e_accountData (encode_account h e a))),
      account_index e a, default [] (accounts h !! a)).
Proof.
  rewrite encode_account_eq. cbn [e_accountData e_accountIndexes].
  set (data := default [] (accounts h !! a)).
  set (idx := account_index e a).
  intros [t1 E1] [t2 E2] Bad Cad Hprev Hi Ha Hblob Hsn.
  rewrite <- !app_assoc in E1, E2.
  assert (Lenc : length (accountIndex_encode idx) = accountIndexSize)
    by apply accountIndex_encode_length.
  assert (Hdata : len data < 2 ^ 8) by (unfold blob_ok in Hblob; unfold len; lia).
  assert (Bad' : len (e_accountData e) + len data <= len (accountData r)).
  { rewrite E1, !len_app. lia. }
  assert (Hidx : accountIndex_ok idx).
  { unfold idx, account_index. repeat split; cbn.
    - exact Ha.
    - apply u8_bound.
    - apply u32_bound.
    - destruct (storages h !! a); [exact Hsn | lia].
    - destruct (storages h !! a); [apply u32_bound | lia]. }
  unfold readAccount.
  assert (HlenAI : length (accountIndexes r) =
                   (i * accountIndexSize + accountIndexSize + length t2)%nat).
  { rewrite E2, !length_app. lia. }
  destruct (Nat.ltb_spec (length (accountIndexes r)) ((i + 1) * accountIndexSize)); [lia|].
  rewrite (slice_or_panic_app _ (e_accountIndexes e) (accountIndex_encode idx) t2 _ _ E2)
    by (unfold len; lia).
  cbn [mbind result_bind].
  rewrite accountIndex_decode_encode by exact Hidx.
  replace (match lastAccount r with
           | Some last => aiAddress idx <=? last
           | None => false
           end) with false.
  2:{ unfold above in Hprev. destruct (lastAccount r) as [p|]; [|done].
      cbn. symmetry. apply N.leb_gt. exact Hprev. }
  cbn [idx account_index aiOffset aiLength aiAddress].
  fold data.
  rewrite (u32_small (len (e_accountData e))) by lia.
  rewrite Cad, N.eqb_refl. cbn [negb].
  rewrite (u8_small (len data)) by lia.
  rewrite (u32_small (len data)) by lia.
  rewrite (u32_small (len (e_accountData e) + len data)) by lia.
  rewrite (u32_small (len (accountData r))) by lia.
  destruct (N.ltb_spec (len (accountData r)) (len (e_accountData e) + len data)); [lia|].
  rewrite (slice_or_panic_app _ (e_accountData e) data t1 _ _ E1) by lia.
  cbn [mbind result_bind].
  unfold with_account_cursor. rewrite len_app. reflexivity.
Qed.


Lemma slot_keys_length a :
  length (slot_keys a) = match storages h !! a with
                         | Some slots => size slots
                         | None => 0%nat
                         end.
Proof.
  rewrite slot_keys_spec. destruct (storages h !! a); [|done].
  apply sorted_keys_length.
Qed.

Lemma enc_inv_step e a :
  enc_inv e ->
  len (e_storageIndexes (encode_account h e a)) < 2 ^ 32 ->
  enc_inv (encode_account h e a).
Proof.
  intros [Hlen Hsn]. rewrite encode_account_eq. unfold enc_inv.
  cbn [e_storageIndexes e_slotNumber].
  rewrite encode_slot_fold_len. unfold len at 2 4. rewrite slot_keys_length.
  pose proof slotIndexSize_pos as Hpos.
  intros Hb. destruct (storages h !! a) as [slots|].
  - assert (e_slotNumber e + N.of_nat (size slots) < 2 ^ 32) by nia.
    rewrite (u32_small (N.of_nat (size slots))) by lia.
    rewrite u32_small by lia. split; [nia | lia].
  - split; [cbn; lia | lia].
Qed.

Lemma readStorage_encoded e a r :
  e_storageData (encode_account h e a) `prefix_of` storageData r ->
  e_storageIndexes (encode_account h e a) `prefix_of` storageIndexes r ->
  len (storageData r) < 2 ^ 32 ->
  len (storageIndexes r) < 2 ^ 32 ->
  lastSlotDataRead r = len (e_storageData e) ->
  lastSlotIndexRead r = len (e_storageIndexes e) ->
  enc_inv e ->
  (forall slots, storages h !! a = Some slots -> slots_ok slots) ->
  readStorage r (account_index e a) =
  Ok (with_slot_cursor r
        (len (e_storageIndexes (encode_account h e a)))
        (len (e_storageData (encode_account h e a))),
      slot_keys a, slots_of a).
Proof.
  intros Psd Psi Bsd Bsi Cd Ci [Hlen Hsn] Hok.
  pose proof (prefix_len _ _ Psi) as Hb.
  revert Psd Psi Hb. rewrite encode_account_eq. cbn [e_storageData e_storageIndexes].
  pose proof (slot_keys_length a) as Hkl.
  rewrite slot_keys_spec in *. unfold slots_of, readStorage, account_index.
  cbn [aiStorageSlots].
  pose proof slotIndexSize_pos as Hpos.
  destruct (storages h !! a) as [slots|] eqn:Hs; cbn [default].
  - intros Psd Psi Hb.
    rewrite encode_slot_fold_len in Hb.
    assert (Hsize : N.of_nat (size slots) < 2 ^ 32).
    { unfold len in Hb at 2. rewrite Hkl in Hb. nia. }
    rewrite (u32_small (N.of_nat (size slots))) by exact Hsize.
    rewrite Nat2N.id, <- Hkl.
    destruct (Hok slots eq_refl) as [Hne Hall].
    rewrite (readStorage_loop_encoded slots _ (sorted_keys slots)
               (e_storageData e) (e_storageIndexes e)); try assumption.
    + rewrite app_nil_l, fold_insert_sorted_keys. reflexivity.
    + cbn [aiStorageOffset]. lia.
    + rewrite Forall_forall. intros k Hk.
      apply elem_of_sorted_keys in Hk as [v Hv].
      rewrite Hv. cbn. destruct (Hall k v Hv) as (_ & ? & ?). done.
    + constructor; [apply sorted_keys_strict|].
      rewrite Forall_forall. intros k Hk.
      apply elem_of_sorted_keys in Hk as [v Hv].
      destruct (Hall k v Hv) as (? & _). done.
  - intros _ _ _. cbn.
    unfold with_slot_cursor. rewrite <- Cd, <- Ci. by destruct r.
Qed.

Definition decoded_step (hacc : History) (a : Address) : History :=
  {| h_meta := h_meta hacc;
     accounts := <[a := default [] (accounts h !! a)]> (accounts hacc);
     accountList := accountList hacc ++ [a];
     storages := if (0 <? length (slot_keys a))%nat
                 then <[a := slots_of a]> (storages hacc)
                 else storages hacc;
     storageList := if (0 <? length (slot_keys a))%nat
                    then <[a := slot_keys a]> (storageList hacc)
                    else storageList hacc |}.

Definition covers (e : encoder) (r : decoder) : Prop :=
  e_accountData e `prefix_of` accountData r /\
  e_storageData e `prefix_of` storageData r /\
  e_accountIndexes e `prefix_of` accountIndexes r /\
  e_storageIndexes e `prefix_of` storageIndexes r.

Lemma covers_prefix e e' r : stream_prefix e e' -> covers e' r -> covers e r.
Proof.
  intros (A1 & A2 & A3 & A4) (B1 & B2 & B3 & B4).
  repeat split; etrans; eassumption.
Qed.

Lemma decode_loop_encoded :
  forall rest e r i hacc,
    covers (fold_left (encode_account h) rest e) r ->
    len (accountData r) < 2 ^ 32 ->
    len (storageData r) < 2 ^ 32 ->
    len (storageIndexes r) < 2 ^ 32 ->
    lastAccountRead r = len (e_accountData e) ->
    lastSlotDataRead r = len (e_storageData e) ->
    lastSlotIndexRead r = len (e_storageIndexes e) ->
    enc_inv e ->
    length (e_accountIndexes e) = (i * accountIndexSize)%nat ->
    Forall (fun a => address_ok a /\ blob_ok (default [] (accounts h !! a))) rest ->
    (forall a slots, storages h !! a = Some slots -> slots_ok slots) ->
    StronglySorted N.lt rest ->
    Forall (above (lastAccount r)) rest ->
    decode_loop (length rest) i r hacc = Ok (fold_left decoded_step rest hacc).
Proof.
  induction rest as [|a rest IH];
    intros e r i hacc Hcov Bad Bsd Bsi Ca Cd Ci Hinv Hi Hok Hst Hsort Habove.
  - reflexivity.
  - cbn [fold_left length decode_loop] in *.
    set (e1 := encode_account h e a) in *.
    assert (Hcov1 : covers e1 r)
      by (eapply covers_prefix; [apply encode_fold_prefix | exact Hcov]).
    destruct Hcov1 as (P1 & P2 & P3 & P4).
    apply Forall_cons in Hok as [[Ha Hblob] Hok].
    apply Forall_cons in Habove as [Hab Habove].
    apply StronglySorted_inv in Hsort as [Hsort Hlt].
    destruct Hinv as [Hlen Hsn].
    rewrite (readAccount_encoded e a r i) by assumption.
    cbn [mbind result_bind]. fold e1.
    rewrite (readStorage_encoded e a) by (try assumption; try (split; assumption); eauto).
    cbn [mbind result_bind]. fold e1.
    cbn [account_index aiAddress].
    apply (IH e1).
    + exact Hcov.
    + exact Bad.
    + exact Bsd.
    + exact Bsi.
    + reflexivity.
    + reflexivity.
    + reflexivity.
    + apply enc_inv_step; [by split|].
      pose proof (prefix_len _ _ P4). fold e1. lia.
    + unfold e1. rewrite encode_account_eq. cbn.
      rewrite length_app, accountIndex_encode_length. lia.
    + exact Hok.
    + exact Hst.
    + exact Hsort.
    + cbn. exact Hlt.
Qed.


Lemma enc_inv_fold l e :
  enc_inv e ->
  len (e_storageIndexes (fold_left (encode_account h) l e)) < 2 ^ 32 ->
  enc_inv (fold_left (encode_account h) l e).
Proof.
  revert e. induction l as [|a l IH]; intros e Hinv Hb; cbn [fold_left] in *.
  - exact Hinv.
  - apply IH; [|exact Hb].
    apply enc_inv_step; [exact Hinv|].
    destruct (encode_fold_prefix l (encode_account h e a)) as (_ & _ & _ & P).
    pose proof (prefix_len _ _ P). lia.
Qed.

Lemma decoded_fold_fields l hacc :
  h_meta (fold_left decoded_step l hacc) = h_meta hacc /\
  accounts (fold_left decoded_step l hacc) =
    fold_left (fun m a => <[a := default [] (accounts h !! a)]> m) l (accounts hacc) /\
  accountList (fold_left decoded_step l hacc) = accountList hacc ++ l /\
  storages (fold_left decoded_step l hacc) =
    fold_left (fun m a => if (0 <? length (slot_keys a))%nat
                          then <[a := slots_of a]> m else m) l (storages hacc) /\
  storageList (fold_left decoded_step l hacc) =
    fold_left (fun m a => if (0 <? length (slot_keys a))%nat
                          then <[a := slot_keys a]> m else m) l (storageList hacc).
Proof.
  revert hacc. induction l as [|a l IH]; intros hacc; cbn [fold_left].
  - by rewrite app_nil_r.
  - destruct (IH (decoded_step hacc a)) as (-> & -> & -> & -> & ->).
    cbn. rewrite <- app_assoc. done.
Qed.

Lemma decoded_fold_all :
  storages_ok h ->
  fold_left decoded_step (accountList h)
    {| h_meta := h_meta h; accounts := ∅; accountList := [];
       storages := ∅; storageList := ∅ |} = h.
Proof.
  intros Hst.
  destruct (decoded_fold_fields (accountList h)
    {| h_meta := h_meta h; accounts := ∅; accountList := [];
       storages := ∅; storageList := ∅ |}) as (E1 & E2 & E3 & E4 & E5).
  cbn in E1, E2, E3, E4, E5.
  assert (Hc : forall k, (0 <? length (slot_keys k))%nat = true <-> is_Some (storages h !! k)).
  { intros k. rewrite slot_keys_length. split.
    - destruct (storages h !! k); [by eexists | done].
    - intros [slots Hs]. rewrite Hs. apply Nat.ltb_lt.
      destruct (Hst k slots Hs) as [_ [Hne _]].
      destruct (size slots) eqn:Hsz; [|lia].
      by apply map_size_empty_inv in Hsz. }
  assert (Hin : forall k, is_Some (storages h !! k) -> k ∈ accountList h).
  { intros k [slots Hs]. destruct Hlists as [Hal _]. rewrite Hal.
    apply elem_of_sorted_keys. by destruct (Hst k slots Hs). }
  destruct Hlists as [Hal Hsl].
  apply History_eq.
  - exact E1.
  - rewrite E2, Hal. apply fold_insert_sorted_keys.
  - exact E3.
  - rewrite E4. apply map_eq. intros k. rewrite lookup_fold_cond_insert.
    destruct (decide _) as [[Hk Hck]|Hn].
    + apply Hc in Hck as [slots Hs]. unfold slots_of. by rewrite Hs.
    + symmetry. apply eq_None_not_Some. intros Hsome.
      apply Hn. split; [by apply Hin | by apply Hc].
  - rewrite E5. apply map_eq. intros k. rewrite lookup_fold_cond_insert.
    destruct (decide _) as [[Hk Hck]|Hn].
    + apply Hc in Hck as [slots Hs]. unfold slot_keys. rewrite Hs.
      rewrite Hsl, lookup_fmap, Hs. done.
    + rewrite Hsl, lookup_fmap. symmetry.
      destruct (storages h !! k) eqn:Hs; [|done].
      exfalso. apply Hn. split; [apply Hin | apply Hc]; by eexists.
Qed.

(** The way back from the streams of a representable history, for the
    statements below that build on it. *)
Lemma decode_encode_streams :
  accounts h <> ∅ ->
  accounts_ok h ->
  storages_ok h ->
  streams_fit h ->
  decode h (encode h).1.1.1 (encode h).1.1.2 (encode h).1.2 (encode h).2 = Ok h.
Proof.
  intros Hne Hacc Hst (Bad & Bsd & Bsi).
  unfold encode in *. cbn [fst snd] in *.
  set (ef := fold_left (encode_account h) (accountList h) encoder_init) in *.
  assert (Hinit : enc_inv encoder_init) by (split; reflexivity).
  assert (Hinv : enc_inv ef) by (by apply enc_inv_fold).
  assert (HlenAI : length (e_accountIndexes ef) = (length (accountList h) * accountIndexSize)%nat).
  { unfold ef. rewrite encode_fold_AI_length. cbn. lia. }
  assert (Hnil : accountList h <> []).
  { destruct Hlists as [-> _]. intros H. by apply sorted_keys_nil_inv in H. }
  pose proof accountIndexSize_pos as Hapos.
  pose proof slotIndexSize_pos as Hspos.
  unfold decode, verify. cbn [accountIndexes storageIndexes].
  rewrite HlenAI, Nat.Div0.mod_mul. cbn [Nat.eqb negb orb].
  replace (length (accountList h) * accountIndexSize =? 0)%nat with false.
  2:{ symmetry. apply Nat.eqb_neq. destruct (accountList h); [done|]. cbn [length]. lia. }
  replace (length (e_storageIndexes ef) mod slotIndexSize =? 0)%nat with true.
  2:{ symmetry. apply Nat.eqb_eq. destruct Hinv as [Hl _]. unfold len in Hl.
      replace (length (e_storageIndexes ef))
        with (N.to_nat (e_slotNumber ef) * slotIndexSize)%nat by lia.
      apply Nat.Div0.mod_mul. }
  cbn [negb mbind result_bind].
  rewrite Nat.div_mul by lia.
  rewrite (decode_loop_encoded (accountList h) encoder_init); try done.
  - f_equal. by apply decoded_fold_all.
  - rewrite Forall_forall. intros a Ha.
    destruct Hlists as [Hl _]. rewrite Hl in Ha.
    apply elem_of_sorted_keys in Ha as [d Hd].
    rewrite Hd. cbn. exact (Hacc a d Hd).
  - intros a slots Hs. by destruct (Hst a slots Hs).
  - destruct Hlists as [-> _]. apply sorted_keys_strict.
  - rewrite Forall_forall. intros a _. exact I.
Qed.

(** C1, as the code has it: decoding the four streams that [encode]
    produces for a history gives the history back, in its accounts, its
    storages and its two sorted lists, provided the history has at least one
    account, every account and slot blob is shorter than 256 bytes, every
    account with storage has an account entry and at least one slot, no slot
    hash is zero, and the streams are shorter than 4 GiB. *)
Theorem decode_encode_id :
  accounts h <> ∅ ->
  accounts_ok h ->
  storages_ok h ->
  streams_fit h ->
  decode h (encode h).1.1.1 (encode h).1.1.2 (encode h).1.2 (encode h).2 = Ok h.
Proof.
  intros Hne Hacc Hst (Bad & Bsd & Bsi).
  unfold encode in *. cbn [fst snd] in *.
  set (ef := fold_left (encode_account h) (accountList h) encoder_init) in *.
  assert (Hinit : enc_inv encoder_init) by (split; reflexivity).
  assert (Hinv : enc_inv ef) by (by apply enc_inv_fold).
  assert (HlenAI : length (e_accountIndexes ef) = (length (accountList h) * accountIndexSize)%nat).
  { unfold ef. rewrite encode_fold_AI_length. cbn. lia. }
  assert (Hnil : accountList h <> []).
  { destruct Hlists as [-> _]. intros H. by apply sorted_keys_nil_inv in H. }
  pose proof accountIndexSize_pos as Hapos.
  pose proof slotIndexSize_pos as Hspos.
  unfold decode, verify. cbn [accountIndexes storageIndexes].
  rewrite HlenAI, Nat.Div0.mod_mul. cbn [Nat.eqb negb orb].
  replace (length (accountList h) * accountIndexSize =? 0)%nat with false.
  2:{ symmetry. apply Nat.eqb_neq. destruct (accountList h); [done|]. cbn [length]. lia. }
  replace (length (e_storageIndexes ef) mod slotIndexSize =? 0)%nat with true.
  2:{ symmetry. apply Nat.eqb_eq. destruct Hinv as [Hl _]. unfold len in Hl.
      replace (length (e_storageIndexes ef))
        with (N.to_nat (e_slotNumber ef) * slotIndexSize)%nat by lia.
      apply Nat.Div0.mod_mul. }
  cbn [negb mbind result_bind].
  rewrite Nat.div_mul by lia.
  rewrite (decode_loop_encoded (accountList h) encoder_init); try done.
  - f_equal. by apply decoded_fold_all.
  - rewrite Forall_forall. intros a Ha.
    destruct Hlists as [Hl _]. rewrite Hl in Ha.
    apply elem_of_sorted_keys in Ha as [d Hd].
    rewrite Hd. cbn. exact (Hacc a d Hd).
  - intros a slots Hs. by destruct (Hst a slots Hs).
  - destruct Hlists as [-> _]. apply sorted_keys_strict.
  - rewrite Forall_forall. intros a _. exact I.
Qed.

End Roundtrip.

(** *** Concrete histories *)

Definition accounts1 : gmap N (list byte) :=
  {[ 5 := ["a"%byte; "b"%byte]; 3 := []; 9 := ["c"%byte] ]}.
Definition storages1 : gmap N (gmap N (list byte)) :=
  {[ 5 := {[ 2 := ["x"%byte]; 1 := ["y"%byte; "z"%byte] ]} ]}.
Definition history1 : History := New 1 2 3 accounts1 storages1.

(** A history of three accounts, one of them with two storage slots. *)
Lemma decode_encode_id_witness :
  decode history1 (encode history1).1.1.1 (encode history1).1.1.2
         (encode history1).1.2 (encode history1).2 = Ok history1.
Proof.
  apply (decode_encode_id history1).
  - split; reflexivity.
  - intros H. apply (f_equal size) in H. vm_compute in H. discriminate.
  - unfold accounts_ok, address_ok, blob_ok. apply (bool_decide_unpack _). vm_compute. exact I.
  - unfold storages_ok, slots_ok, hash_ok, blob_ok. apply (bool_decide_unpack _). vm_compute. exact I.
  - repeat split; vm_compute; reflexivity.
Defined.

Definition history_empty : History := New 1 2 3 ∅ ∅.

(** C1 as stated fails on the history of no account: its encoding has an
    empty account index stream, which [decode] rejects. *)
Lemma empty_history_not_decoded :
  decode history_empty (encode history_empty).1.1.1 (encode history_empty).1.1.2
         (encode history_empty).1.2 (encode history_empty).2 = Err InvalidAccountIndex.
Proof. vm_compute. reflexivity. Qed.

(** *** The empty state set is not representable *)

Section Rejected.
Context `{codec : IndexCodec}.

Lemma decode_loop_grows (n : nat) :
  forall i r hacc h,
    decode_loop n i r hacc = Ok h ->
    (forall k, is_Some (accounts hacc !! k) -> is_Some (accounts h !! k)) /\
    length (accountList h) = (length (accountList hacc) + n)%nat.
Proof.
  induction n as [|n IH]; intros i r hacc h Hd; cbn [decode_loop] in Hd.
  - inversion Hd; subst. split; [done | lia].
  - destruct (readAccount r i) as [[[r1 accIndex] accData]| |]; try done.
    cbn [mbind result_bind] in Hd.
    destruct (readStorage r1 accIndex) as [[[r2 slotList] slotData]| |]; try done.
    cbn [mbind result_bind] in Hd.
    apply IH in Hd as [Hacc Hlen]. cbn [accounts accountList] in *. split.
    + intros k Hk. apply Hacc.
      destruct (decide (k = aiAddress accIndex)) as [->|Hne].
      * rewrite lookup_insert_eq. by eexists.
      * by rewrite lookup_insert_ne.
    + rewrite Hlen, length_app. cbn. lia.
Qed.

Lemma decode_loop_first (n : nat) i r hacc h :
  decode_loop (S n) i r hacc = Ok h -> accounts h <> ∅.
Proof.
  cbn [decode_loop]. intros Hd.
  destruct (readAccount r i) as [[[r1 accIndex] accData]| |]; try done.
  cbn [mbind result_bind] in Hd.
  destruct (readStorage r1 accIndex) as [[[r2 slotList] slotData]| |]; try done.
  cbn [mbind result_bind] in Hd.
  apply decode_loop_grows in Hd as [Hacc _]. cbn [accounts] in Hacc.
  intros Hempty.
  destruct (Hacc (aiAddress accIndex)) as [x Hx].
  - rewrite lookup_insert_eq. by eexists.
  - rewrite Hempty, lookup_empty in Hx. done.
Qed.

Lemma sorted_keys_singleton {V} (a : N) (x : V) : sorted_keys ({[ a := x ]} : gmap N V) = [a].
Proof. unfold sorted_keys. rewrite map_to_list_singleton. reflexivity. Qed.

(** C10: a record with an empty account index stream is rejected whatever
    the other three streams are, so a history that was decoded successfully
    has at least one account; empty account data and an empty storage index
    stream are accepted (here with the index of one account without data
    and without slots). *)
Theorem empty_account_index_rejected :
  (forall h0 ad sd si, decode h0 ad sd [] si = Err InvalidAccountIndex) /\
  (forall h0 ad sd ai si h,
     decode h0 ad sd ai si = Ok h -> accountList h <> [] /\ accounts h <> ∅) /\
  (forall h0 a,
     address_ok a ->
     decode h0 [] []
       (accountIndex_encode {| aiAddress := a; aiLength := 0; aiOffset := 0;
                               aiStorageOffset := 0; aiStorageSlots := 0 |}) [] =
     Ok {| h_meta := h_meta h0; accounts := {[ a := [] ]}; accountList := [a];
           storages := ∅; storageList := ∅ |}).
Proof.
  split; [|split].
  - intros h0 ad sd si. unfold decode, verify. cbn [accountIndexes length].
    rewrite Nat.Div0.mod_0_l. reflexivity.
  - intros h0 ad sd ai si h. unfold decode, verify. cbn [accountIndexes storageIndexes].
    destruct (length ai mod accountIndexSize =? 0)%nat eqn:Hmod; cbn [negb orb]; [|done].
    destruct (length ai =? 0)%nat eqn:Hlen; [done|].
    destruct (negb _); [done|]. cbn [mbind result_bind].
    apply Nat.eqb_eq in Hmod. apply Nat.eqb_neq in Hlen.
    pose proof accountIndexSize_pos as Hpos.
    destruct (length ai / accountIndexSize)%nat as [|n] eqn:Hdiv.
    { exfalso. pose proof (Nat.div_mod_eq (length ai) accountIndexSize). lia. }
    intros Hd. split.
    + apply decode_loop_grows in Hd as [_ Hl]. intros Hnil. rewrite Hnil in Hl. cbn in Hl. lia.
    + by apply decode_loop_first in Hd.
  - intros h0 a Ha.
    set (h := {| h_meta := h_meta h0; accounts := {[ a := [] ]}; accountList := [a];
                 storages := ∅; storageList := ∅ |}).
    assert (Henc : encode h =
                   ([], [], accountIndex_encode {| aiAddress := a; aiLength := 0; aiOffset := 0;
                                                   aiStorageOffset := 0; aiStorageSlots := 0 |}, [])).
    { unfold encode, h. cbn [accountList fold_left]. unfold encode_account.
      cbn [storages accounts]. rewrite lookup_empty, lookup_singleton_eq. reflexivity. }
    pose proof (decode_encode_streams h) as Hrt. rewrite Henc in Hrt. cbn [fst snd] in Hrt.
    change (decode h0) with (decode h). apply Hrt.
    + split; cbn; [by rewrite sorted_keys_singleton | by rewrite fmap_empty].
    + cbn. apply insert_non_empty.
    + intros k d Hk. cbn in Hk. apply lookup_singleton_Some in Hk as [<- <-].
      split; [done | unfold blob_ok; cbn; lia].
    + intros k d Hk. cbn in Hk. by rewrite lookup_empty in Hk.
    + unfold streams_fit. rewrite Henc. cbn. repeat split; reflexivity.
Qed.

End Rejected.

End HistoryProofs.

(** ** The checks of the history decoder *)

Module DecoderProofs.
Import History HistoryProofs.

(** *** Offsets without gaps *)

(** [gap_free offset length cur l]: the first item of [l] is at offset
    [cur], and each next item at the offset of the one before plus its
    length. *)
Fixpoint gap_free {A} (offset length : A -> N) (cur : N) (l : list A) : Prop :=
  match l with
  | [] => True
  | i :: rest => offset i = cur /\ gap_free offset length (cur + length i) rest
  end.

Definition total {A} (f : A -> N) (l : list A) : N :=
  fold_right (fun i n => f i + n) 0 l.

(** Strictly ascending after [last], if there is one. *)
Definition ascending_after (last : option N) (l : list N) : Prop :=
  match last with
  | Some x => StronglySorted N.lt (x :: l)
  | None => StronglySorted N.lt l
  end.

Lemma total_app {A} (f : A -> N) (l1 l2 : list A) :
  total f (l1 ++ l2) = total f l1 + total f l2.
Proof.
  unfold total. induction l1 as [|x l1 IH]; cbn [app fold_right]; [done|].
  rewrite IH. lia.
Qed.

Lemma gap_free_app {A} (offset length : A -> N) (cur : N) (l1 l2 : list A) :
  gap_free offset length cur (l1 ++ l2) <->
  gap_free offset length cur l1 /\ gap_free offset length (cur + total length l1) l2.
Proof.
  revert cur. induction l1 as [|x l1 IH]; intros cur; cbn [app gap_free].
  - unfold total. cbn. rewrite N.add_0_r. tauto.
  - rewrite IH. unfold total. cbn [fold_right]. rewrite N.add_assoc. tauto.
Qed.

Lemma take_plus {A} (n m : nat) (l : list A) :
  take (n + m) l = take n l ++ take m (drop n l).
Proof.
  revert l. induction n as [|n IH]; intros l; [done|].
  destruct l as [|x l]; cbn; [by rewrite take_nil|]. by rewrite IH.
Qed.

Lemma sorted_lt_cons (x y : N) (l : list N) :
  StronglySorted N.lt (x :: y :: l) <-> x < y /\ StronglySorted N.lt (y :: l).
Proof.
  split.
  - intros H. apply StronglySorted_inv in H as [Hs Hall].
    apply Forall_cons in Hall as [Hxy _]. done.
  - intros [Hxy Hs]. constructor; [done|].
    apply StronglySorted_inv in Hs as [_ Hall]. constructor; [done|].
    eapply Forall_impl; [exact Hall|]. intros z Hz. cbn in Hz. lia.
Qed.

Lemma ascending_after_cons (last : option N) (y : N) (l : list N) :
  ascending_after last (y :: l) <->
  match last with Some x => x < y | None => True end /\ ascending_after (Some y) l.
Proof.
  destruct last as [x|]; cbn; [apply sorted_lt_cons|tauto].
Qed.

Lemma pow2_divide_odd (k : nat) :
  forall s d : Z, Z.Odd s -> (2 ^ Z.of_nat k | s * d)%Z -> (2 ^ Z.of_nat k | d)%Z.
Proof.
  induction k as [|k IH]; intros s d Hs Hdiv.
  - exists d. cbn. lia.
  - rewrite Nat2Z.inj_succ, Z.pow_succ_r in * by lia.
    destruct Hs as [t Ht]. destruct Hdiv as [q Hq].
    assert (Hd : exists d', d = (2 * d')%Z).
    { exists (2 ^ Z.of_nat k * q - t * d)%Z. nia. }
    destruct Hd as [d' ->].
    destruct (IH s d') as [q' Hq'].
    + by exists t.
    + exists q. nia.
    + exists q'. nia.
Qed.

(** A multiple of an odd number that is taken modulo 2^32 tells the
    factor. *)
Lemma u32_mul_cancel (x c s : N) :
  N.odd s = true -> x < 2 ^ 32 -> c * s < 2 ^ 32 ->
  u32 (x * s) = c * s -> x = c.
Proof.
  intros Hodd Hx Hc H. unfold u32 in H.
  assert (Hs : Z.Odd (Z.of_N s)).
  { apply N.odd_spec in Hodd as [t Ht]. exists (Z.of_N t). lia. }
  assert (Hdiv : (2 ^ Z.of_nat 32 | Z.of_N s * (Z.of_N x - Z.of_N c))%Z).
  { exists (Z.of_N (x * s / 2 ^ 32)).
    pose proof (N.div_mod' (x * s) (2 ^ 32)) as Hdm. rewrite H in Hdm.
    remember (x * s / 2 ^ 32) as k.
    rewrite Z.mul_sub_distr_l, <- !N2Z.inj_mul.
    change (2 ^ 32) with 4294967296 in *.
    change (2 ^ Z.of_nat 32)%Z with 4294967296%Z. lia. }
  apply pow2_divide_odd in Hdiv; [|done].
  destruct Hdiv as [q Hq].
  change (2 ^ Z.of_nat 32)%Z with 4294967296%Z in Hq.
  change (2 ^ 32) with 4294967296 in Hx, Hc.
  assert (Hpos : 0 < s) by (destruct s; [done|lia]).
  assert (Hcs : c <= c * s) by nia.
  assert (q = 0%Z) by lia.
  subst q. lia.
Qed.

Section Accepted.
Context `{codec : IndexCodec}.
Variables ad sd ai si : list byte.

(** *** The structural invariants of the four streams *)

(** The index records the two index streams hold, by position. *)
Definition account_record (i : nat) : accountIndex :=
  accountIndex_decode (take accountIndexSize (drop (i * accountIndexSize) ai)).

Definition slot_record (k : nat) : slotIndex :=
  slotIndex_decode (take slotIndexSize (drop (k * slotIndexSize) si)).

Definition account_records : list accountIndex :=
  account_record <$> seq 0 (length ai / accountIndexSize).

Definition slot_records : list slotIndex :=
  slot_record <$> seq 0 (length si / slotIndexSize).

(** The slot records an account refers to. *)
Definition slots_of (a : accountIndex) : list slotIndex :=
  take (N.to_nat (aiStorageSlots a)) (drop (N.to_nat (aiStorageOffset a)) slot_records).

Definition has_slots (a : accountIndex) : bool := 0 <? aiStorageSlots a.

(** What [decode] requires of the streams.  The index streams hold whole
    records, at least one of an account.  The addresses ascend strictly.
    The account data are laid out without gap from offset 0 and lie in the
    account data stream.  The accounts with slots refer to the slot records
    one after the other from record 0, within the slot index stream.  The
    slot hashes of each account ascend strictly from above the zero hash.
    The data of the slots referred to are laid out without gap from offset
    0 and lie in the storage data stream.  Nothing is required of what the
    streams hold behind the last byte or record referred to, or of the
    storage offset of an account without slots. *)
Definition structural_invariants : Prop :=
  (0 < length ai)%nat /\
  (length ai mod accountIndexSize = 0)%nat /\
  (length si mod slotIndexSize = 0)%nat /\
  StronglySorted N.lt (aiAddress <$> account_records) /\
  gap_free aiOffset aiLength 0 account_records /\
  total aiLength account_records <= len ad /\
  gap_free aiStorageOffset aiStorageSlots 0 (List.filter has_slots account_records) /\
  total aiStorageSlots account_records <= len slot_records /\
  Forall (fun a => StronglySorted N.lt (0 :: (siHash <$> slots_of a))) account_records /\
  gap_free siOffset siLength 0
    (take (N.to_nat (total aiStorageSlots account_records)) slot_records) /\
  total siLength (take (N.to_nat (total aiStorageSlots account_records)) slot_records)
    <= len sd.

(** The same from a position of the decoder on: after the address [last],
    with the account data read up to [A], the slot records up to record [C]
    and the slot data up to [D]. *)
Definition suffix_ok (last : option N) (A C D : N) (l : list accountIndex) : Prop :=
  ascending_after last (aiAddress <$> l) /\
  gap_free aiOffset aiLength A l /\
  A + total aiLength l <= len ad /\
  gap_free aiStorageOffset aiStorageSlots C (List.filter has_slots l) /\
  C + total aiStorageSlots l <= len slot_records /\
  Forall (fun a => StronglySorted N.lt (0 :: (siHash <$> slots_of a))) l /\
  gap_free siOffset siLength D
    (take (N.to_nat (total aiStorageSlots l)) (drop (N.to_nat C) slot_records)) /\
  D + total siLength
        (take (N.to_nat (total aiStorageSlots l)) (drop (N.to_nat C) slot_records))
    <= len sd.

Lemma structural_invariants_suffix :
  structural_invariants <->
  (0 < length ai)%nat /\
  (length ai mod accountIndexSize = 0)%nat /\
  (length si mod slotIndexSize = 0)%nat /\
  suffix_ok None 0 0 0 account_records.
Proof.
  unfold structural_invariants, suffix_ok, ascending_after.
  change (N.to_nat 0) with 0%nat. rewrite drop_0, !N.add_0_l. tauto.
Qed.

(** What one account adds to the requirement. *)
Definition account_step (last : option N) (A : N) (a : accountIndex) : Prop :=
  match last with Some x => x < aiAddress a | None => True end /\
  aiOffset a = A /\ A + aiLength a <= len ad.

(** What the [n] slot records from record [C] on add, for the slots of an
    account from its slot [j] on, after the hash [last]. *)
Definition slots_step (last : N) (C D : N) (n : nat) (so j : N) : Prop :=
  (n = 0%nat \/ u32 (so + j) = C) /\
  C + N.of_nat n <= len slot_records /\
  StronglySorted N.lt (last :: (siHash <$> take n (drop (N.to_nat C) slot_records))) /\
  gap_free siOffset siLength D (take n (drop (N.to_nat C) slot_records)) /\
  D + total siLength (take n (drop (N.to_nat C) slot_records)) <= len sd.

Lemma suffix_ok_nil (last : option N) (A C D : N) :
  A <= len ad -> C <= len slot_records -> D <= len sd -> suffix_ok last A C D [].
Proof.
  intros HA HC HD. unfold suffix_ok, ascending_after, total. cbn.
  rewrite !N.add_0_r.
  split; [destruct last; repeat constructor|]. repeat split; try done.
Qed.

Lemma suffix_ok_cons (last : option N) (A C D : N) (a : accountIndex)
    (l : list accountIndex) :
  aiStorageOffset a < 2 ^ 32 ->
  suffix_ok last A C D (a :: l) <->
  account_step last A a /\
  slots_step 0 C D (N.to_nat (aiStorageSlots a)) (aiStorageOffset a) 0 /\
  suffix_ok (Some (aiAddress a)) (A + aiLength a) (C + aiStorageSlots a)
            (D + total siLength (take (N.to_nat (aiStorageSlots a))
                                      (drop (N.to_nat C) slot_records))) l.
Proof.
  intros Hso. unfold suffix_ok, account_step, slots_step.
  rewrite fmap_cons, ascending_after_cons. cbn [gap_free List.filter].
  rewrite Forall_cons.
  replace (total aiLength (a :: l)) with (aiLength a + total aiLength l) by done.
  replace (total aiStorageSlots (a :: l))
    with (aiStorageSlots a + total aiStorageSlots l) by done.
  rewrite N2Nat.inj_add, take_plus, gap_free_app, total_app, !fmap_take.
  rewrite drop_drop, <- N2Nat.inj_add, N2Nat.id, N.add_0_r.
  set (k := aiStorageSlots a).
  set (mine := take (N.to_nat k) (drop (N.to_nat C) slot_records)).
  set (rest := take (N.to_nat (total aiStorageSlots l))
                    (drop (N.to_nat (C + k)) slot_records)).
  assert (Hu : u32 (aiStorageOffset a) = aiStorageOffset a).
  { unfold u32. by apply N.mod_small. }
  rewrite Hu.
  assert (Hmine : (N.to_nat k = 0%nat \/ aiStorageOffset a = C) ->
                  take (N.to_nat k) (siHash <$> drop (N.to_nat (aiStorageOffset a)) slot_records)
                  = take (N.to_nat k) (siHash <$> drop (N.to_nat C) slot_records)).
  { intros [-> | ->]; [by rewrite !take_0|done]. }
  unfold slots_of, has_slots. fold k. rewrite fmap_take.
  destruct (N.ltb_spec 0 k) as [Hk|Hk]; cbn [gap_free].
  - split.
    + intros ((H0 & H1) & (H2 & H3) & H4 & (H5 & H6) & H7 & (H8 & H9) & (H10 & H11) & H12).
      rewrite (Hmine (or_intror H5)) in H8.
      repeat split; try done; try lia; by right.
    + intros ((H1 & H2 & H3) & ((H4 & H5 & H6 & H7 & H8) & (G1 & G2 & G3 & G4 & G5 & G6 & G7 & G8))).
      destruct H4 as [H4|H4]; [lia|].
      rewrite (Hmine (or_intror H4)).
      repeat split; try done; try lia.
  - assert (Hk0 : k = 0) by lia.
    assert (Hm : mine = []) by (unfold mine; rewrite Hk0; by rewrite take_0).
    rewrite (Hmine (or_introl (f_equal N.to_nat Hk0))).
    rewrite Hm, Hk0. change (N.to_nat 0) with 0%nat. rewrite !take_0.
    unfold total at 3 4 5. cbn [fold_right gap_free].
    rewrite !N.add_0_r. split.
    + intros ((H0 & H1) & (H2 & H3) & H4 & H5 & H6 & (H8 & H9) & (H10 & H11) & H12).
      repeat split; try done; try lia; by left.
    + intros ((H1 & H2 & H3) & ((H4 & H5 & H6 & H7 & H8) & (G1 & G2 & G3 & G4 & G5 & G6 & G7 & G8))).
      repeat split; try done; try lia.
Qed.

(** *** The decoder against the invariants *)

(** The fields of a decoded index fit their widths, as the typed fields of
    the source do; the size of a slot index record is odd; and the data
    streams and the slot index stream stay clear of 4 GiB, where the 32-bit
    cursors would wrap. *)
Hypothesis account_fields : forall chunk, accountIndex_ok (accountIndex_decode chunk).
Hypothesis slot_fields : forall chunk, slotIndex_ok (slotIndex_decode chunk).
Hypothesis slot_size_odd : N.odd (N.of_nat slotIndexSize) = true.
Hypothesis ad_short : len ad + 255 < 2 ^ 32.
Hypothesis sd_short : len sd + 255 < 2 ^ 32.
Hypothesis si_short : len si + N.of_nat slotIndexSize < 2 ^ 32.

(** The decoder on the four streams, at a position. *)
Definition cursor (last : option N) (A C D : N) : decoder :=
  {| accountData := ad; storageData := sd; accountIndexes := ai; storageIndexes := si;
     lastAccount := last; lastAccountRead := A;
     lastSlotIndexRead := C * N.of_nat slotIndexSize; lastSlotDataRead := D |}.

Lemma slice_or_panic_in {E A} (s : list A) (a b : N) :
  a <= b -> b <= len s ->
  slice_or_panic (E:=E) s a b = Ok (take (N.to_nat (b - a)) (drop (N.to_nat a) s)).
Proof.
  intros Hab Hb. unfold slice_or_panic, go_slice.
  destruct (N.leb_spec a b); [|lia]. destruct (N.leb_spec b (len s)); [|lia]. done.
Qed.

Lemma len_account_records : length account_records = (length ai / accountIndexSize)%nat.
Proof. unfold account_records. by rewrite length_fmap, length_seq. Qed.

Lemma len_slot_records : len slot_records = N.of_nat (length si / slotIndexSize).
Proof. unfold len, slot_records. by rewrite length_fmap, length_seq. Qed.

Lemma account_records_lookup (i : nat) :
  (i < length ai / accountIndexSize)%nat ->
  account_records !! i = Some (account_record i).
Proof.
  intros Hi. unfold account_records. rewrite list_lookup_fmap, lookup_seq_lt by done. done.
Qed.

Lemma slot_records_lookup (k : nat) :
  (k < length si / slotIndexSize)%nat ->
  slot_records !! k = Some (slot_record k).
Proof.
  intros Hk. unfold slot_records. rewrite list_lookup_fmap, lookup_seq_lt by done. done.
Qed.

Lemma u32_id (n : N) : n < 2 ^ 32 -> u32 n = n.
Proof. intros. unfold u32. by apply N.mod_small. Qed.

Lemma readAccount_cases (last : option N) (A C D : N) (i : nat) :
  (i < length ai / accountIndexSize)%nat -> A <= len ad ->
  match readAccount (cursor last A C D) i with
  | Ok (r', idx, data) =>
      idx = account_record i /\
      r' = cursor (Some (aiAddress (account_record i)))
                  (A + aiLength (account_record i)) C D /\
      account_step last A (account_record i)
  | Err _ => ~ account_step last A (account_record i)
  | Panic => False
  end.
Proof.
  intros Hi HA. unfold readAccount, account_step.
  cbn [accountIndexes accountData lastAccount lastAccountRead cursor].
  pose proof accountIndexSize_pos as Hpos.
  assert (Hfit : ((i + 1) * accountIndexSize <= length ai)%nat).
  { pose proof (Nat.div_mod_eq (length ai) accountIndexSize). nia. }
  destruct (Nat.ltb_spec (length ai) ((i + 1) * accountIndexSize)) as [|_]; [lia|].
  rewrite slice_or_panic_in by (unfold len; lia). cbn.
  replace (N.to_nat (N.of_nat ((i + 1) * accountIndexSize) - N.of_nat (i * accountIndexSize)))
    with accountIndexSize by lia.
  rewrite Nat2N.id. fold (account_record i).
  set (a := account_record i).
  destruct (account_fields (take accountIndexSize (drop (i * accountIndexSize) ai)))
    as (_ & Hlen & Hoff & _). fold (account_record i) in Hlen, Hoff. fold a in Hlen, Hoff.
  assert (Hlen' : aiLength a < 256) by (change (2 ^ 8) with 256 in Hlen; done).
  destruct last as [x|].
  - destruct (N.leb_spec (aiAddress a) x) as [Hx|Hx]; [intros (H & _); lia|].
    destruct (N.eqb_spec (aiOffset a) A) as [Ho|Ho]; cbn [negb]; [|intros (_ & H & _); lia].
    rewrite (u32_id (aiLength a)) by (change (2 ^ 32) with 4294967296; lia).
    rewrite (u32_id (len ad)), (u32_id (aiOffset a + aiLength a))
      by (change (2 ^ 32) with 4294967296 in *; lia).
    destruct (N.ltb_spec (len ad) (aiOffset a + aiLength a)) as [Hl|Hl];
      [intros (_ & _ & H); lia|].
    rewrite slice_or_panic_in by lia. cbn. rewrite Ho.
    repeat split; try done; lia.
  - destruct (N.eqb_spec (aiOffset a) A) as [Ho|Ho]; cbn [negb]; [|intros (_ & H & _); lia].
    rewrite (u32_id (aiLength a)) by (change (2 ^ 32) with 4294967296; lia).
    rewrite (u32_id (len ad)), (u32_id (aiOffset a + aiLength a))
      by (change (2 ^ 32) with 4294967296 in *; lia).
    destruct (N.ltb_spec (len ad) (aiOffset a + aiLength a)) as [Hl|Hl];
      [intros (_ & _ & H); lia|].
    rewrite slice_or_panic_in by lia. cbn. rewrite Ho.
    repeat split; try done; lia.
Qed.

Lemma len_si_records :
  (length si mod slotIndexSize = 0)%nat ->
  len si = len slot_records * N.of_nat slotIndexSize.
Proof.
  intros Hmod. rewrite len_slot_records. unfold len.
  pose proof (Nat.div_mod_eq (length si) slotIndexSize). nia.
Qed.

Lemma take_slot_records (C : N) (n : nat) :
  C + 1 <= len slot_records ->
  take (S n) (drop (N.to_nat C) slot_records)
    = slot_record (N.to_nat C) :: take n (drop (N.to_nat (C + 1)) slot_records).
Proof.
  intros HC. rewrite len_slot_records in HC.
  rewrite (drop_S _ (slot_record (N.to_nat C))) by (apply slot_records_lookup; lia).
  cbn [take]. by replace (N.to_nat (C + 1)) with (S (N.to_nat C)) by lia.
Qed.

Lemma slots_step_succ (last C D : N) (n : nat) (so j : N) :
  C + 1 <= len slot_records ->
  u32 (so + j) = C -> u32 (so + (j + 1)) = C + 1 ->
  slots_step last C D (S n) so j <->
  last < siHash (slot_record (N.to_nat C)) /\
  siOffset (slot_record (N.to_nat C)) = D /\
  D + siLength (slot_record (N.to_nat C)) <= len sd /\
  slots_step (siHash (slot_record (N.to_nat C))) (C + 1)
             (D + siLength (slot_record (N.to_nat C))) n so (j + 1).
Proof.
  intros HC Hx Hx1. unfold slots_step. rewrite (take_slot_records C n HC).
  set (s := slot_record (N.to_nat C)).
  set (rest := take n (drop (N.to_nat (C + 1)) slot_records)).
  rewrite fmap_cons, sorted_lt_cons. cbn [gap_free].
  replace (total siLength (s :: rest)) with (siLength s + total siLength rest) by done.
  split.
  - intros (_ & H1 & (H2 & H3) & (H4 & H5) & H6).
    repeat split; try done; try lia; by right.
  - intros (H1 & H2 & H3 & (_ & H5 & H6 & H7 & H8)).
    repeat split; try done; try lia; by right.
Qed.

Lemma readStorage_loop_cases (a : accountIndex) (lastAcc : option N) (A : N) (n : nat) :
  forall (j last C D : N) (slist : list N) (storage : gmap N (list byte)),
    (length si mod slotIndexSize = 0)%nat ->
    C <= len slot_records -> D <= len sd -> j + N.of_nat n < 2 ^ 32 ->
    match readStorage_loop n j a (cursor lastAcc A C D) last slist storage with
    | Ok (r', l, m) =>
        slots_step last C D n (aiStorageOffset a) j /\
        r' = cursor lastAcc A (C + N.of_nat n)
                    (D + total siLength (take n (drop (N.to_nat C) slot_records)))
    | Err _ => ~ slots_step last C D n (aiStorageOffset a) j
    | Panic => False
    end.
Proof.
  induction n as [|n IH]; intros j last C D slist storage Hmod HC HD Hj.
  - cbn [readStorage_loop]. unfold slots_step, total. cbn.
    rewrite !N.add_0_r. repeat split; try done; try lia; try (by left); repeat constructor.
  - pose proof (len_si_records Hmod) as Hsi.
    pose proof slotIndexSize_u32 as Hssz.
    pose proof slotIndexSize_pos as Hpos.
    set (ssz := N.of_nat slotIndexSize) in *.
    assert (Hssz0 : 0 < ssz) by (unfold ssz; lia).
    assert (HCs : C * ssz <= len si) by nia.
    change (2 ^ 32) with 4294967296 in *.
    cbn [readStorage_loop]. cbv zeta.
    cbn [cursor lastSlotIndexRead lastSlotDataRead storageIndexes storageData
         accountData accountIndexes lastAccount lastAccountRead].
    fold ssz.
    rewrite (u32_id j), (u32_id (j + 1)), (u32_id ssz), (u32_id (len si))
      by (change (2 ^ 32) with 4294967296; lia).
    destruct (N.eqb_spec (u32 (u32 (aiStorageOffset a + j) * ssz)) (C * ssz))
      as [Hstart|Hstart]; cbn [negb].
    2:{ intros ([?|Hx] & _); [lia|]. apply Hstart. rewrite Hx. apply u32_id.
        change (2 ^ 32) with 4294967296. lia. }
    assert (Hx : u32 (aiStorageOffset a + j) = C).
    { apply (u32_mul_cancel _ _ ssz); try done.
      - unfold u32. apply N.mod_upper_bound. lia.
      - change (2 ^ 32) with 4294967296. lia. }
    assert (Hx1 : u32 (aiStorageOffset a + (j + 1)) = C + 1).
    { unfold u32 in *. rewrite N.add_assoc, <- N.Div0.add_mod_idemp_l, Hx.
      apply N.mod_small. change (2 ^ 32) with 4294967296. nia. }
    rewrite Hx, Hx1.
    rewrite (u32_id (C * ssz)), (u32_id ((C + 1) * ssz))
      by (change (2 ^ 32) with 4294967296; lia).
    destruct (N.ltb_spec (len si) ((C + 1) * ssz)) as [Hend|Hend].
    { intros (_ & Hle & _). nia. }
    assert (HC1 : C + 1 <= len slot_records) by nia.
    rewrite slice_or_panic_in by lia. cbn [mbind result_bind].
    replace (N.to_nat ((C + 1) * ssz - C * ssz)) with slotIndexSize by (unfold ssz; lia).
    replace (N.to_nat (C * ssz)) with (N.to_nat C * slotIndexSize)%nat by (unfold ssz; lia).
    fold (slot_record (N.to_nat C)).
    pose proof (slots_step_succ last C D n (aiStorageOffset a) j HC1 Hx Hx1) as Hiff.
    set (s := slot_record (N.to_nat C)) in *.
    destruct (slot_fields (take slotIndexSize (drop (N.to_nat C * slotIndexSize) si)))
      as (_ & Hlen & Hoff). fold (slot_record (N.to_nat C)) in Hlen, Hoff.
    fold s in Hlen, Hoff. change (2 ^ 8) with 256 in Hlen.
    destruct (N.leb_spec (siHash s) last) as [Hh|Hh];
      [intros H; apply Hiff in H as (H & _); lia|].
    destruct (N.eqb_spec (siOffset s) D) as [Ho|Ho]; cbn [negb];
      [|intros H; apply Hiff in H as (_ & H & _); lia].
    rewrite (u32_id (siLength s)), (u32_id (len sd)), (u32_id (siOffset s + siLength s))
      by (change (2 ^ 32) with 4294967296; lia).
    rewrite Ho.
    destruct (N.ltb_spec (len sd) (D + siLength s)) as [Hl|Hl];
      [intros H; apply Hiff in H as (_ & _ & H & _); lia|].
    rewrite slice_or_panic_in by lia. cbn [mbind result_bind].
    specialize (IH (j + 1) (siHash s) (C + 1) (D + siLength s)
                   (slist ++ [siHash s])
                   (<[siHash s := take (N.to_nat (D + siLength s - D)) (drop (N.to_nat D) sd)]> storage)
                   Hmod HC1 Hl).
    unfold cursor in IH. fold ssz in IH.
    destruct (readStorage_loop n (j + 1) a _ (siHash s) _ _) as [[[r' l] m]|e|].
    + destruct IH as [Hstep ->]; [change (2 ^ 32) with 4294967296; lia|].
      split; [apply Hiff; split; [lia|split; [done|split; [lia|exact Hstep]]]|].
      unfold cursor. fold ssz.
      rewrite (take_slot_records C n HC1). fold s.
      replace (total siLength (s :: take n (drop (N.to_nat (C + 1)) slot_records)))
        with (siLength s + total siLength (take n (drop (N.to_nat (C + 1)) slot_records)))
        by done.
      f_equal; lia.
    + intros H. apply Hiff in H as (_ & _ & _ & Hstep).
      apply IH; [change (2 ^ 32) with 4294967296; lia|done].
    + apply IH. change (2 ^ 32) with 4294967296. lia.
Qed.

Lemma decode_loop_cases (n : nat) :
  forall (i : nat) (last : option N) (A C D : N) (h : History),
    (length si mod slotIndexSize = 0)%nat ->
    (i + n = length ai / accountIndexSize)%nat ->
    A <= len ad -> C <= len slot_records -> D <= len sd ->
    match decode_loop n i (cursor last A C D) h with
    | Ok _ => suffix_ok last A C D (drop i account_records)
    | Err _ => ~ suffix_ok last A C D (drop i account_records)
    | Panic => False
    end.
Proof.
  induction n as [|n IH]; intros i last A C D h Hmod Hi HA HC HD.
  - cbn [decode_loop]. rewrite drop_ge by (rewrite len_account_records; lia).
    by apply suffix_ok_nil.
  - assert (Hlt : (i < length ai / accountIndexSize)%nat) by lia.
    rewrite (drop_S _ (account_record i)) by (by apply account_records_lookup).
    set (a := account_record i).
    destruct (account_fields (take accountIndexSize (drop (i * accountIndexSize) ai)))
      as (_ & _ & _ & Hso & Hk). fold (account_record i) in Hso, Hk. fold a in Hso, Hk.
    pose proof (suffix_ok_cons last A C D a (drop (S i) account_records) Hso) as Hiff.
    cbn [decode_loop].
    pose proof (readAccount_cases last A C D i Hlt HA) as Hacc. fold a in Hacc.
    destruct (readAccount (cursor last A C D) i) as [[[r1 idx] data]|e|];
      cbn [mbind result_bind]; [|intros H; apply Hiff in H as (H & _); by apply Hacc|done].
    destruct Hacc as (-> & -> & Hacc).
    unfold readStorage.
    pose proof (readStorage_loop_cases a (Some (aiAddress a)) (A + aiLength a)
                  (N.to_nat (aiStorageSlots a)) 0 0 C D [] ∅ Hmod HC HD) as Hsl.
    rewrite N2Nat.id in Hsl.
    destruct (readStorage_loop _ 0 a _ 0 [] ∅) as [[[r2 l] m]|e|];
      cbn [mbind result_bind].
    + destruct Hsl as [Hsl ->]; [lia|]. cbv zeta.
      assert (Hstep := Hsl). destruct Hsl as (_ & HC' & _ & _ & HD').
      destruct Hacc as (Hlast & Hoff & HA').
      specialize (IH (i + 1)%nat (Some (aiAddress a)) (A + aiLength a)
                     (C + aiStorageSlots a)
                     (D + total siLength (take (N.to_nat (aiStorageSlots a))
                                               (drop (N.to_nat C) slot_records)))).
      replace (i + 1)%nat with (S i) in * by lia.
      match goal with
      | |- match decode_loop n (S i) _ ?h1 with _ => _ end =>
          specialize (IH h1 Hmod ltac:(lia) HA' ltac:(lia) HD');
          destruct (decode_loop n (S i) _ h1)
      end.
      * apply Hiff. split; [split; [done|split; [done|done]]|]. split; [exact Hstep|exact IH].
      * intros H. apply Hiff in H as (_ & _ & H). by apply IH.
      * done.
    + intros H. apply Hiff in H as (_ & H & _). apply Hsl; [lia|done].
    + apply Hsl. lia.
Qed.


End Accepted.

(** *** The index layout of section 4.3 *)

Lemma le_value_take_below (n : nat) (bs : list byte) :
  le_value (take n bs) < 256 ^ N.of_nat n.
Proof.
  eapply N.lt_le_trans; [apply le_value_bound|].
  apply N.pow_le_mono_r; [done|]. rewrite length_take. lia.
Qed.

Lemma be_value_take_below (n : nat) (bs : list byte) :
  be_value (take n bs) < 256 ^ N.of_nat n.
Proof.
  unfold be_value. eapply N.lt_le_trans; [apply le_value_bound|].
  apply N.pow_le_mono_r; [done|]. rewrite length_rev, length_take. lia.
Qed.

Lemma packed_accountIndex_decode_ok (chunk : list byte) :
  accountIndex_ok (packed_accountIndex_decode chunk).
Proof.
  unfold accountIndex_ok, address_ok, packed_accountIndex_decode. cbn.
  split; [apply (be_value_take_below AddressLength)|].
  split; [apply (le_value_take_below 1)|].
  split; [apply (le_value_take_below 4)|].
  split; apply (le_value_take_below 4).
Qed.

Lemma packed_slotIndex_decode_ok (chunk : list byte) :
  slotIndex_ok (packed_slotIndex_decode chunk).
Proof.
  unfold slotIndex_ok, hash_ok, packed_slotIndex_decode. cbn.
  split; [apply (be_value_take_below HashLength)|].
  split; [apply (le_value_take_below 1)|apply (le_value_take_below 4)].
Qed.

(** Two accounts, the second with two slots, and the four streams [encode]
    gives for them. *)
Definition history_two : History :=
  New 1 2 3 {[ 7 := ["a"%byte]; 9 := [] ]}
            {[ 9 := {[ 4 := ["x"%byte]; 1 := ["y"%byte; "z"%byte] ]} ]}.

Definition blank : History :=
  {| h_meta := h_meta history_two; accounts := ∅; accountList := [];
     storages := ∅; storageList := ∅ |}.

Definition ad_two : list byte := (encode history_two).1.1.1.
Definition sd_two : list byte := (encode history_two).1.1.2.
Definition ai_two : list byte := (encode history_two).1.2.
Definition si_two : list byte := (encode history_two).2.


(** The same streams with a byte behind the account data, a byte behind the
    slot data and a whole slot record behind the slot records, none of
    which any index refers to. *)
Definition ad_long : list byte := ad_two ++ ["!"%byte].
Definition sd_long : list byte := sd_two ++ ["!"%byte].
Definition si_long : list byte :=
  si_two ++ packed_slotIndex_encode {| siHash := 5; siLength := 9; siOffset := 77 |}.


End DecoderProofs.

(** ** Node buffer *)

Module NodeBufferProofs.
Import NodeBuffer.

(** What a buffered node leaves in the store: nothing if it is deleted, its
    blob otherwise. *)
Definition stored (n : Node) : option (list byte) :=
  if IsDeleted n then None else Some (nBlob n).

Definition lookup_node (nodes : gmap N (gmap (list byte) Node)) (owner : N) (path : list byte)
    : option Node :=
  subset ← nodes !! owner; subset !! path.

(** The effect of the operations [ops] that [writeNodes] adds for the nodes
    of one owner. *)
Definition subset_written (owner : N) (subset : gmap (list byte) Node) (ops : list batchOp) : Prop :=
  forall db,
    let db' := fold_left apply_op ops db in
    persistentStateID db' = persistentStateID db /\
    writeFails db' = writeFails db /\
    events db' = events db /\
    (forall p, accountTrieNodes db' !! p =
               if owner =? 0
               then match subset !! p with
                    | Some n => stored n
                    | None => accountTrieNodes db !! p
                    end
               else accountTrieNodes db !! p) /\
    (forall o p, storageTrieNodes db' !! (o, p) =
                 if negb (owner =? 0) && (o =? owner)
                 then match subset !! p with
                      | Some n => stored n
                      | None => storageTrieNodes db !! (o, p)
                      end
                 else storageTrieNodes db !! (o, p)).

(** The batch operation that [writeNodes] issues for one node. *)
Definition node_op (owner : N) (path : list byte) (n : Node) : batchOp :=
  if IsDeleted n
  then (if owner =? 0 then DeleteAccountTrieNode path
        else DeleteStorageTrieNode owner path)
  else (if owner =? 0 then PutAccountTrieNode path (nBlob n)
        else PutStorageTrieNode owner path (nBlob n)).

Lemma writeNode_batch (owner : N) (path : list byte) (n : Node)
    (batch : list batchOp) (clean : cleanCache) :
  (writeNode owner path n (batch, clean)).1 = batch ++ [node_op owner path n].
Proof.
  unfold writeNode, node_op. by destruct (IsDeleted n), (owner =? 0).
Qed.

Lemma apply_node_op (owner : N) (path : list byte) (n : Node) (db : diskdb) :
  let db' := apply_op db (node_op owner path n) in
  persistentStateID db' = persistentStateID db /\
  writeFails db' = writeFails db /\
  events db' = events db /\
  (forall p, accountTrieNodes db' !! p =
             if (owner =? 0) && bool_decide (p = path)
             then stored n else accountTrieNodes db !! p) /\
  (forall o p, storageTrieNodes db' !! (o, p) =
               if negb (owner =? 0) && (o =? owner) && bool_decide (p = path)
               then stored n else storageTrieNodes db !! (o, p)).
Proof.
  unfold node_op, stored.
  destruct (IsDeleted n), (N.eqb_spec owner 0) as [Ho|Ho]; cbn;
    repeat split; try done; intros.
  all: try (case_bool_decide as Hp; [subst; by rewrite ?lookup_delete_eq, ?lookup_insert_eq
                                    | by rewrite ?lookup_delete_ne, ?lookup_insert_ne]).
  all: destruct (N.eqb_spec o owner) as [->|Hoo]; cbn;
       [ case_bool_decide as Hp;
         [ subst; by rewrite ?lookup_delete_eq, ?lookup_insert_eq
         | rewrite ?lookup_delete_ne, ?lookup_insert_ne; [done | congruence ..] ]
       | rewrite ?lookup_delete_ne, ?lookup_insert_ne; [done | congruence ..] ].
Qed.

Lemma subset_fold_written (owner : N) (subset : gmap (list byte) Node)
    (acc0 : list batchOp * cleanCache) :
  exists ops,
    (map_fold (writeNode owner) acc0 subset).1 = acc0.1 ++ ops /\
    subset_written owner subset ops.
Proof.
  apply (map_fold_weak_ind
           (fun acc m => exists ops, acc.1 = acc0.1 ++ ops /\ subset_written owner m ops)).
  - exists []. split; [by rewrite app_nil_r|].
    intros db. cbn.
    split; [done|]. split; [done|]. split; [done|]. split.
    + intros p. rewrite lookup_empty. by destruct (owner =? 0).
    + intros o p. rewrite lookup_empty. by destruct (negb _ && _).
  - intros path n m [batch clean] Hnone (ops & Hops & Hspec).
    exists (ops ++ [node_op owner path n]). split.
    { rewrite writeNode_batch. cbn in Hops. rewrite Hops. by rewrite app_assoc. }
    intros db. cbn zeta. rewrite fold_left_app. cbn [fold_left].
    destruct (Hspec db) as (H1 & H2 & H3 & H4 & H5).
    set (db1 := fold_left apply_op ops db) in *.
    destruct (apply_node_op owner path n db1) as (G1 & G2 & G3 & G4 & G5).
    split; [congruence|]. split; [congruence|]. split; [congruence|]. split.
    + intros p. rewrite G4, H4.
      destruct (owner =? 0); cbn; [|done].
      case_bool_decide as Hp; [subst; by rewrite lookup_insert_eq
                              | by rewrite lookup_insert_ne].
    + intros o p. rewrite G5, H5.
      destruct (negb (owner =? 0) && (o =? owner)); cbn; [|done].
      case_bool_decide as Hp; [subst; by rewrite lookup_insert_eq
                              | by rewrite lookup_insert_ne].
Qed.


(** The effect of the operations that [writeNodes] adds for a whole node
    set: nodes of owner zero land in the account trie table, the others in
    the storage trie table under their owner. *)
Definition nodes_written (nodes : gmap N (gmap (list byte) Node)) (ops : list batchOp) : Prop :=
  forall db,
    let db' := fold_left apply_op ops db in
    persistentStateID db' = persistentStateID db /\
    writeFails db' = writeFails db /\
    events db' = events db /\
    (forall p, accountTrieNodes db' !! p =
               match lookup_node nodes 0 p with
               | Some n => stored n
               | None => accountTrieNodes db !! p
               end) /\
    (forall o p, storageTrieNodes db' !! (o, p) =
                 if o =? 0 then storageTrieNodes db !! (o, p)
                 else match lookup_node nodes o p with
                      | Some n => stored n
                      | None => storageTrieNodes db !! (o, p)
                      end).

Lemma writeNodes_written (nodes : gmap N (gmap (list byte) Node))
    (batch : list batchOp) (clean : cleanCache) :
  exists ops,
    (writeNodes batch nodes clean).1 = batch ++ ops /\ nodes_written nodes ops.
Proof.
  unfold writeNodes.
  apply (map_fold_weak_ind
           (fun (acc : list batchOp * cleanCache) m =>
              exists ops, acc.1 = batch ++ ops /\ nodes_written m ops)).
  - exists []. split; [by rewrite app_nil_r|].
    intros db. cbn. unfold lookup_node.
    split; [done|]. split; [done|]. split; [done|]. split.
    + intros p. by rewrite lookup_empty.
    + intros o p. rewrite lookup_empty. cbn. by destruct (o =? 0).
  - intros owner subset m acc Hnone (ops & Hops & Hspec).
    destruct (subset_fold_written owner subset acc) as (ops2 & Hops2 & Hspec2).
    exists (ops ++ ops2). split.
    { rewrite Hops2, Hops. by rewrite app_assoc. }
    intros db. cbn zeta. rewrite fold_left_app.
    destruct (Hspec db) as (H1 & H2 & H3 & H4 & H5).
    set (db1 := fold_left apply_op ops db) in *.
    destruct (Hspec2 db1) as (G1 & G2 & G3 & G4 & G5).
    split; [congruence|]. split; [congruence|]. split; [congruence|]. split.
    + intros p. rewrite G4, H4. unfold lookup_node.
      destruct (N.eqb_spec owner 0) as [->|Ho].
      * rewrite lookup_insert_eq, Hnone. cbn. done.
      * by rewrite lookup_insert_ne.
    + intros o p. rewrite G5, H5. unfold lookup_node.
      destruct (N.eqb_spec owner 0) as [->|Ho]; cbn.
      * destruct (N.eqb_spec o 0) as [->|Hoo]; [done|].
        by rewrite lookup_insert_ne.
      * destruct (N.eqb_spec o owner) as [->|Hoo].
        -- rewrite lookup_insert_eq, Hnone. cbn.
           destruct (N.eqb_spec owner 0); [done|]. done.
        -- by rewrite lookup_insert_ne.
Qed.

Definition flush_skipped (b : nodebuffer) (force : bool) : bool :=
  (size b <=? limit b) && negb force.

(** C3, as the code has it: [flush] does nothing when the size is within
    the limit and the flush is not forced; otherwise it refuses with an
    error, leaving everything as it was, unless the persistent state id of
    the store plus the layers counter equals the target id; and when the
    batch write succeeds it has written, in one atomic batch, every buffered
    node (deleting the entry of a node whose blob is empty) and the target
    id as the persistent state id, and the buffer is reset (no layer, size
    zero, no node).  The batch write is the only thing asked of the store:
    no sync. *)
Theorem flush_spec (b : nodebuffer) (db : diskdb) (clean : cleanCache) (id : N) (force : bool) :
  (size b <= limit b -> force = false ->
   flush b db clean id force = (b, db, clean, None)) /\
  (flush_skipped b force = false ->
   u64 (persistentStateID db + layers b) <> id ->
   flush b db clean id force =
   (b, db, clean, Some (InvalidStateID id (u64 (persistentStateID db + layers b))))) /\
  (flush_skipped b force = false ->
   u64 (persistentStateID db + layers b) = id ->
   writeFails db = false ->
   exists ops db' clean',
     flush b db clean id force = (reset b, db', clean', None) /\
     layers (reset b) = 0 /\ size (reset b) = 0 /\ nodes (reset b) = ∅ /\
     nodes_written (nodes b) ops /\
     db' = log_event (fold_left apply_op (ops ++ [PutPersistentStateID id]) db)
                     (EvBatchWrite (ops ++ [PutPersistentStateID id])) /\
     events db' = events db ++ [EvBatchWrite (ops ++ [PutPersistentStateID id])] /\
     persistentStateID db' = id /\
     (forall p, accountTrieNodes db' !! p =
                match lookup_node (nodes b) 0 p with
                | Some n => stored n
                | None => accountTrieNodes db !! p
                end) /\
     (forall o p, o <> 0 ->
                  storageTrieNodes db' !! (o, p) =
                  match lookup_node (nodes b) o p with
                  | Some n => stored n
                  | None => storageTrieNodes db !! (o, p)
                  end)).
Proof.
  unfold flush_skipped. split; [|split].
  - intros Hsz ->. unfold flush.
    destruct (N.leb_spec (size b) (limit b)); [done | lia].
  - intros Hskip Hid. unfold flush, ReadPersistentStateID. rewrite Hskip.
    destruct (N.eqb_spec (u64 (persistentStateID db + layers b)) id); done.
  - intros Hskip Hid Hw. unfold flush, ReadPersistentStateID. rewrite Hskip.
    rewrite Hid, N.eqb_refl. cbn [negb].
    destruct (writeNodes_written (nodes b) [] clean) as (ops & Hops & Hspec).
    destruct (writeNodes [] (nodes b) clean) as [batch clean1] eqn:Hwn.
    cbn in Hops. subst batch.
    unfold batch_Write. rewrite Hw.
    exists ops, (log_event (fold_left apply_op (ops ++ [PutPersistentStateID id]) db)
                   (EvBatchWrite (ops ++ [PutPersistentStateID id]))), clean1.
    destruct (Hspec db) as (H1 & H2 & H3 & H4 & H5).
    rewrite fold_left_app. cbn [fold_left apply_op log_event events persistentStateID
                                accountTrieNodes storageTrieNodes].
    split; [done|]. split; [done|]. split; [done|]. split; [done|].
    split; [exact Hspec|]. split; [done|].
    split; [by rewrite H3|]. split; [done|]. split; [exact H4|].
    intros o p Ho. rewrite H5. by destruct (N.eqb_spec o 0).
Qed.

(** A buffer of one merged layer with a node of the account trie, a
    deleted node of the account trie and a node of a storage trie. *)
Definition buffer0 : nodebuffer :=
  {| layers := 1; size := 10; limit := 4;
     nodes := {[ 0 := {[ ["a"%byte] := {| nHash := 11; nBlob := ["n"%byte] |};
                         ["b"%byte] := NewDeleted ]};
                 7 := {[ ["c"%byte] := {| nHash := 12; nBlob := ["m"%byte] |} ]} ]} |}.

Definition store0 : diskdb :=
  {| accountTrieNodes := {[ ["b"%byte] := ["o"%byte] ]};
     storageTrieNodes := ∅;
     persistentStateID := 4;
     writeFails := false;
     events := [] |}.

Lemma flush_spec_witness :
  exists ops db' clean',
    flush buffer0 store0 None 5 false = (reset buffer0, db', clean', None) /\
    layers (reset buffer0) = 0 /\ size (reset buffer0) = 0 /\ nodes (reset buffer0) = ∅ /\
    nodes_written (nodes buffer0) ops /\
    db' = log_event (fold_left apply_op (ops ++ [PutPersistentStateID 5]) store0)
                    (EvBatchWrite (ops ++ [PutPersistentStateID 5])) /\
    events db' = events store0 ++ [EvBatchWrite (ops ++ [PutPersistentStateID 5])] /\
    persistentStateID db' = 5 /\
    (forall p, accountTrieNodes db' !! p =
               match lookup_node (nodes buffer0) 0 p with
               | Some n => stored n
               | None => accountTrieNodes store0 !! p
               end) /\
    (forall o p, o <> 0 ->
                 storageTrieNodes db' !! (o, p) =
                 match lookup_node (nodes buffer0) o p with
                 | Some n => stored n
                 | None => storageTrieNodes store0 !! (o, p)
                 end).
Proof.
  apply (proj2 (proj2 (flush_spec buffer0 store0 None 5 false))); reflexivity.
Defined.

(** C3 as stated fails on the sync: after a successful flush the store has
    the nodes and the new persistent state id, and the only thing it was
    asked to do is the one batch write. *)
Lemma flush_issues_no_sync :
  (flush buffer0 store0 None 5 false).2 = None /\
  persistentStateID (flush buffer0 store0 None 5 false).1.1.2 = 5 /\
  accountTrieNodes (flush buffer0 store0 None 5 false).1.1.2 = {[ ["a"%byte] := ["n"%byte] ]} /\
  length (events (flush buffer0 store0 None 5 false).1.1.2) = 1%nat /\
  EvSync ∉ events (flush buffer0 store0 None 5 false).1.1.2.
Proof.
  repeat split; try (vm_compute; reflexivity).
  vm_compute. intros H. inversion H as [|? ? ? H']. inversion H'.
Qed.

End NodeBufferProofs.

(** ** Layers and the read path *)

Module LayersProofs.
Import NodeBuffer Layers.

Lemma stale_reads keccak dl :
  stale dl = true ->
  (forall owner path depth, (node keccak dl owner path depth).1 = Err errSnapshotStale) /\
  (forall hash depth, account dl hash depth = Err errSnapshotStale) /\
  (forall accountHash storageHash depth,
     storage dl accountHash storageHash depth = Err errSnapshotStale).
Proof.
  intros Hs. unfold node, account, storage. rewrite Hs. done.
Qed.

(** C4: a disk layer goes from live to stale at most once.  [markStale] on a
    layer whose stale flag is set panics; on a live layer it sets the flag,
    after which a second [markStale] panics; and on the layer it returns
    every read ([node], [account], [storage]) fails with the stale error
    instead of returning data. *)
Theorem markStale_once (keccak : list byte -> N) (dl : diskLayer) :
  (stale dl = true -> markStale dl = Panic) /\
  (stale dl = false ->
   exists dl', markStale dl = Ok dl' /\ stale dl' = true /\ markStale dl' = Panic) /\
  (forall dl', markStale dl = Ok dl' ->
     (forall owner path depth, (node keccak dl' owner path depth).1 = Err errSnapshotStale) /\
     (forall hash depth, account dl' hash depth = Err errSnapshotStale) /\
     (forall accountHash storageHash depth,
        storage dl' accountHash storageHash depth = Err errSnapshotStale)).
Proof.
  split; [|split].
  - intros Hs. unfold markStale. by rewrite Hs.
  - intros Hs. unfold markStale. rewrite Hs. eexists. split; [reflexivity|]. done.
  - intros dl' H. apply stale_reads. unfold markStale in H.
    destruct (stale dl); [done|]. by inversion H.
Qed.

Definition dl0 : diskLayer :=
  {| root := 1; id := 0;
     db := {| accountTrieNodes := ∅; storageTrieNodes := ∅;
              accountSnapshot := ∅; storageSnapshot := ∅ |};
     cleans := None;
     dbuffer := {| b_nodes := ∅; b_accounts := ∅; b_storages := ∅ |};
     stale := false; dgenerator := None |}.

Lemma markStale_once_witness :
  exists dl', markStale dl0 = Ok dl' /\ stale dl' = true /\ markStale dl' = Panic.
Proof. apply (proj1 (proj2 (markStale_once (fun _ => 0) dl0))). reflexivity. Defined.

(** The diff layers of a stack, from the head down to the disk layer. *)
Fixpoint diffs_of (l : layer) : list diffLayer :=
  match l with
  | Disk _ => []
  | Diff df parent => df :: diffs_of parent
  end.

Lemma layer_node_first_hit keccak (l : layer) (owner : N) (path : list byte) :
  forall (i : nat) (df : diffLayer) (n : list byte) (depth : N),
    diffs_of l !! i = Some df ->
    diff_lookup df owner path = Some n ->
    (forall j df', (j < i)%nat -> diffs_of l !! j = Some df' -> diff_lookup df' owner path = None) ->
    layer_node keccak l owner path depth =
    Ok (n, {| loc := locDiffLayer; depth := depth + N.of_nat i |}).
Proof.
  induction l as [dl|df0 parent IH]; intros i df n depth Hi Hn Hmiss.
  - done.
  - destruct i as [|i]; cbn [diffs_of layer_node] in *.
    + inversion Hi; subst. rewrite Hn. by rewrite N.add_0_r.
    + rewrite (Hmiss 0%nat df0) by (done || lia).
      rewrite (IH i df n (depth + 1)); try done.
      * do 3 f_equal. lia.
      * intros j df' Hj Hl. apply (Hmiss (S j) df'); [lia | done].
Qed.

Lemma layer_node_all_miss keccak (l : layer) (owner : N) (path : list byte) (depth : N) :
  Forall (fun df => diff_lookup df owner path = None) (diffs_of l) ->
  layer_node keccak l owner path depth =
  layer_node keccak (Disk (disk_of l)) owner path (depth + N.of_nat (length (diffs_of l))).
Proof.
  revert depth. induction l as [dl|df0 parent IH]; intros depth Hall.
  - cbn. by rewrite N.add_0_r.
  - cbn [diffs_of] in Hall. apply Forall_cons in Hall as [H0 Hall].
    cbn [layer_node diffs_of disk_of length]. rewrite H0.
    rewrite IH by done. cbn [layer_node]. do 3 f_equal. lia.
Qed.

Lemma disk_node_missing keccak dl owner path depth :
  stale dl = false ->
  buffer_node (dbuffer dl) owner path = None ->
  (forall c, cleans dl = Some c -> c !! (owner, path) = None) ->
  (if owner =? 0 then accountTrieNodes (db dl) !! path
   else storageTrieNodes (db dl) !! (owner, path)) = None ->
  node keccak dl owner path depth =
  (Ok ([], keccak [], {| loc := locDiskLayer; depth := depth |}), cleans dl).
Proof.
  intros Hs Hb Hc Hd. unfold node. rewrite Hs, Hb.
  assert (Hcached : match cleans dl with Some c => default [] (c !! (owner, path)) | None => [] end = []).
  { destruct (cleans dl) as [c|]; [|done]. by rewrite (Hc c eq_refl). }
  rewrite Hcached. cbn.
  assert (Hblob : (if owner =? 0 then ReadAccountTrieNode (db dl) path
                   else ReadStorageTrieNode (db dl) owner path) = []).
  { unfold ReadAccountTrieNode, ReadStorageTrieNode.
    destruct (owner =? 0); by rewrite Hd. }
  rewrite Hblob. cbn. by destruct (cleans dl).
Qed.


(** C6, as the code has it: reading a node through a layer stack returns
    the first hit of the walk down the diff chain (the entry of the highest
    diff layer that has one for the owner and path, at the depth of that
    layer); and when no diff layer has an entry, the disk layer is live, and
    neither its buffer, its clean cache nor the store has an entry, the read
    succeeds with the empty blob, located in the disk layer. *)
Theorem get_node_first_hit (keccak : list byte -> N) (l : layer)
    (owner : N) (path : list byte) (depth : N) :
  (forall (i : nat) (df : diffLayer) (n : list byte),
     diffs_of l !! i = Some df ->
     diff_lookup df owner path = Some n ->
     (forall j df', (j < i)%nat -> diffs_of l !! j = Some df' ->
                    diff_lookup df' owner path = None) ->
     layer_node keccak l owner path depth =
     Ok (n, {| loc := locDiffLayer; depth := depth + N.of_nat i |})) /\
  (Forall (fun df => diff_lookup df owner path = None) (diffs_of l) ->
   stale (disk_of l) = false ->
   buffer_node (dbuffer (disk_of l)) owner path = None ->
   (forall c, cleans (disk_of l) = Some c -> c !! (owner, path) = None) ->
   (if owner =? 0 then accountTrieNodes (db (disk_of l)) !! path
    else storageTrieNodes (db (disk_of l)) !! (owner, path)) = None ->
   layer_node keccak l owner path depth =
   Ok ([], {| loc := locDiskLayer;
              depth := depth + N.of_nat (length (diffs_of l)) |})).
Proof.
  split.
  - intros i df n. apply layer_node_first_hit.
  - intros Hall Hs Hb Hc Hd.
    rewrite layer_node_all_miss by done. cbn [layer_node].
    by rewrite (disk_node_missing keccak (disk_of l)) by done.
Qed.

Definition keccak0 (_ : list byte) : N := 0.

(** A stack of two diff layers over [dl0]: the upper layer writes ["y"], the
    lower one ["x"]; both write ["s"]. *)
Definition diff_low : diffLayer :=
  {| d_root := 2; d_id := 1; d_block := 1;
     d_nodes := {[ 0 := {[ ["x"%byte] := ["A"%byte]; ["s"%byte] := ["1"%byte] ]} ]} |}.
Definition diff_high : diffLayer :=
  {| d_root := 3; d_id := 2; d_block := 2;
     d_nodes := {[ 0 := {[ ["y"%byte] := ["B"%byte]; ["s"%byte] := ["2"%byte] ]} ]} |}.
Definition stack0 : layer := Diff diff_high (Diff diff_low (Disk dl0)).

Lemma get_node_first_hit_witness :
  layer_node keccak0 stack0 0 ["s"%byte] 0 =
    Ok (["2"%byte], {| loc := locDiffLayer; depth := 0 + N.of_nat 0 |}) /\
  layer_node keccak0 stack0 0 ["x"%byte] 0 =
    Ok (["A"%byte], {| loc := locDiffLayer; depth := 0 + N.of_nat 1 |}) /\
  layer_node keccak0 stack0 0 ["z"%byte] 0 =
    Ok ([], {| loc := locDiskLayer; depth := 0 + N.of_nat (length (diffs_of stack0)) |}).
Proof.
  split; [|split].
  - apply (proj1 (get_node_first_hit keccak0 stack0 0 ["s"%byte] 0) 0%nat diff_high);
      [reflexivity | reflexivity | intros j df' Hj; lia].
  - apply (proj1 (get_node_first_hit keccak0 stack0 0 ["x"%byte] 0) 1%nat diff_low);
      [reflexivity | reflexivity |].
    intros [|j] df' Hj Hdf; [|lia]. by inversion Hdf.
  - apply (proj2 (get_node_first_hit keccak0 stack0 0 ["z"%byte] 0));
      [by repeat constructor | reflexivity | reflexivity | by intros c Hc | reflexivity].
Defined.

(** The same store, with the disk layer stale. *)
Definition dl0_stale : diskLayer :=
  {| root := root dl0; id := id dl0; db := db dl0; cleans := cleans dl0;
     dbuffer := dbuffer dl0; stale := true; dgenerator := dgenerator dl0 |}.

(** C6 as stated fails on a stack whose disk layer is stale: nothing has an
    entry for the position, and the read is the stale error, not the empty
    blob. *)
Lemma stale_disk_missing_node :
  Forall (fun df => diff_lookup df 0 ["z"%byte] = None)
         (diffs_of (Diff diff_high (Disk dl0_stale))) /\
  buffer_node (dbuffer dl0_stale) 0 ["z"%byte] = None /\
  cleans dl0_stale = None /\
  accountTrieNodes (db dl0_stale) !! ["z"%byte] = None /\
  layer_node keccak0 (Diff diff_high (Disk dl0_stale)) 0 ["z"%byte] 0 =
    Err errSnapshotStale.
Proof. repeat split; try reflexivity. by repeat constructor. Qed.

(** C5, as the code has it: while the generator runs (the marker is not
    nil), on a live disk layer a read of an account or of a storage slot
    that is not in the buffer and whose key (the account hash, or the account
    hash followed by the slot hash) compares greater than the marker fails
    with the not-covered error; a read whose key is at or below the marker
    is served from the buffer or else from the flat snapshot tables; and a
    key in the buffer is served from the buffer wherever the marker is. *)
Theorem reads_beyond_marker (dl : diskLayer) (marker : list byte) :
  genMarker dl = Some marker ->
  stale dl = false ->
  (forall hash depth,
     buffer_account (dbuffer dl) hash = None ->
     bytes_compare (hash_bytes hash) marker = Gt ->
     account dl hash depth = Err errNotCoveredYet) /\
  (forall accountHash storageHash depth,
     buffer_storage (dbuffer dl) accountHash storageHash = None ->
     bytes_compare (hash_bytes accountHash ++ hash_bytes storageHash) marker = Gt ->
     storage dl accountHash storageHash depth = Err errNotCoveredYet) /\
  (forall hash depth,
     bytes_compare (hash_bytes hash) marker <> Gt ->
     account dl hash depth =
     Ok (default (ReadAccountSnapshot (db dl) hash) (buffer_account (dbuffer dl) hash))) /\
  (forall accountHash storageHash depth,
     bytes_compare (hash_bytes accountHash ++ hash_bytes storageHash) marker <> Gt ->
     storage dl accountHash storageHash depth =
     Ok (default (ReadStorageSnapshot (db dl) accountHash storageHash)
                 (buffer_storage (dbuffer dl) accountHash storageHash))) /\
  (forall hash depth blob,
     buffer_account (dbuffer dl) hash = Some blob -> account dl hash depth = Ok blob) /\
  (forall accountHash storageHash depth blob,
     buffer_storage (dbuffer dl) accountHash storageHash = Some blob ->
     storage dl accountHash storageHash depth = Ok blob).
Proof.
  intros Hm Hs. unfold account, storage. rewrite Hs, Hm.
  repeat split.
  - intros hash depth -> ->. reflexivity.
  - intros a sl depth -> ->. reflexivity.
  - intros hash depth Hc. destruct (buffer_account _ _); [done|].
    by destruct (bytes_compare _ _).
  - intros a sl depth Hc. destruct (buffer_storage _ _ _); [done|].
    by destruct (bytes_compare _ _).
  - by intros hash depth blob ->.
  - by intros a sl depth blob ->.
Qed.

(** A live disk layer whose generator has just started (the marker is the
    empty, non-nil slice) and whose buffer holds the account [5] and one of
    its slots. *)
Definition dl_generating : diskLayer :=
  {| root := 1; id := 1;
     db := {| accountTrieNodes := ∅; storageTrieNodes := ∅;
              accountSnapshot := ∅; storageSnapshot := ∅ |};
     cleans := None;
     dbuffer := {| b_nodes := ∅;
                   b_accounts := {[ 5 := ["a"%byte] ]};
                   b_storages := {[ 5 := {[ 9 := ["s"%byte] ]} ]} |};
     stale := false;
     dgenerator := Some {| progress := Some [] |} |}.

Lemma reads_beyond_marker_witness :
  account dl_generating 6 0 = Err errNotCoveredYet /\
  storage dl_generating 5 8 0 = Err errNotCoveredYet.
Proof.
  destruct (reads_beyond_marker dl_generating [] eq_refl eq_refl) as (Ha & Hst & _).
  split; [apply Ha | apply Hst]; reflexivity.
Defined.

(** C5 as stated fails on a key that is in the buffer: the account hash
    compares greater than the marker, and the read returns the buffered
    blob, not the not-covered error (the same for the slot). *)
Lemma buffered_read_beyond_marker :
  genMarker dl_generating = Some [] /\
  bytes_compare (hash_bytes 5) [] = Gt /\
  account dl_generating 5 0 = Ok ["a"%byte] /\
  bytes_compare (hash_bytes 5 ++ hash_bytes 9) [] = Gt /\
  storage dl_generating 5 9 0 = Ok ["s"%byte].
Proof. repeat split; reflexivity. Qed.

End LayersProofs.

(** ** Journal *)

Module JournalProofs.
Import NodeBuffer Journal.

Section Hasher.
Variable keccak : list byte -> N.

(** The single layer with the persistent state that [loadLayers] falls back
    to. *)
Definition bare_disk_layer (db : Database) : layer :=
  newDiskLayer (TrieRootHash (accountTrieRootNodeHash (ddiskdb db)))
               (persistentStateID (ddiskdb db))
               (newNodeBuffer (bufferSize db) None 0).

(** The section of a diff layer in a journal: its root, its block number,
    its nodes and its state changes. *)
Record diffSection := {
  ds_root : N;
  ds_block : N;
  ds_nodes : list journalNodes;
  ds_states : list journalStates
}.

Definition section_items (s : diffSection) : list jitem :=
  [JHash (ds_root s); JUint (ds_block s); JNodes (ds_nodes s); JStates (ds_states s)].

(** A journal in full: the version, the disk root it was written for, the
    section of the disk layer (root, state id, buffered nodes) and the
    sections of the diff layers, from the lowest up. *)
Definition journal_of (version diskRoot rootHash id : N) (encoded : list journalNodes)
    (sections : list diffSection) : list jitem :=
  JUint version :: JHash diskRoot :: JHash rootHash :: JUint id :: JNodes encoded ::
  concat (section_items <$> sections).

(** The disk layer a journal describes on the database [db], and the stack
    its diff sections describe on a parent: a diff layer per section, each
    with the state id after the one of the layer below it. *)
Definition journalled_disk_layer (db : Database) (rootHash id : N)
    (encoded : list journalNodes) : layer :=
  DiskLayer rootHash id
    (newNodeBuffer (bufferSize db) (Some (decode_nodes keccak encoded))
                   (id - persistentStateID (ddiskdb db))).

Definition stack_on (parent : layer) (sections : list diffSection) : layer :=
  fold_left (fun p s => DiffLayer p (ds_root s) (u64 (stateID p + 1)) (ds_block s)
                                  (decode_nodes keccak (ds_nodes s))
                                  (decode_states (ds_states s)))
            sections parent.

(** The journal can be used for the disk root [diskRoot]: it is a journal
    in full of the expected version, written for that disk root, whose disk
    layer is not behind the persistent state of the store. *)
Definition journal_usable (db : Database) (diskRoot : N) : Prop :=
  exists rootHash id encoded sections,
    trieJournal (ddiskdb db)
      = journal_of journalVersion diskRoot rootHash id encoded sections /\
    persistentStateID (ddiskdb db) <= id.

Lemma loadDiffLayer_sections (parent : layer) (sections : list diffSection) :
  loadDiffLayer keccak parent (concat (section_items <$> sections))
    = Ok (stack_on parent sections).
Proof.
  revert parent. induction sections as [|s sections IH]; intros parent; [done|].
  rewrite fmap_cons. cbn [concat section_items app loadDiffLayer stack_on fold_left].
  apply IH.
Qed.

Lemma loadDiffLayer_ok_sections (n : nat) :
  forall (r : list jitem) (parent head : layer),
    (length r <= n)%nat ->
    loadDiffLayer keccak parent r = Ok head ->
    exists sections, r = concat (section_items <$> sections).
Proof.
  induction n as [|n IH]; intros r parent head Hn.
  - destruct r; [|cbn in Hn; lia]. intros _. by exists [].
  - destruct r as [|[ | rootHash | | | ] r1]; cbn [loadDiffLayer]; try done.
    { intros _. by exists []. }
    destruct r1 as [|[blockNumber | | | | ] r2]; try done.
    destruct r2 as [|[ | | encoded | | ] r3]; try done.
    destruct r3 as [|[ | | | states | ] r4]; try done.
    intros H. apply IH in H as [sections ->]; [|cbn in Hn; lia].
    by exists ({| ds_root := rootHash; ds_block := blockNumber;
                  ds_nodes := encoded; ds_states := states |} :: sections).
Qed.

Lemma loadJournal_usable (db : Database) (diskRoot rootHash id : N)
    (encoded : list journalNodes) (sections : list diffSection) :
  trieJournal (ddiskdb db)
    = journal_of journalVersion diskRoot rootHash id encoded sections ->
  persistentStateID (ddiskdb db) <= id ->
  loadJournal keccak db diskRoot
    = Ok (stack_on (journalled_disk_layer db rootHash id encoded) sections).
Proof.
  intros Hj Hid. unfold loadJournal. rewrite Hj. unfold journal_of.
  cbn [length Nat.eqb stream_Uint64 stream_Hash]. cbv zeta.
  rewrite !N.eqb_refl. cbn [negb]. unfold loadDiskLayer.
  cbn [stream_Hash stream_Uint64 stream_Nodes]. cbv zeta.
  replace (id <? _) with false by (symmetry; apply N.ltb_ge; lia).
  cbn. apply loadDiffLayer_sections.
Qed.

Lemma loadJournal_ok_usable (db : Database) (diskRoot : N) (head : layer) :
  loadJournal keccak db diskRoot = Ok head -> journal_usable db diskRoot.
Proof.
  unfold loadJournal, journal_usable. cbv zeta.
  destruct (trieJournal (ddiskdb db)) as [|[version| | | |] r1]; try done.
  cbn [length Nat.eqb stream_Uint64].
  destruct (N.eqb_spec version journalVersion) as [->|]; [|done]. cbn [negb].
  destruct r1 as [|[|h| | |] r2]; try done. cbn [stream_Hash].
  destruct (N.eqb_spec h diskRoot) as [->|]; [|done]. cbn [negb].
  unfold loadDiskLayer.
  destruct r2 as [|[|rootHash| | |] r3]; try done. cbn [stream_Hash].
  destruct r3 as [|[id| | | |] r4]; try done. cbn [stream_Uint64]. cbv zeta.
  destruct (N.ltb_spec id (persistentStateID (ddiskdb db))) as [|Hid]; [done|].
  destruct r4 as [|[| |encoded| |] r5]; try done. cbn [stream_Nodes]. cbn.
  intros H. apply (loadDiffLayer_ok_sections (length r5)) in H as [sections ->]; [|done].
  by exists rootHash, id, encoded, sections.
Qed.

(** C7, as the code has it: on startup the journal is reconstructed into a
    layer stack exactly when it is a journal in full (version, disk root,
    section of the disk layer, sections of the diff layers) of the expected
    version, the first disk root recorded in it equals the root of the
    account trie read from the store, and the state id it records for the
    disk layer is not below the persistent state id of the store; the stack
    is then the disk layer of the journal with a diff layer per section.  In
    every other case the journal is discarded and the single disk layer
    backed by the persistent state is returned: so when the roots differ,
    when the journal is missing, when the version is another one and when
    the recorded state id is below the persistent one. *)
Theorem loadLayers_journal (db : Database) :
  let root := TrieRootHash (accountTrieRootNodeHash (ddiskdb db)) in
  let stored := persistentStateID (ddiskdb db) in
  (forall rootHash id encoded sections,
     trieJournal (ddiskdb db)
       = journal_of journalVersion root rootHash id encoded sections ->
     stored <= id ->
     loadLayers keccak db
       = stack_on (journalled_disk_layer db rootHash id encoded) sections) /\
  (~ journal_usable db root -> loadLayers keccak db = bare_disk_layer db) /\
  (forall version h rest,
     trieJournal (ddiskdb db) = JUint version :: JHash h :: rest -> h <> root ->
     loadLayers keccak db = bare_disk_layer db) /\
  (trieJournal (ddiskdb db) = [] -> loadLayers keccak db = bare_disk_layer db) /\
  (forall version rest,
     trieJournal (ddiskdb db) = JUint version :: rest -> version <> journalVersion ->
     loadLayers keccak db = bare_disk_layer db) /\
  (forall version diskRoot rootHash id rest,
     trieJournal (ddiskdb db)
       = JUint version :: JHash diskRoot :: JHash rootHash :: JUint id :: rest ->
     id < stored ->
     loadLayers keccak db = bare_disk_layer db).
Proof.
  intros root stored.
  assert (Hbare : ~ journal_usable db root -> loadLayers keccak db = bare_disk_layer db).
  { intros Hn. unfold loadLayers. fold root.
    destruct (loadJournal keccak db root) as [head|e|] eqn:Hload; [|done|done].
    exfalso. apply Hn. by apply (loadJournal_ok_usable db root head). }
  split; [|split; [|split; [|split; [|split]]]].
  - intros rootHash id encoded sections Hj Hid. unfold loadLayers. fold root.
    by rewrite (loadJournal_usable db root rootHash id encoded sections Hj Hid).
  - exact Hbare.
  - intros version h rest Hj Hne. apply Hbare.
    intros (rootHash & id & encoded & sections & Hr & _).
    rewrite Hj in Hr. unfold journal_of in Hr. congruence.
  - intros Hj. apply Hbare. intros (rootHash & id & encoded & sections & Hr & _).
    rewrite Hj in Hr. done.
  - intros version rest Hj Hne. apply Hbare.
    intros (rootHash & id & encoded & sections & Hr & _).
    rewrite Hj in Hr. unfold journal_of in Hr. congruence.
  - intros version diskRoot rootHash id rest Hj Hid. apply Hbare.
    intros (rootHash' & id' & encoded & sections & Hr & Hle).
    rewrite Hj in Hr. unfold journal_of in Hr. injection Hr as _ _ _ <- _.
    fold stored in Hle. lia.
Qed.

End Hasher.

Definition keccak0 (_ : list byte) : N := 0.

(** A store whose journal matches the persistent state: version, disk root,
    the disk layer (root, state id, no buffered node) and one diff layer. *)
Definition db_journalled : Database :=
  {| ddiskdb := {| trieJournal := [JUint 0; JHash 7; JHash 7; JUint 3; JNodes [];
                                   JHash 8; JUint 12; JNodes []; JStates []];
                   accountTrieRootNodeHash := 7;
                   persistentStateID := 3 |};
     bufferSize := 1024 |}.

Lemma loadLayers_journal_witness :
  loadLayers keccak0 db_journalled
    = stack_on keccak0 (journalled_disk_layer keccak0 db_journalled 7 3 [])
               [{| ds_root := 8; ds_block := 12; ds_nodes := []; ds_states := [] |}].
Proof.
  apply (proj1 (loadLayers_journal keccak0 db_journalled) 7 3 []
               [{| ds_root := 8; ds_block := 12; ds_nodes := []; ds_states := [] |}]).
  - reflexivity.
  - by vm_compute.
Defined.

(** The same journal over a store whose persistent state id is ahead of the
    one the journal records for the disk layer. *)
Definition db_matching_root : Database :=
  {| ddiskdb := {| trieJournal := [JUint 0; JHash 7; JHash 7; JUint 3; JNodes []];
                   accountTrieRootNodeHash := 7;
                   persistentStateID := 5 |};
     bufferSize := 1024 |}.

(** C7 as stated fails here: the first disk root recorded in the journal
    equals the root read from the store, and yet the journal is discarded
    and the bare disk layer returned. *)
Lemma matching_root_discarded :
  stream_Hash (tail (trieJournal (ddiskdb db_matching_root))) =
    Some (TrieRootHash (accountTrieRootNodeHash (ddiskdb db_matching_root)),
          [JHash 7; JUint 3; JNodes []]) /\
  loadLayers keccak0 db_matching_root = bare_disk_layer db_matching_root /\
  is_ok (loadJournal keccak0 db_matching_root
           (TrieRootHash (accountTrieRootNodeHash (ddiskdb db_matching_root)))) = false.
Proof. vm_compute. done. Qed.

End JournalProofs.

(** ** Offline pruner *)

Module PrunerProofs.
Import Pruner.

(** The keys the sweep deletes: of the shape of a hash or of a code key, and
    not in the bloom filter. *)
Definition stale_key (bloom : stateBloom) (key : list byte) : bool :=
  ((length key =? HashLength)%nat || (IsCodeKey key).1) &&
  match bloom (if (IsCodeKey key).1 then (IsCodeKey key).2 else key) with
  | Ok false => true
  | _ => false
  end.

Definition key_lt (a b : list byte) : Prop := bytes_compare a b = Lt.

(** *** The iterator yields the entries by strictly ascending keys *)

Global Instance key_le_total : Total key_le.
Proof.
  intros x y. unfold key_le.
  rewrite (bytes_compare_antisym x.1 y.1).
  destruct (bytes_compare x.1 y.1); cbn; tauto.
Qed.

Global Instance key_le_trans : Transitive key_le.
Proof.
  intros x y z. unfold key_le. intros H1 H2.
  apply Is_true_true. apply negb_true_iff.
  apply Is_true_true, negb_true_iff in H1. apply Is_true_true, negb_true_iff in H2.
  assert (bytes_compare x.1 y.1 <> Gt) by (by destruct (bytes_compare x.1 y.1)).
  assert (bytes_compare y.1 z.1 <> Gt) by (by destruct (bytes_compare y.1 z.1)).
  pose proof (bytes_compare_le_trans _ _ _ H H0).
  by destruct (bytes_compare x.1 z.1).
Qed.

Lemma iterate_perm (db : maindb) : iterate db ≡ₚ map_to_list (kv db).
Proof. apply merge_sort_Permutation. Qed.

Lemma iterate_NoDup_keys (db : maindb) : NoDup (iterate db).*1.
Proof. rewrite iterate_perm. apply NoDup_fst_map_to_list. Qed.

Lemma elem_of_iterate_keys (db : maindb) (k : list byte) :
  k ∈ (iterate db).*1 <-> is_Some (kv db !! k).
Proof.
  rewrite iterate_perm, list_elem_of_fmap. split.
  - intros [[k' v] [-> Hin]]. apply elem_of_map_to_list in Hin. by exists v.
  - intros [v Hv]. exists (k, v). split; [done|]. by apply elem_of_map_to_list.
Qed.

Lemma strictly_sorted_keys (l : list (list byte * list byte)) :
  StronglySorted key_le l -> NoDup l.*1 -> StronglySorted key_lt l.*1.
Proof.
  induction 1 as [|x l Hs IH Hall]; intros Hnd; cbn.
  - constructor.
  - cbn in Hnd. apply NoDup_cons in Hnd as [Hx Hnd].
    constructor; [by apply IH|].
    rewrite Forall_forall in Hall. rewrite Forall_forall.
    intros k Hk. apply list_elem_of_fmap in Hk as [y [-> Hy]].
    specialize (Hall y Hy). unfold key_le in Hall. unfold key_lt.
    destruct (bytes_compare x.1 y.1) eqn:E; [|done|done].
    apply bytes_compare_eq in E. exfalso. apply Hx.
    rewrite E. apply list_elem_of_fmap. by exists y.
Qed.

Lemma iterate_sorted (db : maindb) : StronglySorted key_lt (iterate db).*1.
Proof.
  apply strictly_sorted_keys; [|apply iterate_NoDup_keys].
  unfold iterate. apply StronglySorted_merge_sort; apply _.
Qed.


(** *** One round of the sweep *)

Lemma IsCodeKey_length (key : list byte) :
  (IsCodeKey key).1 = true -> length key = (HashLength + length CodePrefix)%nat.
Proof.
  unfold IsCodeKey.
  destruct (has_prefix key CodePrefix && _) eqn:E; cbn; [|done].
  intros _. apply andb_true_iff in E as [_ E]. by apply Nat.eqb_eq in E.
Qed.

Lemma stale_key_length (bloom : stateBloom) (key : list byte) :
  stale_key bloom key = true -> (HashLength <= length key)%nat.
Proof.
  unfold stale_key. intros H. apply andb_true_iff in H as [H _].
  apply orb_true_iff in H as [H|H].
  - apply Nat.eqb_eq in H. lia.
  - apply IsCodeKey_length in H. lia.
Qed.

Lemma go_copy_take (dst key : list byte) :
  (length dst <= length key)%nat -> go_copy dst key = take (length dst) key.
Proof.
  intros H. unfold go_copy. rewrite (drop_ge dst) by lia. by rewrite app_nil_r.
Qed.

(** The sweep state after the deletion of [key]. *)
Definition deleted_step (st : sweep) (key value : list byte) : sweep :=
  let batch1 := batch_Delete (pbatch st) key in
  let flushed := IdealBatchSize <=? valueSize batch1 in
  {| count := count st + 1;
     psize := psize st + (len key + len value);
     pbatch := if flushed then batch_new else batch1;
     pdb := if flushed then batch_Write (pdb st) batch1 else pdb st;
     rangestart :=
       match rangestart st with
       | None => Some (go_copy (make_bytes HashLength) key)
       | Some rs => if is_gt (bytes_compare rs key) then Some (go_copy rs key) else Some rs
       end;
     rangelimit :=
       match rangelimit st with
       | None => Some (go_copy (make_bytes HashLength) key)
       | Some rl => if is_lt (bytes_compare rl key) then Some (go_copy rl key) else Some rl
       end |}.

Lemma prune_step_ok (bloom : stateBloom) (st st1 : sweep) (key value : list byte) :
  prune_step bloom st (key, value) = Ok st1 ->
  (stale_key bloom key = true /\ st1 = deleted_step st key value) \/
  (stale_key bloom key = false /\ st1 = st).
Proof.
  unfold prune_step, stale_key.
  destruct (IsCodeKey key) as [isCode codeKey]. cbn [fst snd].
  destruct ((length key =? HashLength)%nat || isCode); cbn [andb].
  - destruct (bloom (if isCode then codeKey else key)) as [[|]| |]; cbn; intros H;
      inversion H; subst; [by right | by left].
  - intros H. inversion H. by right.
Qed.

Definition eff (st : sweep) : gmap (list byte) (list byte) :=
  fold_left (fun m k => delete k m) (pending (pbatch st)) (kv (pdb st)).

Definition batch_ok (b : batch) : Prop := valueSize b = 0 -> pending b = [].

Definition bound_ok (o : option (list byte)) (upcoming : list (list byte)) : Prop :=
  forall r, o = Some r -> length r = HashLength /\ Forall (key_lt r) upcoming.

Lemma deleted_step_eff (st : sweep) (key value : list byte) :
  eff (deleted_step st key value) = delete key (eff st).
Proof.
  unfold eff, deleted_step. cbn [pbatch pdb].
  destruct (IdealBatchSize <=? _); cbn; by rewrite fold_left_app.
Qed.

Lemma deleted_step_batch_ok (st : sweep) (key value : list byte) :
  (HashLength <= length key)%nat -> batch_ok (pbatch (deleted_step st key value)).
Proof.
  intros Hk. unfold batch_ok, deleted_step. cbn [pbatch].
  destruct (IdealBatchSize <=? _); cbn; [done|].
  unfold len, HashLength in *. lia.
Qed.

Lemma deleted_step_compactions (st : sweep) (key value : list byte) :
  compactions (pdb (deleted_step st key value)) = compactions (pdb st).
Proof. unfold deleted_step. cbn [pdb]. by destruct (IdealBatchSize <=? _). Qed.

Lemma deleted_step_rangestart (st : sweep) (key value : list byte) :
  (HashLength <= length key)%nat ->
  bound_ok (rangestart st) [key] ->
  rangestart (deleted_step st key value) =
  Some (default (take HashLength key) (rangestart st)).
Proof.
  intros Hk Hb. unfold deleted_step. cbn [rangestart].
  destruct (rangestart st) as [rs|]; cbn [default].
  - destruct (Hb rs eq_refl) as [_ Hlt]. apply Forall_cons in Hlt as [Hlt _].
    unfold key_lt in Hlt. by rewrite Hlt.
  - rewrite go_copy_take; unfold make_bytes; rewrite length_replicate; done.
Qed.

Lemma deleted_step_rangelimit (st : sweep) (key value : list byte) :
  (HashLength <= length key)%nat ->
  bound_ok (rangelimit st) [key] ->
  rangelimit (deleted_step st key value) = Some (take HashLength key).
Proof.
  intros Hk Hb. unfold deleted_step. cbn [rangelimit].
  destruct (rangelimit st) as [rl|].
  - destruct (Hb rl eq_refl) as [Hlen Hlt]. apply Forall_cons in Hlt as [Hlt _].
    unfold key_lt in Hlt. rewrite Hlt. cbn [is_lt].
    rewrite go_copy_take by lia. by rewrite Hlen.
  - rewrite go_copy_take; unfold make_bytes; rewrite length_replicate; done.
Qed.

(** *** The whole sweep *)

Lemma prune_loop_spec (bloom : stateBloom) :
  forall entries st st',
    prune_loop bloom st entries = Ok st' ->
    batch_ok (pbatch st) ->
    StronglySorted key_lt entries.*1 ->
    bound_ok (rangestart st) entries.*1 ->
    bound_ok (rangelimit st) entries.*1 ->
    let ds := filter (fun k => stale_key bloom k = true) entries.*1 in
    count st' = count st + N.of_nat (length ds) /\
    eff st' = fold_left (fun m k => delete k m) ds (eff st) /\
    compactions (pdb st') = compactions (pdb st) /\
    batch_ok (pbatch st') /\
    rangestart st' = match rangestart st with
                     | Some rs => Some rs
                     | None => take HashLength <$> head ds
                     end /\
    rangelimit st' = match last ds with
                     | Some k => Some (take HashLength k)
                     | None => rangelimit st
                     end.
Proof.
  induction entries as [|[key value] rest IH]; intros st st' Hloop Hb Hsort Hrs Hrl ds.
  - cbn in Hloop. inversion Hloop; subst. subst ds. cbn.
    repeat split; try done; [lia | by destruct (rangestart st')].
  - cbn [prune_loop] in Hloop.
    destruct (prune_step bloom st (key, value)) as [st1| |] eqn:Hstep; try done.
    cbn in Hloop. cbn [fmap list_fmap fst] in *.
    apply StronglySorted_inv in Hsort as [Hsort Hlt].
    assert (Hrs' : bound_ok (rangestart st) rest.*1).
    { intros r Hr. destruct (Hrs r Hr) as [? HF]. apply Forall_cons in HF as [_ HF]. done. }
    assert (Hrl' : bound_ok (rangelimit st) rest.*1).
    { intros r Hr. destruct (Hrl r Hr) as [? HF]. apply Forall_cons in HF as [_ HF]. done. }
    assert (Hrs1 : bound_ok (rangestart st) [key]).
    { intros r Hr. destruct (Hrs r Hr) as [? HF]. apply Forall_cons in HF as [HF _].
      split; [done|]. by constructor. }
    assert (Hrl1 : bound_ok (rangelimit st) [key]).
    { intros r Hr. destruct (Hrl r Hr) as [? HF]. apply Forall_cons in HF as [HF _].
      split; [done|]. by constructor. }
    apply prune_step_ok in Hstep as [[Hstale ->]|[Hstale ->]].
    + pose proof (stale_key_length _ _ Hstale) as Hlen.
      assert (Htake : length (take HashLength key) = HashLength)
        by (rewrite length_take; lia).
      assert (Hup : Forall (key_lt (take HashLength key)) rest.*1).
      { eapply Forall_impl; [exact Hlt|]. intros k Hk. unfold key_lt in *.
        eapply bytes_compare_le_lt_trans; [apply bytes_compare_take | exact Hk]. }
      destruct (IH (deleted_step st key value) st' Hloop) as (C & E & K & B & RS & RL).
      * by apply deleted_step_batch_ok.
      * exact Hsort.
      * rewrite deleted_step_rangestart by done.
        intros r Hr. inversion Hr; subst.
        destruct (rangestart st) as [rs|] eqn:Ers; cbn; [by apply Hrs'|done].
      * rewrite deleted_step_rangelimit by done.
        intros r Hr. inversion Hr; subst. done.
      * subst ds. rewrite filter_cons_True by done.
        cbn [length head fold_left fmap option_fmap option_map].
        rewrite last_cons.
        rewrite deleted_step_eff in E. rewrite deleted_step_compactions in K.
        rewrite deleted_step_rangestart in RS by done.
        rewrite deleted_step_rangelimit in RL by done.
        cbn [count deleted_step] in C.
        split; [lia|]. split; [done|]. split; [done|]. split; [done|]. split.
        -- rewrite RS. by destruct (rangestart st).
        -- rewrite RL. by destruct (last _).
    + destruct (IH st st' Hloop Hb Hsort Hrs' Hrl') as (C & E & K & B & RS & RL).
      subst ds. rewrite filter_cons_False by (by rewrite Hstale). done.
Qed.


Lemma lookup_fold_delete (ds : list (list byte)) (m : gmap (list byte) (list byte))
    (k : list byte) :
  fold_left (fun m k => delete k m) ds m !! k =
  if decide (k ∈ ds) then None else m !! k.
Proof.
  revert m. induction ds as [|d ds IH]; intros m; cbn [fold_left].
  - destruct (decide (k ∈ [])) as [Hin|_]; [by apply elem_of_nil in Hin | done].
  - rewrite IH.
    destruct (decide (k ∈ ds)) as [Hin|Hnin]; destruct (decide (k ∈ d :: ds)) as [Hin'|Hnin'].
    + done.
    + exfalso. apply Hnin'. by right.
    + apply elem_of_cons in Hin' as [->|?]; [|done]. by rewrite lookup_delete_eq.
    + rewrite lookup_delete_ne; [done|]. intros ->. apply Hnin'. by left.
Qed.

Lemma prune_finish_kv (st : sweep) :
  batch_ok (pbatch st) -> kv (prune_finish st) = eff st.
Proof.
  intros Hb. unfold prune_finish, eff.
  assert (H : kv (if 0 <? valueSize (pbatch st)
                  then batch_Write (pdb st) (pbatch st) else pdb st) =
              fold_left (fun m k => delete k m) (pending (pbatch st)) (kv (pdb st))).
  { destruct (N.ltb_spec 0 (valueSize (pbatch st))) as [Hv|Hv]; [done|].
    rewrite Hb by lia. done. }
  by destruct (rangeCompactionThreshold <=? count st).
Qed.

(** The keys the sweep over [db] deletes, in the order of the iterator. *)
Definition deleted_keys (bloom : stateBloom) (db : maindb) : list (list byte) :=
  filter (fun k => stale_key bloom k = true) (iterate db).*1.

Lemma deleted_keys_sorted (bloom : stateBloom) (db : maindb) :
  StronglySorted key_lt (deleted_keys bloom db).
Proof.
  unfold deleted_keys. pose proof (iterate_sorted db) as H.
  induction H as [|k l Hs IH Hall]; [constructor|].
  rewrite filter_cons. destruct (decide _); [|done].
  constructor; [done|].
  rewrite Forall_forall in Hall. rewrite Forall_forall.
  intros x Hx. apply list_elem_of_filter in Hx as [_ Hx]. by apply Hall.
Qed.

(** C8, as the code has it: when the sweep succeeds, an entry of the store
    is deleted exactly when its key has the shape of a hash (32 bytes) or of
    a code key and the bloom filter does not contain the corresponding hash,
    every other entry staying as it was; and the store is then asked for one
    compaction unless fewer than 100,000 entries were deleted.  The bounds
    of that compaction are the first 32 bytes of the least and of the
    greatest deleted key: the 32-byte buffers of [prune] cut a code key
    short. *)
Theorem prune_spec (db db' : maindb) (bloom : stateBloom) :
  prune db bloom = Ok db' ->
  (forall k, kv db' !! k = if stale_key bloom k then None else kv db !! k) /\
  compactions db' =
    compactions db ++
    (if N.of_nat (length (deleted_keys bloom db)) <? rangeCompactionThreshold
     then []
     else [(take HashLength (default [] (head (deleted_keys bloom db))),
            take HashLength (default [] (last (deleted_keys bloom db))))]) /\
  StronglySorted key_lt (deleted_keys bloom db).
Proof.
  unfold prune. intros H.
  destruct (prune_loop bloom (sweep_init db) (iterate db)) as [st| |] eqn:Hloop; try done.
  cbn in H. inversion H; subst db'. clear H.
  destruct (prune_loop_spec bloom (iterate db) (sweep_init db) st Hloop)
    as (C & E & K & B & RS & RL).
  { done. }
  { apply iterate_sorted. }
  { by intros r Hr. }
  { by intros r Hr. }
  fold (deleted_keys bloom db) in *.
  cbn [sweep_init count rangestart rangelimit pdb] in *.
  change (eff (sweep_init db)) with (kv db) in E.
  split; [|split].
  - intros k. rewrite prune_finish_kv by done. rewrite E, lookup_fold_delete.
    destruct (decide (k ∈ deleted_keys bloom db)) as [Hin|Hnin].
    + apply list_elem_of_filter in Hin as [-> _]. done.
    + destruct (stale_key bloom k) eqn:Hs; [|done].
      destruct (kv db !! k) as [v|] eqn:Hk; [|done].
      exfalso. apply Hnin. apply list_elem_of_filter. split; [done|].
      apply elem_of_iterate_keys. by exists v.
  - unfold prune_finish. rewrite C, N.add_0_l.
    rewrite (N.ltb_antisym rangeCompactionThreshold).
    destruct (rangeCompactionThreshold <=? _); cbn [negb].
    + unfold Compact. cbn [compactions].
      assert (Hc : compactions (if 0 <? valueSize (pbatch st)
                                then batch_Write (pdb st) (pbatch st) else pdb st) =
                   compactions db).
      { destruct (0 <? valueSize (pbatch st)); cbn; exact K. }
      rewrite Hc, RS, RL. do 3 f_equal.
      * by destruct (head _).
      * by destruct (last _).
    + rewrite app_nil_r.
      destruct (0 <? valueSize (pbatch st)); cbn; exact K.
  - apply deleted_keys_sorted.
Qed.

(** A store with a stale node, a live node, a stale code entry and an entry
    of another shape; the bloom filter holds the live node only. *)
Definition node_key (n : N) : list byte := be_bytes HashLength n.
Definition code_key (n : N) : list byte := CodePrefix ++ be_bytes HashLength n.

Definition store1 : maindb :=
  {| kv := {[ node_key 1 := ["s"%byte];
              node_key 2 := ["l"%byte];
              code_key 3 := ["c"%byte];
              ["h"%byte] := ["o"%byte] ]};
     compactions := [] |}.

Definition bloom1 : stateBloom :=
  fun key => Ok (bool_decide (key = node_key 2)).

Definition store1_pruned : maindb :=
  {| kv := {[ node_key 2 := ["l"%byte]; ["h"%byte] := ["o"%byte] ]};
     compactions := [] |}.

Lemma prune_spec_witness :
  (forall k, kv store1_pruned !! k = if stale_key bloom1 k then None else kv store1 !! k) /\
  compactions store1_pruned =
    compactions store1 ++
    (if N.of_nat (length (deleted_keys bloom1 store1)) <? rangeCompactionThreshold
     then []
     else [(take HashLength (default [] (head (deleted_keys bloom1 store1))),
            take HashLength (default [] (last (deleted_keys bloom1 store1))))]) /\
  StronglySorted key_lt (deleted_keys bloom1 store1).
Proof. apply (prune_spec store1 store1_pruned bloom1). vm_compute. reflexivity. Defined.

(** The greatest deleted key of [store1] is the code key, 33 bytes long; the
    upper bound the sweep keeps for the compaction is its first 32 bytes,
    which is not that key and compares below it. *)
Lemma range_limit_truncated :
  last (deleted_keys bloom1 store1) = Some (code_key 3) /\
  (rangelimit <$> prune_loop bloom1 (sweep_init store1) (iterate store1)) =
    Ok (Some (take HashLength (code_key 3))) /\
  take HashLength (code_key 3) <> code_key 3 /\
  bytes_compare (take HashLength (code_key 3)) (code_key 3) = Lt.
Proof. repeat split; try (vm_compute; reflexivity). vm_compute. discriminate. Qed.

End PrunerProofs.

(** ** Snapshot generator *)

Module GeneratorProofs.
Import Generator.

Definition marker_le (a b : list byte) : Prop := bytes_compare a b <> Gt.
Definition marker_lt (a b : list byte) : Prop := bytes_compare a b = Lt.

Lemma marker_le_refl (a : list byte) : marker_le a a.
Proof. unfold marker_le. by rewrite bytes_compare_refl. Qed.

Lemma marker_lt_le (a b : list byte) : marker_lt a b -> marker_le a b.
Proof. unfold marker_lt, marker_le. by intros ->. Qed.

Lemma marker_le_cases (a b : list byte) : marker_le a b -> a = b \/ marker_lt a b.
Proof.
  unfold marker_le, marker_lt. destruct (bytes_compare a b) eqn:E; intros H.
  - left. by apply bytes_compare_eq.
  - by right.
  - done.
Qed.

Lemma not_lt_le (a b : list byte) : is_lt (bytes_compare a b) = false -> marker_le b a.
Proof.
  unfold marker_le. rewrite (bytes_compare_antisym a b).
  by destruct (bytes_compare a b).
Qed.

Lemma not_gt_le (a b : list byte) : is_gt (bytes_compare a b) = false -> marker_le a b.
Proof. unfold marker_le. by destruct (bytes_compare a b). Qed.

Lemma bytes_compare_app_same (p a b : list byte) :
  bytes_compare (p ++ a) (p ++ b) = bytes_compare a b.
Proof. induction p as [|x p IH]; cbn; [done|]. by rewrite N.compare_refl. Qed.

Lemma bytes_compare_lt_app (a b x y : list byte) :
  bytes_compare a b = Lt -> length a = length b -> bytes_compare (a ++ x) (b ++ y) = Lt.
Proof.
  revert b. induction a as [|c a IH]; intros [|d b]; cbn; try done.
  destruct (Byte.to_N c ?= Byte.to_N d); try done.
  intros H1 H2. apply IH; [done|lia].
Qed.

Lemma bytes_compare_take_lt (n : nat) (g b : list byte) :
  bytes_compare (take n g) b = Lt -> (length b <= n)%nat -> bytes_compare g b = Lt.
Proof.
  revert n b. induction g as [|x g IH]; intros [|n] [|y b]; cbn; try done; try lia.
  destruct (Byte.to_N x ?= Byte.to_N y); try done.
  intros H1 H2. apply (IH n); [done|lia].
Qed.

Lemma BytesToHash_id (k : list byte) : length k = HashLength -> BytesToHash k = k.
Proof.
  intros H. unfold BytesToHash. rewrite H, Nat.sub_diag, drop_0, H, Nat.sub_diag. done.
Qed.

Lemma increase_rev_gt (r r' : list byte) :
  increase_rev r = Some r' ->
  length r' = length r /\ bytes_compare (rev r) (rev r') = Lt.
Proof.
  revert r'. induction r as [|b r IH]; intros r'; cbn [increase_rev]; [done|].
  destruct (Byte.to_N b =? 255) eqn:E.
  - destruct (increase_rev r) as [r0|]; [|done]. cbn. intros [= <-].
    destruct (IH r0 eq_refl) as [Hl Hc]. split; [cbn; lia|].
    cbn [rev]. apply bytes_compare_lt_app; [done|]. rewrite !length_rev. lia.
  - intros [= <-]. split; [done|]. cbn [rev].
    rewrite bytes_compare_app_same. cbn.
    apply N.eqb_neq in E. pose proof (Byte.to_N_bounded b) as Hb.
    rewrite byte_of_N_to_N, N.mod_small by lia.
    replace (Byte.to_N b ?= Byte.to_N b + 1) with Lt; [done|].
    symmetry. apply N.compare_lt_iff. lia.
Qed.

Lemma increaseKey_gt (key key' : list byte) :
  increaseKey key = Some key' -> marker_lt key key'.
Proof.
  unfold increaseKey, marker_lt. destruct (increase_rev (rev key)) as [r|] eqn:E; [|done].
  cbn. intros [= <-]. apply increase_rev_gt in E as [_ H]. by rewrite rev_involutive in H.
Qed.

Lemma increaseKey_nil : increaseKey [] = None.
Proof. done. Qed.

(** ** The contract of the environment *)

(** The iterators of the store and of the trie yield their keys in strictly
    ascending order; the account table and the tries are keyed by hashes. *)
Definition keys_ascending (entries : list (list byte * list byte)) : Prop :=
  StronglySorted marker_lt entries.*1.

Definition account_iter_ok (entries : list (list byte * list byte)) : Prop :=
  keys_ascending entries /\
  Forall (fun kv => length kv.1 = (length SnapshotAccountPrefix + HashLength)%nat) entries.

Definition trie_ok (ta : trieAnswer) : Prop :=
  keys_ascending (ta_entries ta) /\
  Forall (fun kv => length kv.1 = HashLength) (ta_entries ta).

Definition env_ok (e : env) : Prop :=
  Forall account_iter_ok (accountIter e) /\
  Forall keys_ascending (storageIter e) /\
  Forall trie_ok (tries e).

Definition iter_ok (kd : kind) (entries : list (list byte * list byte)) : Prop :=
  match kd with
  | snapAccount => account_iter_ok entries
  | snapStorage => keys_ascending entries
  end.

Lemma with_answers_same (st : genState) : with_answers st (answers st) = st.
Proof. by destruct st. Qed.

Lemma next_iter_spec (kd : kind) (st : genState) :
  env_ok (answers st) ->
  exists e', (next_iter kd st).1 = with_answers st e' /\ env_ok e' /\
    forall a, (next_iter kd st).2 = Ok a -> iter_ok kd a.
Proof.
  intros Henv. pose proof Henv as (Ha & Hs & Ht). unfold next_iter; cbv zeta. destruct kd.
  - destruct (accountIter (answers st)) as [|a rest] eqn:E.
    + exists (answers st). rewrite with_answers_same. by split.
    + eexists. split; [reflexivity|]. inversion Ha; subst. split; [by repeat split|].
      intros a' [= <-]. done.
  - destruct (storageIter (answers st)) as [|a rest] eqn:E.
    + exists (answers st). rewrite with_answers_same. by split.
    + eexists. split; [reflexivity|]. inversion Hs; subst. split; [by repeat split|].
      intros a' [= <-]. done.
Qed.

Lemma next_proof_spec (st : genState) :
  env_ok (answers st) ->
  exists e', (next_proof st).1 = with_answers st e' /\ env_ok e'.
Proof.
  intros Henv. pose proof Henv as (Ha & Hs & Ht). unfold next_proof; cbv zeta.
  destruct (proofs (answers st)) as [|a rest] eqn:E.
  - exists (answers st). rewrite with_answers_same. by split.
  - eexists. split; [reflexivity|]. by repeat split.
Qed.

Lemma next_trie_spec (st : genState) :
  env_ok (answers st) ->
  exists e', (next_trie st).1 = with_answers st e' /\ env_ok e' /\
    forall a, (next_trie st).2 = Ok a -> trie_ok a.
Proof.
  intros Henv. pose proof Henv as (Ha & Hs & Ht). unfold next_trie; cbv zeta.
  destruct (tries (answers st)) as [|a rest] eqn:E.
  - exists (answers st). rewrite with_answers_same. by split.
  - eexists. split; [reflexivity|]. inversion Ht; subst. split; [by repeat split|].
    intros a' [= <-]. done.
Qed.

Lemma next_signal_spec (st : genState) :
  env_ok (answers st) ->
  exists e', (next_signal st).1 = with_answers st e' /\ env_ok e'.
Proof.
  intros Henv. pose proof Henv as (Ha & Hs & Ht). unfold next_signal; cbv zeta.
  destruct (signals (answers st)) as [|a rest] eqn:E.
  - exists (answers st). rewrite with_answers_same. by split.
  - eexists. split; [reflexivity|]. by repeat split.
Qed.

(** ** The segment read from a flat table *)

Lemma go_slice_take (key p : list byte) (n : nat) :
  go_slice key 0 (N.of_nat n) = Some p -> p = take n key /\ (n <= length key)%nat.
Proof.
  unfold go_slice. destruct (_ && _) eqn:E; [|done]. intros [= <-].
  rewrite N.sub_0_r. rewrite Nat2N.id, drop_0. split; [done|].
  apply andb_true_iff in E as [_ E]. apply N.leb_le in E. unfold len in E. lia.
Qed.

Lemma proveRange_loop_spec (prefix min : list byte) (max : nat) conv
    (entries : list (list byte * list byte)) (acc vacc ks vs : list (list byte)) (more : bool) :
  proveRange_loop prefix min max conv entries acc vacc = Ok (ks, vs, more) ->
  exists taken rest,
    entries = taken ++ rest /\
    ks = acc ++ map (fun e => drop (length prefix) e.1) taken /\
    Forall (fun e => e.1 = prefix ++ drop (length prefix) e.1 /\ marker_le min e.1) taken.
Proof.
  revert acc vacc. induction entries as [|[key value] entries IH]; intros acc vacc; cbn [proveRange_loop].
  - intros [= <- <- <-]. exists [], []. cbn. rewrite app_nil_r. by repeat split.
  - destruct (is_lt (bytes_compare key min)) eqn:Hmin; [done|].
    destruct (go_slice key 0 (len prefix)) as [p|] eqn:Hp; [|done].
    apply go_slice_take in Hp as [Hp _].
    destruct (negb (bool_decide (p = prefix))) eqn:Hpre.
    { intros [= <- <- <-]. exists [], ((key, value) :: entries). cbn. rewrite app_nil_r. by repeat split. }
    destruct (length acc =? max)%nat.
    { intros [= <- <- <-]. exists [], ((key, value) :: entries). cbn. rewrite app_nil_r. by repeat split. }
    intros H. apply IH in H as (taken & rest & -> & -> & Hall).
    exists ((key, value) :: taken), rest. split; [done|]. split.
    + by rewrite <- app_assoc.
    + constructor; [|done]. cbn. split.
      * apply negb_false_iff, bool_decide_eq_true in Hpre. rewrite Hp in Hpre.
        transitivity (take (length prefix) key ++ drop (length prefix) key);
          [by rewrite take_drop | by rewrite Hpre].
      * by apply not_lt_le.
Qed.

Lemma sorted_strip (prefix : list byte) (taken : list (list byte * list byte)) :
  Forall (fun e => e.1 = prefix ++ drop (length prefix) e.1) taken ->
  StronglySorted marker_lt taken.*1 ->
  StronglySorted marker_lt (map (fun e => drop (length prefix) e.1) taken).
Proof.
  induction taken as [|e taken IH]; cbn; intros Hall Hs; [constructor|].
  inversion Hall as [|? ? He Hall']; subst. inversion Hs as [|? ? Hs' Hlt]; subst.
  constructor; [by apply IH|].
  rewrite Forall_fmap in Hlt. rewrite Forall_map.
  rewrite Forall_forall in Hlt, Hall'. apply Forall_forall. intros e' Hin. cbn.
  specialize (Hlt e' Hin). specialize (Hall' e' Hin). cbn in Hlt.
  unfold marker_lt in *. rewrite He, Hall' in Hlt. by rewrite bytes_compare_app_same in Hlt.
Qed.

(** What [proveRange] hands over: keys in strictly ascending order, none
    before the origin, and hashes in the account table. *)
Definition keys_good (kd : kind) (lo : list byte) (ks : list (list byte)) : Prop :=
  StronglySorted marker_lt ks /\ Forall (marker_le lo) ks /\
  (kd = snapAccount -> Forall (fun k => length k = HashLength) ks).

Lemma proveRange_keys (prefix lo : list byte) (kd : kind) (max : nat) conv
    (entries : list (list byte * list byte)) (ks vs : list (list byte)) (more : bool) :
  iter_ok kd entries ->
  (kd = snapAccount -> prefix = SnapshotAccountPrefix) ->
  proveRange_loop prefix (prefix ++ lo) max conv entries [] [] = Ok (ks, vs, more) ->
  keys_good kd lo ks.
Proof.
  intros Hit Hkd H. apply proveRange_loop_spec in H as (taken & rest & -> & -> & Hall).
  cbn [app]. assert (Hasc : keys_ascending (taken ++ rest)) by (destruct kd; [apply Hit|done]).
  unfold keys_ascending in Hasc. rewrite fmap_app in Hasc.
  apply StronglySorted_app_1_l in Hasc.
  split; [|split].
  - apply sorted_strip; [|done]. eapply Forall_impl; [exact Hall|]. by intros e [He _].
  - rewrite Forall_map. eapply Forall_impl; [exact Hall|]. intros e [He Hle]. cbn.
    unfold marker_le in *. rewrite He in Hle. by rewrite bytes_compare_app_same in Hle.
  - intros ->. rewrite (Hkd eq_refl). destruct Hit as [_ Hlen].
    apply Forall_app in Hlen as [Hlen _]. rewrite Forall_map.
    eapply Forall_impl; [exact Hlen|]. intros e He. cbn beta in *.
    rewrite length_drop, He. unfold SnapshotAccountPrefix, HashLength. cbn. lia.
Qed.

Lemma proveRange_spec (prefix : list byte) (kd : kind) (origin : option (list byte))
    (max : nat) conv (st : genState) :
  env_ok (answers st) ->
  (kd = snapAccount -> prefix = SnapshotAccountPrefix) ->
  exists e', (proveRange prefix kd origin max conv st).1 = with_answers st e' /\ env_ok e' /\
    forall res, (proveRange prefix kd origin max conv st).2 = Ok res ->
      keys_good kd (default [] origin) (keys res).
Proof.
  intros Henv Hkd. unfold proveRange, gbind.
  destruct (next_iter_spec kd st Henv) as (e1 & Hst1 & He1 & Hit).
  destruct (next_iter kd st) as [st1 [entries|e|]] eqn:E1; cbn in Hst1; subst st1;
    [|by exists e1|by exists e1].
  specialize (Hit entries eq_refl). unfold glift.
  destruct (proveRange_loop _ _ _ _ _ _ _) as [[[ks vs] more]|e|] eqn:E2;
    [|by exists e1|by exists e1].
  apply (proveRange_keys prefix (default [] origin) kd) in E2; [|done|done].
  assert (He1' : env_ok (answers (with_answers st e1))) by done.
  destruct (next_proof_spec _ He1') as (e2 & Hst2 & He2).
  destruct (next_proof (with_answers st e1)) as [st2 [pa|e|]] eqn:E3; cbn in Hst2; subst st2;
    [|by exists e2|by exists e2].
  exists e2. split; [|split; [done|]].
  - repeat (match goal with |- context [if ?c then _ else _] => destruct c end);
      reflexivity.
  - repeat (match goal with |- context [if ?c then _ else _] => destruct c end);
      cbn; intros res; try done; intros [= <-]; done.
Qed.

(** ** What every step of a run keeps *)

Section Safety.
(** The markers stored before the runs looked at, and whether the error had
    been logged by then. *)
Variable pre : list (list byte).
Variable wb : bool.

(** The stored markers extend the earlier ones and ascend up to the marker
    of the layer, nothing new was logged, and the snapshot is incomplete. *)
Definition safe (st : genState) : Prop :=
  pre `prefix_of` persisted st /\
  StronglySorted marker_le (persisted st ++ [genMarker st]) /\
  wentBackwards st = wb /\ completed st = false.

(** [triple c st Q]: run on [st], the computation [c] keeps the state safe
    and the contract of the remaining answers, and on success establishes
    [Q]. *)
Definition triple {A} (c : Gen A) (st : genState) (Q : A -> genState -> Prop) : Prop :=
  safe (c st).1 /\ env_ok (answers (c st).1) /\ forall a, (c st).2 = Ok a -> Q a (c st).1.

Lemma triple_bind {A B} (c : Gen A) (k : A -> Gen B) (st : genState)
    (Q : A -> genState -> Prop) (R : B -> genState -> Prop) :
  triple c st Q ->
  (forall a st', Q a st' -> safe st' -> env_ok (answers st') -> triple (k a) st' R) ->
  triple (gbind c k) st R.
Proof.
  unfold triple, gbind. intros (Hs & He & HQ) Hk.
  destruct (c st) as [st' [a|e|]]; cbn in *; [|done|done].
  apply Hk; auto.
Qed.

Lemma triple_bind_id {A B} (c : Gen A) (k : A -> Gen B) (st : genState) (x : A)
    (R : B -> genState -> Prop) :
  c st = (st, Ok x) -> triple (k x) st R -> triple (gbind c k) st R.
Proof. unfold triple, gbind. by intros ->. Qed.

Lemma triple_ret {A} (a : A) (st : genState) (Q : A -> genState -> Prop) :
  safe st -> env_ok (answers st) -> Q a st -> triple (gret a) st Q.
Proof. unfold triple, gret; cbn. intros ? ? ?. split; [done|split; [done|]]. by intros ? [= <-]. Qed.

Lemma triple_fail {A} (e : genError) (st : genState) (Q : A -> genState -> Prop) :
  safe st -> env_ok (answers st) -> triple (gfail e) st Q.
Proof. unfold triple, gfail; cbn. intros ? ?. by split. Qed.

Lemma triple_weaken {A} (c : Gen A) (st : genState) (Q Q' : A -> genState -> Prop) :
  triple c st Q -> (forall a st', safe st' -> Q a st' -> Q' a st') -> triple c st Q'.
Proof.
  unfold triple. intros (Hs & He & HQ) Himp. split; [done|split; [done|]].
  intros a Ha. apply Himp; [done|]. by apply HQ.
Qed.

Lemma triple_panic {A} (st : genState) (Q : A -> genState -> Prop) :
  safe st -> env_ok (answers st) -> triple gpanic st Q.
Proof. unfold triple, gpanic; cbn. intros ? ?. by split. Qed.

Lemma safe_answers (st : genState) (e : env) : safe st -> safe (with_answers st e).
Proof. done. Qed.

Lemma sorted_snoc (l : list (list byte)) (g c : list byte) :
  StronglySorted marker_le (l ++ [g]) -> marker_le g c ->
  StronglySorted marker_le ((l ++ [c]) ++ [c]).
Proof.
  intros Hs Hgc. apply StronglySorted_app in Hs as (Hlg & Hl & _).
  assert (Hlc : forall x, x ∈ l -> marker_le x c).
  { intros x Hx. apply (bytes_compare_le_trans x g c); [|done].
    apply Hlg; [done|]. apply list_elem_of_singleton. done. }
  apply StronglySorted_app_2.
  - intros x1 x2 Hx1 Hx2. apply list_elem_of_singleton in Hx2 as ->.
    apply elem_of_app in Hx1 as [Hx1|Hx1]; [by apply Hlc|].
    apply list_elem_of_singleton in Hx1 as ->. apply marker_le_refl.
  - apply StronglySorted_app_2; [|done|repeat constructor].
    intros x1 x2 Hx1 Hx2. apply list_elem_of_singleton in Hx2 as ->. by apply Hlc.
  - repeat constructor.
Qed.

(** A checkpoint at or after the marker of the layer. *)
Lemma checkAndFlush_spec (current : list byte) (st : genState) :
  safe st -> marker_le (genMarker st) current -> env_ok (answers st) ->
  triple (checkAndFlush current) st (fun _ st' =>
    (genMarker st' = genMarker st \/ genMarker st' = current) /\
    accMarker st' = accMarker st).
Proof.
  intros Hsafe Hle Henv. unfold triple, checkAndFlush, gbind.
  destruct (next_signal_spec st Henv) as (e1 & Hst1 & He1).
  destruct (next_signal st) as [st1 [sig|e|]] eqn:E1; cbn in Hst1; subst st1; [|done|done].
  destruct (sig_batchFull sig || sig_abort sig).
  2:{ cbn. split; [done|split; [done|]]. intros _ _. split; [by left|done]. }
  cbn [genMarker with_answers].
  assert (Hnlt : is_lt (bytes_compare current (genMarker st)) = false).
  { unfold marker_le in Hle. rewrite (bytes_compare_antisym (genMarker st) current).
    by destruct (bytes_compare (genMarker st) current). }
  rewrite Hnlt. destruct (sig_writeFails sig); [cbn; split; [done|by split]|].
  destruct Hsafe as (Hpre & Hsorted & Hwb & Hc).
  assert (Hsafe' : safe (store_marker (with_answers st e1) current)).
  { split; [|split; [|done]]; cbn.
    - by apply prefix_app_r.
    - by apply (sorted_snoc _ (genMarker st)). }
  destruct (sig_abort sig); cbn; (split; [done|split; [done|]]); [done|].
  intros _ _. split; [by right|done].
Qed.

(** ** A segment, for any callback *)

Section Range.
Variable onState : onStateCallback.
(** The keys the callback is made for, what it needs of the state when it is
    called at a key ([Inv]) and what it establishes there ([Post]). *)
Variable wf : list byte -> Prop.
Variables Inv Post : list byte -> genState -> Prop.
Hypothesis Inv_answers : forall k st e, Inv k st -> Inv k (with_answers st e).
Hypothesis Post_answers : forall k st e, Post k st -> Post k (with_answers st e).
Hypothesis Inv_safe : forall k st, Inv k st -> safe st.
Hypothesis Post_safe : forall k st, Post k st -> safe st.
Hypothesis Inv_mono : forall k k' st, Inv k st -> marker_le k k' -> Inv k' st.
Hypothesis Post_next : forall k k' st, Post k st -> marker_lt k k' -> Inv k' st.
Hypothesis on_delete : forall k v w st, onState k v w true st = (st, Ok tt).
Hypothesis on_state : forall k v w st,
  wf k -> Inv k st -> env_ok (answers st) ->
  triple (onState k v w false) st (fun _ st' => Post k st').

(** Where the run stands: the callback may be called at any key from [k]
    on, or at any key after [k]. *)
Inductive bound := AtLeast (k : list byte) | Above (k : list byte).

Definition fits (b : bound) (k' : list byte) : Prop :=
  match b with
  | AtLeast k => marker_le k k'
  | Above k => marker_lt k k'
  end.

Definition ready (b : bound) (st : genState) : Prop :=
  match b with
  | AtLeast k => Inv k st
  | Above k => Post k st
  end.

Lemma ready_Inv (b : bound) (k : list byte) (st : genState) :
  ready b st -> fits b k -> Inv k st.
Proof. destruct b; cbn; eauto. Qed.

Lemma ready_safe (b : bound) (st : genState) : ready b st -> safe st.
Proof. destruct b; cbn; eauto. Qed.

Lemma ready_answers (b : bound) (st : genState) (e : env) :
  ready b st -> ready b (with_answers st e).
Proof. destruct b; cbn; eauto. Qed.

Lemma forEach_spec (ks : list (list byte)) :
  forall (vs : list (list byte)) (b : bound) (st : genState),
  StronglySorted marker_lt ks -> Forall wf ks -> Forall (fits b) ks ->
  ready b st -> env_ok (answers st) ->
  triple (forEach ks vs (fun key val => onState key val false false)) st
    (fun _ st' => exists b', ready b' st' /\
       forall k', fits b k' -> Forall (fun k => marker_lt k k') ks -> fits b' k').
Proof.
  induction ks as [|k ks IH]; intros vs b st Hs Hwf Hfit Hr Henv; cbn [forEach].
  - apply triple_ret; [by eapply ready_safe|done|]. exists b. by split.
  - inversion Hs as [|? ? Hs' Hlt]; subst. inversion Hwf; subst. inversion Hfit; subst.
    eapply triple_bind.
    + apply on_state; [done| |done]. by eapply ready_Inv.
    + intros [] st' HP Hsafe' Henv'. cbn beta in *.
      eapply triple_weaken.
      * apply (IH _ (Above k)); try done.
      * cbn beta. intros [] st'' _ (b' & Hr' & Hadv). exists b'. split; [done|].
        intros k' Hk' Hall. inversion Hall; subst. apply Hadv; done.
Qed.

Lemma merge_loop_id (key value : list byte) (kvkeys : list (list byte)) :
  forall (kvvals : list (list byte)) (st : genState),
  exists x, merge_loop onState key value kvkeys kvvals st = (st, Ok x).
Proof.
  induction kvkeys as [|k0 kvkeys IH]; intros kvvals st; cbn [merge_loop].
  - by eexists.
  - destruct (bytes_compare k0 key); [by eexists| |by eexists].
    unfold gbind. rewrite on_delete. apply IH.
Qed.

Lemma delete_rest_id (ks : list (list byte)) (st : genState) :
  delete_rest onState ks st = (st, Ok tt).
Proof.
  induction ks as [|k ks IH]; cbn [delete_rest]; [done|].
  unfold gbind. by rewrite on_delete.
Qed.

Lemma trie_loop_spec (last : option (list byte)) (entries : list (list byte * list byte)) :
  forall (kvkeys kvvals : list (list byte)) (b : bound) (st : genState),
  keys_ascending entries -> Forall (fun e => wf e.1) entries ->
  Forall (fun e => fits b e.1) entries ->
  ready b st -> env_ok (answers st) ->
  triple (trie_loop onState last entries kvkeys kvvals) st
    (fun _ st' => exists b', ready b' st' /\
       forall l k', last = Some l -> fits b k' -> marker_lt l k' -> fits b' k').
Proof.
  induction entries as [|[key value] entries IH]; intros kvkeys kvvals b st Hs Hwf Hfit Hr Henv;
    cbn [trie_loop].
  - apply triple_ret; [by eapply ready_safe|done|]. exists b. by split.
  - unfold keys_ascending in Hs. cbn in Hs.
    inversion Hs as [|? ? Hs' Hlt]; subst. inversion Hwf; subst. inversion Hfit; subst.
    cbn [fst] in *.
    destruct (match last with Some l => is_gt (bytes_compare key l) | None => false end) eqn:Hbreak.
    { apply triple_ret; [by eapply ready_safe|done|]. exists b. by split. }
    destruct (merge_loop_id key value kvkeys kvvals st) as ([[write kvkeys'] kvvals'] & Hm).
    apply (triple_bind_id _ _ _ _ _ Hm).
    eapply triple_bind.
    + apply on_state; [done| |done]. by eapply ready_Inv.
    + intros [] st' HP Hsafe' Henv'. cbn beta in *.
      eapply triple_weaken.
      * apply (IH _ _ (Above key)); try done.
        rewrite Forall_fmap in Hlt. done.
      * cbn beta. intros [] st'' _ (b' & Hr' & Hadv). exists b'. split; [done|].
        intros lk k' -> Hk' Hl. apply (Hadv lk k'); [done| |done]. cbn.
        apply not_gt_le in Hbreak. by apply (bytes_compare_le_lt_trans key lk k').
Qed.

Lemma seek_suffix (lo : list byte) (entries : list (list byte * list byte)) :
  exists p, entries = p ++ seek lo entries.
Proof.
  induction entries as [|e entries [p IH]]; cbn [seek]; [by exists []|].
  destruct (is_lt (bytes_compare e.1 lo)).
  - exists (e :: p). cbn. by rewrite <- IH.
  - by exists [].
Qed.

Lemma seek_from (lo : list byte) (entries : list (list byte * list byte)) :
  keys_ascending entries -> Forall (fun e => marker_le lo e.1) (seek lo entries).
Proof.
  unfold keys_ascending.
  induction entries as [|e entries IH]; cbn [seek]; intros Hs; [constructor|].
  cbn in Hs. inversion Hs as [|? ? Hs' Hlt]; subst.
  destruct (is_lt (bytes_compare e.1 lo)) eqn:E; [by apply IH|].
  apply not_lt_le in E. constructor; [done|].
  rewrite Forall_fmap in Hlt. eapply Forall_impl; [exact Hlt|].
  intros e' He'. cbn in He'. apply marker_lt_le.
  by apply (bytes_compare_le_lt_trans lo e.1 e'.1).
Qed.

Lemma last_greatest (ks : list (list byte)) (l : list byte) :
  StronglySorted marker_lt ks -> last ks = Some l ->
  l ∈ ks /\ Forall (fun k => marker_le k l) ks.
Proof.
  intros Hs Hl. apply last_Some in Hl as [ks' ->]. split.
  - apply elem_of_app. right. by apply list_elem_of_singleton.
  - apply Forall_app. split.
    + apply Forall_forall. intros k Hk. apply marker_lt_le.
      eapply (StronglySorted_app_1_elem_of _ _ _ _ _ Hs); [done|].
      by apply list_elem_of_singleton.
    + repeat constructor. apply marker_le_refl.
Qed.

Lemma generateRange_spec (prefix : list byte) (kd : kind) (origin : option (list byte))
    (max : nat) conv (b : bound) (st : genState) :
  (kd = snapAccount -> prefix = SnapshotAccountPrefix) ->
  (forall k, length k = HashLength -> wf k) ->
  (kd = snapStorage -> forall k, wf k) ->
  (forall k, marker_le (default [] origin) k -> fits b k) ->
  ready b st -> env_ok (answers st) ->
  triple (generateRange prefix kd origin max onState conv) st
    (fun r st' => exists b', ready b' st' /\
       forall l k', r.2 = Some l -> marker_lt l k' -> fits b' k').
Proof.
  intros Hkd Hwf_hash Hwf_kd Hcover Hr Henv. unfold generateRange.
  eapply (triple_bind _ _ _ (fun res st' =>
            keys_good kd (default [] origin) (keys res) /\ ready b st')).
  { destruct (proveRange_spec prefix kd origin max conv st Henv Hkd) as (e' & Hst & He' & Hk).
    unfold triple. rewrite Hst. split; [by eapply safe_answers, ready_safe|].
    split; [done|]. intros res Hres. split; [by apply Hk|]. by apply ready_answers. }
  intros res st1 [(Hsorted & Hlo & Hlen) Hr1] Hsafe1 Henv1. cbn beta.
  assert (Hwfk : Forall wf (keys res)).
  { destruct kd.
    - eapply Forall_impl; [by apply Hlen|]. done.
    - apply Forall_forall. intros k _. by apply Hwf_kd. }
  assert (Hfitk : Forall (fits b) (keys res)).
  { eapply Forall_impl; [exact Hlo|]. done. }
  assert (Hlast : forall l k', last (keys res) = Some l -> marker_lt l k' ->
            fits b k' /\ Forall (fun k => marker_lt k k') (keys res)).
  { intros l k' Hl Hlk. destruct (last_greatest _ _ Hsorted Hl) as [Hin Hall]. split.
    - apply Hcover. rewrite Forall_forall in Hlo. apply marker_lt_le.
      apply (bytes_compare_le_lt_trans _ l k'); [by apply Hlo|done].
    - eapply Forall_impl; [exact Hall|]. intros k Hk. cbn beta in Hk.
      by apply (bytes_compare_le_lt_trans k l k'). }
  destruct (valid res).
  - eapply triple_bind; [by apply (forEach_spec _ _ b)|].
    intros [] st2 (b' & Hr2 & Hadv) Hsafe2 Henv2. cbn beta.
    apply triple_ret; [done..|]. exists b'. split; [done|]. cbn [snd].
    intros l k' Hl Hlk. destruct (Hlast l k' Hl Hlk). by apply Hadv.
  - eapply (triple_bind _ _ _ (fun ta st' => trie_ok ta /\ ready b st')).
    { destruct (next_trie_spec st1 Henv1) as (e' & Hst & He' & Hk).
      unfold triple. rewrite Hst. split; [by apply safe_answers|].
      split; [done|]. intros ta Hta. split; [by apply Hk|]. by apply ready_answers. }
    intros ta st2 [[Hasc Hhash] Hr2] Hsafe2 Henv2. cbn beta.
    destruct (negb (tr res) && negb (ta_opens ta)); [by apply triple_fail|].
    destruct (negb (ta_iterates ta)); [by apply triple_fail|].
    destruct (seek_suffix (default [] origin) (ta_entries ta)) as [p Hp].
    eapply triple_bind.
    { apply (trie_loop_spec _ _ _ _ b); [| | |done|done].
      - unfold keys_ascending in *. rewrite Hp, fmap_app in Hasc.
        by apply StronglySorted_app_1_r in Hasc.
      - rewrite Hp in Hhash. apply Forall_app in Hhash as [_ Hhash].
        eapply Forall_impl; [exact Hhash|]. intros e He. by apply Hwf_hash.
      - eapply Forall_impl; [by apply seek_from|]. intros e He. by apply Hcover. }
    intros [trieMore kvkeys] st3 (b' & Hr3 & Hadv) Hsafe3 Henv3. cbn beta.
    destruct (ta_fails ta); [by apply triple_fail|].
    apply (triple_bind_id _ _ _ _ _ (delete_rest_id _ _)).
    apply triple_ret; [done..|]. exists b'. split; [done|]. cbn [snd].
    intros l k' Hl Hlk. destruct (Hlast l k' Hl Hlk). by apply (Hadv l k').
Qed.

End Range.

(** ** The storage of an account *)

(** At a slot of the account: the marker of the layer is not after the
    marker of the slot, and not after the account. *)
Definition SInv (account k : list byte) (st : genState) : Prop :=
  safe st /\ marker_le (genMarker st) (account ++ k) /\
  marker_le (take HashLength (genMarker st)) account.

Lemma SInv_mono (account k k' : list byte) (st : genState) :
  SInv account k st -> marker_le k k' -> SInv account k' st.
Proof.
  intros (Hs & Hg & Ht) Hk. split; [done|split; [|done]].
  apply (bytes_compare_le_trans _ (account ++ k)); [done|].
  unfold marker_le in *. by rewrite bytes_compare_app_same.
Qed.

Lemma onStorage_spec (account k v : list byte) (w : bool) (st : genState) :
  length account = HashLength -> SInv account k st -> env_ok (answers st) ->
  triple (onStorage account k v w false) st (fun _ st' => SInv account k st').
Proof.
  intros Hlen (Hs & Hg & Ht) Henv. unfold onStorage.
  eapply triple_weaken; [by apply checkAndFlush_spec|].
  cbn beta. intros [] st' Hs' [[Hg'|Hg'] _]; (split; [done|]); rewrite Hg'; [done|].
  split; [apply marker_le_refl|].
  rewrite take_app_length' by done. apply marker_le_refl.
Qed.

Lemma generateStorages_loop_spec (account : list byte) (fuel : nat) :
  forall (origin : option (list byte)) (b : bound) (st : genState),
  length account = HashLength ->
  (forall k, marker_le (default [] origin) k -> fits b k) ->
  ready (SInv account) (SInv account) b st -> env_ok (answers st) ->
  triple (generateStorages_loop fuel account origin) st
    (fun _ st' => marker_le (take HashLength (genMarker st')) account).
Proof.
  induction fuel as [|fuel IH]; intros origin b st Hlen Hcover Hr Henv;
    cbn [generateStorages_loop].
  - apply triple_fail; [|done]. destruct b; apply Hr.
  - eapply triple_bind.
    + eapply (generateRange_spec (onStorage account) (fun _ => True)
                (SInv account) (SInv account)); try done.
      * by intros k st0 [].
      * by intros k st0 [].
      * apply SInv_mono.
      * intros k k' st0 H1 H2. by apply (SInv_mono account k), marker_lt_le.
      * intros k v w st0 _ H1 H2. by apply onStorage_spec.
    + intros [exhausted last] st' (b' & Hr' & Hadv) Hsafe' Henv'. cbn beta iota.
      assert (Hpost : marker_le (take HashLength (genMarker st')) account)
        by (destruct b'; apply Hr').
      destruct exhausted; [by apply triple_ret|].
      destruct (increaseKey (default [] last)) as [origin'|] eqn:Einc;
        [|by apply triple_ret].
      destruct last as [l|]; [|done]. cbn in Einc. apply increaseKey_gt in Einc.
      apply (IH _ b'); try done.
      intros k Hk. cbn in Hk. apply (Hadv l k); [done|].
      by apply (bytes_compare_lt_le_trans l origin' k).
Qed.

(** ** The accounts *)

Section Accounts.
Variable decodeRoot : list byte -> option N.
Variable FullAccountRLP : list byte -> option (list byte).

(** Before the callback at an account [k]: the marker of the layer is not
    after the account; where it lies inside the storage of an account, that
    account is the one the run resumed in, and at [k] only if the callback
    has not run yet. *)
Definition AInv (k : list byte) (st : genState) : Prop :=
  safe st /\ marker_le (take HashLength (genMarker st)) k /\
  ((HashLength < length (genMarker st))%nat ->
     take HashLength (genMarker st) = k -> accMarker st = Some k) /\
  (forall m, accMarker st = Some m -> (HashLength < length (genMarker st))%nat ->
     take HashLength (genMarker st) = m).

Definition APost (k : list byte) (st : genState) : Prop :=
  safe st /\ marker_le (take HashLength (genMarker st)) k /\ accMarker st = None.

Lemma marker_lt_neq (a b : list byte) : marker_lt a b -> a <> b.
Proof. unfold marker_lt. intros H ->. by rewrite bytes_compare_refl in H. Qed.

Lemma AInv_mono (k k' : list byte) (st : genState) :
  AInv k st -> marker_le k k' -> AInv k' st.
Proof.
  intros HI Hk. apply marker_le_cases in Hk as [->|Hk]; [done|].
  destruct HI as (Hs & Hle & H3 & H4). split; [done|]. split; [|split; [|done]].
  - apply marker_lt_le. by apply (bytes_compare_le_lt_trans _ k k').
  - intros _ Heq. exfalso. apply (marker_lt_neq (take HashLength (genMarker st)) k'); [|done].
    by apply (bytes_compare_le_lt_trans _ k k').
Qed.

Lemma APost_next (k k' : list byte) (st : genState) :
  APost k st -> marker_lt k k' -> AInv k' st.
Proof.
  intros (Hs & Hle & Hnone) Hk.
  assert (Hlt : marker_lt (take HashLength (genMarker st)) k')
    by by apply (bytes_compare_le_lt_trans _ k k').
  split; [done|]. split; [by apply marker_lt_le|]. split.
  - intros _ Heq. exfalso. by apply (marker_lt_neq _ _ Hlt).
  - intros m Hm. by rewrite Hnone in Hm.
Qed.

Lemma in_progress_true (k : list byte) (st : genState) :
  in_progress k st = true <->
  accMarker st = Some k /\ (HashLength < length (genMarker st))%nat.
Proof.
  unfold in_progress. destruct (accMarker st) as [m|]; [|by split; [|intros []]].
  rewrite andb_true_iff, bool_decide_eq_true, Nat.ltb_lt.
  split; intros [H1 H2]; (split; [congruence|done]).
Qed.

(** After the checkpoint of the callback at [k]. *)
Definition AMid (k : list byte) (st : genState) : Prop :=
  marker_le (take HashLength (genMarker st)) k /\
  if in_progress k st then take HashLength (genMarker st) = k
  else marker_le (genMarker st) k.

Lemma onAccount_checkpoint (k : list byte) (st : genState) :
  length k = HashLength -> AInv k st -> env_ok (answers st) ->
  triple (checkAndFlush (if in_progress k st then genMarker st else k)) st
    (fun _ st' => AMid k st').
Proof.
  intros Hlen (Hs & Hle & H3 & H4) Henv.
  destruct (in_progress k st) eqn:Hin.
  - apply in_progress_true in Hin as [Ham Hlong].
    eapply triple_weaken; [apply checkAndFlush_spec; [done|apply marker_le_refl|done]|].
    cbn beta. intros [] st' _ [Hg' Ham'].
    assert (Hg : genMarker st' = genMarker st) by by destruct Hg'.
    unfold AMid. rewrite Hg. split; [done|].
    replace (in_progress k st') with true; [by apply H4|].
    symmetry. apply in_progress_true. by rewrite Ham', Hg.
  - assert (Hgk : marker_le (genMarker st) k).
    { destruct (decide (HashLength < length (genMarker st))%nat) as [Hlong|Hshort].
      - apply marker_lt_le. apply (bytes_compare_take_lt HashLength); [|lia].
        apply marker_le_cases in Hle as [Heq|Hlt]; [|done].
        exfalso. assert (Hin' : in_progress k st = true)
          by (apply in_progress_true; split; [by apply H3|done]).
        by rewrite Hin in Hin'.
      - rewrite take_ge in Hle by lia. done. }
    eapply triple_weaken; [by apply checkAndFlush_spec|].
    cbn beta. intros [] st' _ [Hg' Ham']. unfold AMid.
    assert (Hin' : in_progress k st' = false).
    { destruct (in_progress k st') eqn:E; [|done].
      apply in_progress_true in E as [E1 E2]. destruct Hg' as [Hg'|Hg'].
      - rewrite <- Hin. symmetry. apply in_progress_true. by rewrite <- Ham', <- Hg'.
      - rewrite Hg' in E2. lia. }
    rewrite Hin'. destruct Hg' as [->| ->]; [done|].
    rewrite take_ge by lia. split; apply marker_le_refl.
Qed.

Lemma onAccount_spec (k v : list byte) (w : bool) (st : genState) :
  length k = HashLength -> AInv k st -> env_ok (answers st) ->
  triple (onAccount decodeRoot k v w false) st (fun _ st' => APost k st').
Proof.
  intros Hlen HI Henv. unfold onAccount. rewrite (BytesToHash_id k Hlen).
  assert (Hs : safe st) by apply HI.
  destruct (decodeRoot v) as [root|]; [|by apply triple_panic].
  apply (triple_bind_id gget _ st st); [done|].
  eapply triple_bind; [by apply onAccount_checkpoint|].
  intros [] st1 [Hle1 Hmid] Hs1 Henv1. cbn beta.
  destruct (root =? EmptyRootHash).
  { unfold triple; cbn. split; [done|split; [done|]]. intros _ _. by split. }
  apply (triple_bind_id gget _ st1 st1); [done|].
  eapply triple_bind.
  - apply (generateStorages_loop_spec k _ _
             (AtLeast (default [] (if in_progress k st1
                                   then Some (drop HashLength (genMarker st1)) else None))));
      [done|done| |done].
    cbn. split; [done|split; [|done]].
    destruct (in_progress k st1); cbn.
    + rewrite <- Hmid, take_drop. apply marker_le_refl.
    + by rewrite app_nil_r.
  - intros [] st2 Hle2 Hs2 Henv2. cbn beta.
    unfold triple; cbn. split; [done|split; [done|]]. intros _ _. by split.
Qed.

Lemma generateAccounts_loop_spec (fuel : nat) :
  forall (origin : option (list byte)) (accountRange : nat) (b : bound) (st : genState),
  (forall k, marker_le (default [] origin) k -> fits b k) ->
  ready AInv APost b st -> env_ok (answers st) ->
  triple (generateAccounts_loop decodeRoot FullAccountRLP fuel origin accountRange) st
    (fun _ _ => True).
Proof.
  induction fuel as [|fuel IH]; intros origin accountRange b st Hcover Hr Henv;
    cbn [generateAccounts_loop].
  - apply triple_fail; [|done]. destruct b; apply Hr.
  - eapply triple_bind.
    + eapply (generateRange_spec (onAccount decodeRoot) (fun k => length k = HashLength)
                AInv APost); try done.
      * by intros k st0 [].
      * by intros k st0 [].
      * apply AInv_mono.
      * apply APost_next.
      * intros k v w st0 H0 H1 H2. by apply onAccount_spec.
    + intros [exhausted last] st' (b' & Hr' & Hadv) Hsafe' Henv'. cbn beta iota.
      destruct (increaseKey (default [] last)) as [origin'|] eqn:Einc;
        [|by apply triple_ret].
      destruct exhausted; [by apply triple_ret|].
      destruct last as [l|]; [|done]. cbn in Einc. apply increaseKey_gt in Einc.
      apply (IH _ _ b'); try done.
      intros k Hk. cbn in Hk. apply (Hadv l k); [done|].
      by apply (bytes_compare_lt_le_trans l origin' k).
Qed.

(** What a run leaves. *)
Definition left_ok (st : genState) : Prop :=
  pre `prefix_of` persisted st /\ StronglySorted marker_le (persisted st) /\
  wentBackwards st = wb /\ (completed st = false -> safe st).

Lemma safe_left_ok (st : genState) : safe st -> left_ok st.
Proof.
  intros Hs. pose proof Hs as (Hp & Hsorted & Hw & Hc).
  split; [done|]. split; [by apply StronglySorted_app_1_l in Hsorted|]. done.
Qed.

Lemma generate_spec (st : genState) :
  safe st -> env_ok (answers st) ->
  left_ok (generate decodeRoot FullAccountRLP st).1.
Proof.
  intros Hs Henv. unfold generate.
  destruct (if (0 <? length (genMarker st))%nat
            then option_map Some (go_slice (genMarker st) 0 (N.of_nat HashLength))
            else Some None) as [accMarker0|] eqn:Eacc; [|by apply safe_left_ok].
  assert (HI : AInv (default [] accMarker0) (with_accMarker st accMarker0)).
  { split; [done|]. cbn. destruct (0 <? length (genMarker st))%nat eqn:Elen.
    - destruct (go_slice (genMarker st) 0 (N.of_nat HashLength)) as [x|] eqn:Ex; [|done].
      injection Eacc as <-. apply go_slice_take in Ex as [-> Hx]. cbn.
      split; [apply marker_le_refl|]. split; [done|]. by intros m [= <-].
    - injection Eacc as <-. apply Nat.ltb_ge in Elen.
      destruct (genMarker st); [|cbn in Elen; lia]. cbn.
      split; [done|]. split; [intros; lia|done]. }
  assert (Htriple : triple (generateAccounts decodeRoot FullAccountRLP accMarker0) st
                      (fun _ _ => True)).
  { apply (generateAccounts_loop_spec _ _ _ (AtLeast (default [] accMarker0))); done. }
  destruct Htriple as (Hs1 & Henv1 & _).
  destruct (generateAccounts decodeRoot FullAccountRLP accMarker0 st) as [st1 [[]|e|]];
    cbn in Hs1, Henv1; [|by apply safe_left_ok|by apply safe_left_ok].
  destruct (next_signal_spec st1 Henv1) as (e2 & Hst2 & He2).
  destruct (next_signal st1) as [st2 [sig|e|]]; cbn in Hst2; subst st2;
    [|by apply safe_left_ok|by apply safe_left_ok].
  destruct (sig_writeFails sig); [by apply safe_left_ok|].
  cbn. destruct Hs1 as (Hp & Hsorted & Hw & Hc).
  split; [done|]. split; [by apply StronglySorted_app_1_l in Hsorted|]. done.
Qed.

Lemma runs_spec (envs : list env) :
  forall st, Forall env_ok envs -> left_ok st ->
  left_ok (runs decodeRoot FullAccountRLP envs st).
Proof.
  induction envs as [|e envs IH]; intros st Henvs Hst; cbn [runs]; [done|].
  inversion Henvs; subst. destruct (completed st) eqn:Ec; [done|].
  apply IH; [done|]. apply generate_spec; [|done].
  destruct Hst as (_ & _ & _ & Hsafe). by apply Hsafe.
Qed.

End Accounts.
End Safety.

(** C9: across every run of the snapshot generator the markers stored by the
    checkpoints never go back.  Let the answers of the environment in each
    run keep the contract of the store and of the trie (iterators yield
    strictly ascending keys; the account table and the tries are keyed by
    32-byte hashes), and let the runs start on a state whose stored markers
    ascend up to the marker of the layer.  Then after any sequence of runs,
    each resuming on what the previous one left, the earlier stored markers
    are still the beginning of the sequence, the sequence is
    lexicographically non-decreasing, and no run has logged that the
    generator went backwards. *)
Theorem persisted_markers_ascend (decodeRoot : list byte -> option N)
    (FullAccountRLP : list byte -> option (list byte))
    (envs : list env) (st0 : genState) :
  Forall env_ok envs ->
  StronglySorted marker_le (persisted st0 ++ [genMarker st0]) ->
  persisted st0 `prefix_of` persisted (runs decodeRoot FullAccountRLP envs st0) /\
  StronglySorted marker_le (persisted (runs decodeRoot FullAccountRLP envs st0)) /\
  wentBackwards (runs decodeRoot FullAccountRLP envs st0) = wentBackwards st0.
Proof.
  intros Henvs Hsorted.
  assert (H0 : left_ok (persisted st0) (wentBackwards st0) st0).
  { split; [done|]. split; [by apply StronglySorted_app_1_l in Hsorted|]. split; [done|].
    intros Hc. by split. }
  pose proof (runs_spec (persisted st0) (wentBackwards st0) decodeRoot FullAccountRLP
                envs st0 Henvs H0) as (Hp & Hs & Hw & _).
  done.
Qed.

(** A generation in two runs: two accounts, the first with two slots.  The
    first run stores a marker at the first slot and is stopped at the
    second; the second run resumes inside the storage of the first account
    and completes. *)
Definition account1 : list byte := replicate 32 "001"%byte.
Definition account2 : list byte := replicate 32 "002"%byte.
Definition slot1 : list byte := replicate 32 "003"%byte.
Definition slot2 : list byte := replicate 32 "004"%byte.

Definition decodeRoot0 (val : list byte) : option N :=
  match val with
  | [] => Some EmptyRootHash
  | _ => Some (le_value val)
  end.

Definition FullAccountRLP0 (val : list byte) : option (list byte) := Some val.

Definition proved (cont : bool) : proofAnswer :=
  {| pa_stackError := false; pa_rootMatches := true; pa_trieOpens := true;
     pa_proveOrigin := true; pa_proveLast := true; pa_verified := true; pa_cont := cont |}.

Definition quiet : signal :=
  {| sig_abort := false; sig_batchFull := false; sig_writeFails := false |}.
Definition full : signal :=
  {| sig_abort := false; sig_batchFull := true; sig_writeFails := false |}.
Definition stop : signal :=
  {| sig_abort := true; sig_batchFull := false; sig_writeFails := false |}.

Definition accounts_table : list (list byte * list byte) :=
  [(SnapshotAccountPrefix ++ account1, ["001"%byte]);
   (SnapshotAccountPrefix ++ account2, [])].

Definition run1 : env :=
  {| accountIter := [accounts_table];
     storageIter := [[(SnapshotStoragePrefix ++ account1 ++ slot1, ["007"%byte]);
                      (SnapshotStoragePrefix ++ account1 ++ slot2, ["008"%byte])]];
     proofs := [proved false; proved false];
     tries := [];
     signals := [quiet; full; stop] |}.

Definition run2 : env :=
  {| accountIter := [accounts_table; [(SnapshotAccountPrefix ++ account2, [])]];
     storageIter := [[(SnapshotStoragePrefix ++ account1 ++ slot2, ["008"%byte])]];
     proofs := [proved true; proved false; proved false];
     tries := [];
     signals := [full; quiet; full; quiet] |}.

Definition fresh : genState :=
  {| genMarker := []; persisted := []; completed := false; wentBackwards := false;
     accMarker := None;
     answers := {| accountIter := []; storageIter := []; proofs := []; tries := [];
                   signals := [] |} |}.

Lemma runs_example :
  persisted (runs decodeRoot0 FullAccountRLP0 [run1] fresh)
    = [account1 ++ slot1; account1 ++ slot2] /\
  genMarker (runs decodeRoot0 FullAccountRLP0 [run1] fresh) = account1 ++ slot2 /\
  completed (runs decodeRoot0 FullAccountRLP0 [run1] fresh) = false /\
  persisted (runs decodeRoot0 FullAccountRLP0 [run1; run2] fresh)
    = [account1 ++ slot1; account1 ++ slot2; account1 ++ slot2; account2] /\
  completed (runs decodeRoot0 FullAccountRLP0 [run1; run2] fresh) = true.
Proof. vm_compute. repeat split. Qed.

Lemma persisted_markers_ascend_witness :
  Forall env_ok [run1; run2] /\
  StronglySorted marker_le (persisted fresh ++ [genMarker fresh]) /\
  persisted fresh `prefix_of` persisted (runs decodeRoot0 FullAccountRLP0 [run1; run2] fresh) /\
  StronglySorted marker_le (persisted (runs decodeRoot0 FullAccountRLP0 [run1; run2] fresh)) /\
  wentBackwards (runs decodeRoot0 FullAccountRLP0 [run1; run2] fresh) = wentBackwards fresh.
Proof.
  assert (H1 : Forall env_ok [run1; run2]).
  { repeat constructor. }
  assert (H2 : StronglySorted marker_le (persisted fresh ++ [genMarker fresh])).
  { repeat constructor. }
  split; [exact H1|]. split; [exact H2|].
  apply (persisted_markers_ascend decodeRoot0 FullAccountRLP0 [run1; run2] fresh H1 H2).
Defined.

End GeneratorProofs.

(** ** Trie key encodings *)

Module EncodingProofs.
Import Encoding.

(** A nibble is a byte below 16; a hex key is a list of nibbles, with the
    terminator at the end or without. *)
Definition nibble (b : byte) : Prop := Byte.to_N b < 16.

Definition term_of (t : bool) : list byte := if t then [terminator] else [].

(** The nibbles of a key, two a byte, and the bytes of the nibbles taken two
    by two. *)
Definition expand (str : list byte) : list byte :=
  flat_map (fun b => [byte_div b 16; byte_mod b 16]) str.

Fixpoint pack (nibbles : list byte) : list byte :=
  match nibbles with
  | hi :: lo :: nibbles' => byte_or (byte_shl hi 4) lo :: pack nibbles'
  | _ => []
  end.

Lemma list_ind2 {A} (P : list A -> Prop) :
  P [] -> (forall x, P [x]) -> (forall x y l, P l -> P (x :: y :: l)) -> forall l, P l.
Proof.
  intros H0 H1 H2. fix IH 1. intros [|x [|y l]]; [exact H0|apply H1|].
  apply H2, IH.
Qed.

Lemma byte_split (b : byte) : byte_or (byte_shl (byte_div b 16) 4) (byte_mod b 16) = b.
Proof. destruct b; reflexivity. Qed.

Lemma byte_div_nibble (b : byte) : nibble (byte_div b 16).
Proof. destruct b; reflexivity. Qed.

Lemma byte_mod_nibble (b : byte) : nibble (byte_mod b 16).
Proof. destruct b; reflexivity. Qed.

Ltac nibble_cases x H :=
  destruct x; try (exfalso; vm_compute in H; discriminate H).

Lemma byte_join (hi lo : byte) :
  nibble hi -> nibble lo ->
  byte_div (byte_or (byte_shl hi 4) lo) 16 = hi /\
  byte_mod (byte_or (byte_shl hi 4) lo) 16 = lo.
Proof.
  intros Hhi Hlo. nibble_cases hi Hhi; nibble_cases lo Hlo; split; reflexivity.
Qed.

Lemma nibble_not_terminator (b : byte) : nibble b -> b <> terminator.
Proof. intros H ->. vm_compute in H. discriminate. Qed.

Lemma pack_expand (str : list byte) : pack (expand str) = str.
Proof.
  induction str as [|b str IH]; [done|].
  change (expand (b :: str)) with (byte_div b 16 :: byte_mod b 16 :: expand str).
  cbn [pack]. by rewrite byte_split, IH.
Qed.

Lemma expand_pack (nibbles : list byte) :
  Forall nibble nibbles -> Nat.Even (length nibbles) -> expand (pack nibbles) = nibbles.
Proof.
  induction nibbles as [|x|x y l IH] using list_ind2; intros Hn He.
  - done.
  - destruct He as [k Hk]. cbn in Hk. lia.
  - inversion Hn as [|? ? Hx Hn']; subst. inversion Hn' as [|? ? Hy Hn'']; subst.
    cbn [pack].
    change (expand (byte_or (byte_shl x 4) y :: pack l))
      with (byte_div (byte_or (byte_shl x 4) y) 16
              :: byte_mod (byte_or (byte_shl x 4) y) 16 :: expand (pack l)).
    destruct (byte_join x y Hx Hy) as [-> ->]. f_equal. f_equal. apply IH; [done|].
    destruct He as [k Hk]. exists (k - 1)%nat. cbn in Hk. lia.
Qed.

Lemma expand_length (str : list byte) : length (expand str) = (2 * length str)%nat.
Proof.
  induction str as [|b str IH]; [done|].
  change (expand (b :: str)) with (byte_div b 16 :: byte_mod b 16 :: expand str).
  cbn [length]. rewrite IH. lia.
Qed.

Lemma expand_nibbles (str : list byte) : Forall nibble (expand str).
Proof.
  induction str as [|b str IH]; [constructor|].
  change (expand (b :: str)) with (byte_div b 16 :: byte_mod b 16 :: expand str).
  constructor; [apply byte_div_nibble|]. constructor; [apply byte_mod_nibble|done].
Qed.

Lemma pack_length (nibbles : list byte) : length (pack nibbles) = (length nibbles / 2)%nat.
Proof.
  induction nibbles as [|x|x y l IH] using list_ind2; [done|done|].
  cbn [pack length]. rewrite IH.
  change (S (S (length l))) with (1 * 2 + length l)%nat.
  rewrite Nat.div_add_l by lia. lia.
Qed.

Lemma land_1 (n : nat) : Nat.land n 1 = (n mod 2)%nat.
Proof. change 1%nat with (Nat.ones 1). by rewrite Nat.land_ones. Qed.

Lemma land_1_even (n : nat) : (Nat.land n 1 =? 0)%nat = true <-> Nat.Even n.
Proof.
  rewrite land_1, Nat.eqb_eq. split.
  - intros H. exists (n / 2)%nat. pose proof (Nat.div_mod_eq n 2) as Hd. lia.
  - intros [k ->]. rewrite Nat.mul_comm. apply Nat.Div0.mod_mul.
Qed.

Lemma land_1_odd (n : nat) : (Nat.land n 1 =? 1)%nat = true <-> Nat.Odd n.
Proof.
  rewrite land_1, Nat.eqb_eq. split.
  - intros H. exists (n / 2)%nat. pose proof (Nat.div_mod_eq n 2) as Hd. lia.
  - intros [k ->]. rewrite Nat.add_comm, Nat.mul_comm, Nat.Div0.mod_add. done.
Qed.

(** *** The loops on buffers *)

Lemma KeybytesToHex_from_spec (str : list byte) :
  forall (i : nat) (done rest : list byte),
    length done = (i * 2)%nat -> (2 * length str <= length rest)%nat ->
    KeybytesToHex_from i str (done ++ rest)
      = done ++ expand str ++ drop (2 * length str) rest.
Proof.
  induction str as [|b str IH]; intros i done rest Hd Hr; cbn [KeybytesToHex_from].
  - by rewrite drop_0.
  - cbn [length] in Hr. destruct rest as [|r0 [|r1 rest]]; cbn in Hr; try lia.
    rewrite (insert_app_r_alt done) by lia.
    replace (i * 2 - length done)%nat with 0%nat by lia. cbn [insert list_insert].
    rewrite (insert_app_r_alt done) by lia.
    replace (i * 2 + 1 - length done)%nat with 1%nat by lia. cbn [insert list_insert].
    replace (done ++ byte_div b 16 :: byte_mod b 16 :: rest)
      with ((done ++ [byte_div b 16; byte_mod b 16]) ++ rest) by by rewrite <- app_assoc.
    rewrite (IH (S i)); [|rewrite length_app; cbn; lia|lia].
    rewrite <- app_assoc.
    change (expand (b :: str)) with (byte_div b 16 :: byte_mod b 16 :: expand str).
    cbn [app length].
    replace (2 * S (length str))%nat with (S (S (2 * length str))) by lia. done.
Qed.

(** [KeybytesToHex] gives the nibbles of the key, high before low, and the
    terminator. *)
Lemma KeybytesToHex_expand (str : list byte) :
  KeybytesToHex str = expand str ++ [terminator].
Proof.
  unfold KeybytesToHex. cbv zeta.
  replace (replicate (length str * 2 + 1) "000"%byte)
    with ([] ++ replicate (length str * 2 + 1) "000"%byte) by done.
  rewrite (KeybytesToHex_from_spec str 0 []); [|done|rewrite length_replicate; lia].
  cbn [app]. rewrite drop_replicate.
  replace (length str * 2 + 1 - 2 * length str)%nat with 1%nat by lia. cbn [replicate].
  rewrite insert_app_r_alt by (rewrite expand_length; lia).
  rewrite expand_length.
  replace (length str * 2 + 1 - 1 - 2 * length str)%nat with 0%nat by lia. done.
Qed.

Lemma decodeNibbles_from_spec (nibbles : list byte) :
  forall (bi : nat) (done rest : list byte),
    Nat.Even (length nibbles) -> length done = bi ->
    (length nibbles / 2 <= length rest)%nat ->
    decodeNibbles_from bi nibbles (done ++ rest)
      = Some (done ++ pack nibbles ++ drop (length nibbles / 2) rest).
Proof.
  induction nibbles as [|x|x y l IH] using list_ind2; intros bi done rest He Hd Hr.
  - cbn. by rewrite drop_0.
  - destruct He as [k Hk]. cbn in Hk. lia.
  - cbn [decodeNibbles_from].
    assert (Hdiv : (length (x :: y :: l) / 2 = S (length l / 2))%nat).
    { cbn [length]. change (S (S (length l))) with (1 * 2 + length l)%nat.
      rewrite Nat.div_add_l by lia. lia. }
    rewrite Hdiv in *. destruct rest as [|r0 rest]; cbn [length] in Hr; [lia|].
    rewrite length_app. cbn [length].
    replace (bi <? length done + S (length rest))%nat with true
      by (symmetry; apply Nat.ltb_lt; lia).
    rewrite insert_app_r_alt by lia.
    replace (bi - length done)%nat with 0%nat by lia. cbn [insert list_insert].
    replace (done ++ byte_or (byte_shl x 4) y :: rest)
      with ((done ++ [byte_or (byte_shl x 4) y]) ++ rest) by by rewrite <- app_assoc.
    rewrite (IH (S bi)); [| |rewrite length_app; cbn; lia|lia].
    + rewrite <- app_assoc. done.
    + destruct He as [k Hk]. exists (k - 1)%nat. cbn in Hk. lia.
Qed.

Lemma decodeNibbles_spec (nibbles : list byte) :
  Nat.Even (length nibbles) ->
  decodeNibbles nibbles (replicate (length nibbles / 2) "000"%byte) = Some (pack nibbles).
Proof.
  intros He. unfold decodeNibbles.
  replace (replicate (length nibbles / 2) "000"%byte)
    with ([] ++ replicate (length nibbles / 2) "000"%byte) by done.
  rewrite decodeNibbles_from_spec; [|done|done|by rewrite length_replicate].
  cbn [app]. rewrite drop_ge by (rewrite length_replicate; lia). by rewrite app_nil_r.
Qed.

(** *** The terminator *)

Lemma HasTerm_nibbles (nibbles : list byte) : Forall nibble nibbles -> HasTerm nibbles = false.
Proof.
  intros Hn. unfold HasTerm. destruct (0 <? length nibbles)%nat eqn:E; [|done]. cbn.
  apply bool_decide_eq_false. intros Hl.
  apply list_elem_of_lookup_2 in Hl. rewrite Forall_forall in Hn.
  by apply (nibble_not_terminator _ (Hn _ Hl)).
Qed.

Lemma HasTerm_terminated (nibbles : list byte) : HasTerm (nibbles ++ [terminator]) = true.
Proof.
  unfold HasTerm. rewrite length_app. cbn [length].
  replace (0 <? length nibbles + 1)%nat with true by (symmetry; apply Nat.ltb_lt; lia).
  cbn. apply bool_decide_eq_true.
  rewrite lookup_app_r by lia. replace (length nibbles + 1 - 1 - length nibbles)%nat with 0%nat by lia.
  done.
Qed.

Lemma strip_term (nibbles : list byte) (t : bool) :
  Forall nibble nibbles ->
  HasTerm (nibbles ++ term_of t) = t /\
  (if HasTerm (nibbles ++ term_of t)
   then take (length (nibbles ++ term_of t) - 1) (nibbles ++ term_of t)
   else nibbles ++ term_of t) = nibbles.
Proof.
  intros Hn. destruct t; cbn [term_of].
  - rewrite HasTerm_terminated. split; [done|].
    rewrite length_app. cbn [length]. replace (length nibbles + 1 - 1)%nat with (length nibbles) by lia.
    by rewrite take_app_length.
  - rewrite app_nil_r, HasTerm_nibbles by done. done.
Qed.

(** *** Key bytes and hex keys *)

(** X1: The hex form of a key has two nibbles a byte and the terminator, and
    [HexToKeybytes] gives the key back. *)
Theorem HexToKeybytes_KeybytesToHex (str : list byte) :
  length (KeybytesToHex str) = (2 * length str + 1)%nat /\
  Forall nibble (take (2 * length str) (KeybytesToHex str)) /\
  HasTerm (KeybytesToHex str) = true /\
  HexToKeybytes (KeybytesToHex str) = Some str.
Proof.
  rewrite KeybytesToHex_expand.
  destruct (strip_term (expand str) true (expand_nibbles str)) as [Ht Hs].
  cbn [term_of] in Ht, Hs.
  split; [rewrite length_app, expand_length; cbn; lia|].
  split; [rewrite <- expand_length, take_app_length; apply expand_nibbles|].
  split; [done|].
  unfold HexToKeybytes. cbv zeta. rewrite Hs.
  assert (He : Nat.Even (length (expand str))) by (exists (length str); apply expand_length).
  replace (negb (Nat.land (length (expand str)) 1 =? 0)%nat) with false
    by (symmetry; apply negb_false_iff, land_1_even, He).
  rewrite decodeNibbles_spec by done. by rewrite pack_expand.
Qed.

Lemma decodeNibbles_from_odd (nibbles : list byte) :
  forall (bi : nat) (bytes : list byte),
    Nat.Odd (length nibbles) -> decodeNibbles_from bi nibbles bytes = None.
Proof.
  induction nibbles as [|x|x y l IH] using list_ind2; intros bi bytes Ho.
  - destruct Ho as [k Hk]. cbn in Hk. lia.
  - done.
  - cbn [decodeNibbles_from]. destruct (bi <? length bytes)%nat; [|done].
    apply IH. destruct Ho as [k Hk]. exists (k - 1)%nat. cbn in Hk. lia.
Qed.

(** X2: [HexToKeybytes] on a hex key, with the terminator or without: it panics
    exactly on the keys with an odd number of nibbles, and the key it gives
    for the others has these nibbles as its hex form. *)
Theorem HexToKeybytes_hex (nibbles : list byte) (t : bool) :
  Forall nibble nibbles ->
  (Nat.Odd (length nibbles) -> HexToKeybytes (nibbles ++ term_of t) = None) /\
  (Nat.Even (length nibbles) ->
     HexToKeybytes (nibbles ++ term_of t) = Some (pack nibbles) /\
     KeybytesToHex (pack nibbles) = nibbles ++ [terminator]).
Proof.
  intros Hn. destruct (strip_term nibbles t Hn) as [Ht Hs].
  unfold HexToKeybytes. cbv zeta. rewrite Hs. split.
  - intros Ho. apply land_1_odd in Ho. apply Nat.eqb_eq in Ho. rewrite Ho. done.
  - intros He. pose proof He as He'. apply land_1_even in He'. rewrite He'. cbn [negb].
    split; [by apply decodeNibbles_spec|].
    rewrite KeybytesToHex_expand, expand_pack by done. done.
Qed.

Lemma HexToKeybytes_hex_witness :
  Forall nibble [ "001"%byte; "002"%byte ] /\
  HexToKeybytes ([ "001"%byte; "002"%byte ] ++ term_of true) = Some [ "018"%byte ].
Proof.
  assert (Hn : Forall nibble [ "001"%byte; "002"%byte ]) by (repeat constructor).
  split; [exact Hn|].
  apply (HexToKeybytes_hex [ "001"%byte; "002"%byte ] true Hn).
  exists 1%nat. reflexivity.
Defined.

(** *** Compact keys *)

Definition flag_byte (t : bool) : byte := byte_shl (if t then "001"%byte else "000"%byte) 5.

(** The compact form of a hex key: the flag byte (with the first nibble when
    their number is odd), then the nibbles two a byte. *)
Definition compact_of (nibbles : list byte) (t : bool) : list byte :=
  if Nat.even (length nibbles) then flag_byte t :: pack nibbles
  else
    match nibbles with
    | first :: rest =>
        byte_or (byte_or (flag_byte t) (byte_shl "001"%byte 4)) first :: pack rest
    | [] => []
    end.

Lemma replicate_succ_r {A} (n : nat) (x : A) : replicate (n + 1) x = x :: replicate n x.
Proof. by rewrite Nat.add_1_r. Qed.

Lemma HexToCompact_spec (nibbles : list byte) (t : bool) :
  Forall nibble nibbles ->
  HexToCompact (nibbles ++ term_of t) = Some (compact_of nibbles t).
Proof.
  intros Hn. destruct (strip_term nibbles t Hn) as [Ht Hs].
  unfold HexToCompact, compact_of. cbv zeta. rewrite Hs, Ht.
  rewrite replicate_succ_r. cbn [insert list_insert].
  fold (flag_byte t).
  destruct (Nat.Even_or_Odd (length nibbles)) as [He|Ho].
  - pose proof He as He'. apply land_1_even, Nat.eqb_eq in He'.
    rewrite He'. cbn [Nat.eqb]. rewrite skipn_cons, drop_0, firstn_cons, take_0.
    rewrite decodeNibbles_spec by done.
    apply Nat.even_spec in He. by rewrite He.
  - pose proof Ho as Ho'. apply land_1_odd in Ho'. rewrite Ho'.
    destruct nibbles as [|first rest]; [destruct Ho as [k Hk]; cbn in Hk; lia|].
    cbn [lookup list_lookup insert list_insert].
    rewrite !skipn_cons, !drop_0, firstn_cons, take_0.
    assert (He : Nat.Even (length rest)).
    { destruct Ho as [k Hk]. exists k. cbn in Hk. lia. }
    assert (Hdiv : (length (first :: rest) / 2 = length rest / 2)%nat).
    { destruct He as [k Hk]. cbn [length]. rewrite Hk.
      replace (S (2 * k)) with (1 + k * 2)%nat by lia.
      rewrite Nat.div_add by lia. rewrite Nat.mul_comm, Nat.div_mul by lia. done. }
    rewrite Hdiv, decodeNibbles_spec by done.
    replace (Nat.even (length (first :: rest))) with false; [done|].
    symmetry. apply Bool.not_true_iff_false. intros Hev. apply Nat.even_spec in Hev.
    apply (Nat.Even_Odd_False _ Hev Ho).
Qed.

Lemma flag_even (t : bool) :
  byte_div (flag_byte t) 16 = (if t then "002"%byte else "000"%byte) /\
  byte_mod (flag_byte t) 16 = "000"%byte.
Proof. by destruct t. Qed.

Lemma flag_odd (t : bool) (first : byte) :
  nibble first ->
  byte_div (byte_or (byte_or (flag_byte t) (byte_shl "001"%byte 4)) first) 16
    = (if t then "003"%byte else "001"%byte) /\
  byte_mod (byte_or (byte_or (flag_byte t) (byte_shl "001"%byte 4)) first) 16 = first.
Proof. intros Hf. destruct t; nibble_cases first Hf; split; reflexivity. Qed.

Lemma CompactToHex_compact_of (nibbles : list byte) (t : bool) :
  Forall nibble nibbles ->
  CompactToHex (compact_of nibbles t) = Some (nibbles ++ term_of t).
Proof.
  intros Hn. unfold compact_of.
  destruct (Nat.even (length nibbles)) eqn:Hev.
  - apply Nat.even_spec in Hev. unfold CompactToHex. cbn [length Nat.eqb]. cbv zeta.
    rewrite KeybytesToHex_expand.
    change (expand (flag_byte t :: pack nibbles))
      with (byte_div (flag_byte t) 16 :: byte_mod (flag_byte t) 16 :: expand (pack nibbles)).
    rewrite expand_pack by done. destruct (flag_even t) as [-> ->].
    cbn [app lookup list_lookup length]. rewrite length_app. cbn [length].
    replace (S (S (length nibbles + 1)) - 1)%nat with (S (S (length nibbles))) by lia.
    destruct t; cbn [term_of].
    + cbn. done.
    + cbn. rewrite take_app_length. by rewrite app_nil_r.
  - destruct nibbles as [|first rest]; [done|].
    inversion Hn as [|? ? Hf Hrest]; subst.
    assert (He : Nat.Even (length rest)).
    { apply Bool.not_true_iff_false in Hev. rewrite Nat.even_spec in Hev.
      destruct (Nat.Even_or_Odd (length (first :: rest))) as [H|[k Hk]]; [done|].
      exists k. cbn in Hk. lia. }
    unfold CompactToHex. cbn [length Nat.eqb]. cbv zeta.
    rewrite KeybytesToHex_expand.
    set (c0 := byte_or (byte_or (flag_byte t) (byte_shl "001"%byte 4)) first).
    change (expand (c0 :: pack rest))
      with (byte_div c0 16 :: byte_mod c0 16 :: expand (pack rest)).
    rewrite expand_pack by done. subst c0. destruct (flag_odd t first Hf) as [-> ->].
    cbn [app lookup list_lookup length]. rewrite length_app. cbn [length].
    replace (S (S (length rest + 1)) - 1)%nat with (S (S (length rest))) by lia.
    destruct t; cbn [term_of].
    + cbn. done.
    + cbn. rewrite take_app_length. by rewrite app_nil_r.
Qed.

(** X3: [HexToCompact] followed by [CompactToHex] gives a hex key back, with its
    terminator if it has one; the compact key has one byte more than half
    the nibbles. *)
Theorem CompactToHex_HexToCompact (nibbles : list byte) (t : bool) :
  Forall nibble nibbles ->
  exists compact,
    HexToCompact (nibbles ++ term_of t) = Some compact /\
    length compact = (length nibbles / 2 + 1)%nat /\
    CompactToHex compact = Some (nibbles ++ term_of t).
Proof.
  intros Hn. exists (compact_of nibbles t).
  split; [by apply HexToCompact_spec|]. split; [|by apply CompactToHex_compact_of].
  unfold compact_of. destruct (Nat.even (length nibbles)) eqn:Hev.
  - cbn [length]. rewrite pack_length. lia.
  - destruct nibbles as [|first rest]; [done|]. cbn [length]. rewrite pack_length.
    apply Bool.not_true_iff_false in Hev. rewrite Nat.even_spec in Hev.
    destruct (Nat.Even_or_Odd (length (first :: rest))) as [H|[k Hk]]; [done|].
    cbn [length] in Hk. rewrite Hk.
    replace (2 * k + 1)%nat with (1 + k * 2)%nat by lia. rewrite Nat.div_add by lia.
    assert (length rest = (k * 2)%nat) as -> by lia. rewrite Nat.div_mul by lia.
    change (1 / 2)%nat with 0%nat. lia.
Qed.

Lemma CompactToHex_HexToCompact_witness :
  Forall nibble [ "015"%byte; "001"%byte; "012"%byte ] /\
  exists compact,
    HexToCompact ([ "015"%byte; "001"%byte; "012"%byte ] ++ term_of true) = Some compact /\
    length compact = (length [ "015"%byte; "001"%byte; "012"%byte ] / 2 + 1)%nat /\
    CompactToHex compact = Some ([ "015"%byte; "001"%byte; "012"%byte ] ++ term_of true).
Proof.
  assert (Hn : Forall nibble [ "015"%byte; "001"%byte; "012"%byte ]) by (repeat constructor).
  split; [exact Hn|].
  apply (CompactToHex_HexToCompact [ "015"%byte; "001"%byte; "012"%byte ] true Hn).
Defined.

(** *** Reverse compact keys *)

Definition rflag_byte (t : bool) : byte := byte_shl (if t then "001"%byte else "000"%byte) 1.

(** The reverse compact form of a hex key: the nibbles two a byte, then the
    flag byte (with the last nibble when their number is odd). *)
Definition reverse_compact_of (nibbles : list byte) (t : bool) : list byte :=
  if Nat.even (length nibbles) then pack nibbles ++ [rflag_byte t]
  else
    match last nibbles with
    | Some lastn =>
        pack (take (length nibbles - 1) nibbles)
          ++ [byte_or (byte_or (rflag_byte t) "001"%byte) (byte_shl lastn 4)]
    | None => []
    end.

Lemma insert_last_replicate {A} (m : nat) (v x : A) :
  <[m := v]> (replicate (m + 1) x) = replicate m x ++ [v].
Proof.
  rewrite replicate_add. cbn [replicate].
  rewrite insert_app_r_alt by (rewrite length_replicate; lia).
  rewrite length_replicate, Nat.sub_diag. done.
Qed.

Lemma expand_app (a b : list byte) : expand (a ++ b) = expand a ++ expand b.
Proof. unfold expand. apply flat_map_app. Qed.

Lemma odd_div2 (k : nat) : ((2 * k + 1) / 2 = k)%nat.
Proof.
  replace (2 * k + 1)%nat with (1 + k * 2)%nat by lia. rewrite Nat.div_add by lia.
  change (1 / 2)%nat with 0%nat. lia.
Qed.

Lemma even_div2 (k : nat) : ((2 * k) / 2 = k)%nat.
Proof. rewrite Nat.mul_comm. apply Nat.div_mul. lia. Qed.

Lemma HexToReverseCompact_spec (nibbles : list byte) (t : bool) :
  Forall nibble nibbles ->
  HexToReverseCompact (nibbles ++ term_of t) = Some (reverse_compact_of nibbles t).
Proof.
  intros Hn. destruct (strip_term nibbles t Hn) as [Ht Hs].
  unfold HexToReverseCompact, reverse_compact_of. cbv zeta. rewrite Hs, Ht.
  rewrite length_replicate.
  replace (length nibbles / 2 + 1 - 1)%nat with (length nibbles / 2)%nat by lia.
  rewrite insert_last_replicate. fold (rflag_byte t).
  rewrite length_app, length_replicate. cbn [length].
  replace (length nibbles / 2 + 1 - 1)%nat with (length nibbles / 2)%nat by lia.
  destruct (Nat.Even_or_Odd (length nibbles)) as [He|Ho].
  - pose proof He as He'. apply land_1_even, Nat.eqb_eq in He'.
    rewrite He'. cbn [Nat.eqb].
    rewrite take_app_length' by (by rewrite length_replicate).
    rewrite drop_app_length' by (by rewrite length_replicate).
    rewrite decodeNibbles_spec by done. cbn [mbind option_bind].
    apply Nat.even_spec in He. by rewrite He.
  - pose proof Ho as Ho'. apply land_1_odd in Ho'. rewrite Ho'.
    destruct nibbles as [|lastn front _] using rev_ind;
      [destruct Ho as [k Hk]; cbn in Hk; lia|].
    rewrite length_app in *. cbn [length] in *.
    replace (length front + 1 - 1)%nat with (length front) by lia.
    rewrite (lookup_app_r (replicate _ _)) by (rewrite length_replicate; lia).
    rewrite length_replicate, Nat.sub_diag. cbn [lookup list_lookup].
    rewrite (lookup_app_r front) by lia. rewrite Nat.sub_diag. cbn [lookup list_lookup].
    rewrite insert_app_r_alt by (rewrite length_replicate; lia).
    rewrite length_replicate, Nat.sub_diag. cbn [insert list_insert].
    rewrite take_app_length, last_snoc.
    rewrite (length_app (replicate _ _)), length_replicate. cbn [length].
    replace ((length front + 1) / 2 + 1 - 1)%nat with ((length front + 1) / 2)%nat by lia.
    rewrite take_app_length' by (by rewrite length_replicate).
    rewrite drop_app_length' by (by rewrite length_replicate).
    assert (He : Nat.Even (length front)).
    { destruct Ho as [k Hk]. exists k. lia. }
    assert (Hdiv : ((length front + 1) / 2 = length front / 2)%nat).
    { destruct He as [k Hk]. rewrite Hk, odd_div2, even_div2. done. }
    rewrite Hdiv, decodeNibbles_spec by done. cbn [mbind option_bind].
    replace (Nat.even (length front + 1)) with false; [done|].
    symmetry. apply Bool.not_true_iff_false. intros Hev. apply Nat.even_spec in Hev.
    apply (Nat.Even_Odd_False _ Hev Ho).
Qed.

Lemma rflag_even (t : bool) :
  byte_div (rflag_byte t) 16 = "000"%byte /\
  byte_mod (rflag_byte t) 16 = (if t then "002"%byte else "000"%byte).
Proof. by destruct t. Qed.

Lemma rflag_odd (t : bool) (lastn : byte) :
  nibble lastn ->
  byte_div (byte_or (byte_or (rflag_byte t) "001"%byte) (byte_shl lastn 4)) 16 = lastn /\
  byte_mod (byte_or (byte_or (rflag_byte t) "001"%byte) (byte_shl lastn 4)) 16
    = (if t then "003"%byte else "001"%byte).
Proof. intros Hl. destruct t; nibble_cases lastn Hl; split; reflexivity. Qed.

Lemma ReverseCompactToHex_tail (body : list byte) (hi flag : byte) :
  ReverseCompactToHex (pack body ++ [byte_or (byte_shl hi 4) flag]) =
  (let base := expand (pack body)
                 ++ [byte_div (byte_or (byte_shl hi 4) flag) 16;
                     byte_mod (byte_or (byte_shl hi 4) flag) 16] in
   let f := byte_mod (byte_or (byte_shl hi 4) flag) 16 in
   let chop := N.to_nat (Byte.to_N (byte_sub "002"%byte (byte_and f "001"%byte))) in
   if (chop <=? length base)%nat
   then if 2 <=? Byte.to_N f
        then Some (take (length base - chop) base ++ [terminator])
        else Some (take (length base - chop) base)
   else None).
Proof.
  unfold ReverseCompactToHex. rewrite length_app. cbn [length].
  replace (length (pack body) + 1 =? 0)%nat with false
    by (symmetry; apply Nat.eqb_neq; lia).
  cbv zeta. rewrite KeybytesToHex_expand.
  rewrite length_app. cbn [length].
  replace (length (expand (pack body ++ [byte_or (byte_shl hi 4) flag])) + 1 - 1)%nat
    with (length (expand (pack body ++ [byte_or (byte_shl hi 4) flag]))) by lia.
  rewrite take_app_length. rewrite expand_app.
  change (expand [byte_or (byte_shl hi 4) flag])
    with [byte_div (byte_or (byte_shl hi 4) flag) 16;
          byte_mod (byte_or (byte_shl hi 4) flag) 16].
  set (base := expand (pack body) ++ _).
  assert (Hl : base !! (length base - 1)%nat
               = Some (byte_mod (byte_or (byte_shl hi 4) flag) 16)).
  { subst base. rewrite length_app. cbn [length].
    rewrite lookup_app_r by lia.
    replace (length (expand (pack body)) + 2 - 1 - length (expand (pack body)))%nat
      with 1%nat by lia. done. }
  rewrite Hl. done.
Qed.

Lemma ReverseCompactToHex_reverse_compact_of (nibbles : list byte) (t : bool) :
  Forall nibble nibbles ->
  ReverseCompactToHex (reverse_compact_of nibbles t) = Some (nibbles ++ term_of t).
Proof.
  intros Hn. unfold reverse_compact_of.
  destruct (Nat.even (length nibbles)) eqn:Hev.
  - apply Nat.even_spec in Hev.
    replace (rflag_byte t) with (byte_or (byte_shl "000"%byte 4) (rflag_byte t))
      by (by destruct t).
    rewrite ReverseCompactToHex_tail. cbv zeta.
    replace (byte_or (byte_shl "000"%byte 4) (rflag_byte t)) with (rflag_byte t)
      by (by destruct t).
    destruct (rflag_even t) as [-> ->]. rewrite expand_pack by done.
    rewrite length_app. cbn [length].
    destruct t; cbn [term_of].
    + change (N.to_nat (Byte.to_N (byte_sub "002" (byte_and "002" "001")))) with 2%nat.
      replace (2 <=? length nibbles + 2)%nat with true by (symmetry; apply Nat.leb_le; lia).
      change (2 <=? Byte.to_N "002") with true. cbv iota.
      replace (length nibbles + 2 - 2)%nat with (length nibbles) by lia.
      by rewrite take_app_length.
    + change (N.to_nat (Byte.to_N (byte_sub "002" (byte_and "000" "001")))) with 2%nat.
      replace (2 <=? length nibbles + 2)%nat with true by (symmetry; apply Nat.leb_le; lia).
      change (2 <=? Byte.to_N "000") with false. cbv iota.
      replace (length nibbles + 2 - 2)%nat with (length nibbles) by lia.
      by rewrite take_app_length, app_nil_r.
  - destruct nibbles as [|lastn front _] using rev_ind; [done|].
    apply Forall_app in Hn as [Hfront Hlast]. inversion Hlast as [|? ? Hl _]; subst.
    rewrite last_snoc, length_app. cbn [length].
    replace (length front + 1 - 1)%nat with (length front) by lia. rewrite take_app_length.
    assert (He : Nat.Even (length front)).
    { apply Bool.not_true_iff_false in Hev. rewrite Nat.even_spec in Hev.
      destruct (Nat.Even_or_Odd (length (front ++ [lastn]))) as [H|[k Hk]]; [done|].
      rewrite length_app in Hk. cbn in Hk. exists k. lia. }
    replace (byte_or (byte_or (rflag_byte t) "001") (byte_shl lastn 4))
      with (byte_or (byte_shl lastn 4) (byte_or (rflag_byte t) "001"))
      by (destruct t; nibble_cases lastn Hl; reflexivity).
    rewrite ReverseCompactToHex_tail. cbv zeta.
    replace (byte_or (byte_shl lastn 4) (byte_or (rflag_byte t) "001"))
      with (byte_or (byte_or (rflag_byte t) "001") (byte_shl lastn 4))
      by (destruct t; nibble_cases lastn Hl; reflexivity).
    destruct (rflag_odd t lastn Hl) as [-> ->]. rewrite expand_pack by done.
    rewrite length_app. cbn [length].
    destruct t; cbn [term_of].
    + change (N.to_nat (Byte.to_N (byte_sub "002" (byte_and "003" "001")))) with 1%nat.
      replace (1 <=? length front + 2)%nat with true by (symmetry; apply Nat.leb_le; lia).
      change (2 <=? Byte.to_N "003") with true. cbv iota.
      replace (length front + 2 - 1)%nat with (length (front ++ [lastn]))
        by (rewrite length_app; cbn; lia).
      replace (front ++ [lastn; "003"%byte]) with ((front ++ [lastn]) ++ ["003"%byte])
        by (by rewrite <- app_assoc).
      by rewrite take_app_length.
    + change (N.to_nat (Byte.to_N (byte_sub "002" (byte_and "001" "001")))) with 1%nat.
      replace (1 <=? length front + 2)%nat with true by (symmetry; apply Nat.leb_le; lia).
      change (2 <=? Byte.to_N "001") with false. cbv iota.
      replace (length front + 2 - 1)%nat with (length (front ++ [lastn]))
        by (rewrite length_app; cbn; lia).
      replace (front ++ [lastn; "001"%byte]) with ((front ++ [lastn]) ++ ["001"%byte])
        by (by rewrite <- app_assoc).
      by rewrite take_app_length, app_nil_r.
Qed.

(** X4: [HexToReverseCompact] followed by [ReverseCompactToHex] gives a hex key
    back, with its terminator if it has one. *)
Theorem ReverseCompactToHex_HexToReverseCompact (nibbles : list byte) (t : bool) :
  Forall nibble nibbles ->
  exists compact,
    HexToReverseCompact (nibbles ++ term_of t) = Some compact /\
    ReverseCompactToHex compact = Some (nibbles ++ term_of t).
Proof.
  intros Hn. exists (reverse_compact_of nibbles t).
  split; [by apply HexToReverseCompact_spec|by apply ReverseCompactToHex_reverse_compact_of].
Qed.

Lemma ReverseCompactToHex_HexToReverseCompact_witness :
  Forall nibble [ "001"%byte; "002"%byte; "003"%byte ] /\
  exists compact,
    HexToReverseCompact ([ "001"%byte; "002"%byte; "003"%byte ] ++ term_of false)
      = Some compact /\
    ReverseCompactToHex compact
      = Some ([ "001"%byte; "002"%byte; "003"%byte ] ++ term_of false).
Proof.
  assert (Hn : Forall nibble [ "001"%byte; "002"%byte; "003"%byte ]) by (repeat constructor).
  split; [exact Hn|].
  apply (ReverseCompactToHex_HexToReverseCompact
           [ "001"%byte; "002"%byte; "003"%byte ] false Hn).
Defined.

(** *** The common prefix *)

(** X5: [PrefixLen a b] is the length of the longest common prefix: the two
    slices agree on that many bytes and, where both go on, differ at the
    next. *)
Theorem PrefixLen_spec (a b : list byte) :
  (PrefixLen a b <= length a)%nat /\ (PrefixLen a b <= length b)%nat /\
  take (PrefixLen a b) a = take (PrefixLen a b) b /\
  (forall x y, a !! PrefixLen a b = Some x -> b !! PrefixLen a b = Some y -> x <> y).
Proof.
  revert b. induction a as [|x a IH]; intros [|y b]; cbn [PrefixLen length];
    try (repeat split; try done; lia).
  destruct (bool_decide (x = y)) eqn:E.
  - apply bool_decide_eq_true in E as ->.
    destruct (IH b) as (H1 & H2 & H3 & H4).
    repeat split; try lia.
    + cbn. by rewrite H3.
    + cbn. apply H4.
  - apply bool_decide_eq_false in E. repeat split; try lia.
    cbn. intros ? ? [= <-] [= <-]. done.
Qed.

(** *** The compact key in place *)

(** A hex key without its terminator. *)
Definition strip (hex : list byte) : list byte :=
  if HasTerm hex then take (length hex - 1) hex else hex.

Lemma strip_take (hex : list byte) : strip hex = take (length (strip hex)) hex.
Proof.
  unfold strip. destruct (HasTerm hex).
  - rewrite length_take, Nat.min_l by lia. done.
  - by rewrite firstn_all.
Qed.

Lemma strip_length (hex : list byte) : (length (strip hex) <= length hex)%nat.
Proof. unfold strip. destruct (HasTerm hex); [rewrite length_take|]; lia. Qed.

(** [HexToCompact] does not panic, whatever bytes the slice holds. *)
Lemma HexToCompact_any (hex : list byte) :
  HexToCompact hex = Some (compact_of (strip hex) (HasTerm hex)).
Proof.
  unfold HexToCompact, compact_of. cbv zeta. fold (strip hex).
  set (nib := strip hex). set (t := HasTerm hex).
  rewrite replicate_succ_r. cbn [insert list_insert].
  fold (flag_byte t).
  destruct (Nat.Even_or_Odd (length nib)) as [He|Ho].
  - pose proof He as He'. apply land_1_even, Nat.eqb_eq in He'.
    rewrite He'. cbn [Nat.eqb]. rewrite skipn_cons, drop_0, firstn_cons, take_0.
    rewrite decodeNibbles_spec by done.
    apply Nat.even_spec in He. by rewrite He.
  - pose proof Ho as Ho'. apply land_1_odd in Ho'. rewrite Ho'.
    destruct nib as [|first rest]; [destruct Ho as [k Hk]; cbn in Hk; lia|].
    cbn [lookup list_lookup insert list_insert].
    rewrite !skipn_cons, !drop_0, firstn_cons, take_0.
    assert (He : Nat.Even (length rest)).
    { destruct Ho as [k Hk]. exists k. cbn in Hk. lia. }
    assert (Hdiv : (length (first :: rest) / 2 = length rest / 2)%nat).
    { destruct He as [k Hk]. cbn [length]. rewrite Hk.
      replace (S (2 * k)) with (2 * k + 1)%nat by lia. by rewrite odd_div2, even_div2. }
    rewrite Hdiv, decodeNibbles_spec by done.
    replace (Nat.even (length (first :: rest))) with false; [done|].
    symmetry. apply Bool.not_true_iff_false. intros Hev. apply Nat.even_spec in Hev.
    apply (Nat.Even_Odd_False _ Hev Ho).
Qed.

Lemma pack_app_even (a b : list byte) :
  Nat.Even (length a) -> pack (a ++ b) = pack a ++ pack b.
Proof.
  induction a as [|x|x y l IH] using list_ind2; intros He.
  - done.
  - destruct He as [k Hk]. cbn in Hk. lia.
  - cbn [app pack]. rewrite IH; [done|].
    destruct He as [k Hk]. exists (k - 1)%nat. cbn in Hk. lia.
Qed.

Section InPlace.
(** The buffer as the call finds it and the index of its first nibble to be
    paired. *)
Variable hex : list byte.
Variable ni0 : nat.
Hypothesis hex_nonempty : (1 <= length hex)%nat.
Hypothesis ni0_small : (ni0 <= 1)%nat.

(** The buffer after [j] rounds of the loop. *)
Definition after (j : nat) : list byte :=
  take 1 hex ++ pack (take (2 * j) (drop ni0 hex)) ++ drop (1 + j) hex.

Lemma after_lookup (j i : nat) :
  (ni0 + 2 * j <= length hex)%nat -> (1 + j <= i)%nat \/ j = 0%nat ->
  after j !! i = hex !! i.
Proof.
  intros Hj [Hi| ->]; unfold after.
  - rewrite lookup_app_r by (rewrite length_take; lia).
    rewrite length_take, Nat.min_l by lia.
    assert (Hp : length (pack (take (2 * j) (drop ni0 hex))) = j).
    { rewrite pack_length, length_take, length_drop, Nat.min_l by lia. apply even_div2. }
    rewrite lookup_app_r by lia. rewrite Hp, lookup_drop. f_equal. lia.
  - cbn [Nat.mul]. rewrite take_0. cbn [pack app]. by rewrite take_drop.
Qed.

Lemma after_length (j : nat) :
  (ni0 + 2 * j <= length hex)%nat -> length (after j) = length hex.
Proof.
  intros Hj. unfold after. rewrite !length_app, length_take, length_drop, Nat.min_l by lia.
  rewrite pack_length, length_take, length_drop, Nat.min_l by lia. rewrite even_div2. lia.
Qed.

Lemma after_step (j : nat) (hi lo : byte) :
  (ni0 + 2 * j + 2 <= length hex)%nat ->
  hex !! (ni0 + 2 * j)%nat = Some hi -> hex !! (ni0 + 2 * j + 1)%nat = Some lo ->
  <[(1 + j)%nat := byte_or (byte_shl hi 4) lo]> (after j) = after (S j).
Proof.
  intros Hj Hhi Hlo. unfold after.
  assert (Hp : length (pack (take (2 * j) (drop ni0 hex))) = j).
  { rewrite pack_length, length_take, length_drop, Nat.min_l by lia. apply even_div2. }
  rewrite insert_app_r_alt by (rewrite length_take; lia).
  rewrite length_take, Nat.min_l by lia.
  rewrite insert_app_r_alt by lia. rewrite Hp.
  replace (1 + j - 1 - j)%nat with 0%nat by lia.
  destruct (lookup_lt_is_Some_2 hex (1 + j)) as [x Hx]; [lia|].
  rewrite (drop_S hex x (1 + j) Hx). cbn [insert list_insert].
  f_equal.
  replace (2 * S j)%nat with (S (S (2 * j))) by lia.
  rewrite (take_S_r _ (S (2 * j)) lo) by (rewrite lookup_drop; rewrite <- Hlo; f_equal; lia).
  rewrite (take_S_r _ (2 * j) hi) by (rewrite lookup_drop; rewrite <- Hhi; f_equal; lia).
  rewrite <- !app_assoc. cbn [app].
  rewrite pack_app_even.
  - rewrite <- app_assoc. done.
  - exists j. rewrite length_take, length_drop, Nat.min_l by lia. done.
Qed.

Lemma HexToCompactInPlace_loop_spec (k : nat) :
  forall j : nat,
    (ni0 + 2 * (j + k) <= length hex)%nat ->
    HexToCompactInPlace_loop k (ni0 + 2 * j) (1 + j) (after j) = Some (after (j + k)).
Proof.
  induction k as [|k IH]; intros j Hj; cbn [HexToCompactInPlace_loop].
  - by rewrite Nat.add_0_r.
  - destruct (lookup_lt_is_Some_2 hex (ni0 + 2 * j)) as [hi Hhi]; [lia|].
    destruct (lookup_lt_is_Some_2 hex (ni0 + 2 * j + 1)) as [lo Hlo]; [lia|].
    assert (Hcases : forall i, (ni0 + 2 * j <= i)%nat -> (1 + j <= i)%nat \/ j = 0%nat) by lia.
    rewrite !after_lookup by (try apply Hcases; lia).
    rewrite Hhi, Hlo, after_length by lia.
    replace (1 + j <? length hex)%nat with true by (symmetry; apply Nat.ltb_lt; lia).
    rewrite after_step by (done || lia).
    replace (ni0 + 2 * j + 2)%nat with (ni0 + 2 * S j)%nat by lia.
    replace (1 + j + 1)%nat with (1 + S j)%nat by lia.
    rewrite IH by lia. f_equal. f_equal. lia.
Qed.

End InPlace.

Lemma after_0 (hex : list byte) (ni0 : nat) : after hex ni0 0 = hex.
Proof. unfold after. cbn [Nat.mul]. rewrite take_0. cbn [pack app]. by rewrite take_drop. Qed.

(** X6: On a buffer that is not empty, [HexToCompactInPlace] leaves the compact
    key [HexToCompact] returns at the front of the buffer, does not touch
    the bytes behind it, and returns the length of the key. *)
Theorem HexToCompactInPlace_HexToCompact (hex : list byte) :
  hex <> [] ->
  exists compact,
    HexToCompact hex = Some compact /\
    HexToCompactInPlace hex = Some (compact ++ drop (length compact) hex, length compact).
Proof.
  intros Hne. assert (Hlen : (1 <= length hex)%nat) by (destruct hex; [done|cbn; lia]).
  exists (compact_of (strip hex) (HasTerm hex)). split; [apply HexToCompact_any|].
  unfold HexToCompactInPlace. cbv zeta.
  change ((0 <? length hex)%nat && bool_decide (hex !! (length hex - 1)%nat = Some terminator))
    with (HasTerm hex).
  replace (if HasTerm hex then (length hex - 1)%nat else length hex)
    with (length (strip hex))
    by (unfold strip; destruct (HasTerm hex); [rewrite length_take|]; lia).
  pose proof (strip_take hex) as Hst. pose proof (strip_length hex) as Hsl.
  replace (if HasTerm hex then byte_shl "001" 5 else "000"%byte) with (flag_byte (HasTerm hex))
    by (by destruct (HasTerm hex)).
  assert (Hhead : forall v rest, <[0%nat := v]> (take 1 hex ++ rest) = v :: rest).
  { intros v rest. destruct hex; [done|]. done. }
  unfold compact_of.
  destruct (Nat.Even_or_Odd (length (strip hex))) as [[m Hm]|[m Hm]].
  - replace (Nat.land (length (strip hex)) 1 =? 1)%nat with false.
    2:{ symmetry. apply Bool.not_true_iff_false. intros H. apply land_1_odd in H.
        apply (Nat.Even_Odd_False (length (strip hex))); [by exists m|done]. }
    replace (Nat.even (length (strip hex))) with true
      by (symmetry; apply Nat.even_spec; by exists m).
    replace ((length (strip hex) + 1 - 0) / 2)%nat with m
      by (rewrite Hm, Nat.sub_0_r, odd_div2; done).
    rewrite <- (after_0 hex 0) at 1.
    pose proof (HexToCompactInPlace_loop_spec hex 0 Hlen (Nat.le_0_1) m 0) as Hloop.
    cbn [Nat.add Nat.mul] in Hloop. rewrite Hloop by lia.
    cbn [mbind option_bind]. rewrite after_length by lia.
    replace (0 <? length hex)%nat with true by (symmetry; apply Nat.ltb_lt; lia).
    assert (Hpl : length (pack (strip hex)) = m) by (by rewrite pack_length, Hm, even_div2).
    cbn [length]. rewrite Hpl, Hm, even_div2.
    f_equal. f_equal; [|lia].
    unfold after. rewrite Hhead. cbn [app]. f_equal. rewrite drop_0.
    rewrite Hst, Hm. done.
  - replace (Nat.land (length (strip hex)) 1 =? 1)%nat with true
      by (symmetry; apply land_1_odd; by exists m).
    replace (Nat.even (length (strip hex))) with false.
    2:{ symmetry. apply Bool.not_true_iff_false. intros H. apply Nat.even_spec in H.
        apply (Nat.Even_Odd_False (length (strip hex))); [done|by exists m]. }
    destruct (lookup_lt_is_Some_2 hex 0) as [h0 Hh0]; [lia|].
    rewrite Hh0. cbn [option_map].
    replace ((length (strip hex) + 1 - 1) / 2)%nat with m
      by (rewrite Hm; replace (2 * m + 1 + 1 - 1)%nat with (2 * m + 1)%nat by lia;
          by rewrite odd_div2).
    rewrite <- (after_0 hex 1) at 1.
    pose proof (HexToCompactInPlace_loop_spec hex 1 Hlen (Nat.le_refl 1) m 0) as Hloop.
    cbn [Nat.add Nat.mul] in Hloop. rewrite Hloop by lia.
    cbn [mbind option_bind]. rewrite after_length by lia.
    replace (0 <? length hex)%nat with true by (symmetry; apply Nat.ltb_lt; lia).
    assert (Hstrip : strip hex = h0 :: take (2 * m) (drop 1 hex)).
    { rewrite Hst, Hm. replace (2 * m + 1)%nat with (S (2 * m)) by lia.
      destruct hex as [|x tl]; [done|]. injection Hh0 as ->.
      cbn [take]. by rewrite skipn_cons, drop_0. }
    rewrite Hm, odd_div2, Hstrip.
    assert (Hpl : length (pack (take (2 * m) (drop 1 hex))) = m).
    { rewrite pack_length, length_take, length_drop, Nat.min_l by lia. apply even_div2. }
    cbn [length]. rewrite Hpl.
    f_equal. f_equal; [|lia].
    unfold after. rewrite Hhead. cbn [app]. done.
Qed.

Lemma HexToCompactInPlace_HexToCompact_witness :
  [ "001"%byte; "002"%byte; "003"%byte; "016"%byte ] <> [] /\
  exists compact,
    HexToCompact [ "001"%byte; "002"%byte; "003"%byte; "016"%byte ] = Some compact /\
    HexToCompactInPlace [ "001"%byte; "002"%byte; "003"%byte; "016"%byte ]
      = Some (compact ++ drop (length compact)
                           [ "001"%byte; "002"%byte; "003"%byte; "016"%byte ],
              length compact).
Proof.
  assert (Hne : [ "001"%byte; "002"%byte; "003"%byte; "016"%byte ] <> []) by discriminate.
  split; [exact Hne|].
  apply (HexToCompactInPlace_HexToCompact _ Hne).
Defined.

(** The empty buffer: [HexToCompact] returns the flag byte alone,
    [HexToCompactInPlace] has no room for it and panics. *)
Lemma HexToCompactInPlace_empty :
  HexToCompact [] = Some [ "000"%byte ] /\ HexToCompactInPlace [] = None.
Proof. split; reflexivity. Qed.

End EncodingProofs.

(** ** Node buffer: reads, commit and revert *)

Module NodeBufferOpsProofs.
Import NodeBuffer NodeBufferOps NodeBufferProofs.

(** *** What commit leaves in the buffer *)

Lemma commit_node_fold (subset current : gmap (list byte) Node) (delta : Z) :
  (map_fold commit_node (current, delta) subset).1 = subset ∪ current.
Proof.
  apply (map_fold_weak_ind
           (fun (acc : gmap (list byte) Node * Z) m => acc.1 = m ∪ current)).
  - by rewrite (left_id_L ∅ (∪)).
  - intros path n m [cur d] Hm IH. cbn in IH. subst cur. unfold commit_node.
    destruct ((m ∪ current) !! path); cbn; by rewrite insert_union_l.
Qed.

Lemma commit_fresh_fold (subset : gmap (list byte) Node) (delta : Z) :
  (map_fold commit_fresh (∅, delta) subset).1 = subset.
Proof.
  apply (map_fold_weak_ind
           (fun (acc : gmap (list byte) Node * Z) m => acc.1 = m)).
  - done.
  - intros path n m [cur d] Hm IH. cbn in IH. subst cur. done.
Qed.

Lemma commit_subset_nodes (owner : N) (subset : gmap (list byte) Node)
    (all : gmap N (gmap (list byte) Node)) (delta : Z) :
  (commit_subset owner subset (all, delta)).1
    = <[owner := subset ∪ default ∅ (all !! owner)]> all.
Proof.
  unfold commit_subset. destruct (all !! owner) as [current|] eqn:E; cbn [default].
  - pose proof (commit_node_fold subset current delta) as H.
    destruct (map_fold commit_node (current, delta) subset) as [cur d]. cbn in *. by subst.
  - pose proof (commit_fresh_fold subset delta) as H.
    destruct (map_fold commit_fresh (∅, delta) subset) as [cur d]. cbn in *. subst.
    by rewrite (right_id_L ∅ (∪)).
Qed.

Lemma commit_fold_nodes (all0 dirty : gmap N (gmap (list byte) Node)) (owner : N) :
  (map_fold commit_subset (all0, 0%Z) dirty).1 !! owner
    = match dirty !! owner with
      | Some subset => Some (subset ∪ default ∅ (all0 !! owner))
      | None => all0 !! owner
      end.
Proof.
  revert owner.
  apply (map_fold_weak_ind
           (fun (acc : gmap N (gmap (list byte) Node) * Z) m =>
              forall owner,
                acc.1 !! owner = match m !! owner with
                                 | Some subset => Some (subset ∪ default ∅ (all0 !! owner))
                                 | None => all0 !! owner
                                 end)).
  - intros owner. by rewrite lookup_empty.
  - intros o subset m [all d] Hm IH owner. rewrite commit_subset_nodes. cbn in IH.
    destruct (decide (owner = o)) as [->|Hne].
    + rewrite !lookup_insert_eq. rewrite (IH o), Hm. done.
    + rewrite !lookup_insert_ne by done. apply IH.
Qed.

Lemma commit_nodes (b : nodebuffer) (dirty : gmap N (gmap (list byte) Node)) :
  nodes (commit b dirty) = (map_fold commit_subset (nodes b, 0%Z) dirty).1.
Proof.
  unfold commit. by destruct (map_fold commit_subset (nodes b, 0%Z) dirty).
Qed.

(** The nodes of the buffer after a commit: the committed node where there
    is one, the node the buffer held before elsewhere. *)
Lemma commit_lookup_node (b : nodebuffer) (dirty : gmap N (gmap (list byte) Node))
    (owner : N) (path : list byte) :
  lookup_node (nodes (commit b dirty)) owner path
    = match lookup_node dirty owner path with
      | Some n => Some n
      | None => lookup_node (nodes b) owner path
      end.
Proof.
  unfold lookup_node. rewrite commit_nodes, commit_fold_nodes.
  destruct (dirty !! owner) as [subset|]; cbn; [|done].
  destruct (subset !! path) as [n|] eqn:E.
  - by rewrite (lookup_union_Some_l _ _ _ _ E).
  - rewrite lookup_union_r by done.
    destruct (nodes b !! owner); cbn; [done|by rewrite lookup_empty].
Qed.

Lemma node_lookup (b : nodebuffer) (owner : N) (path : list byte) (hash : N) :
  node b owner path hash
    = match lookup_node (nodes b) owner path with
      | None => Ok None
      | Some n => if negb (nHash n =? hash)
                  then Err (UnexpectedNodeError hash (nHash n) owner path)
                  else Ok (Some n)
      end.
Proof. unfold node, lookup_node. destruct (nodes b !! owner); cbn; done. Qed.

(** X7: A read after a commit: a committed node shadows what the buffer held at
    its owner and path (and is checked against the requested hash); every
    other read answers as before the commit. *)
Theorem node_commit (b : nodebuffer) (dirty : gmap N (gmap (list byte) Node))
    (owner : N) (path : list byte) (hash : N) :
  node (commit b dirty) owner path hash
    = match lookup_node dirty owner path with
      | Some n => if nHash n =? hash then Ok (Some n)
                  else Err (UnexpectedNodeError hash (nHash n) owner path)
      | None => node b owner path hash
      end.
Proof.
  rewrite !node_lookup, commit_lookup_node.
  destruct (lookup_node dirty owner path) as [n|]; [|done].
  by destruct (nHash n =? hash).
Qed.

(** *** The size of the buffer *)

(** What a node adds to the size, and the totals without wrap-around. *)
Definition node_size (path : list byte) (n : Node) : Z :=
  (Z.of_N (len (nBlob n)) + Z.of_N (len path))%Z.

Definition subset_total (m : gmap (list byte) Node) : Z :=
  map_fold (fun p n acc => (acc + node_size p n)%Z) 0%Z m.

Definition total (all : gmap N (gmap (list byte) Node)) : Z :=
  map_fold (fun _ s acc => (acc + subset_total s)%Z) 0%Z all.

(** Equal as 64-bit quantities. *)
Definition eq64 (x y : Z) : Prop := exists k : Z, (x = y + k * 18446744073709551616)%Z.

Lemma two_64 : (2 ^ 64 = 18446744073709551616)%Z.
Proof. reflexivity. Qed.

Lemma two_63 : (2 ^ 63 = 9223372036854775808)%Z.
Proof. reflexivity. Qed.

Lemma int64_eq64 (z : Z) : eq64 (int64 z) z.
Proof.
  unfold eq64, int64. rewrite two_64, two_63.
  exists (- ((z + 9223372036854775808) / 18446744073709551616))%Z.
  pose proof (Z.div_mod (z + 9223372036854775808) 18446744073709551616). lia.
Qed.

Lemma int64_range (z : Z) : (- 9223372036854775808 <= int64 z < 9223372036854775808)%Z.
Proof.
  unfold int64. rewrite two_64, two_63.
  pose proof (Z.mod_pos_bound (z + 9223372036854775808) 18446744073709551616). lia.
Qed.

Lemma u64_eq64 (n : N) : eq64 (Z.of_N (u64 n)) (Z.of_N n) /\ (Z.of_N (u64 n) < 18446744073709551616)%Z.
Proof.
  unfold eq64, u64. rewrite N2Z.inj_mod. change (Z.of_N (2 ^ 64)) with 18446744073709551616%Z.
  split.
  - exists (- (Z.of_N n / 18446744073709551616))%Z.
    pose proof (Z.div_mod (Z.of_N n) 18446744073709551616). lia.
  - pose proof (Z.mod_pos_bound (Z.of_N n) 18446744073709551616). lia.
Qed.

Lemma node_size_nonneg (p : list byte) (n : Node) : (0 <= node_size p n)%Z.
Proof. unfold node_size. lia. Qed.

Lemma subset_total_empty : subset_total ∅ = 0%Z.
Proof. unfold subset_total. by rewrite map_fold_empty. Qed.

Lemma subset_total_insert_new (m : gmap (list byte) Node) (p : list byte) (n : Node) :
  m !! p = None -> subset_total (<[p := n]> m) = (subset_total m + node_size p n)%Z.
Proof.
  intros Hm. unfold subset_total. rewrite map_fold_insert_L; [done| |done].
  intros. lia.
Qed.

Lemma subset_total_insert (m : gmap (list byte) Node) (p : list byte) (n : Node) :
  subset_total (<[p := n]> m)
    = (subset_total m - match m !! p with Some o => node_size p o | None => 0 end
       + node_size p n)%Z.
Proof.
  destruct (m !! p) as [o|] eqn:E.
  - pose proof (subset_total_insert_new (delete p m) p o (lookup_delete_eq _ _)) as H1.
    rewrite (insert_delete_id m p o E) in H1.
    pose proof (subset_total_insert_new (delete p m) p n (lookup_delete_eq _ _)) as H2.
    rewrite insert_delete_eq in H2. lia.
  - rewrite subset_total_insert_new by done. lia.
Qed.

Lemma subset_total_nonneg (m : gmap (list byte) Node) : (0 <= subset_total m)%Z.
Proof.
  unfold subset_total.
  apply (map_fold_weak_ind (fun (r : Z) (_ : gmap (list byte) Node) => (0 <= r)%Z)); [lia|].
  intros p n m' r _ Hr. pose proof (node_size_nonneg p n). lia.
Qed.

Lemma total_insert_new (all : gmap N (gmap (list byte) Node)) (o : N)
    (s : gmap (list byte) Node) :
  all !! o = None -> total (<[o := s]> all) = (total all + subset_total s)%Z.
Proof.
  intros Hm. unfold total. rewrite map_fold_insert_L; [done| |done].
  intros. lia.
Qed.

Lemma total_insert (all : gmap N (gmap (list byte) Node)) (o : N)
    (s : gmap (list byte) Node) :
  total (<[o := s]> all)
    = (total all - subset_total (default ∅ (all !! o)) + subset_total s)%Z.
Proof.
  destruct (all !! o) as [s0|] eqn:E; cbn [default].
  - pose proof (total_insert_new (delete o all) o s0 (lookup_delete_eq _ _)) as H1.
    rewrite (insert_delete_id all o s0 E) in H1.
    pose proof (total_insert_new (delete o all) o s (lookup_delete_eq _ _)) as H2.
    rewrite insert_delete_eq in H2. unfold id. lia.
  - rewrite total_insert_new by done. rewrite subset_total_empty. lia.
Qed.

Lemma total_nonneg (all : gmap N (gmap (list byte) Node)) : (0 <= total all)%Z.
Proof.
  unfold total.
  apply (map_fold_weak_ind (fun (r : Z) (_ : gmap N (gmap (list byte) Node)) => (0 <= r)%Z));
    [lia|].
  intros o s m' r _ Hr. pose proof (subset_total_nonneg s). lia.
Qed.

(** [nodes_size], the sum [newNodeBuffer] computes, is the total as a
    64-bit quantity. *)
Lemma nodes_size_total (all : gmap N (gmap (list byte) Node)) :
  eq64 (Z.of_N (nodes_size all)) (total all) /\
  (Z.of_N (nodes_size all) < 18446744073709551616)%Z.
Proof.
  unfold nodes_size.
  apply (map_fold_weak_ind
           (fun (r : N) (m : gmap N (gmap (list byte) Node)) =>
              eq64 (Z.of_N r) (total m) /\ (Z.of_N r < 18446744073709551616)%Z)).
  - split; [exists 0%Z; reflexivity|done].
  - intros o s m r Hm [[k Hk] Hr].
    rewrite total_insert_new by done.
    assert (Hin : eq64 (Z.of_N (map_fold (fun path n acc' =>
                                  u64 (acc' + u64 (len (nBlob n) + len path))) r s))
                       (Z.of_N r + subset_total s) /\
                  (Z.of_N (map_fold (fun path n acc' =>
                                  u64 (acc' + u64 (len (nBlob n) + len path))) r s)
                   < 18446744073709551616)%Z).
    { unfold subset_total.
      apply (map_fold_weak_ind
               (fun (r' : N) (m' : gmap (list byte) Node) =>
                  eq64 (Z.of_N r')
                       (Z.of_N r + map_fold (fun p n acc => (acc + node_size p n)%Z) 0%Z m') /\
                  (Z.of_N r' < 18446744073709551616)%Z)).
      - rewrite map_fold_empty. split; [exists 0%Z; lia|done].
      - intros p n m' r' Hm' [[k' Hk'] Hr'].
        change (map_fold (fun p0 n0 acc => (acc + node_size p0 n0)%Z) 0%Z (<[p:=n]> m'))
          with (subset_total (<[p:=n]> m')).
        rewrite subset_total_insert_new by done. unfold subset_total.
        set (F := map_fold _ 0%Z m') in *.
        destruct (u64_eq64 (r' + u64 (len (nBlob n) + len p))) as [[k1 Hk1] Hb1].
        destruct (u64_eq64 (len (nBlob n) + len p)) as [[k2 Hk2] _].
        split; [|done]. exists (k' + k1 + k2)%Z. unfold node_size.
        rewrite Hk1, N2Z.inj_add, Hk2, N2Z.inj_add, Hk'. lia. }
    destruct Hin as [[k' Hk'] Hb]. split; [|done].
    exists (k + k')%Z. rewrite Hk', Hk. lia.
Qed.

Lemma commit_node_delta (subset current : gmap (list byte) Node) (delta : Z) :
  eq64 (map_fold commit_node (current, delta) subset).2
       (delta + subset_total (subset ∪ current) - subset_total current).
Proof.
  rewrite <- (commit_node_fold subset current delta).
  apply (map_fold_weak_ind
           (fun (acc : gmap (list byte) Node * Z) (_ : gmap (list byte) Node) =>
              eq64 acc.2 (delta + subset_total acc.1 - subset_total current))).
  - exists 0%Z. cbn. lia.
  - intros p n m [cur d] _ [k Hk]. cbn in Hk. unfold commit_node.
    destruct (cur !! p) as [orig|] eqn:E; cbn [fst snd];
      rewrite subset_total_insert, E;
      match goal with |- eq64 (int64 (d + int64 ?x)) _ =>
        destruct (int64_eq64 (d + int64 x)) as [k1 Hk1];
        destruct (int64_eq64 x) as [k2 Hk2]
      end;
      exists (k + k1 + k2)%Z; rewrite Hk1, Hk2, Hk; unfold node_size; lia.
Qed.

Lemma commit_fresh_delta (subset : gmap (list byte) Node) (delta : Z) :
  eq64 (map_fold commit_fresh (∅, delta) subset).2 (delta + subset_total subset).
Proof.
  rewrite <- (commit_fresh_fold subset delta) at 2.
  apply (map_fold_weak_ind
           (fun (acc : gmap (list byte) Node * Z) (m : gmap (list byte) Node) =>
              acc.1 = m /\ eq64 acc.2 (delta + subset_total acc.1))).
  - split; [done|]. exists 0%Z. cbn. rewrite subset_total_empty. lia.
  - intros p n m [cur d] Hm [Hcur [k Hk]]. cbn in Hcur, Hk. subst cur.
    unfold commit_fresh. cbn [fst snd]. split; [done|].
    rewrite subset_total_insert_new by done.
    destruct (int64_eq64 (d + int64 (Z.of_N (len (nBlob n)) + Z.of_N (len p)))) as [k1 Hk1].
    destruct (int64_eq64 (Z.of_N (len (nBlob n)) + Z.of_N (len p))) as [k2 Hk2].
    exists (k + k1 + k2)%Z. rewrite Hk1, Hk2, Hk. unfold node_size. lia.
Qed.

Lemma commit_fold_delta (all0 dirty : gmap N (gmap (list byte) Node)) :
  eq64 (map_fold commit_subset (all0, 0%Z) dirty).2
       (total (map_fold commit_subset (all0, 0%Z) dirty).1 - total all0).
Proof.
  apply (map_fold_weak_ind
           (fun (acc : gmap N (gmap (list byte) Node) * Z)
                (_ : gmap N (gmap (list byte) Node)) =>
              eq64 acc.2 (total acc.1 - total all0))).
  - exists 0%Z. cbn. lia.
  - intros o subset m [all d] _ [k Hk]. cbn in Hk.
    rewrite commit_subset_nodes, total_insert. unfold commit_subset.
    destruct (all !! o) as [current|] eqn:E; cbn [default]; unfold id.
    + pose proof (commit_node_delta subset current d) as [k1 Hk1].
      destruct (map_fold commit_node (current, d) subset) as [cur' d'].
      cbn [fst snd] in *. exists (k + k1)%Z. rewrite Hk1, Hk. lia.
    + pose proof (commit_fresh_delta subset d) as [k1 Hk1].
      destruct (map_fold commit_fresh (∅, d) subset) as [cur' d'].
      cbn [fst snd] in *. exists (k + k1)%Z. rewrite Hk1, Hk.
      rewrite (right_id_L ∅ (∪)), subset_total_empty. lia.
Qed.

(** X8: The size the buffer records stays the sum over its nodes of the lengths
    of blob and path: if it is before a commit, it is after, as long as the
    sum stays below 2^63. *)
Theorem commit_size (b : nodebuffer) (dirty : gmap N (gmap (list byte) Node)) :
  size b = nodes_size (nodes b) ->
  (total (nodes (commit b dirty)) < 2 ^ 63)%Z ->
  size (commit b dirty) = nodes_size (nodes (commit b dirty)) /\
  Z.of_N (size (commit b dirty)) = total (nodes (commit b dirty)) /\
  layers (commit b dirty) = u64 (layers b + 1) /\
  limit (commit b dirty) = limit b.
Proof.
  intros Hsize Hbound. rewrite two_63 in Hbound.
  pose proof (commit_fold_delta (nodes b) dirty) as [k1 Hk1].
  rewrite commit_nodes in *.
  unfold commit. destruct (map_fold commit_subset (nodes b, 0%Z) dirty) as [all delta].
  cbn [fst snd] in *. cbn [size nodes layers limit updateSize].
  pose proof (total_nonneg all) as Hnn.
  destruct (nodes_size_total (nodes b)) as [[k0 Hk0] _].
  destruct (nodes_size_total all) as [[k2 Hk2] Hb2].
  destruct (int64_eq64 (int64 (Z.of_N (size b)) + delta)) as [k3 Hk3].
  destruct (int64_eq64 (Z.of_N (size b))) as [k4 Hk4].
  pose proof (int64_range (int64 (Z.of_N (size b)) + delta)) as Hr.
  assert (Hs : int64 (int64 (Z.of_N (size b)) + delta) = total all).
  { rewrite Hsize in *. lia. }
  rewrite Hs.
  replace (0 <=? total all)%Z with true by (symmetry; apply Z.leb_le; lia).
  assert (Hn : Z.of_N (nodes_size all) = total all) by lia.
  assert (Hu : u64 (Z.to_N (total all)) = nodes_size all).
  { unfold u64. rewrite N.mod_small.
    - rewrite <- Hn. apply N2Z.id.
    - change (2 ^ 64)%N with 18446744073709551616%N. lia. }
  rewrite Hu. repeat split; try done.
Qed.

(** *** Revert *)

Section Revert.
Variable keccak : list byte -> N.

(** The node [revert] puts in place of a buffered one. *)
Definition reverted (n : Node) : Node :=
  if (length (nBlob n) =? 0)%nat then NewDeleted
  else {| nHash := keccak (nBlob n); nBlob := nBlob n |}.

(** The buffer holds a node wherever the given set has one, and a subset for
    every owner of the set. *)
Definition covered_subset (cur subset : gmap (list byte) Node) : Prop :=
  map_Forall (fun path _ => is_Some (cur !! path)) subset.

Definition covered_owner (all : gmap N (gmap (list byte) Node)) (owner : N)
    (subset : gmap (list byte) Node) : Prop :=
  match all !! owner with
  | Some cur => covered_subset cur subset
  | None => False
  end.

Definition covered (all dirty : gmap N (gmap (list byte) Node)) : Prop :=
  map_Forall (covered_owner all) dirty.

#[global] Instance covered_subset_dec cur subset : Decision (covered_subset cur subset).
Proof. unfold covered_subset. apply _. Defined.

#[global] Instance covered_owner_dec all owner subset : Decision (covered_owner all owner subset).
Proof. unfold covered_owner. destruct (all !! owner); apply _. Defined.

#[global] Instance covered_dec all dirty : Decision (covered all dirty).
Proof. unfold covered. apply _. Defined.

Lemma revert_node_step (path : list byte) (n : Node) (cur : gmap (list byte) Node)
    (delta : Z) :
  revert_node keccak path n (Ok (cur, delta))
    = match cur !! path with
      | None => Panic
      | Some c => Ok (<[path := reverted n]> cur,
                      if (length (nBlob n) =? 0)%nat
                      then int64 (delta - int64 (Z.of_N (len (nBlob c))))
                      else int64 (delta + int64 (int64 (Z.of_N (len (nBlob n)))
                                                 - int64 (Z.of_N (len (nBlob c))))))
      end.
Proof.
  unfold revert_node, reverted. cbn. destruct (cur !! path); [|done].
  by destruct (length (nBlob n) =? 0)%nat.
Qed.

Lemma revert_node_fold (subset cur : gmap (list byte) Node) (delta : Z) :
  (covered_subset cur subset ->
   exists d', map_fold (revert_node keccak) (Ok (cur, delta)) subset
              = Ok ((reverted <$> subset) ∪ cur, d')) /\
  (~ covered_subset cur subset ->
   map_fold (revert_node keccak) (Ok (cur, delta)) subset = Panic).
Proof.
  apply (map_fold_weak_ind
           (fun (r : result bufferError (gmap (list byte) Node * Z))
                (m : gmap (list byte) Node) =>
              (covered_subset cur m -> exists d', r = Ok ((reverted <$> m) ∪ cur, d')) /\
              (~ covered_subset cur m -> r = Panic))).
  - split.
    + intros _. exists delta. by rewrite fmap_empty, (left_id_L ∅ (∪)).
    + intros H. exfalso. apply H. apply map_Forall_empty.
  - intros p n m r Hm [IH1 IH2]. unfold covered_subset in *.
    rewrite map_Forall_insert by done.
    assert (Hlook : forall c, ((reverted <$> m) ∪ c) !! p = c !! p).
    { intros c. rewrite lookup_union_r; [done|]. by rewrite lookup_fmap, Hm. }
    split.
    + intros [[c Hc] Hcov]. destruct (IH1 Hcov) as [d' ->].
      rewrite revert_node_step, Hlook, Hc. eexists. f_equal. f_equal.
      by rewrite fmap_insert, insert_union_l.
    + intros Hn. destruct (decide (map_Forall (fun path _ => is_Some (cur !! path)) m))
        as [Hcov|Hcov].
      * destruct (IH1 Hcov) as [d' ->]. rewrite revert_node_step, Hlook.
        destruct (cur !! p) as [c|] eqn:Hc; [|done].
        exfalso. apply Hn. split; [by eexists|done].
      * rewrite (IH2 Hcov). done.
Qed.

Lemma revert_subset_step (owner : N) (subset : gmap (list byte) Node)
    (all : gmap N (gmap (list byte) Node)) (delta : Z) :
  (covered_owner all owner subset ->
   exists cur d', all !! owner = Some cur /\
     revert_subset keccak owner subset (Ok (all, delta))
       = Ok (<[owner := (reverted <$> subset) ∪ cur]> all, d')) /\
  (~ covered_owner all owner subset ->
   revert_subset keccak owner subset (Ok (all, delta)) = Panic).
Proof.
  unfold covered_owner, revert_subset. cbn.
  destruct (all !! owner) as [cur|]; [|split; [done|done]].
  destruct (revert_node_fold subset cur delta) as [H1 H2]. split.
  - intros Hcov. destruct (H1 Hcov) as [d' ->]. cbn. by exists cur, d'.
  - intros Hcov. by rewrite (H2 Hcov).
Qed.

Lemma revert_fold (all0 dirty : gmap N (gmap (list byte) Node)) :
  (covered all0 dirty ->
   exists all d,
     map_fold (revert_subset keccak) (Ok (all0, 0%Z)) dirty = Ok (all, d) /\
     forall owner,
       all !! owner = match dirty !! owner with
                      | Some subset => (fun cur => (reverted <$> subset) ∪ cur) <$> all0 !! owner
                      | None => all0 !! owner
                      end) /\
  (~ covered all0 dirty ->
   map_fold (revert_subset keccak) (Ok (all0, 0%Z)) dirty = Panic).
Proof.
  apply (map_fold_weak_ind
           (fun (r : result bufferError (gmap N (gmap (list byte) Node) * Z))
                (m : gmap N (gmap (list byte) Node)) =>
              (covered all0 m ->
               exists all d, r = Ok (all, d) /\
                 forall owner,
                   all !! owner
                     = match m !! owner with
                       | Some subset =>
                           (fun cur => (reverted <$> subset) ∪ cur) <$> all0 !! owner
                       | None => all0 !! owner
                       end) /\
              (~ covered all0 m -> r = Panic))).
  - split.
    + intros _. exists all0, 0%Z. split; [done|]. intros owner. by rewrite lookup_empty.
    + intros H. exfalso. apply H. apply map_Forall_empty.
  - intros o subset m r Hm [IH1 IH2]. unfold covered in *.
    rewrite map_Forall_insert by done.
    assert (Hsame : forall all,
              (forall owner, all !! owner
                 = match m !! owner with
                   | Some s => (fun cur => (reverted <$> s) ∪ cur) <$> all0 !! owner
                   | None => all0 !! owner
                   end) ->
              (covered_owner all o subset <-> covered_owner all0 o subset)).
    { intros all Hall. unfold covered_owner. by rewrite (Hall o), Hm. }
    split.
    + intros [Ho Hcov]. destruct (IH1 Hcov) as (all & d & -> & Hall).
      apply (Hsame all Hall) in Ho.
      destruct (revert_subset_step o subset all d) as [H1 _].
      destruct (H1 Ho) as (cur & d' & Hcur & ->).
      exists (<[o := (reverted <$> subset) ∪ cur]> all), d'. split; [done|].
      intros owner. destruct (decide (owner = o)) as [->|Hne].
      * rewrite !lookup_insert_eq. rewrite (Hall o), Hm in Hcur. by rewrite Hcur.
      * rewrite !lookup_insert_ne by done. apply Hall.
    + intros Hn. destruct (decide (map_Forall (covered_owner all0) m)) as [Hcov|Hcov].
      * destruct (IH1 Hcov) as (all & d & -> & Hall).
        destruct (revert_subset_step o subset all d) as [_ H2]. apply H2.
        intros Ho. apply Hn. split; [|done]. by apply (Hsame all Hall).
      * by rewrite (IH2 Hcov).
Qed.

Lemma revert_shallow (b : nodebuffer) (dirty : gmap N (gmap (list byte) Node)) :
  layers b <= 1 ->
  revert keccak b dirty
    = if layers b =? 0 then Err errStateUnrecoverable else Ok (reset b).
Proof.
  intros Hl. unfold revert. destruct (N.eqb_spec (layers b) 0) as [H0|H0]; [done|].
  replace (layers b - 1 =? 0) with true by (symmetry; apply N.eqb_eq; lia). done.
Qed.

(** X9: On a buffer of two layers or more that holds a node wherever the given
    set has one, [revert] takes one layer off, keeps the limit, and replaces
    exactly the buffered nodes the set names: by the given blob under its
    hash, or by a deleted node where the blob is empty.  Every other
    buffered node stays, and no node is added. *)
Theorem revert_replaces (b : nodebuffer) (dirty : gmap N (gmap (list byte) Node)) :
  2 <= layers b -> covered (nodes b) dirty ->
  exists b', revert keccak b dirty = Ok b' /\
    layers b' = layers b - 1 /\ limit b' = limit b /\
    forall owner path,
      lookup_node (nodes b') owner path
        = match lookup_node dirty owner path with
          | Some n => Some (reverted n)
          | None => lookup_node (nodes b) owner path
          end.
Proof.
  intros Hl Hcov. unfold revert.
  replace (layers b =? 0) with false by (symmetry; apply N.eqb_neq; lia).
  replace (layers b - 1 =? 0) with false by (symmetry; apply N.eqb_neq; lia).
  destruct (revert_fold (nodes b) dirty) as [H1 _].
  destruct (H1 Hcov) as (all & d & -> & Hall). cbn.
  eexists. split; [reflexivity|]. cbn [layers limit nodes updateSize].
  split; [done|]. split; [done|].
  intros owner path. unfold lookup_node. rewrite (Hall owner).
  destruct (dirty !! owner) as [subset|] eqn:Hd; cbn; [|done].
  assert (Hc : covered_owner (nodes b) owner subset) by (by apply (Hcov owner subset)).
  unfold covered_owner in Hc. destruct (nodes b !! owner) as [cur|]; [|done]. cbn.
  destruct (subset !! path) as [n|] eqn:Hs.
  - by rewrite (lookup_union_Some_l _ _ _ (reverted n)) by (by rewrite lookup_fmap, Hs).
  - by rewrite lookup_union_r by (by rewrite lookup_fmap, Hs).
Qed.

(** X10: On a buffer of two layers or more, [revert] panics as soon as the given
    set names an owner the buffer has no subset for (even with no node
    under it) or a path the buffer has no node at. *)
Theorem revert_unknown_panics (b : nodebuffer) (dirty : gmap N (gmap (list byte) Node)) :
  2 <= layers b -> ~ covered (nodes b) dirty -> revert keccak b dirty = Panic.
Proof.
  intros Hl Hcov. unfold revert.
  replace (layers b =? 0) with false by (symmetry; apply N.eqb_neq; lia).
  replace (layers b - 1 =? 0) with false by (symmetry; apply N.eqb_neq; lia).
  destruct (revert_fold (nodes b) dirty) as [_ H2]. by rewrite (H2 Hcov).
Qed.

End Revert.

(** A buffer of two merged layers with a node of the account trie, a
    deleted node of the account trie and a node of a storage trie. *)
Definition buffer2 : nodebuffer :=
  newNodeBuffer 64
    (Some {[ 0 := {[ ["a"%byte] := {| nHash := 11; nBlob := ["n"%byte] |};
                     ["b"%byte] := NewDeleted ]};
             7 := {[ ["c"%byte] := {| nHash := 12; nBlob := ["m"%byte] |} ]} ]})
    2.

(** A layer that overwrites a node, brings a node back and adds an owner. *)
Definition layer3 : gmap N (gmap (list byte) Node) :=
  {[ 0 := {[ ["a"%byte] := {| nHash := 13; nBlob := ["x"%byte; "y"%byte] |};
             ["b"%byte] := {| nHash := 14; nBlob := ["z"%byte] |} ]};
     9 := {[ ["d"%byte] := {| nHash := 15; nBlob := ["w"%byte] |} ]} ]}.

(** The previous values of two nodes of [buffer2]. *)
Definition origin2 : gmap N (gmap (list byte) Node) :=
  {[ 0 := {[ ["a"%byte] := {| nHash := 0; nBlob := [] |};
             ["b"%byte] := {| nHash := 0; nBlob := ["o"%byte] |} ]} ]}.

(** A set that names an owner [buffer2] has no subset for. *)
Definition stray2 : gmap N (gmap (list byte) Node) := {[ 9 := ∅ ]}.

Definition hash0 (blob : list byte) : N := len blob + 100.

Lemma commit_size_witness :
  size (commit buffer2 layer3) = nodes_size (nodes (commit buffer2 layer3)) /\
  Z.of_N (size (commit buffer2 layer3)) = total (nodes (commit buffer2 layer3)) /\
  layers (commit buffer2 layer3) = u64 (layers buffer2 + 1) /\
  limit (commit buffer2 layer3) = limit buffer2.
Proof.
  apply (commit_size buffer2 layer3); [reflexivity|]. by vm_compute.
Defined.

Lemma revert_replaces_witness :
  exists b', revert hash0 buffer2 origin2 = Ok b' /\
    layers b' = layers buffer2 - 1 /\ limit b' = limit buffer2 /\
    forall owner path,
      lookup_node (nodes b') owner path
        = match lookup_node origin2 owner path with
          | Some n => Some (reverted hash0 n)
          | None => lookup_node (nodes buffer2) owner path
          end.
Proof.
  apply (revert_replaces hash0 buffer2 origin2); [by vm_compute|].
  apply (bool_decide_unpack _). by vm_compute.
Defined.

Lemma revert_unknown_panics_witness : revert hash0 buffer2 stray2 = Panic.
Proof.
  apply (revert_unknown_panics hash0 buffer2 stray2); [by vm_compute|].
  apply (bool_decide_unpack _). by vm_compute.
Defined.

End NodeBufferOpsProofs.

Module DecodedProofs.
Import History HistoryProofs.

Lemma sorted_lt_NoDup (l : list N) : StronglySorted N.lt l -> NoDup l.
Proof.
  induction 1 as [|x l Hs IH Hall]; [constructor|].
  apply NoDup_cons. split; [|done].
  intros Hin. rewrite Forall_forall in Hall.
  specialize (Hall x Hin). lia.
Qed.

(** A strictly ascending list of the keys of a map is the list that
    sorting its keys gives. *)
Lemma sorted_keys_unique {V} (m : gmap N V) (l : list N) :
  StronglySorted N.lt l -> (forall a, a ∈ l <-> is_Some (m !! a)) ->
  l = sorted_keys m.
Proof.
  intros Hs Hin. apply (StronglySorted_unique_strong N.lt).
  - intros x1 x2 _ _ H1 H2. lia.
  - done.
  - apply sorted_keys_strict.
  - apply NoDup_Permutation.
    + by apply sorted_lt_NoDup.
    + apply sorted_keys_NoDup.
    + intros a. by rewrite Hin, elem_of_sorted_keys.
Qed.

Section Decoded.
Context `{codec : IndexCodec}.

Lemma readAccount_order (r r1 : decoder) (pos : nat) (idx : accountIndex)
    (data : list byte) :
  readAccount r pos = Ok (r1, idx, data) ->
  lastAccount r1 = Some (aiAddress idx) /\
  match lastAccount r with Some last => last < aiAddress idx | None => True end.
Proof.
  unfold readAccount. destruct (_ <? _)%nat; [done|].
  destruct (slice_or_panic _ _ _) as [chunk|e|]; cbn; [|done|done].
  assert (Hord : (match lastAccount r with
                  | Some last => aiAddress (accountIndex_decode chunk) <=? last
                  | None => false
                  end) = false ->
                 match lastAccount r with
                 | Some last => last < aiAddress (accountIndex_decode chunk)
                 | None => True
                 end).
  { destruct (lastAccount r); [|done]. intros H. by apply N.leb_gt in H. }
  destruct (match lastAccount r with Some _ => _ | None => _ end); [done|].
  destruct (negb _); [done|]. cbv zeta. destruct (_ <? _); [done|].
  destruct (slice_or_panic _ _ _) as [d|e|]; cbn; [|done|done].
  intros [= <- <- <-]. split; [done|]. by apply Hord.
Qed.

Lemma readStorage_loop_sorted (n : nat) :
  forall j a r last slist storage r' l m,
    readStorage_loop n j a r last slist storage = Ok (r', l, m) ->
    lastAccount r' = lastAccount r /\
    exists l', l = slist ++ l' /\ StronglySorted N.lt (last :: l') /\
      forall k, is_Some (m !! k) <-> k ∈ l' \/ is_Some (storage !! k).
Proof.
  induction n as [|n IH]; intros j a r last slist storage r' l m; cbn [readStorage_loop].
  - intros [= <- <- <-]. split; [done|]. exists []. rewrite app_nil_r.
    split; [done|]. split; [repeat constructor|].
    intros k. split; [by right|]. intros [H|H]; [|done]. by apply elem_of_nil in H.
  - cbv zeta.
    destruct (negb _); [done|]. destruct (_ <? _); [done|].
    destruct (slice_or_panic _ _ _) as [chunk|e|]; cbn; [|done|done].
    destruct (siHash (slotIndex_decode chunk) <=? last) eqn:Hlast; [done|].
    destruct (negb _); [done|]. destruct (_ <? _); [done|].
    destruct (slice_or_panic _ _ _) as [data|e|]; cbn; [|done|done].
    intros H. apply IH in H as (Hr & l' & -> & Hs & Hm). cbn in Hr.
    split; [done|].
    exists (siHash (slotIndex_decode chunk) :: l'). split; [by rewrite <- app_assoc|].
    apply N.leb_gt in Hlast. split.
    + constructor; [done|].
      apply StronglySorted_inv in Hs as [_ Hall]. constructor; [done|].
      eapply Forall_impl; [exact Hall|]. intros x Hx. cbn in Hx. lia.
    + intros k. rewrite Hm, elem_of_cons.
      destruct (decide (k = siHash (slotIndex_decode chunk))) as [->|Hne].
      * rewrite lookup_insert_eq. split; [intros _; by left; left|intros _; by right].
      * rewrite lookup_insert_ne by done. tauto.
Qed.

Lemma readStorage_sorted (r r' : decoder) (a : accountIndex)
    (l : list N) (m : gmap N (list byte)) :
  readStorage r a = Ok (r', l, m) ->
  lastAccount r' = lastAccount r /\ l = sorted_keys m /\ Forall (fun k => 0 < k) l.
Proof.
  unfold readStorage. intros H.
  apply readStorage_loop_sorted in H as (Hr & l' & -> & Hs & Hm).
  apply StronglySorted_inv in Hs as [Hs Hall]. cbn [app].
  split; [done|]. split; [|done].
  apply sorted_keys_unique; [done|].
  intros k. rewrite Hm, lookup_empty. split; [by left|].
  intros [H|H]; [done|]. by destruct H.
Qed.

(** What the loop of [decode] keeps between two accounts. *)
Definition well_formed (h : History) : Prop :=
  StronglySorted N.lt (accountList h) /\
  (forall a, a ∈ accountList h <-> is_Some (accounts h !! a)) /\
  storageList h = sorted_keys <$> storages h /\
  map_Forall (fun a slots =>
                is_Some (accounts h !! a) /\ slots <> ∅ /\
                map_Forall (fun k _ => 0 < k) slots) (storages h).

Definition below (r : decoder) (h : History) : Prop :=
  forall a, a ∈ accountList h ->
    match lastAccount r with Some last => a <= last | None => False end.

Lemma decode_loop_well_formed (n : nat) :
  forall i r h h',
    well_formed h -> below r h ->
    decode_loop n i r h = Ok h' ->
    well_formed h' /\ h_meta h' = h_meta h /\
    length (accountList h') = (length (accountList h) + n)%nat.
Proof.
  induction n as [|n IH]; intros i r h h' Hwf Hbelow; cbn [decode_loop].
  - intros [= <-]. split; [done|]. split; [done|lia].
  - destruct (readAccount r i) as [[[r1 idx] data]|e|] eqn:Hacc; cbn -[Nat.ltb]; [|done|done].
    destruct (readStorage r1 idx) as [[[r2 l] m]|e|] eqn:Hsto; cbn -[Nat.ltb]; [|done|done].
    apply readAccount_order in Hacc as [Hlast1 Hord].
    apply readStorage_sorted in Hsto as (Hlast2 & Hl & Hpos).
    destruct Hwf as (Hs & Hin & Hsl & Hst).
    assert (Hnew : aiAddress idx ∉ accountList h).
    { intros Hx. specialize (Hbelow _ Hx).
      destruct (lastAccount r); [lia|done]. }
    assert (Hnone : accounts h !! aiAddress idx = None).
    { apply eq_None_not_Some. by rewrite <- Hin. }
    assert (Hnost : storages h !! aiAddress idx = None).
    { destruct (storages h !! aiAddress idx) as [s|] eqn:Hs'; [|done].
      destruct (Hst _ _ Hs') as [[v Hv] _]. congruence. }
    intros H. apply IH in H as (Hwf' & Hmeta & Hlen).
    + split; [done|]. split; [done|]. cbn in Hlen. rewrite length_app in Hlen.
      cbn in Hlen. lia.
    + unfold well_formed. cbn [accountList accounts storages storageList].
      split; [|split; [|split]].
      * apply StronglySorted_app_2; [|done|repeat constructor].
        intros x1 x2 Hx1 Hx2. apply list_elem_of_singleton in Hx2 as ->.
        specialize (Hbelow _ Hx1). destruct (lastAccount r); [lia|done].
      * intros a. rewrite elem_of_app, list_elem_of_singleton, Hin.
        destruct (decide (a = aiAddress idx)) as [->|Hne].
        -- rewrite lookup_insert_eq. split; [done|by right].
        -- rewrite lookup_insert_ne by done. split; [by intros [?|?]|by left].
      * destruct (0 <? length l)%nat; [|done].
        by rewrite fmap_insert, Hsl, Hl.
      * destruct (0 <? length l)%nat eqn:Hlen.
        -- apply map_Forall_insert; [done|]. split.
           ++ rewrite lookup_insert_eq. split; [done|]. split.
              ** intros ->. rewrite Hl, sorted_keys_empty in Hlen. done.
              ** intros k v Hk. rewrite Forall_forall in Hpos. apply Hpos.
                 rewrite Hl. apply elem_of_sorted_keys. by exists v.
           ++ intros a s Ha. destruct (Hst a s Ha) as (Hacc' & Hne & Hk).
              split; [|done]. destruct (decide (a = aiAddress idx)) as [->|Hd].
              ** by rewrite lookup_insert_eq.
              ** by rewrite lookup_insert_ne.
        -- intros a s Ha. destruct (Hst a s Ha) as (Hacc' & Hne & Hk).
           split; [|done]. destruct (decide (a = aiAddress idx)) as [->|Hd].
           ++ by rewrite lookup_insert_eq.
           ++ by rewrite lookup_insert_ne.
    + intros a. cbn [accountList]. rewrite Hlast2, Hlast1, elem_of_app, list_elem_of_singleton.
      intros [Ha| ->]; [|lia].
      specialize (Hbelow _ Ha). destruct (lastAccount r); [lia|done].
Qed.

(** X14: Whatever streams [decode] accepts, the history it returns is well
    formed: under the meta data it was given, the account list is not
    empty and is the ascending list of the addresses of the account map,
    the slot lists are the ascending lists of the slot hashes of the storage
    maps, and every storage map belongs to a decoded account, is not empty
    and has no slot at the zero hash. *)
Theorem decode_well_formed (h h' : History) (ad sd ai si : list byte) :
  decode h ad sd ai si = Ok h' ->
  h_meta h' = h_meta h /\
  accountList h' <> [] /\
  lists_sorted h' /\
  map_Forall (fun a slots =>
                is_Some (accounts h' !! a) /\ slots <> ∅ /\
                map_Forall (fun k _ => 0 < k) slots) (storages h').
Proof.
  unfold decode. cbv zeta.
  destruct (verify _) as [[]|e|] eqn:Hv; cbn; [|done|done].
  intros H. apply decode_loop_well_formed in H as (Hwf & Hmeta & Hlen).
  - destruct Hwf as (Hs & Hin & Hsl & Hst). cbn in Hmeta, Hlen.
    split; [done|]. split; [|split; [|done]].
    + intros Hnil. rewrite Hnil in Hlen. cbn in Hlen.
      unfold verify in Hv. cbn in Hv.
      destruct (length ai mod accountIndexSize =? 0)%nat eqn:Hmod; [|done].
      destruct (length ai =? 0)%nat eqn:Hz; [done|].
      apply Nat.eqb_eq in Hmod. apply Nat.eqb_neq in Hz.
      pose proof accountIndexSize_pos.
      pose proof (Nat.div_mod_eq (length ai) accountIndexSize). nia.
    + split; [by apply sorted_keys_unique|done].
  - unfold well_formed. cbn. split; [constructor|]. split.
    + intros a. rewrite lookup_empty. split; [by intros ?%elem_of_nil|by intros []].
    + split; [by rewrite fmap_empty|apply map_Forall_empty].
  - intros a Ha. cbn in Ha. by apply elem_of_nil in Ha.
Qed.

End Decoded.

(** Two accounts, the second with two slots. *)
Definition history2 : History :=
  New 1 2 3 {[ 7 := ["a"%byte]; 9 := [] ]}
            {[ 9 := {[ 4 := ["x"%byte]; 1 := ["y"%byte; "z"%byte] ]} ]}.

Definition blank (m : meta) : History :=
  {| h_meta := m; accounts := ∅; accountList := []; storages := ∅; storageList := ∅ |}.

Lemma decode_well_formed_witness :
  h_meta history2 = h_meta (blank (h_meta history2)) /\
  accountList history2 <> [] /\
  lists_sorted history2 /\
  map_Forall (fun a slots =>
                is_Some (accounts history2 !! a) /\ slots <> ∅ /\
                map_Forall (fun k _ => 0 < k) slots) (storages history2).
Proof.
  apply (decode_well_formed (blank (h_meta history2)) history2
           (encode history2).1.1.1 (encode history2).1.1.2
           (encode history2).1.2 (encode history2).2).
  by vm_compute.
Defined.

End DecodedProofs.
(** ** The journal read back *)

Module JournalWriterProofs.
Import NodeBuffer Journal JournalWriter.

Lemma fold_left_insert_union {K V A} `{Countable K} (key : A -> K) (val : A -> V)
    (l : list A) (m0 : gmap K V) :
  NoDup (key <$> l) ->
  fold_left (fun m a => <[key a := val a]> m) l m0
    = list_to_map ((fun a => (key a, val a)) <$> l) ∪ m0.
Proof.
  revert m0. induction l as [|a l IH]; intros m0 Hnd; cbn [fold_left].
  - by rewrite fmap_nil, list_to_map_nil, (left_id_L ∅ (∪)).
  - rewrite fmap_cons in Hnd. apply NoDup_cons in Hnd as [Ha Hnd].
    rewrite IH by done. rewrite fmap_cons, list_to_map_cons.
    rewrite <- insert_union_l. symmetry. apply insert_union_r.
    apply not_elem_of_list_to_map_1. by rewrite <- list_fmap_compose.
Qed.

(** Reading back, entry by entry, what was written from the pairs of a
    map gives the map, each value as the reader rebuilds it. *)
Lemma fold_insert_map_to_list {K V W A} `{Countable K} (f : K * V -> A)
    (key : A -> K) (val : A -> W) (g : V -> W) (m : gmap K V) :
  (forall k v, key (f (k, v)) = k) -> (forall k v, val (f (k, v)) = g v) ->
  fold_left (fun acc a => <[key a := val a]> acc) (f <$> map_to_list m) ∅ = g <$> m.
Proof.
  intros Hkey Hval.
  assert (Hkv : (fun a => (key a, val a)) ∘ f <$> map_to_list m
                = prod_map id g <$> map_to_list m).
  { apply list_fmap_ext. intros i [k v] _. cbn. by rewrite Hkey, Hval. }
  assert (Hk : key ∘ f <$> map_to_list m = (map_to_list m).*1).
  { apply list_fmap_ext. intros i [k v] _. cbn. by rewrite Hkey. }
  rewrite fold_left_insert_union.
  - rewrite (right_id_L ∅ (∪)), <- list_fmap_compose, Hkv.
    by rewrite list_to_map_fmap, list_to_map_to_list.
  - rewrite <- list_fmap_compose, Hk. apply NoDup_fst_map_to_list.
Qed.

Lemma fold_left_ext_eq {A B} (f g : A -> B -> A) (l : list B) (a : A) :
  (forall x y, f x y = g x y) -> fold_left f l a = fold_left g l a.
Proof.
  intros Hfg. revert a. induction l as [|y l IH]; intros a; cbn; [done|].
  by rewrite Hfg, IH.
Qed.

Lemma fmap_fixed {K V} `{Countable K} (g : V -> V) (m : gmap K V) :
  map_Forall (fun _ v => g v = v) m -> g <$> m = m.
Proof.
  intros Hm. apply map_eq. intros k. rewrite lookup_fmap.
  destruct (m !! k) as [v|] eqn:Hk; [|done]. cbn. by rewrite (Hm k v Hk).
Qed.

Section Hasher.
Variable keccak : list byte -> N.

(** The node the loader rebuilds from a journalled blob. *)
Definition rebuilt (blob : list byte) : Node :=
  if (0 <? length blob)%nat then {| nHash := keccak blob; nBlob := blob |}
  else NewDeleted.

(** A node the loader rebuilds as it is: its hash is the hash of its blob,
    and a node without blob is the deleted node. *)
Definition canonical (n : Node) : Prop := rebuilt (nBlob n) = n.

Definition canonical_nodes (all : gmap N (gmap (list byte) Node)) : Prop :=
  map_Forall (fun _ subset => map_Forall (fun _ n => canonical n) subset) all.

Lemma decode_subset_journal (subset : gmap (list byte) Node) :
  decode_subset keccak (journal_subset subset) = (fun n => rebuilt (nBlob n)) <$> subset.
Proof.
  unfold decode_subset, journal_subset.
  rewrite (fold_left_ext_eq _ (fun acc n => <[jn_Path n := rebuilt (jn_Blob n)]> acc)).
  - by apply fold_insert_map_to_list.
  - intros acc n. unfold rebuilt. by destruct (0 <? length (jn_Blob n))%nat.
Qed.

Lemma decode_nodes_journal (all : gmap N (gmap (list byte) Node)) :
  canonical_nodes all -> decode_nodes keccak (journal_nodes all) = all.
Proof.
  intros Hc. unfold decode_nodes, journal_nodes.
  rewrite (fold_insert_map_to_list _ jns_Owner
             (fun e => decode_subset keccak (jns_Nodes e))
             (fun s => decode_subset keccak (journal_subset s))) by done.
  apply fmap_fixed. intros owner subset Hs.
  rewrite decode_subset_journal. apply fmap_fixed. exact (Hc owner subset Hs).
Qed.

Lemma decode_set_journal (set : gmap N (list byte)) :
  decode_set (journal_set set) = set.
Proof.
  unfold decode_set, journal_set.
  rewrite (fold_insert_map_to_list _ js_Key js_Value id) by done.
  apply fmap_fixed. by intros k v _.
Qed.

(** One entry of the states read back. *)
Definition read_entry (acc : stateSet) (entry : journalStates) : stateSet :=
  {| Accounts := if jss_Owner entry =? 0 then decode_set (jss_States entry) else Accounts acc;
     Storages := if jss_Owner entry =? 0 then Storages acc
                 else <[jss_Owner entry := decode_set (jss_States entry)]> (Storages acc);
     Incomplete := if jss_Incomplete entry
                   then {[jss_Owner entry]} ∪ Incomplete acc
                   else Incomplete acc |}.

Lemma read_entries (l : list journalStates) (acc : stateSet) :
  Forall (fun e => jss_Owner e <> 0) l ->
  Accounts (fold_left read_entry l acc) = Accounts acc /\
  Storages (fold_left read_entry l acc)
    = fold_left (fun m e => <[jss_Owner e := decode_set (jss_States e)]> m) l (Storages acc) /\
  forall o, o ∈ Incomplete (fold_left read_entry l acc) <->
            o ∈ Incomplete acc \/
            exists e, e ∈ l /\ jss_Owner e = o /\ jss_Incomplete e = true.
Proof.
  revert acc. induction l as [|e l IH]; intros acc Hl; cbn [fold_left].
  - split; [done|]. split; [done|]. intros o. split; [by left|].
    intros [H|(e & He & _)]; [done|]. by apply elem_of_nil in He.
  - apply Forall_cons in Hl as [He Hl].
    destruct (IH (read_entry acc e) Hl) as (Ha & Hs & Hi).
    apply N.eqb_neq in He.
    rewrite Ha, Hs. unfold read_entry at 1 2. cbn [Accounts Storages]. rewrite He.
    split; [done|]. split; [done|].
    intros o. rewrite Hi. unfold read_entry. cbn [Incomplete]. split.
    + intros [H|(e' & He' & Ho & Hinc)].
      * destruct (jss_Incomplete e) eqn:Hie; [|by left].
        apply elem_of_union in H as [H|H]; [|by left].
        apply elem_of_singleton in H. right. exists e. split; [by left|done].
      * right. exists e'. split; [by right|done].
    + intros [H|(e' & He' & Ho & Hinc)].
      * left. destruct (jss_Incomplete e); [|done]. apply elem_of_union. by right.
      * apply elem_of_cons in He' as [->|He'].
        -- left. rewrite Hinc. apply elem_of_union. left. by apply elem_of_singleton.
        -- right. by exists e'.
Qed.

Lemma decode_states_journal (s : stateSet) :
  Storages s !! 0 = None ->
  (forall o, o ∈ Incomplete s -> is_Some (Storages s !! o)) ->
  decode_states (journal_states s) = s.
Proof.
  intros Hzero Hinc. unfold decode_states, journal_states.
  change (fold_left _ ?l ?a) with (fold_left read_entry l a).
  cbn [fold_left]. 
  set (l := _ <$> map_to_list (Storages s)).
  set (acc := read_entry _ _).
  assert (Hl : Forall (fun e => jss_Owner e <> 0) l).
  { apply Forall_forall. intros e He. apply list_elem_of_fmap in He as ([o slots] & -> & Hin).
    cbn. apply elem_of_map_to_list in Hin. intros ->. congruence. }
  destruct (read_entries l acc Hl) as (Ha & Hs & Hi).
  destruct (fold_left read_entry l acc) as [A S I]. cbn in Ha, Hs, Hi.
  destruct s as [A0 S0 I0]. cbn in *. f_equal.
  - rewrite Ha. apply decode_set_journal.
  - rewrite Hs. subst l.
    rewrite (fold_insert_map_to_list _ jss_Owner
               (fun e => decode_set (jss_States e))
               (fun slots => decode_set (journal_set slots))) by done.
    apply fmap_fixed. intros o slots _. apply decode_set_journal.
  - apply set_eq. intros o. rewrite Hi. split.
    + intros [H|(e & He & Ho & Hie)]; [by apply elem_of_empty in H|].
      subst l. apply list_elem_of_fmap in He as ([o' slots] & -> & Hin).
      cbn in Ho, Hie. subst o'. by apply bool_decide_eq_true in Hie.
    + intros Ho. right. destruct (Hinc o Ho) as [slots Hslots].
      exists {| jss_Owner := o; jss_Incomplete := bool_decide (o ∈ I0);
                jss_States := journal_set slots |}.
      split; [|split; [done|by apply bool_decide_eq_true]].
      subst l. apply list_elem_of_fmap. exists (o, slots). split; [done|].
      by apply elem_of_map_to_list.
Qed.

(** The sections [journal] writes for a stack, from the disk layer up. *)
Fixpoint sections (l : layer) : list jitem :=
  match l with
  | DiskLayer rootHash id b => [JHash rootHash; JUint id; JNodes (journal_nodes (nodes b))]
  | DiffLayer parentLayer rootHash _ blockNumber dirty states =>
      sections parentLayer ++
      [JHash rootHash; JUint blockNumber;
       JNodes (journal_nodes dirty); JStates (journal_states states)]
  end.

Lemma journal_sections (l : layer) (buffer : list jitem) :
  journal false l buffer = Ok (buffer ++ sections l).
Proof.
  revert buffer. induction l as [rootHash id b|p IH rootHash id blockNumber dirty states];
    intros buffer; cbn [journal sections]; [done|].
  rewrite IH. cbn. by rewrite <- app_assoc.
Qed.

(** A stack as the loader builds it on the database [db]: the buffer of the
    disk layer has the limit of the database, the size of its nodes and the
    layers between the persistent state and the layer; the state ids go up
    by one from layer to layer; the nodes are canonical; no storage is kept
    under the zero owner and only accounts with storage are marked
    incomplete. *)
Fixpoint journalled (db : Database) (l : layer) : Prop :=
  match l with
  | DiskLayer rootHash id b =>
      persistentStateID (ddiskdb db) <= id /\
      b = newNodeBuffer (bufferSize db) (Some (nodes b))
                        (id - persistentStateID (ddiskdb db)) /\
      canonical_nodes (nodes b)
  | DiffLayer parentLayer rootHash id blockNumber dirty states =>
      journalled db parentLayer /\
      id = u64 (stateID parentLayer + 1) /\
      canonical_nodes dirty /\
      Storages states !! 0 = None /\
      (forall o, o ∈ Incomplete states -> is_Some (Storages states !! o))
  end.

Lemma load_sections (db : Database) (l : layer) :
  journalled db l ->
  forall r,
    ('(base, r') ← loadDiskLayer keccak db (sections l ++ r); loadDiffLayer keccak base r')
    = loadDiffLayer keccak l r.
Proof.
  induction l as [rootHash id b|p IH rootHash id blockNumber dirty states];
    cbn [journalled sections].
  - intros (Hid & Hb & Hc) r. unfold loadDiskLayer. cbn [app stream_Hash stream_Uint64 stream_Nodes].
    cbv zeta. replace (id <? _) with false by (symmetry; apply N.ltb_ge; lia).
    rewrite decode_nodes_journal by done. unfold newDiskLayer. by rewrite <- Hb.
  - intros (Hp & Hid & Hc & Hz & Hi) r. rewrite <- app_assoc, (IH Hp).
    cbn [app loadDiffLayer].
    rewrite decode_nodes_journal, decode_states_journal by done.
    unfold newDiffLayer. by rewrite <- Hid.
Qed.

(** X15: A journal that holds the version, the disk root and the sections
    [journal] writes for a stack on a disk layer that is not stale is read
    back by [loadJournal] as that very stack, provided the stack is one the
    loader can build. *)
Theorem loadJournal_journal (db : Database) (l : layer) (diskRoot : N)
    (written : list jitem) :
  journalled db l ->
  journal false l [] = Ok written ->
  trieJournal (ddiskdb db) = JUint journalVersion :: JHash diskRoot :: written ->
  loadJournal keccak db diskRoot = Ok l.
Proof.
  intros Hl Hw Hj. rewrite journal_sections in Hw. injection Hw as <-.
  unfold loadJournal. rewrite Hj. cbn [length Nat.eqb stream_Uint64 stream_Hash app].
  cbv zeta. rewrite !N.eqb_refl. cbn [negb].
  rewrite <- (app_nil_r (sections l)), (load_sections db l Hl []). done.
Qed.

(** On a stale disk layer nothing is journalled, however many diff layers
    stand on it. *)
Lemma journal_stale (l : layer) (buffer : list jitem) :
  journal true l buffer = Err errSnapshotStale.
Proof.
  induction l as [rootHash id b|p IH rootHash id blockNumber dirty states];
    cbn [journal]; [done|]. by rewrite IH.
Qed.

End Hasher.

(** A database at persistent state 4 and a stack of a disk layer at state 5
    with one buffered node and a diff layer that deletes a storage node and
    changes an account and a slot of an account marked incomplete. *)
Definition hash1 (blob : list byte) : N := len blob + 100.

Definition disk1 : layer :=
  DiskLayer 5 5
    (newNodeBuffer 64
       (Some {[ 0 := {[ ["a"%byte] := {| nHash := 101; nBlob := ["n"%byte] |} ]} ]}) 1).

Definition stack1 : layer :=
  DiffLayer disk1 6 6 21
    {[ 9 := {[ ["c"%byte] := NewDeleted ]} ]}
    {| Accounts := {[ 9 := ["x"%byte] ]};
       Storages := {[ 9 := {[ 3 := [] ]} ]};
       Incomplete := {[ 9 ]} |}.

Definition written1 : list jitem :=
  match journal false stack1 [] with Ok w => w | _ => [] end.

Definition db1 : Database :=
  {| ddiskdb := {| trieJournal := JUint journalVersion :: JHash 5 :: written1;
                   accountTrieRootNodeHash := 5;
                   persistentStateID := 4 |};
     bufferSize := 64 |}.

Lemma loadJournal_journal_witness : loadJournal hash1 db1 5 = Ok stack1.
Proof.
  apply (loadJournal_journal hash1 db1 stack1 5 written1); [|reflexivity|reflexivity].
  cbn [journalled stack1 disk1].
  split; [split; [by vm_compute|split; [reflexivity|]]|split; [reflexivity|split; [|split]]].
  - apply map_Forall_singleton, map_Forall_singleton. reflexivity.
  - apply map_Forall_singleton, map_Forall_singleton. reflexivity.
  - reflexivity.
  - intros o Ho. cbn in Ho. apply elem_of_singleton in Ho as ->. by eexists.
Defined.

End JournalWriterProofs.

(** ** What the buffer and the store serve together *)

Module BufferViewProofs.
Import NodeBuffer NodeBufferOps NodeBufferProofs NodeBufferOpsProofs.

(** The entry of a node in the tables of the store: the account trie table
    for the zero owner, the storage trie table otherwise. *)
Definition disk_entry (db : diskdb) (owner : N) (path : list byte) : option (list byte) :=
  if owner =? 0 then accountTrieNodes db !! path
  else storageTrieNodes db !! (owner, path).

(** What a disk layer serves for a node: what the buffer holds for it (no
    entry for a deleted node), and the entry of the store where the buffer
    holds nothing. *)
Definition view (b : nodebuffer) (db : diskdb) (owner : N) (path : list byte)
    : option (list byte) :=
  match lookup_node (nodes b) owner path with
  | Some n => stored n
  | None => disk_entry db owner path
  end.

(** The two steps of the disk layer on its buffer when the diff layer above
    it, whose state id is the next one, is flattened into it: the nodes of
    the layer are merged, then the buffer is flushed towards the new id. *)
Definition merge_flush (b : nodebuffer) (dirty : gmap N (gmap (list byte) Node))
    (db : diskdb) (clean : cleanCache) (id : N) (force : bool)
    : nodebuffer * diskdb * cleanCache * option flushError :=
  flush (commit b dirty) db clean (u64 (id + 1)) force.

Lemma written_entry (all : gmap N (gmap (list byte) Node)) (ops : list batchOp)
    (db : diskdb) (id : N) (owner : N) (path : list byte) :
  nodes_written all ops ->
  disk_entry (log_event (fold_left apply_op (ops ++ [PutPersistentStateID id]) db)
                        (EvBatchWrite (ops ++ [PutPersistentStateID id]))) owner path
    = match lookup_node all owner path with
      | Some n => stored n
      | None => disk_entry db owner path
      end.
Proof.
  intros Hw. destruct (Hw db) as (_ & _ & _ & Ha & Hs).
  unfold disk_entry. rewrite fold_left_app.
  cbn [fold_left apply_op log_event accountTrieNodes storageTrieNodes].
  destruct (N.eqb_spec owner 0) as [->|Ho].
  - apply Ha.
  - rewrite Hs. by replace (owner =? 0) with false by (symmetry; by apply N.eqb_neq).
Qed.

(** X11: [flush] never changes what the buffer and the store serve together,
    whether it does nothing, refuses, fails to write or moves every
    buffered node into the store. *)
Theorem flush_preserves_view (b : nodebuffer) (db : diskdb) (clean : cleanCache)
    (id : N) (force : bool) (owner : N) (path : list byte) :
  view (flush b db clean id force).1.1.1 (flush b db clean id force).1.1.2 owner path
    = view b db owner path.
Proof.
  unfold flush. destruct (_ && _); [done|]. cbv zeta.
  destruct (negb _); [done|].
  destruct (writeNodes_written (nodes b) [] clean) as (ops & Hops & Hw).
  destruct (writeNodes [] (nodes b) clean) as [batch clean1]. cbn in Hops. subst batch.
  unfold batch_Write. destruct (writeFails db); [done|]. cbn [fst snd].
  unfold view at 1. cbn [reset nodes]. unfold lookup_node at 1.
  rewrite lookup_empty. cbn. by apply written_entry.
Qed.

(** After [commit] the buffer and the store serve the nodes of the merged
    layer, and for every other node what they served before. *)
Lemma commit_view (b : nodebuffer) (dirty : gmap N (gmap (list byte) Node))
    (db : diskdb) (owner : N) (path : list byte) :
  view (commit b dirty) db owner path
    = match lookup_node dirty owner path with
      | Some n => stored n
      | None => view b db owner path
      end.
Proof.
  unfold view. rewrite commit_lookup_node. by destruct (lookup_node dirty owner path).
Qed.

(** X12: Merging a layer and flushing, as the disk layer does when a diff layer
    is flattened into it: whatever [flush] does (nothing, a failed write or
    the move of every buffered node into the store), afterwards the buffer
    and the store serve the nodes of the merged layer (no entry for a
    deleted node), and for every other node what they served before. *)
Theorem merge_flush_view (b : nodebuffer) (dirty : gmap N (gmap (list byte) Node))
    (db : diskdb) (clean : cleanCache) (id : N) (force : bool)
    (owner : N) (path : list byte) :
  view (merge_flush b dirty db clean id force).1.1.1
       (merge_flush b dirty db clean id force).1.1.2 owner path
    = match lookup_node dirty owner path with
      | Some n => stored n
      | None => view b db owner path
      end.
Proof.
  unfold merge_flush, flush. destruct (_ && _); [apply commit_view|]. cbv zeta.
  destruct (negb _); [apply commit_view|].
  destruct (writeNodes_written (nodes (commit b dirty)) [] clean) as (ops & Hops & Hw).
  destruct (writeNodes [] (nodes (commit b dirty)) clean) as [batch clean1].
  cbn in Hops. subst batch.
  unfold batch_Write. destruct (writeFails db); [apply commit_view|]. cbn [fst snd].
  unfold view at 1. cbn [reset nodes]. unfold lookup_node at 1.
  rewrite lookup_empty. cbn. rewrite (written_entry _ _ _ _ _ _ Hw).
  apply commit_view.
Qed.

Lemma u64_add_l (a c : N) : u64 (a + u64 c) = u64 (a + c).
Proof. unfold u64. by rewrite N.Div0.add_mod_idemp_r. Qed.

Lemma commit_layers (b : nodebuffer) (dirty : gmap N (gmap (list byte) Node)) :
  layers (commit b dirty) = u64 (layers b + 1).
Proof.
  unfold commit. by destruct (map_fold commit_subset (nodes b, 0%Z) dirty).
Qed.

(** X13: The state id stays aligned: if the persistent state id of the store and
    the layers of the buffer add up to the id of the disk layer, then after
    merging the next layer the flush towards the next id never refuses for
    a misaligned id; it can only fail on the batch write, which leaves the
    merged buffer and the store as they were, and when it does not fail the
    store and the buffer add up to the next id. *)
Theorem merge_flush_aligned (b : nodebuffer) (dirty : gmap N (gmap (list byte) Node))
    (db : diskdb) (clean : cleanCache) (id : N) (force : bool) :
  u64 (persistentStateID db + layers b) = id ->
  exists b' db' clean',
    (merge_flush b dirty db clean id force = (b', db', clean', None) /\
     u64 (persistentStateID db' + layers b') = u64 (id + 1)) \/
    merge_flush b dirty db clean id force
      = (commit b dirty, db, clean', Some BatchWriteFailed).
Proof.
  intros Hid.
  assert (Hal : u64 (persistentStateID db + layers (commit b dirty)) = u64 (id + 1)).
  { rewrite commit_layers, u64_add_l, <- Hid.
    unfold u64. rewrite N.add_assoc. by rewrite N.Div0.add_mod_idemp_l. }
  unfold merge_flush, flush. destruct (_ && _).
  { exists (commit b dirty), db, clean. by left. }
  cbv zeta. unfold ReadPersistentStateID. rewrite Hal, N.eqb_refl. cbn [negb].
  destruct (writeNodes_written (nodes (commit b dirty)) [] clean) as (ops & Hops & Hw).
  destruct (writeNodes [] (nodes (commit b dirty)) clean) as [batch clean1].
  cbn in Hops. subst batch.
  unfold batch_Write. destruct (writeFails db).
  { exists (commit b dirty), db, clean1. by right. }
  eexists _, _, _. left. split; [reflexivity|].
  rewrite fold_left_app. cbn [fold_left apply_op log_event persistentStateID reset layers].
  unfold u64. rewrite N.add_0_r. by rewrite N.Div0.mod_mod.
Qed.

Definition store5 : diskdb :=
  {| accountTrieNodes := {[ ["b"%byte] := ["o"%byte] ]};
     storageTrieNodes := ∅;
     persistentStateID := 5;
     writeFails := false;
     events := [] |}.

Lemma merge_flush_aligned_witness :
  exists b' db' clean',
    (merge_flush buffer2 layer3 store5 None 7 true = (b', db', clean', None) /\
     u64 (persistentStateID db' + layers b') = u64 (7 + 1)) \/
    merge_flush buffer2 layer3 store5 None 7 true
      = (commit buffer2 layer3, store5, clean', Some BatchWriteFailed).
Proof.
  apply (merge_flush_aligned buffer2 layer3 store5 None 7 true). reflexivity.
Defined.

End BufferViewProofs.

(** ** The clean cache of the disk layer *)

Module CleanCacheProofs.
Import NodeBuffer Layers.

(** The blob of a node in the tables of the store, empty if there is none. *)
Definition disk_blob (db : diskdb) (owner : N) (path : list byte) : list byte :=
  if owner =? 0 then ReadAccountTrieNode db path else ReadStorageTrieNode db owner path.

(** The clean cache agrees with the store: a blob it holds for a node is the
    blob of that node in the store. *)
Definition coherent (db : diskdb) (c : cleans_t) : Prop :=
  forall m, c = Some m ->
    forall owner path blob,
      m !! (owner, path) = Some blob -> (0 < length blob)%nat ->
      blob = disk_blob db owner path.

(** What a live disk layer holds for a node: the buffered node if there is
    one, the blob of the store otherwise. *)
Definition held (dl : diskLayer) (owner : N) (path : list byte) : list byte :=
  match buffer_node (dbuffer dl) owner path with
  | Some n => nBlob n
  | None => disk_blob (db dl) owner path
  end.

Lemma coherent_filled (db : diskdb) (c : gmap (N * list byte) (list byte))
    (owner : N) (path : list byte) :
  coherent db (Some c) ->
  coherent db (if (0 <? length (disk_blob db owner path))%nat
               then Some (<[(owner, path) := disk_blob db owner path]> c)
               else Some c).
Proof.
  intros Hc. destruct (0 <? length (disk_blob db owner path))%nat; [|done].
  intros m [= <-] o p blob Hblob Hpos.
  destruct (decide ((o, p) = (owner, path))) as [Heq|Hne].
  - injection Heq as -> ->. rewrite lookup_insert_eq in Hblob. congruence.
  - rewrite lookup_insert_ne in Hblob by done. by apply (Hc c eq_refl o p).
Qed.

(** X17: The clean cache is transparent: on a live disk layer whose clean cache
    agrees with the store, [node] answers the buffered node if there is
    one and the blob of the store otherwise (empty for a node that is not
    there), with the hash of the buffered node or the hash of the blob,
    whether it was served from the buffer, the cache or the store; and the
    cache it leaves agrees with the store again. *)
Theorem node_cache_transparent (keccak : list byte -> N) (dl : diskLayer)
    (owner : N) (path : list byte) (depth : N) :
  stale dl = false -> coherent (db dl) (cleans dl) ->
  (exists where_,
     (node keccak dl owner path depth).1
       = Ok (held dl owner path,
             match buffer_node (dbuffer dl) owner path with
             | Some n => nHash n
             | None => keccak (disk_blob (db dl) owner path)
             end,
             {| loc := where_; depth := depth |})) /\
  coherent (db dl) (node keccak dl owner path depth).2.
Proof.
  intros Hs Hc. unfold node, held. rewrite Hs.
  destruct (buffer_node (dbuffer dl) owner path) as [n|]; cbn [fst snd].
  { split; [by eexists|done]. }
  cbv zeta. fold (disk_blob (db dl) owner path).
  destruct (cleans dl) as [c|] eqn:Hcl.
  - destruct (c !! (owner, path)) as [cached|] eqn:Hk; cbn [default]; unfold Datatypes.id.
    + destruct (0 <? length cached)%nat eqn:Hlen; cbn [fst snd].
      * apply Nat.ltb_lt in Hlen. rewrite (Hc c eq_refl owner path cached Hk Hlen).
        split; [by eexists|done].
      * split; [by eexists|]. by apply coherent_filled.
    + cbn [length Nat.ltb Nat.leb fst snd]. split; [by eexists|]. by apply coherent_filled.
  - cbn [length Nat.ltb Nat.leb fst snd]. split; [by eexists|]. intros m Hm. done.
Qed.

(** A live disk layer over a store with one node of the account trie, with
    an empty clean cache. *)
Definition dl_cached : diskLayer :=
  {| root := 1; id := 0;
     db := {| accountTrieNodes := {[ ["a"%byte] := ["n"%byte] ]}; storageTrieNodes := ∅;
              accountSnapshot := ∅; storageSnapshot := ∅ |};
     cleans := Some ∅;
     dbuffer := {| b_nodes := ∅; b_accounts := ∅; b_storages := ∅ |};
     stale := false; dgenerator := None |}.

Lemma node_cache_transparent_witness :
  (exists where_,
     (node (fun blob => len blob) dl_cached 0 ["a"%byte] 0).1
       = Ok (held dl_cached 0 ["a"%byte],
             match buffer_node (dbuffer dl_cached) 0 ["a"%byte] with
             | Some n => nHash n
             | None => len (disk_blob (db dl_cached) 0 ["a"%byte])
             end,
             {| loc := where_; depth := 0 |})) /\
  coherent (db dl_cached) (node (fun blob => len blob) dl_cached 0 ["a"%byte] 0).2.
Proof.
  apply (node_cache_transparent (fun blob => len blob) dl_cached 0 ["a"%byte] 0).
  - reflexivity.
  - intros m Hm o p blob Hblob. injection Hm as <-. by rewrite lookup_empty in Hblob.
Defined.

End CleanCacheProofs.

(** ** The successor of a key *)

Module IncreaseKeyProofs.
Import Generator.

Lemma le_bytes_le_value (bs : list byte) : le_bytes (length bs) (le_value bs) = bs.
Proof.
  induction bs as [|b bs IH]; [done|]. cbn [length le_bytes le_value].
  pose proof (Byte.to_N_bounded b) as Hb.
  assert (Hmod : (Byte.to_N b + 256 * le_value bs) mod 256 = Byte.to_N b).
  { replace (Byte.to_N b + 256 * le_value bs) with (Byte.to_N b + le_value bs * 256) by lia.
    rewrite N.Div0.mod_add. apply N.mod_small. lia. }
  assert (Hdiv : (Byte.to_N b + 256 * le_value bs) / 256 = le_value bs).
  { replace (Byte.to_N b + 256 * le_value bs) with (le_value bs * 256 + Byte.to_N b) by lia.
    rewrite N.div_add_l by lia. rewrite (N.div_small (Byte.to_N b)) by lia. lia. }
  rewrite Hdiv, IH. f_equal. unfold byte_of_N. rewrite Hmod. by rewrite Byte.of_to_N.
Qed.

Lemma le_value_below (bs : list byte) : le_value bs < 256 ^ len bs.
Proof.
  induction bs as [|b bs IH]; [done|]. cbn [le_value]. unfold len in *.
  cbn [length]. rewrite Nat2N.inj_succ, N.pow_succ_r'.
  pose proof (Byte.to_N_bounded b). lia.
Qed.

Lemma increase_rev_spec (rkey : list byte) :
  increase_rev rkey
    = if le_value rkey + 1 <? 256 ^ len rkey
      then Some (le_bytes (length rkey) (le_value rkey + 1))
      else None.
Proof.
  induction rkey as [|b rest IH]; [done|].
  cbn [increase_rev le_value length le_bytes].
  pose proof (Byte.to_N_bounded b) as Hb. pose proof (le_value_below rest) as Hrest.
  assert (Hpow : 256 ^ len (b :: rest) = 256 * 256 ^ len rest).
  { unfold len. cbn [length]. by rewrite Nat2N.inj_succ, N.pow_succ_r'. }
  rewrite Hpow. destruct (N.eqb_spec (Byte.to_N b) 255) as [H255|H255].
  - rewrite IH, H255.
    replace (255 + 256 * le_value rest + 1) with ((le_value rest + 1) * 256) by lia.
    destruct (N.ltb_spec (le_value rest + 1) (256 ^ len rest)) as [Hlt|Hge].
    + replace (_ <? _) with true by (symmetry; apply N.ltb_lt; lia).
      cbn. rewrite N.div_mul by lia. f_equal. f_equal.
      unfold byte_of_N. by rewrite N.Div0.mod_mul.
    + replace (_ <? _) with false by (symmetry; apply N.ltb_ge; lia). done.
  - replace (_ <? _) with true by (symmetry; apply N.ltb_lt; lia).
    f_equal.
    assert (Hmod : (Byte.to_N b + 256 * le_value rest + 1) mod 256 = Byte.to_N b + 1).
    { replace (Byte.to_N b + 256 * le_value rest + 1)
        with (Byte.to_N b + 1 + le_value rest * 256) by lia.
      rewrite N.Div0.mod_add. apply N.mod_small. lia. }
    assert (Hdiv : (Byte.to_N b + 256 * le_value rest + 1) / 256 = le_value rest).
    { replace (Byte.to_N b + 256 * le_value rest + 1)
        with (le_value rest * 256 + (Byte.to_N b + 1)) by lia.
      rewrite N.div_add_l by lia. rewrite (N.div_small (Byte.to_N b + 1)) by lia. lia. }
    rewrite Hdiv, le_bytes_le_value. f_equal.
    unfold byte_of_N. rewrite Hmod. by rewrite N.mod_small by lia.
Qed.

(** X18: [increaseKey] is the successor on keys read as big-endian numbers of
    their length: it gives the key of the same length whose number is one
    more, and nil exactly when there is none, that is for the empty key and
    for a key of bytes [0xff] only. *)
Theorem increaseKey_successor (key : list byte) :
  increaseKey key
    = if be_value key + 1 <? 256 ^ len key
      then Some (be_bytes (length key) (be_value key + 1))
      else None.
Proof.
  unfold increaseKey, be_value, be_bytes. rewrite increase_rev_spec.
  unfold len. rewrite length_rev.
  by destruct (_ <? _).
Qed.

End IncreaseKeyProofs.

(** ** The segment the range prover is given *)

Module ProveRangeProofs.
Import Generator GeneratorProofs.

(** The value kept for an entry: the converted value, or the value as it
    is when there is no conversion or the conversion fails. *)
Definition kept (conv : option (list byte -> option (list byte))) (value : list byte)
    : list byte :=
  match conv with
  | None => value
  | Some f => default value (f value)
  end.

Lemma proveRange_loop_segment (prefix min : list byte) (max : nat) conv
    (entries : list (list byte * list byte)) :
  forall (acc vacc ks vs : list (list byte)) (more : bool),
    proveRange_loop prefix min max conv entries acc vacc = Ok (ks, vs, more) ->
    (length acc <= max)%nat ->
    exists n,
      (n <= length entries)%nat /\
      ks = acc ++ ((fun e => drop (length prefix) e.1) <$> take n entries) /\
      vs = vacc ++ ((fun e => kept conv e.2) <$> take n entries) /\
      (length acc + n <= max)%nat /\
      (more = true <->
       (length acc + n = max)%nat /\
       exists e, entries !! n = Some e /\ take (length prefix) e.1 = prefix).
Proof.
  induction entries as [|[key value] entries IH]; intros acc vacc ks vs more;
    cbn [proveRange_loop].
  - intros [= <- <- <-] Hacc. exists 0%nat. cbn. rewrite !app_nil_r.
    split; [lia|]. split; [done|]. split; [done|]. split; [lia|].
    split; [done|]. by intros (_ & e & He & _).
  - destruct (is_lt (bytes_compare key min)); [done|].
    destruct (go_slice key 0 (len prefix)) as [p|] eqn:Hp; [|done].
    apply go_slice_take in Hp as [Hp _].
    destruct (bool_decide (p = prefix)) eqn:Hpre; cbn [negb].
    2:{ intros [= <- <- <-] Hacc. exists 0%nat. cbn. rewrite !app_nil_r.
        split; [lia|]. split; [done|]. split; [done|]. split; [lia|].
        split; [done|]. intros (_ & e & [= <-] & He). cbn in He.
        apply bool_decide_eq_false in Hpre. congruence. }
    apply bool_decide_eq_true in Hpre.
    destruct (length acc =? max)%nat eqn:Hmax.
    { intros [= <- <- <-] Hacc. exists 0%nat. cbn. rewrite !app_nil_r.
      apply Nat.eqb_eq in Hmax.
      split; [lia|]. split; [done|]. split; [done|]. split; [lia|].
      split; [|done]. intros _. split; [lia|]. exists (key, value). split; [done|].
      cbn. congruence. }
    apply Nat.eqb_neq in Hmax.
    intros H Hacc. apply IH in H as (n & Hn & -> & -> & Hle & Hmore).
    2:{ rewrite length_app. cbn. lia. }
    rewrite length_app in Hle, Hmore. cbn [length] in Hle, Hmore.
    exists (S n). cbn [length take fmap list_fmap lookup list_lookup].
    split; [lia|]. split; [by rewrite <- app_assoc|]. split.
    { rewrite <- app_assoc. done. }
    split; [lia|].
    rewrite Hmore. replace (length acc + 1 + n)%nat with (length acc + S n)%nat by lia.
    done.
Qed.

(** X19: The loop of [proveRange] takes the entries the iterator yields in
    order, at most [max] of them; it keeps the key without the prefix and
    the value of each entry taken (converted where a conversion is given and
    succeeds), so that keys and values stay aligned; and it reports more
    entries on disk exactly when it stopped at [max] entries with a further
    entry of the prefix in front of it. *)
Theorem proveRange_loop_takes (prefix min : list byte) (max : nat) conv
    (entries : list (list byte * list byte)) (ks vs : list (list byte)) (more : bool) :
  proveRange_loop prefix min max conv entries [] [] = Ok (ks, vs, more) ->
  (length ks <= max)%nat /\ length vs = length ks /\
  ks = (fun e => drop (length prefix) e.1) <$> take (length ks) entries /\
  vs = (fun e => kept conv e.2) <$> take (length ks) entries /\
  (more = true <->
   length ks = max /\
   exists e, entries !! length ks = Some e /\ take (length prefix) e.1 = prefix).
Proof.
  intros H. apply proveRange_loop_segment in H as (n & Hn & -> & -> & Hle & Hmore);
    [|cbn; lia].
  cbn [app length] in *.
  assert (Hlen : length ((fun e : list byte * list byte => drop (length prefix) e.1)
                           <$> take n entries) = n).
  { rewrite length_fmap, length_take. lia. }
  rewrite Hlen, length_fmap, length_take.
  split; [lia|]. split; [lia|]. split; [done|]. split; [done|].
  rewrite Hmore. done.
Qed.

Lemma proveRange_loop_takes_witness :
  (length [["1"%byte]] <= 1)%nat /\ length [["x"%byte]] = length [["1"%byte]] /\
  [["1"%byte]]
    = (fun e => drop (length ["a"%byte]) e.1)
        <$> take (length [["1"%byte]])
              [(["a"%byte; "1"%byte], ["x"%byte]); (["a"%byte; "2"%byte], ["y"%byte])] /\
  [["x"%byte]]
    = (fun e => kept None e.2)
        <$> take (length [["1"%byte]])
              [(["a"%byte; "1"%byte], ["x"%byte]); (["a"%byte; "2"%byte], ["y"%byte])] /\
  (true = true <->
   length [["1"%byte]] = 1%nat /\
   exists e, [(["a"%byte; "1"%byte], ["x"%byte]); (["a"%byte; "2"%byte], ["y"%byte])]
               !! length [["1"%byte]] = Some e /\
             take (length ["a"%byte]) e.1 = ["a"%byte]).
Proof.
  apply (proveRange_loop_takes ["a"%byte] ["a"%byte] 1 None
           [(["a"%byte; "1"%byte], ["x"%byte]); (["a"%byte; "2"%byte], ["y"%byte])]).
  reflexivity.
Defined.

End ProveRangeProofs.

(** ** The stack a journal is loaded as *)

Module JournalLoadedProofs.
Import NodeBuffer Journal JournalWriterProofs.

Section Hasher.
Variable keccak : list byte -> N.

Lemma rebuilt_canonical (blob : list byte) : canonical keccak (rebuilt keccak blob).
Proof.
  unfold canonical, rebuilt. destruct (0 <? length blob)%nat eqn:E; [|done].
  cbn [nBlob]. by rewrite E.
Qed.

Lemma decode_subset_canonical (l : list journalNode) :
  map_Forall (fun _ n => canonical keccak n) (decode_subset keccak l).
Proof.
  unfold decode_subset.
  assert (H : forall acc : gmap (list byte) Node,
             map_Forall (fun _ n => canonical keccak n) acc ->
             map_Forall (fun _ n => canonical keccak n)
               (fold_left (fun subset n =>
                             if (0 <? length (jn_Blob n))%nat
                             then <[jn_Path n := {| nHash := keccak (jn_Blob n);
                                                    nBlob := jn_Blob n |}]> subset
                             else <[jn_Path n := NewDeleted]> subset) l acc)).
  { induction l as [|n l IH]; intros acc Hacc; cbn [fold_left]; [done|].
    apply IH. pose proof (rebuilt_canonical (jn_Blob n)) as Hn. unfold rebuilt in Hn.
    destruct (0 <? length (jn_Blob n))%nat; by apply map_Forall_insert_2. }
  apply H, map_Forall_empty.
Qed.

Lemma decode_nodes_canonical (encoded : list journalNodes) :
  canonical_nodes keccak (decode_nodes keccak encoded).
Proof.
  unfold decode_nodes, canonical_nodes.
  assert (H : forall acc : gmap N (gmap (list byte) Node),
             map_Forall (fun _ subset => map_Forall (fun _ n => canonical keccak n) subset) acc ->
             map_Forall (fun _ subset => map_Forall (fun _ n => canonical keccak n) subset)
               (fold_left (fun all entry =>
                             <[jns_Owner entry := decode_subset keccak (jns_Nodes entry)]> all)
                          encoded acc)).
  { induction encoded as [|e l IH]; intros acc Hacc; cbn [fold_left]; [done|].
    apply IH. apply map_Forall_insert_2; [apply decode_subset_canonical|done]. }
  apply H, map_Forall_empty.
Qed.

Lemma decode_states_no_zero (states : list journalStates) :
  Storages (decode_states states) !! 0 = None.
Proof.
  unfold decode_states.
  change (fold_left _ states ?a) with (fold_left read_entry states a).
  assert (H : forall acc, Storages acc !! 0 = None ->
                          Storages (fold_left read_entry states acc) !! 0 = None).
  { induction states as [|e l IH]; intros acc Hacc; cbn [fold_left]; [done|].
    apply IH. unfold read_entry. cbn [Storages].
    destruct (N.eqb_spec (jss_Owner e) 0) as [_|Hne]; [done|].
    by rewrite lookup_insert_ne. }
  apply H. cbn. apply lookup_empty.
Qed.

(** The shape of a stack on the database [db]: the disk layer is not behind
    the persistent state and its buffer has the limit of the database, the
    size of its nodes and one layer per state between the persistent state
    and the layer; the state ids go up by one from each layer to the next;
    every node carries the hash of its blob, or is the deleted node; and no
    storage is kept under the zero owner. *)
Fixpoint stacked (db : Database) (l : layer) : Prop :=
  match l with
  | DiskLayer rootHash id b =>
      persistentStateID (ddiskdb db) <= id /\
      b = newNodeBuffer (bufferSize db) (Some (nodes b))
                        (id - persistentStateID (ddiskdb db)) /\
      canonical_nodes keccak (nodes b)
  | DiffLayer parentLayer rootHash id blockNumber dirty states =>
      stacked db parentLayer /\
      id = u64 (stateID parentLayer + 1) /\
      canonical_nodes keccak dirty /\
      Storages states !! 0 = None
  end.

Lemma loadDiskLayer_stacked (db : Database) (r r' : list jitem) (base : layer) :
  loadDiskLayer keccak db r = Ok (base, r') -> stacked db base.
Proof.
  unfold loadDiskLayer.
  destruct (stream_Hash r) as [[rootHash r1]|]; [|done].
  destruct (stream_Uint64 r1) as [[id r2]|]; [|done]. cbv zeta.
  destruct (N.ltb_spec id (persistentStateID (ddiskdb db))) as [|Hid]; [done|].
  destruct (stream_Nodes r2) as [[encoded r3]|]; [|done].
  intros [= <- <-]. cbn. split; [done|]. split; [done|]. apply decode_nodes_canonical.
Qed.

Lemma loadDiffLayer_stacked (db : Database) (n : nat) :
  forall (r : list jitem) (parent head : layer),
    (length r <= n)%nat -> stacked db parent ->
    loadDiffLayer keccak parent r = Ok head -> stacked db head.
Proof.
  induction n as [|n IH]; intros r parent head Hn Hp.
  - destruct r; [|cbn in Hn; lia]. by intros [= <-].
  - destruct r as [|[ | rootHash | | | ] r1]; cbn [loadDiffLayer]; try done.
    { by intros [= <-]. }
    destruct r1 as [|[blockNumber | | | | ] r2]; try done.
    destruct r2 as [|[ | | encoded | | ] r3]; try done.
    destruct r3 as [|[ | | | states | ] r4]; try done.
    apply IH.
    + cbn in Hn. lia.
    + cbn. split; [done|]. split; [done|]. split; [apply decode_nodes_canonical|].
      apply decode_states_no_zero.
Qed.

(** X16: Whatever journal [loadJournal] accepts, the stack it returns has the
    shape above: in particular the state id of every diff layer is the one
    after the state id of its parent, and the disk layer is not behind the
    persistent state. *)
Theorem loadJournal_stacked (db : Database) (diskRoot : N) (head : layer) :
  loadJournal keccak db diskRoot = Ok head -> stacked db head.
Proof.
  unfold loadJournal. cbv zeta. destruct (_ =? _)%nat; [done|].
  destruct (stream_Uint64 _) as [[version r1]|]; [|done].
  destruct (negb _); [done|].
  destruct (stream_Hash r1) as [[rootHash r2]|]; [|done].
  destruct (negb _); [done|].
  destruct (loadDiskLayer keccak db r2) as [[base r3]|e|] eqn:Hdisk; cbn; [|done|done].
  apply loadDiskLayer_stacked in Hdisk.
  by apply (loadDiffLayer_stacked db (length r3)).
Qed.

End Hasher.

Lemma loadJournal_stacked_witness : stacked hash1 db1 stack1.
Proof.
  apply (loadJournal_stacked hash1 db1 5 stack1). by vm_compute.
Defined.

End JournalLoadedProofs.
